(** * homeassistant-lsp: the TTL cache and the WebSocket connection manager

    A shallow embedding of [src/cache.ts] (class [Cache]), of
    [src/ha-client.ts] (class [HomeAssistantClient]) and of the URL check of
    [src/config.ts] ([ConfigManager.validate]), followed by the properties
    of the specification that concern them.

    Conventions of the embedding.
    - JavaScript numbers are modelled on the integers: timestamps
      ([Date.now()], [expiresAt]), TTLs and delays are [Z]; counters that
      start at zero and are only incremented are [nat].
    - [Date.now()] is an explicit argument [now] of every operation that
      reads the clock.
    - A JavaScript [Map] is an association list in insertion order
      ([Map_set] on a present key keeps its position, a new key goes last).
    - Logger calls have no effect on the state and are left out; calls of
      [this.emit] are recorded in a log, most recent first.

    Further on come the logger ([src/utils/logger.ts]), the providers of
    completions, hovers and diagnostics ([src/providers]) and the command
    handler ([src/commands.ts]), with properties of their own.
    - The text of a document is a list of UTF-16 code units, which is
      what the positions of a range count; other texts are strings of
      bytes, of which only ASCII characters are inspected.
    - The regular expressions of the providers are matchers with
      continuations ([RegExp]); a loop over the matches of a pattern
      takes fuel, and is shown to end within it.
    - What depends on the host (locale, case mapping, messages of type
      errors) and the calls of the client that a provider or a command
      awaits are parameters. *)

From stdpp Require Import base list strings sorting.
From Stdlib Require Import ZArith Lia DecimalString Ascii.

Open Scope Z_scope.

(** ** JavaScript values and errors *)

Inductive jsval : Type :=
  | VNull
  | VUndefined
  | VBool (b : bool)
  | VNum (n : Z)
  | VStr (s : string).

(** [new Error(message)] *)
Inductive Error : Type := MkError (message : string).

(** [v !== null] *)
Definition not_null (v : jsval) : bool :=
  match v with VNull => false | _ => true end.

(** Truthiness of a string: only the empty string is falsy. *)
Definition truthy_string (s : string) : bool :=
  match s with EmptyString => false | _ => true end.

(** [x || d] on an optional number: [undefined] and [0] are falsy. *)
Definition or_default (x : option Z) (d : Z) : Z :=
  match x with
  | Some v => if v =? 0 then d else v
  | None => d
  end.

(** [x !== undefined ? x : d] *)
Definition if_defined (x : option Z) (d : Z) : Z :=
  match x with Some v => v | None => d end.

(** The settled outcome of an awaited promise. *)
Inductive Settled (A : Type) : Type :=
  | Fulfilled (v : A)
  | Thrown (e : Error).
Arguments Fulfilled {A} v.
Arguments Thrown {A} e.

(** ** JavaScript [Map], in insertion order *)

Section JsMap.
Context {K V : Type} `{EqDecision K}.

Fixpoint Map_get (k : K) (m : list (K * V)) : option V :=
  match m with
  | [] => None
  | (k', v) :: r => if decide (k = k') then Some v else Map_get k r
  end.

Definition Map_has (k : K) (m : list (K * V)) : bool :=
  match Map_get k m with Some _ => true | None => false end.

Fixpoint Map_set (k : K) (v : V) (m : list (K * V)) : list (K * V) :=
  match m with
  | [] => [(k, v)]
  | (k', v') :: r =>
      if decide (k = k') then (k, v) :: r else (k', v') :: Map_set k v r
  end.

Fixpoint Map_delete (k : K) (m : list (K * V)) : list (K * V) :=
  match m with
  | [] => []
  | (k', v') :: r =>
      if decide (k = k') then r else (k', v') :: Map_delete k r
  end.

Definition Map_size (m : list (K * V)) : nat := length m.

Definition Map_keys (m : list (K * V)) : list K := m.*1.

(** Keys of a [Map] are unique. *)
Definition Map_wf (m : list (K * V)) : Prop := NoDup (Map_keys m).
End JsMap.

(** ** [cache.ts] *)

Module Cache.

Record CacheEntry : Type := {
  value : jsval;
  expiresAt : Z;
  key : string
}.

Record CacheStats : Type := {
  hits : nat;
  misses : nat;
  size : nat;
  evictions : nat
}.

Record CacheOptions : Type := {
  opt_defaultTTL : option Z;
  opt_maxSize : option Z;
  opt_checkPeriod : option Z
}.

(** Events of the [EventEmitter] the class extends. *)
Inductive CacheEvent : Type :=
  | cache_miss (k : string)
  | cache_expired (k : string)
  | cache_hit (k : string)
  | cache_set (k : string)
  | cache_invalidate (k : string)
  | cache_clear
  | cache_pattern_invalidate (count : nat)
  | cache_touch (k : string)
  | cache_evict (k : string)
  | cache_cleanup (expiredCount : nat).

Record Cache : Type := {
  cache : list (string * CacheEntry);
  defaultTTL : Z;
  maxSize : Z;
  checkPeriod : Z;
  stats : CacheStats;
  emitted : list CacheEvent
}.

(** Field updates. *)
Definition with_cache (m : list (string * CacheEntry)) (c : Cache) : Cache :=
  {| cache := m; defaultTTL := defaultTTL c; maxSize := maxSize c;
     checkPeriod := checkPeriod c; stats := stats c; emitted := emitted c |}.

Definition with_stats (s : CacheStats) (c : Cache) : Cache :=
  {| cache := cache c; defaultTTL := defaultTTL c; maxSize := maxSize c;
     checkPeriod := checkPeriod c; stats := s; emitted := emitted c |}.

Definition emit (e : CacheEvent) (c : Cache) : Cache :=
  {| cache := cache c; defaultTTL := defaultTTL c; maxSize := maxSize c;
     checkPeriod := checkPeriod c; stats := stats c;
     emitted := e :: emitted c |}.

Definition incr_hits (s : CacheStats) : CacheStats :=
  {| hits := S (hits s); misses := misses s; size := size s;
     evictions := evictions s |}.

Definition incr_misses (s : CacheStats) : CacheStats :=
  {| hits := hits s; misses := S (misses s); size := size s;
     evictions := evictions s |}.

Definition incr_evictions (s : CacheStats) : CacheStats :=
  {| hits := hits s; misses := misses s; size := size s;
     evictions := S (evictions s) |}.

Definition set_size (n : nat) (s : CacheStats) : CacheStats :=
  {| hits := hits s; misses := misses s; size := n;
     evictions := evictions s |}.

(** [this.stats.size = this.cache.size] *)
Definition sync_size (c : Cache) : Cache :=
  with_stats (set_size (Map_size (cache c)) (stats c)) c.

(** [constructor(options)] *)
Definition new (options : CacheOptions) : Cache :=
  {| cache := [];
     defaultTTL := or_default (opt_defaultTTL options) 300;
     maxSize := or_default (opt_maxSize options) 1000;
     checkPeriod := or_default (opt_checkPeriod options) 60000;
     stats := {| hits := 0; misses := 0; size := 0; evictions := 0 |};
     emitted := [] |}.

Definition no_options : CacheOptions :=
  {| opt_defaultTTL := None; opt_maxSize := None; opt_checkPeriod := None |}.

(** [get(key)]; the result [VNull] is the absent answer. *)
Definition get (now : Z) (k : string) (c : Cache) : jsval * Cache :=
  match Map_get k (cache c) with
  | None =>
      (VNull, emit (cache_miss k) (with_stats (incr_misses (stats c)) c))
  | Some entry =>
      if now >? expiresAt entry then
        let c1 := with_cache (Map_delete k (cache c)) c in
        let c2 := with_stats (incr_misses (stats c1)) c1 in
        (VNull, emit (cache_expired k) (sync_size c2))
      else
        (value entry,
         emit (cache_hit k) (with_stats (incr_hits (stats c)) c))
  end.

(** The loop of [evictOldest]: [oldestTime = None] stands for [Infinity]. *)
Fixpoint scanOldest (entries : list (string * CacheEntry))
    (oldestKey : option string) (oldestTime : option Z) : option string :=
  match entries with
  | [] => oldestKey
  | (k, entry) :: rest =>
      let earlier :=
        match oldestTime with
        | None => true
        | Some t => expiresAt entry <? t
        end in
      if earlier then scanOldest rest (Some k) (Some (expiresAt entry))
      else scanOldest rest oldestKey oldestTime
  end.

(** [evictOldest()]; [if (oldestKey)] tests the truthiness of the key. *)
Definition evictOldest (c : Cache) : Cache :=
  match scanOldest (cache c) None None with
  | Some oldestKey =>
      if truthy_string oldestKey then
        let c1 := with_cache (Map_delete oldestKey (cache c)) c in
        let c2 := with_stats (incr_evictions (stats c1)) c1 in
        emit (cache_evict oldestKey) (sync_size c2)
      else c
  | None => c
  end.

(** [set(key, value, ttl?)] *)
Definition set (now : Z) (k : string) (v : jsval) (ttl : option Z)
    (c : Cache) : Cache :=
  let c1 :=
    if (Z.of_nat (Map_size (cache c)) >=? maxSize c)
       && negb (Map_has k (cache c))
    then evictOldest c else c in
  let ttlSeconds := if_defined ttl (defaultTTL c1) in
  let expiresAt := now + ttlSeconds * 1000 in
  let entry := {| value := v; expiresAt := expiresAt; key := k |} in
  emit (cache_set k) (sync_size (with_cache (Map_set k entry (cache c1)) c1)).

(** [has(key)] *)
Definition has (now : Z) (k : string) (c : Cache) : bool * Cache :=
  match Map_get k (cache c) with
  | None => (false, c)
  | Some entry =>
      if now >? expiresAt entry then
        (false, sync_size (with_cache (Map_delete k (cache c)) c))
      else (true, c)
  end.

(** [invalidate(key)] *)
Definition invalidate (k : string) (c : Cache) : Cache :=
  if Map_has k (cache c) then
    emit (cache_invalidate k)
      (sync_size (with_cache (Map_delete k (cache c)) c))
  else c.

(** [invalidateAll()] *)
Definition invalidateAll (c : Cache) : Cache :=
  emit cache_clear (with_stats (set_size 0 (stats c)) (with_cache [] c)).

(** The loop of [invalidatePattern] over [this.cache.keys()].  The
    regular expression is an object with a state: [pattern.test(key)]
    reads the [lastIndex] of the pattern, answers and leaves the
    [lastIndex] of the next call; [test lastIndex key] is that answer with
    the new [lastIndex].  Deleting the key at hand does not disturb the
    iteration.  The result is the entries kept, [count] and the last
    [lastIndex]. *)
Fixpoint sweep (test : nat -> string -> bool * nat) (lastIndex : nat)
    (entries : list (string * CacheEntry))
    : list (string * CacheEntry) * nat * nat :=
  match entries with
  | [] => ([], 0%nat, lastIndex)
  | (k, entry) :: rest =>
      let (matched, lastIndex1) := test lastIndex k in
      let '(kept, count, lastIndex2) := sweep test lastIndex1 rest in
      if matched then (kept, S count, lastIndex2)
      else ((k, entry) :: kept, count, lastIndex2)
  end.

(** [invalidatePattern(pattern)], for a pattern whose [lastIndex] is
    [lastIndex] at the call; the second component is the [lastIndex] the
    call leaves. *)
Definition invalidatePattern (test : nat -> string -> bool * nat)
    (lastIndex : nat) (c : Cache) : Cache * nat :=
  let '(kept, count, lastIndex') := sweep test lastIndex (cache c) in
  (emit (cache_pattern_invalidate count) (sync_size (with_cache kept c)),
   lastIndex').

(** [getOrFetch(key, fetchFn, ttl?)].  The supplier runs on a state of
    its own; [now] is the clock at the read and [later] the clock when
    the awaited supplier has settled. *)
Definition getOrFetch {St : Type} (now later : Z) (k : string)
    (fetchFn : St -> Settled jsval * St) (ttl : option Z)
    (c : Cache) (s : St) : Settled jsval * Cache * St :=
  let (cached, c1) := get now k c in
  if not_null cached then (Fulfilled cached, c1, s)
  else
    let (r, s') := fetchFn s in
    match r with
    | Fulfilled v => (Fulfilled v, set later k v ttl c1, s')
    | Thrown e => (Thrown e, c1, s')
    end.

(** [keys()] and [size()] *)
Definition keys (c : Cache) : list string := Map_keys (cache c).
Definition cache_size (c : Cache) : nat := Map_size (cache c).

(** [touch(key, ttl?)]: the entry object is updated in place. *)
Definition touch (now : Z) (k : string) (ttl : option Z) (c : Cache)
    : bool * Cache :=
  match Map_get k (cache c) with
  | None => (false, c)
  | Some entry =>
      let ttlSeconds := if_defined ttl (defaultTTL c) in
      let entry' := {| value := value entry;
                       expiresAt := now + ttlSeconds * 1000;
                       key := key entry |} in
      (true, emit (cache_touch k) (with_cache (Map_set k entry' (cache c)) c))
  end.

(** [cleanup()], the periodic sweep *)
Definition cleanup (now : Z) (c : Cache) : Cache :=
  let kept := filter (fun kv => negb (now >? expiresAt kv.2)) (cache c) in
  let expiredCount := (Map_size (cache c) - Map_size kept)%nat in
  if (0 <? expiredCount)%nat then
    emit (cache_cleanup expiredCount) (sync_size (with_cache kept c))
  else c.

(** [getStats()]: a copy of the counters. *)
Definition getStats (c : Cache) : CacheStats := stats c.

(** [destroy()]: the store is cleared, the counters are left as they
    are.  (The timer of [cleanup] and the listeners it removes are not
    part of the record.) *)
Definition destroy (c : Cache) : Cache := with_cache [] c.

(** [isValid(key)] *)
Definition isValid (now : Z) (k : string) (c : Cache) : bool * Cache :=
  has now k c.


End Cache.

(** ** [config.ts]: the URL check of [ConfigManager.validate] *)

Module Config.

Record HomeAssistantConfig : Type := {
  host : string;
  token : string;
  timeout : option Z
}.

Record CacheConfig : Type := {
  enabled : bool;
  ttl : option Z;
  maxSize : option Z
}.

Record CompletionConfig : Type := {
  minChars : option Z;
  maxResults : option Z
}.

Record ServerConfig : Type := {
  homeassistant : option HomeAssistantConfig;
  cache : option CacheConfig;
  completion : option CompletionConfig
}.

(** [s.startsWith(p)] *)
Definition startsWith (s p : string) : bool := String.prefix p s.

(** The test on [homeassistant.host]. *)
Definition isWebSocketUrl (h : string) : bool :=
  startsWith h "ws://" || startsWith h "wss://".

Definition positive_if_defined (x : option Z) : bool :=
  match x with Some v => 0 <? v | None => true end.

Definition nonneg_if_defined (x : option Z) : bool :=
  match x with Some v => 0 <=? v | None => true end.

(** [validate()]: [Thrown e] is the error it throws. *)
Definition validate (config : option ServerConfig) : Settled unit :=
  match config with
  | None => Thrown (MkError "Configuration not loaded")
  | Some cfg =>
    match homeassistant cfg with
    | None => Thrown (MkError "Missing homeassistant configuration")
    | Some ha =>
      if negb (truthy_string (host ha)) then
        Thrown (MkError "Missing required configuration: homeassistant.host")
      else if negb (truthy_string (token ha)) then
        Thrown (MkError "Missing required configuration: homeassistant.token")
      else if negb (isWebSocketUrl (host ha)) then
        Thrown (MkError
          "homeassistant.host must be a WebSocket URL (ws:// or wss://)")
      else if negb (positive_if_defined (timeout ha)) then
        Thrown (MkError "homeassistant.timeout must be a positive number")
      else if negb (positive_if_defined (c ← cache cfg; ttl c)) then
        Thrown (MkError "cache.ttl must be a positive number")
      else if negb (nonneg_if_defined (c ← completion cfg; minChars c)) then
        Thrown (MkError "completion.minChars must be a non-negative number")
      else Fulfilled tt
    end
  end.

End Config.

(** ** [ha-client.ts] *)

Module Client.

Inductive ConnectionState : Type :=
  | DISCONNECTED
  | CONNECTING
  | AUTHENTICATING
  | CONNECTED
  | ERROR.

(** Ready states of a socket of the [ws] package. *)
Inductive ReadyState : Type := WS_CONNECTING | WS_OPEN | WS_CLOSING | WS_CLOSED.

(** An outgoing frame: [{ ...message, id }]. *)
Record WSMessage : Type := {
  id : option Z;
  type : string;
  fields : list (string * jsval)
}.

(** A parsed incoming frame, with the members [handleMessage] reads:
    [success] is the truthiness of [message.success], [error_message] is
    [message.error?.message] and [message] is [message.message], each
    [None] when falsy. *)
Record Frame : Type := {
  f_id : option Z;
  f_type : string;
  f_success : bool;
  f_result : jsval;
  f_error_message : option string;
  f_message : option string;
  f_event : jsval
}.

(** What the transport delivers: text that [JSON.parse] rejects (with the
    text of the syntax error) or a frame. *)
Inductive Data : Type :=
  | Unparsable (why : string)
  | Parsed (message : Frame).

Inductive Outcome : Type :=
  | Pending
  | Resolved (v : jsval)
  | Rejected (e : Error).

(** [PendingRequest]: [resolve] and [reject] settle the promise [promise],
    [timeout] is the handle of the request's timer. *)
Record PendingRequest : Type := {
  promise : nat;
  timeout : nat
}.

Inductive TimerCallback : Type :=
  | RequestTimeout (id : Z) (promise : nat)
  | Reconnect.

Record Timer : Type := {
  callback : TimerCallback;
  delay : Z;
  active : bool
}.

(** A socket made by [new WebSocket(url)]; its ['error'] handler rejects
    the promise of the [connect] call that made it. *)
Record Socket : Type := {
  sock_url : string;
  readyState : ReadyState;
  sent : list WSMessage;
  connectPromise : nat
}.

(** What listeners outside the class observe. *)
Inductive Emitted : Type :=
  | EvState (s : ConnectionState)
  | EvError (e : Error)
  | EvReconnecting (attempt : nat) (delay : Z)
  | EvMaxReconnectAttempts
  | EvCallback (cb : nat) (event : jsval).

(** The fields of the object; [onceAuthenticated] and [onceAuthFailed] are
    the listeners that [connect] registers with [this.once], each named by
    the promise it settles. *)
Record HomeAssistantClient : Type := {
  ws : option nat;
  url : string;
  token : string;
  messageId : Z;
  pendingRequests : list (Z * PendingRequest);
  state : ConnectionState;
  reconnectAttempts : nat;
  subscriptions : list (Z * nat);
  onceAuthenticated : list nat;
  onceAuthFailed : list nat
}.

Definition maxReconnectAttempts : nat := 10.
Definition reconnectDelay : Z := 1000.
Definition requestTimeout : Z := 30000.

(** The run-time environment: promises, timers and sockets by handle,
    the promises whose rejection is caught and re-emitted as ['error'],
    and the log of emitted events (most recent first). *)
Record Runtime : Type := {
  promises : list Outcome;
  timers : list Timer;
  sockets : list Socket;
  catchers : list nat;
  emitted : list Emitted
}.

Record World : Type := { this : HomeAssistantClient; rt : Runtime }.

Definition new_client : HomeAssistantClient :=
  {| ws := None; url := ""; token := ""; messageId := 1;
     pendingRequests := []; state := DISCONNECTED; reconnectAttempts := 0;
     subscriptions := []; onceAuthenticated := []; onceAuthFailed := [] |}.

Definition init : World :=
  {| this := new_client;
     rt := {| promises := []; timers := []; sockets := []; catchers := [];
              emitted := [] |} |}.

(** *** The state monad of the methods *)

Definition M (A : Type) : Type := World -> A * World.

Definition ret {A} (a : A) : M A := fun w => (a, w).

Definition bind {A B} (m : M A) (k : A -> M B) : M B :=
  fun w => let (a, w') := m w in k a w'.

Definition gets {A} (f : HomeAssistantClient -> A) : M A :=
  fun w => (f (this w), w).

Definition gets_rt {A} (f : Runtime -> A) : M A :=
  fun w => (f (rt w), w).

Definition modify (f : HomeAssistantClient -> HomeAssistantClient) : M unit :=
  fun w => (tt, {| this := f (this w); rt := rt w |}).

Definition modify_rt (f : Runtime -> Runtime) : M unit :=
  fun w => (tt, {| this := this w; rt := f (rt w) |}).

Declare Scope client_scope.
Delimit Scope client_scope with client.
Notation "'let*' x ':=' m 'in' k" := (bind m (fun x => k))
  (at level 10, x name, m at level 100, k at level 200) : client_scope.
Notation "m '>>' k" := (bind m (fun _ => k))
  (at level 100, k at level 200, right associativity) : client_scope.
Open Scope client_scope.

(** [for (const x of l) { f(x) }] *)
Fixpoint for_each {A} (l : list A) (f : A -> M unit) : M unit :=
  match l with
  | [] => ret tt
  | x :: r => f x >> for_each r f
  end.

(** *** Assignments to the fields *)

Definition set_ws (v : option nat) : M unit := modify (fun c =>
  {| ws := v; url := url c; token := token c; messageId := messageId c;
     pendingRequests := pendingRequests c; state := state c;
     reconnectAttempts := reconnectAttempts c;
     subscriptions := subscriptions c;
     onceAuthenticated := onceAuthenticated c;
     onceAuthFailed := onceAuthFailed c |}).

Definition set_url (v : string) : M unit := modify (fun c =>
  {| ws := ws c; url := v; token := token c; messageId := messageId c;
     pendingRequests := pendingRequests c; state := state c;
     reconnectAttempts := reconnectAttempts c;
     subscriptions := subscriptions c;
     onceAuthenticated := onceAuthenticated c;
     onceAuthFailed := onceAuthFailed c |}).

Definition set_token (v : string) : M unit := modify (fun c =>
  {| ws := ws c; url := url c; token := v; messageId := messageId c;
     pendingRequests := pendingRequests c; state := state c;
     reconnectAttempts := reconnectAttempts c;
     subscriptions := subscriptions c;
     onceAuthenticated := onceAuthenticated c;
     onceAuthFailed := onceAuthFailed c |}).

Definition set_messageId (v : Z) : M unit := modify (fun c =>
  {| ws := ws c; url := url c; token := token c; messageId := v;
     pendingRequests := pendingRequests c; state := state c;
     reconnectAttempts := reconnectAttempts c;
     subscriptions := subscriptions c;
     onceAuthenticated := onceAuthenticated c;
     onceAuthFailed := onceAuthFailed c |}).

Definition set_pendingRequests (v : list (Z * PendingRequest)) : M unit :=
  modify (fun c =>
  {| ws := ws c; url := url c; token := token c; messageId := messageId c;
     pendingRequests := v; state := state c;
     reconnectAttempts := reconnectAttempts c;
     subscriptions := subscriptions c;
     onceAuthenticated := onceAuthenticated c;
     onceAuthFailed := onceAuthFailed c |}).

Definition set_state (v : ConnectionState) : M unit := modify (fun c =>
  {| ws := ws c; url := url c; token := token c; messageId := messageId c;
     pendingRequests := pendingRequests c; state := v;
     reconnectAttempts := reconnectAttempts c;
     subscriptions := subscriptions c;
     onceAuthenticated := onceAuthenticated c;
     onceAuthFailed := onceAuthFailed c |}).

Definition set_reconnectAttempts (v : nat) : M unit := modify (fun c =>
  {| ws := ws c; url := url c; token := token c; messageId := messageId c;
     pendingRequests := pendingRequests c; state := state c;
     reconnectAttempts := v;
     subscriptions := subscriptions c;
     onceAuthenticated := onceAuthenticated c;
     onceAuthFailed := onceAuthFailed c |}).

Definition set_subscriptions (v : list (Z * nat)) : M unit := modify (fun c =>
  {| ws := ws c; url := url c; token := token c; messageId := messageId c;
     pendingRequests := pendingRequests c; state := state c;
     reconnectAttempts := reconnectAttempts c;
     subscriptions := v;
     onceAuthenticated := onceAuthenticated c;
     onceAuthFailed := onceAuthFailed c |}).

Definition set_onceAuthenticated (v : list nat) : M unit := modify (fun c =>
  {| ws := ws c; url := url c; token := token c; messageId := messageId c;
     pendingRequests := pendingRequests c; state := state c;
     reconnectAttempts := reconnectAttempts c;
     subscriptions := subscriptions c;
     onceAuthenticated := v;
     onceAuthFailed := onceAuthFailed c |}).

Definition set_onceAuthFailed (v : list nat) : M unit := modify (fun c =>
  {| ws := ws c; url := url c; token := token c; messageId := messageId c;
     pendingRequests := pendingRequests c; state := state c;
     reconnectAttempts := reconnectAttempts c;
     subscriptions := subscriptions c;
     onceAuthenticated := onceAuthenticated c;
     onceAuthFailed := v |}).

Definition set_promises (v : list Outcome) : M unit := modify_rt (fun r =>
  {| promises := v; timers := timers r; sockets := sockets r;
     catchers := catchers r; emitted := emitted r |}).

Definition set_timers (v : list Timer) : M unit := modify_rt (fun r =>
  {| promises := promises r; timers := v; sockets := sockets r;
     catchers := catchers r; emitted := emitted r |}).

Definition set_sockets (v : list Socket) : M unit := modify_rt (fun r =>
  {| promises := promises r; timers := timers r; sockets := v;
     catchers := catchers r; emitted := emitted r |}).

Definition set_catchers (v : list nat) : M unit := modify_rt (fun r =>
  {| promises := promises r; timers := timers r; sockets := sockets r;
     catchers := v; emitted := emitted r |}).

(** [this.emit(...)] towards listeners outside the class.  The host is
    taken to listen on ['error'] (an [EventEmitter] without such a
    listener throws instead). *)
Definition emit (e : Emitted) : M unit := modify_rt (fun r =>
  {| promises := promises r; timers := timers r; sockets := sockets r;
     catchers := catchers r; emitted := e :: emitted r |}).

(** *** Promises and timers *)

(** [new Promise(...)]: a fresh pending promise. *)
Definition newPromise : M nat :=
  let* ps := gets_rt promises in
  set_promises (ps ++ [Pending]) >> ret (length ps).

(** A promise settles once; later calls of its functions do nothing. *)
Definition settle (p : nat) (o : Outcome) : M unit :=
  let* ps := gets_rt promises in
  match ps !! p with
  | Some Pending => set_promises (<[p := o]> ps)
  | _ => ret tt
  end.

Definition resolve (p : nat) (v : jsval) : M unit := settle p (Resolved v).

(** [reject(error)]; a handler attached with [.catch] re-emits the error. *)
Definition reject (p : nat) (e : Error) : M unit :=
  let* ps := gets_rt promises in
  match ps !! p with
  | Some Pending =>
      set_promises (<[p := Rejected e]> ps) >>
      let* cs := gets_rt catchers in
      if bool_decide (p ∈ cs) then emit (EvError e) else ret tt
  | _ => ret tt
  end.

Definition setTimeout (cb : TimerCallback) (ms : Z) : M nat :=
  let* ts := gets_rt timers in
  set_timers (ts ++ [{| callback := cb; delay := ms; active := true |}]) >>
  ret (length ts).

Definition deactivate (t : Timer) : Timer :=
  {| callback := callback t; delay := delay t; active := false |}.

Definition clearTimeout (h : nat) : M unit :=
  let* ts := gets_rt timers in
  set_timers (alter deactivate h ts).

(** *** The transport, as the class uses it *)

Definition with_readyState (s : ReadyState) (k : Socket) : Socket :=
  {| sock_url := sock_url k; readyState := s; sent := sent k;
     connectPromise := connectPromise k |}.

Definition with_sent (m : WSMessage) (k : Socket) : Socket :=
  {| sock_url := sock_url k; readyState := readyState k;
     sent := sent k ++ [m]; connectPromise := connectPromise k |}.

(** [ws.readyState]; a handle without socket reads as closed. *)
Definition ws_readyState (sock : nat) : M ReadyState :=
  let* ss := gets_rt sockets in
  ret (match ss !! sock with Some k => readyState k | None => WS_CLOSED end).

(** [ws.send(data)] *)
Definition ws_send (sock : nat) (m : WSMessage) : M unit :=
  let* ss := gets_rt sockets in
  set_sockets (alter (with_sent m) sock ss).

(** [ws.close()]: starts the closing handshake unless already closed;
    the ['close'] event comes later. *)
Definition ws_close (sock : nat) : M unit :=
  let* ss := gets_rt sockets in
  set_sockets (alter (fun k =>
    match readyState k with
    | WS_CLOSED => k
    | _ => with_readyState WS_CLOSING k
    end) sock ss).

Definition is_open (s : ReadyState) : bool :=
  match s with WS_OPEN => true | _ => false end.

Definition is_closed (s : ReadyState) : bool :=
  match s with WS_CLOSED => true | _ => false end.

Definition is_connecting (s : ReadyState) : bool :=
  match s with WS_CONNECTING => true | _ => false end.

Definition not_connected : Error := MkError "WebSocket is not connected".

(** [sendMessage(message)]: [Some e] is the error it throws. *)
Definition sendMessage (message : WSMessage) : M (option Error) :=
  let* w := gets ws in
  match w with
  | None => ret (Some not_connected)
  | Some sock =>
      let* s := ws_readyState sock in
      if is_open s then ws_send sock message >> ret None
      else ret (Some not_connected)
  end.

Definition pending_set (i : Z) (p : PendingRequest) : M unit :=
  let* m := gets pendingRequests in set_pendingRequests (Map_set i p m).

Definition pending_delete (i : Z) : M unit :=
  let* m := gets pendingRequests in set_pendingRequests (Map_delete i m).

(** [sendRequest(message)]: the executor of the promise runs at once, so
    the promise returned is already rejected when [sendMessage] throws. *)
Definition sendRequest (ty : string) (fs : list (string * jsval)) : M nat :=
  let* p := newPromise in
  let* i := gets messageId in
  set_messageId (i + 1) >>
  let* t := setTimeout (RequestTimeout i p) requestTimeout in
  pending_set i {| promise := p; timeout := t |} >>
  let* thrown := sendMessage {| id := Some i; type := ty; fields := fs |} in
  match thrown with
  | None => ret p
  | Some error =>
      clearTimeout t >> pending_delete i >> reject p error >> ret p
  end.

Definition getStates : M nat := sendRequest "get_states" [].
Definition getServices : M nat := sendRequest "get_services" [].
Definition getConfig : M nat := sendRequest "get_config" [].

(** [getState()] and [isConnected()] *)
Definition getState : M ConnectionState := gets state.

Definition isConnected : M bool :=
  let* s := gets state in
  ret (match s with CONNECTED => true | _ => false end).

(** [subscribeEvents(eventType, callback)] *)
Definition subscribeEvents (eventType : string) (cb : nat) : M (Settled Z) :=
  let* i := gets messageId in
  set_messageId (i + 1) >>
  let* subs := gets subscriptions in
  set_subscriptions (Map_set i cb subs) >>
  let* thrown := sendMessage {| id := Some i; type := "subscribe_events";
                                fields := [("event_type", VStr eventType)] |} in
  match thrown with
  | None => ret (Fulfilled i)
  | Some error => ret (Thrown error)
  end.

(** [unsubscribeEvents(subscriptionId)] *)
Definition unsubscribeEvents (subscriptionId : Z) : M (Settled unit) :=
  let* subs := gets subscriptions in
  set_subscriptions (Map_delete subscriptionId subs) >>
  let* i := gets messageId in
  set_messageId (i + 1) >>
  let* thrown := sendMessage {| id := Some i; type := "unsubscribe_events";
                                fields := [("subscription", VNum subscriptionId)] |} in
  match thrown with
  | None => ret (Fulfilled tt)
  | Some error => ret (Thrown error)
  end.

(** [disconnect()] *)
Definition disconnect : M unit :=
  let* w := gets ws in
  match w with
  | Some sock => ws_close sock >> set_ws None
  | None => ret tt
  end >>
  set_state DISCONNECTED >>
  set_pendingRequests [] >>
  set_subscriptions [] >>
  emit (EvState DISCONNECTED).

(** The listener [connect] registers for ['authenticated']; [p] is the
    promise of that call. *)
Definition on_authenticated (p : nat) : M unit :=
  set_state CONNECTED >>
  set_reconnectAttempts 0 >>
  emit (EvState CONNECTED) >>
  resolve p VUndefined.

(** The listener [connect] registers for ['auth_failed']. *)
Definition on_auth_failed (error : string) (p : nat) : M unit :=
  set_state ERROR >>
  reject p (MkError error).

(** [this.emit('authenticated')]: every listener registered with [once]
    runs and is removed. *)
Definition emit_authenticated : M unit :=
  let* ls := gets onceAuthenticated in
  set_onceAuthenticated [] >>
  for_each ls on_authenticated.

(** [this.emit('auth_failed', error)] *)
Definition emit_auth_failed (error : string) : M unit :=
  let* ls := gets onceAuthFailed in
  set_onceAuthFailed [] >>
  for_each ls (on_auth_failed error).

Definition parse_failure (why : string) : Error :=
  MkError ("Failed to parse message: " ++ why).

Definition error_text (e : Error) : string :=
  match e with MkError m => "Error: " ++ m end.

Definition truthy_id (i : option Z) : bool :=
  match i with Some n => negb (n =? 0) | None => false end.

(** [handleMessage(data)] *)
Definition handleMessage (data : Data) : M unit :=
  match data with
  | Unparsable why => emit (EvError (parse_failure why))
  | Parsed message =>
    if String.eqb (f_type message) "auth_required" then
      set_state AUTHENTICATING >>
      emit (EvState AUTHENTICATING) >>
      let* tok := gets token in
      let* thrown := sendMessage {| id := None; type := "auth";
                                    fields := [("access_token", VStr tok)] |} in
      match thrown with
      | None => ret tt
      | Some error => emit (EvError (parse_failure (error_text error)))
      end
    else if String.eqb (f_type message) "auth_ok" then
      emit_authenticated
    else if String.eqb (f_type message) "auth_invalid" then
      emit_auth_failed (default "Authentication failed" (f_message message))
    else if String.eqb (f_type message) "event" && truthy_id (f_id message) then
      let* subs := gets subscriptions in
      match Map_get (default 0 (f_id message)) subs with
      | Some cb => emit (EvCallback cb (f_event message))
      | None => ret tt
      end
    else
      match f_id message with
      | None => ret tt
      | Some i =>
        let* m := gets pendingRequests in
        match Map_get i m with
        | None => ret tt
        | Some pending =>
          clearTimeout (timeout pending) >>
          pending_delete i >>
          if String.eqb (f_type message) "result" then
            if f_success message then
              resolve (promise pending) (f_result message)
            else
              reject (promise pending)
                (MkError (default "Request failed" (f_error_message message)))
          else ret tt
        end
      end
  end.

Definition connection_closed : Error := MkError "Connection closed".

(** The delay of reconnection attempt [attempts]:
    [Math.min(this.reconnectDelay * Math.pow(2, attempts - 1), 30000)]. *)
Definition backoff (attempts : nat) : Z :=
  Z.min (reconnectDelay * 2 ^ (Z.of_nat attempts - 1)) 30000.

(** The body of the loop of [handleClose] over
    [this.pendingRequests.entries()]. *)
Definition reject_closed (entry : Z * PendingRequest) : M unit :=
  let '(i, pending) := entry in
  clearTimeout (timeout pending) >>
  reject (promise pending) connection_closed >>
  pending_delete i.

(** [handleClose()] *)
Definition handleClose : M unit :=
  set_state DISCONNECTED >>
  emit (EvState DISCONNECTED) >>
  let* entries := gets pendingRequests in
  for_each entries reject_closed >>
  let* n := gets reconnectAttempts in
  if (n <? maxReconnectAttempts)%nat then
    set_reconnectAttempts (S n) >>
    let delay := backoff (S n) in
    emit (EvReconnecting (S n) delay) >>
    let* _ := setTimeout Reconnect delay in
    ret tt
  else
    emit EvMaxReconnectAttempts.

(** *** [connect] and the events that drive the object *)

Section Transport.

(** The constructor of the [ws] package, which is not part of the
    repository: [WebSocket_throws url] is the error [new WebSocket(url)]
    throws, [None] when it accepts the URL. *)
Variable WebSocket_throws : string -> option Error.

(** [connect(url, token)]; the result is the promise it returns. *)
Definition connect (u tok : string) : M nat :=
  set_url u >>
  set_token tok >>
  set_state CONNECTING >>
  let* p := newPromise in
  match WebSocket_throws u with
  | None =>
      let* ss := gets_rt sockets in
      set_sockets (ss ++ [{| sock_url := u; readyState := WS_CONNECTING;
                             sent := []; connectPromise := p |}]) >>
      set_ws (Some (length ss)) >>
      let* la := gets onceAuthenticated in
      set_onceAuthenticated (la ++ [p]) >>
      let* lf := gets onceAuthFailed in
      set_onceAuthFailed (lf ++ [p]) >>
      ret p
  | Some error =>
      set_state ERROR >>
      reject p error >>
      ret p
  end.

(** [promise.catch((error) => this.emit('error', error))] *)
Definition catch_emit (p : nat) : M unit :=
  let* cs := gets_rt catchers in
  set_catchers (p :: cs) >>
  let* ps := gets_rt promises in
  match ps !! p with
  | Some (Rejected e) => emit (EvError e)
  | _ => ret tt
  end.

(** The callback of the timer set by [handleClose]. *)
Definition reconnect : M unit :=
  let* s := gets state in
  match s with
  | DISCONNECTED =>
      let* u := gets url in
      let* tok := gets token in
      let* p := connect u tok in
      catch_emit p
  | _ => ret tt
  end.

Definition run_timer (cb : TimerCallback) : M unit :=
  match cb with
  | RequestTimeout i p =>
      pending_delete i >> reject p (MkError "Request timeout")
  | Reconnect => reconnect
  end.

(** What can happen to the object: a call of a public method, an event
    of a socket, a timer coming due. *)
Inductive Action : Type :=
  | Call_connect (u tok : string)
  | Call_disconnect
  | Call_sendRequest (ty : string) (fs : list (string * jsval))
  | Call_subscribeEvents (eventType : string) (cb : nat)
  | Call_unsubscribeEvents (subscriptionId : Z)
  | On_open (sock : nat)
  | On_message (sock : nat) (data : Data)
  | On_error (sock : nat) (e : Error)
  | On_close (sock : nat)
  | On_timer (h : nat).

Definition set_readyState (sock : nat) (s : ReadyState) : M unit :=
  let* ss := gets_rt sockets in
  set_sockets (alter (with_readyState s) sock ss).

(** The handlers [connect] attaches to the socket, run when the
    transport delivers the event: ['open'] to a connecting socket,
    ['message'] to an open one, ['close'] once. *)
Definition perform (a : Action) : M unit :=
  match a with
  | Call_connect u tok => let* _ := connect u tok in ret tt
  | Call_disconnect => disconnect
  | Call_sendRequest ty fs => let* _ := sendRequest ty fs in ret tt
  | Call_subscribeEvents ev cb => let* _ := subscribeEvents ev cb in ret tt
  | Call_unsubscribeEvents i => let* _ := unsubscribeEvents i in ret tt
  | On_open sock =>
      let* s := ws_readyState sock in
      if is_connecting s then
        set_readyState sock WS_OPEN >> emit (EvState CONNECTING)
      else ret tt
  | On_message sock data =>
      let* s := ws_readyState sock in
      if is_open s then handleMessage data else ret tt
  | On_error sock e =>
      let* ss := gets_rt sockets in
      match ss !! sock with
      | Some k =>
          emit (EvError e) >>
          set_state ERROR >>
          reject (connectPromise k) e
      | None => ret tt
      end
  | On_close sock =>
      let* ss := gets_rt sockets in
      match ss !! sock with
      | Some k =>
          if is_closed (readyState k) then ret tt
          else set_readyState sock WS_CLOSED >> handleClose
      | None => ret tt
      end
  | On_timer h =>
      let* ts := gets_rt timers in
      match ts !! h with
      | Some t =>
          if active t then clearTimeout h >> run_timer (callback t)
          else ret tt
      | None => ret tt
      end
  end.

Definition step (w : World) (a : Action) : World := (perform a w).2.

Definition run (actions : list Action) (w : World) : World :=
  foldl step w actions.

(** The worlds a fresh object can be in. *)
Inductive reachable : World -> Prop :=
  | reachable_init : reachable init
  | reachable_step w a : reachable w -> reachable (step w a).

End Transport.

(** A sample transport for the scenarios, which accepts exactly the
    [ws://] and [wss://] URLs; it is stricter than the [ws] package (see
    [ws_schemes]) and no statement about [connect] assumes it. *)
Definition scheme_checking (u : string) : option Error :=
  if Config.isWebSocketUrl u then None
  else Some (MkError "Invalid URL").


End Client.

(** ** The ['error'] event with and without a listener *)

(** [emit('error', error)] of an [EventEmitter] calls the listeners
    registered on ['error']; when none is registered it throws the error
    instead.  The class registers no such listener, nor does any other
    file of the repository, so it is for the host of the object to do.
    [heard] says whether a listener on ['error'] is registered, and the
    result [Some e] of a function is the error it throws. *)
Module Listening.
Import Client.

Section Heard.
Variable heard : bool.

(** [this.emit('error', e)] *)
Definition emit_error (e : Error) : M (option Error) :=
  if heard then emit (EvError e) >> ret None else ret (Some e).

(** The handler of ['error'] that [connect] attaches to the socket it
    makes, for the socket [sock]: when [emit] throws, the assignment to
    the state and the call of [reject] after it are not reached. *)
Definition on_error (sock : nat) (e : Error) : M (option Error) :=
  let* ss := gets_rt sockets in
  match ss !! sock with
  | Some k =>
      let* thrown := emit_error e in
      match thrown with
      | None =>
          set_state ERROR >>
          reject (connectPromise k) e >>
          ret None
      | Some error => ret (Some error)
      end
  | None => ret None
  end.

(** [handleMessage(data)]: the two ways into its [catch] block, whose
    [emit] is outside the [try] block, so that what it throws leaves
    [handleMessage].  The frames of the other types are handled as in
    [Client.handleMessage]. *)
Definition handleMessage (data : Data) : M (option Error) :=
  match data with
  | Unparsable why => emit_error (parse_failure why)
  | Parsed message =>
    if String.eqb (f_type message) "auth_required" then
      set_state AUTHENTICATING >>
      emit (EvState AUTHENTICATING) >>
      let* tok := gets token in
      let* thrown := sendMessage {| id := None; type := "auth";
                                    fields := [("access_token", VStr tok)] |} in
      match thrown with
      | None => ret None
      | Some error => emit_error (parse_failure (error_text error))
      end
    else Client.handleMessage data >> ret None
  end.

End Heard.

End Listening.

(** * Observations and scenarios *)

(** ** The cache *)

(** A supplier that also counts its invocations. *)
Definition counted {St : Type} (fetchFn : St -> Settled jsval * St)
    : St * nat -> Settled jsval * (St * nat) :=
  fun '(s, n) => let (r, s') := fetchFn s in (r, (s', S n)).

(** Further calls of [getOrFetch] for the same key, one at each of [times];
    the results are collected, oldest first. *)
Fixpoint getOrFetch_each {St : Type} (times : list Z) (k : string)
    (fetchFn : St -> Settled jsval * St) (ttl : option Z)
    (c : Cache.Cache) (s : St) : list (Settled jsval) * Cache.Cache * St :=
  match times with
  | [] => ([], c, s)
  | t :: rest =>
      let '(r, c1, s1) := Cache.getOrFetch t t k fetchFn ttl c s in
      let '(rs, c2, s2) := getOrFetch_each rest k fetchFn ttl c1 s1 in
      (r :: rs, c2, s2)
  end.

(** A supplier that answers [v] and one that fails with [e]. *)
Definition answering (v : jsval) : unit -> Settled jsval * unit :=
  fun s => (Fulfilled v, s).

Definition failing (e : Error) : unit -> Settled jsval * unit :=
  fun s => (Thrown e, s).

(** A fresh cache of maximum size two. *)
Definition two_slots : Cache.Cache :=
  Cache.new {| Cache.opt_defaultTTL := None; Cache.opt_maxSize := Some 2;
               Cache.opt_checkPeriod := None |}.

(** It is filled at time 0 with the keys [""] (expiring at 10 s) and ["b"]
    (expiring at 20 s). *)
Definition full_with_empty_key : Cache.Cache :=
  Cache.set 0 "b" (VStr "y") (Some 20)
    (Cache.set 0 "" (VStr "x") (Some 10) two_slots).

(** The same with the keys ["a"] and ["b"]. *)
Definition full_cache : Cache.Cache :=
  Cache.set 0 "b" (VStr "y") (Some 20)
    (Cache.set 0 "a" (VStr "x") (Some 10) two_slots).

(** A cache holding [null] under ["k"] for 300 s from time 0. *)
Definition holding_null : Cache.Cache :=
  Cache.set 0 "k" VNull (Some 300) (Cache.new Cache.no_options).

(** The entry a [set] leaves under its key. *)
Definition written (now : Z) (k : string) (v : jsval) (ttl : option Z)
    (c : Cache.Cache) : Cache.CacheEntry :=
  {| Cache.value := v;
     Cache.expiresAt := now + if_defined ttl (Cache.defaultTTL c) * 1000;
     Cache.key := k |}.

(** ** The connection manager *)

(** The test of [sendMessage], negated: the object holds a socket and the
    socket is open. *)
Definition transport_open (w : Client.World) : bool :=
  match Client.ws (Client.this w) with
  | Some sock =>
      match Client.sockets (Client.rt w) !! sock with
      | Some k => Client.is_open (Client.readyState k)
      | None => false
      end
  | None => false
  end.

(** The world in which the loop of [handleClose] starts, and the one in
    which it ends. *)
Definition closing (w : Client.World) : Client.World :=
  (Client.bind (Client.set_state Client.DISCONNECTED)
     (fun _ => Client.emit (Client.EvState Client.DISCONNECTED)) w).2.

Definition after_close_loop (w : Client.World) : Client.World :=
  (Client.for_each (Client.pendingRequests (Client.this w))
     Client.reject_closed (closing w)).2.

(** Every frame sent so far, socket by socket. *)
Definition transmitted (w : Client.World) : list (list Client.WSMessage) :=
  Client.sent <$> Client.sockets (Client.rt w).

(** A frame that carries only its type, and the server's refusal. *)
Definition frame (ty : string) : Client.Data :=
  Client.Parsed {| Client.f_id := None; Client.f_type := ty;
                   Client.f_success := false; Client.f_result := VNull;
                   Client.f_error_message := None; Client.f_message := None;
                   Client.f_event := VNull |}.


(** A session that reaches [CONNECTED] on socket 0. *)
Definition handshake : list Client.Action :=
  [Client.Call_connect "ws://ha.local:8123/api/websocket" "secret";
   Client.On_open 0%nat;
   Client.On_message 0%nat (frame "auth_required");
   Client.On_message 0%nat (frame "auth_ok")].

Definition connected : Client.World :=
  Client.run Client.scheme_checking handshake Client.init.



(** The same session stopped before the server accepts the token. *)
Definition authenticating : Client.World :=
  Client.run Client.scheme_checking (take 3 handshake) Client.init.

(** Three requests in flight on the connected session. *)
Definition three_in_flight : Client.World :=
  Client.run Client.scheme_checking
    [Client.Call_sendRequest "get_states" [];
     Client.Call_sendRequest "get_services" [];
     Client.Call_sendRequest "get_config" []] connected.

(** The server drops socket [sock], the reconnection timer [h] comes due and
    the new socket [sock + 1] is dropped in turn, [n] times over. *)
Fixpoint drops (n sock h : nat) : list Client.Action :=
  match n with
  | O => []
  | S n' =>
      Client.On_close sock :: Client.On_timer h :: drops n' (S sock) (S h)
  end.

(** The delays announced by ['reconnecting'], oldest first. *)
Definition announced_delays (w : Client.World) : list Z :=
  omap (fun e => match e with
                 | Client.EvReconnecting _ d => Some d
                 | _ => None
                 end) (reverse (Client.emitted (Client.rt w))).

(** The number of times ['max_reconnect_attempts'] was emitted. *)
Definition gave_up (w : Client.World) : nat :=
  length (omap (fun e => match e with
                         | Client.EvMaxReconnectAttempts => Some tt
                         | _ => None
                         end) (Client.emitted (Client.rt w))).

(** The promises that stand for the outcome of a [connect] call: those of
    the registered listeners and of the sockets' ['error'] handlers. *)
Definition connect_promises (w : Client.World) : list nat :=
  Client.onceAuthenticated (Client.this w)
  ++ Client.onceAuthFailed (Client.this w)
  ++ (Client.connectPromise <$> Client.sockets (Client.rt w)).

(** The bookkeeping of the pending map: every entry waits on a pending
    promise and has an id below the counter, ids are unique, distinct
    entries wait on distinct promises, no entry waits on the outcome of a
    [connect] call, and a request timer that names a promise names the id
    of the entry that waits on it. *)
Definition consistent (w : Client.World) : Prop :=
  (forall i pr,
     (i, pr) ∈ Client.pendingRequests (Client.this w) ->
     Client.promises (Client.rt w) !! Client.promise pr = Some Client.Pending
     /\ i < Client.messageId (Client.this w))
  /\ Map_wf (Client.pendingRequests (Client.this w))
  /\ (forall i pr i' pr',
        (i, pr) ∈ Client.pendingRequests (Client.this w) ->
        (i', pr') ∈ Client.pendingRequests (Client.this w) ->
        Client.promise pr = Client.promise pr' -> i = i')
  /\ (forall p,
        p ∈ connect_promises w ->
        (p < length (Client.promises (Client.rt w)))%nat
        /\ forall i pr,
             (i, pr) ∈ Client.pendingRequests (Client.this w) ->
             Client.promise pr ≠ p)
  /\ (forall h t i p,
        Client.timers (Client.rt w) !! h = Some t ->
        Client.callback t = Client.RequestTimeout i p ->
        (p < length (Client.promises (Client.rt w)))%nat
        /\ forall i' pr',
             (i', pr') ∈ Client.pendingRequests (Client.this w) ->
             Client.promise pr' = p -> i' = i).

(** A step that adds no entry to the pending map: entries may go, those
    that stay keep the state of their promise, and whatever promise is new
    among the connect outcomes or the request timers is a fresh one. *)
Definition adds_no_request (w w' : Client.World) : Prop :=
  sublist (Client.pendingRequests (Client.this w'))
          (Client.pendingRequests (Client.this w))
  /\ Client.messageId (Client.this w) <= Client.messageId (Client.this w')
  /\ (length (Client.promises (Client.rt w))
      <= length (Client.promises (Client.rt w')))%nat
  /\ (forall i pr,
        (i, pr) ∈ Client.pendingRequests (Client.this w') ->
        Client.promises (Client.rt w') !! Client.promise pr
        = Client.promises (Client.rt w) !! Client.promise pr)
  /\ (forall p,
        p ∈ connect_promises w' ->
        p ∈ connect_promises w
        \/ (length (Client.promises (Client.rt w)) <= p
            < length (Client.promises (Client.rt w')))%nat)
  /\ (forall h t i p,
        Client.timers (Client.rt w') !! h = Some t ->
        Client.callback t = Client.RequestTimeout i p ->
        (exists h0 t0,
           Client.timers (Client.rt w) !! h0 = Some t0
           /\ Client.callback t0 = Client.RequestTimeout i p)
        \/ (length (Client.promises (Client.rt w)) <= p
            < length (Client.promises (Client.rt w')))%nat).

(** A step that at most settles promises among [ls]. *)
Definition settles (ls : list nat) (w w' : Client.World) : Prop :=
  Client.pendingRequests (Client.this w')
  = Client.pendingRequests (Client.this w)
  /\ Client.messageId (Client.this w) <= Client.messageId (Client.this w')
  /\ Client.callback <$> Client.timers (Client.rt w')
     = Client.callback <$> Client.timers (Client.rt w)
  /\ (forall p, p ∈ connect_promises w' -> p ∈ connect_promises w)
  /\ length (Client.promises (Client.rt w'))
     = length (Client.promises (Client.rt w))
  /\ (forall q, q ∉ ls ->
        Client.promises (Client.rt w') !! q = Client.promises (Client.rt w) !! q).

(** ** Sequences of calls on a cache *)

(** Calls of the public methods of a cache that act on it, and of the
    periodic [cleanup]; [keys], [size], [getStats] and [getTTL] only
    read. *)
Inductive CacheCall : Type :=
  | Do_get (now : Z) (k : string)
  | Do_set (now : Z) (k : string) (v : jsval) (ttl : option Z)
  | Do_has (now : Z) (k : string)
  | Do_invalidate (k : string)
  | Do_invalidateAll
  | Do_invalidatePattern (test : nat -> string -> bool * nat)
      (lastIndex : nat)
  | Do_getOrFetch (now later : Z) (k : string)
      (fetchFn : unit -> Settled jsval * unit) (ttl : option Z)
  | Do_touch (now : Z) (k : string) (ttl : option Z)
  | Do_cleanup (now : Z)
  | Do_destroy
  | Do_isValid (now : Z) (k : string).

(** The cache after a call. *)
Definition call (c : Cache.Cache) (a : CacheCall) : Cache.Cache :=
  match a with
  | Do_get now k => (Cache.get now k c).2
  | Do_set now k v ttl => Cache.set now k v ttl c
  | Do_has now k => (Cache.has now k c).2
  | Do_invalidate k => Cache.invalidate k c
  | Do_invalidateAll => Cache.invalidateAll c
  | Do_invalidatePattern test lastIndex =>
      (Cache.invalidatePattern test lastIndex c).1
  | Do_getOrFetch now later k fetchFn ttl =>
      (Cache.getOrFetch now later k fetchFn ttl c tt).1.2
  | Do_touch now k ttl => (Cache.touch now k ttl c).2
  | Do_cleanup now => Cache.cleanup now c
  | Do_destroy => Cache.destroy c
  | Do_isValid now k => (Cache.isValid now k c).2
  end.

Definition calls (l : list CacheCall) (c : Cache.Cache) : Cache.Cache :=
  foldl call c l.

(** The reads among the calls: each [get] and each [getOrFetch]. *)
Definition is_read (a : CacheCall) : bool :=
  match a with
  | Do_get _ _ | Do_getOrFetch _ _ _ _ _ => true
  | _ => false
  end.

(** The calls of [destroy]. *)
Definition is_destroy (a : CacheCall) : bool :=
  match a with
  | Do_destroy => true
  | _ => false
  end.


(** The number of reads a cache has counted. *)
Definition reads_of (c : Cache.Cache) : nat :=
  (Cache.hits (Cache.stats c) + Cache.misses (Cache.stats c))%nat.

(** The [size] counter agrees with the store, whose keys are unique. *)
Definition tracked (c : Cache.Cache) : Prop :=
  Cache.size (Cache.stats c) = Map_size (Cache.cache c)
  /\ Map_wf (Cache.cache c).


(** ** Expiry times that are not finite *)

(** The store of a cache with the expiry times as JavaScript numbers, as
    far as [set] and [evictOldest] go: a time to live may be [Infinity],
    [-Infinity] or [NaN], which the whole numbers of [Cache] leave out. *)
Module Expiry.

Inductive Num : Type :=
  | Finite (z : Z)
  | Infinity
  | NegInfinity
  | NaN.

(** [a < b] *)
Definition lt (a b : Num) : bool :=
  match a, b with
  | Finite x, Finite y => x <? y
  | Finite _, Infinity => true
  | NegInfinity, Finite _ => true
  | NegInfinity, Infinity => true
  | _, _ => false
  end.

(** [Date.now() + ttlSeconds * 1000] *)
Definition expiry (now : Z) (ttlSeconds : Num) : Num :=
  match ttlSeconds with
  | Finite s => Finite (now + s * 1000)
  | Infinity => Infinity
  | NegInfinity => NegInfinity
  | NaN => NaN
  end.

(** The loop of [evictOldest]. *)
Fixpoint scanOldest (entries : list (string * Num))
    (oldestKey : option string) (oldestTime : Num) : option string :=
  match entries with
  | [] => oldestKey
  | (k, expiresAt) :: rest =>
      if lt expiresAt oldestTime then scanOldest rest (Some k) expiresAt
      else scanOldest rest oldestKey oldestTime
  end.

(** [evictOldest()], on the store. *)
Definition evictOldest (store : list (string * Num))
    : list (string * Num) :=
  match scanOldest store None Infinity with
  | Some oldestKey =>
      if truthy_string oldestKey then Map_delete oldestKey store else store
  | None => store
  end.

(** [set(key, value, ttl?)], on the store. *)
Definition set (maxSize : Z) (defaultTTL : Num) (now : Z) (k : string)
    (ttl : option Num) (store : list (string * Num))
    : list (string * Num) :=
  let store1 :=
    if (Z.of_nat (Map_size store) >=? maxSize) && negb (Map_has k store)
    then evictOldest store else store in
  let ttlSeconds := match ttl with Some t => t | None => defaultTTL end in
  Map_set k (expiry now ttlSeconds) store1.

End Expiry.

(** The keys of a store of [Cache] with their expiry times. *)
Definition times (m : list (string * Cache.CacheEntry))
    : list (string * Expiry.Num) :=
  (fun kv => (kv.1, Expiry.Finite (Cache.expiresAt kv.2))) <$> m.

(** ** Frames of the server *)

(** The answer to the request [i]: [{ id, type: 'result', success, result,
    error: { message } }]. *)
Definition result_frame (i : Z) (success : bool) (result : jsval)
    (error_message : option string) : Client.Data :=
  Client.Parsed {| Client.f_id := Some i; Client.f_type := "result";
                   Client.f_success := success; Client.f_result := result;
                   Client.f_error_message := error_message;
                   Client.f_message := None; Client.f_event := VNull |}.

(** A frame of another type that carries an id, such as ['pong']. *)
Definition other_frame (i : Z) (ty : string) : Client.Data :=
  Client.Parsed {| Client.f_id := Some i; Client.f_type := ty;
                   Client.f_success := false; Client.f_result := VNull;
                   Client.f_error_message := None; Client.f_message := None;
                   Client.f_event := VNull |}.

(** An event for the subscription [i]. *)
Definition event_frame (i : Z) (event : jsval) : Client.Data :=
  Client.Parsed {| Client.f_id := Some i; Client.f_type := "event";
                   Client.f_success := false; Client.f_result := VNull;
                   Client.f_error_message := None; Client.f_message := None;
                   Client.f_event := event |}.

(** The types [handleMessage] treats before it looks for a pending
    request. *)
Definition handled_before_requests (ty : string) : bool :=
  String.eqb ty "auth_required" || String.eqb ty "auth_ok"
  || String.eqb ty "auth_invalid" || String.eqb ty "event".

(** The socket the object holds is open. *)
Definition holds_open (w : Client.World) (sock : nat) : Prop :=
  Client.ws (Client.this w) = Some sock
  /\ exists k, Client.sockets (Client.rt w) !! sock = Some k
               /\ Client.readyState k = Client.WS_OPEN.

(** The frames sent on socket [sock], oldest first. *)
Definition sent_on (w : Client.World) (sock : nat) : list Client.WSMessage :=
  match Client.sockets (Client.rt w) !! sock with
  | Some k => Client.sent k
  | None => []
  end.


(** The world a transmitted request leaves: a fresh pending promise, a
    fresh timer of 30 s, an entry under the next id, and the frame on the
    socket. *)
Definition request_sent (w : Client.World) (sock : nat) (ty : string)
    (fs : list (string * jsval)) : Client.World :=
  let c := Client.this w in
  let r := Client.rt w in
  let i := Client.messageId c in
  let p := length (Client.promises r) in
  let h := length (Client.timers r) in
  {| Client.this :=
       {| Client.ws := Client.ws c; Client.url := Client.url c;
          Client.token := Client.token c; Client.messageId := i + 1;
          Client.pendingRequests :=
            Client.pendingRequests c
            ++ [(i, {| Client.promise := p; Client.timeout := h |})];
          Client.state := Client.state c;
          Client.reconnectAttempts := Client.reconnectAttempts c;
          Client.subscriptions := Client.subscriptions c;
          Client.onceAuthenticated := Client.onceAuthenticated c;
          Client.onceAuthFailed := Client.onceAuthFailed c |};
     Client.rt :=
       {| Client.promises := Client.promises r ++ [Client.Pending];
          Client.timers :=
            Client.timers r
            ++ [{| Client.callback := Client.RequestTimeout i p;
                   Client.delay := Client.requestTimeout;
                   Client.active := true |}];
          Client.sockets :=
            alter (Client.with_sent
                     {| Client.id := Some i; Client.type := ty;
                        Client.fields := fs |}) sock (Client.sockets r);
          Client.catchers := Client.catchers r;
          Client.emitted := Client.emitted r |} |}.

(** The subscriptions and the counter of message ids. *)
Definition subs_id (w : Client.World) : list (Z * nat) * Z :=
  (Client.subscriptions (Client.this w), Client.messageId (Client.this w)).

(** The bookkeeping of the subscriptions: ids are positive, below the
    counter and unique. *)
Definition subs_ok (w : Client.World) : Prop :=
  1 <= Client.messageId (Client.this w)
  /\ (forall i cb, (i, cb) ∈ Client.subscriptions (Client.this w) ->
        1 <= i < Client.messageId (Client.this w))
  /\ Map_wf (Client.subscriptions (Client.this w)).

(** ** [providers/hover.ts] *)

Module Hover.

(** [`${n}`] for an integer [n]. *)
Definition show (n : Z) : string := NilZero.string_of_int (Z.to_int n).

(** [array.includes(key)] *)
Definition includes (l : list string) (k : string) : bool :=
  bool_decide (k ∈ l).

Section Clock.

(** [date.toLocaleString()], which follows the locale of the host; [None]
    is the invalid date. *)
Variable toLocaleString : option Z -> string.

(** [formatTimestamp(timestamp)]: [now] is the clock and [date] the time
    that [new Date(timestamp)] denotes, both in milliseconds; [date] is
    [None] when the text denotes no date, in which case every comparison
    fails. *)
Definition formatTimestamp (now : Z) (date : option Z) : string :=
  match date with
  | None => toLocaleString None
  | Some d =>
      let diffMs := now - d in
      let diffSecs := diffMs / 1000 in
      let diffMins := diffSecs / 60 in
      let diffHours := diffMins / 60 in
      let diffDays := diffHours / 24 in
      if diffSecs <? 60 then
        show diffSecs ++ " seconds ago"
      else if diffMins <? 60 then
        show diffMins ++ " minute" ++ (if diffMins =? 1 then "" else "s")
        ++ " ago"
      else if diffHours <? 24 then
        show diffHours ++ " hour" ++ (if diffHours =? 1 then "" else "s")
        ++ " ago"
      else if diffDays <? 7 then
        show diffDays ++ " day" ++ (if diffDays =? 1 then "" else "s")
        ++ " ago"
      else toLocaleString (Some d)
  end.

End Clock.

Definition priorityKeys : list string :=
  ["battery_level"; "temperature"; "humidity"; "brightness"; "color_temp";
   "rgb_color"; "supported_features"; "mode"; "preset_mode"; "fan_mode";
   "swing_mode"].

Definition skipKeys : list string :=
  ["friendly_name"; "icon"; "device_class"; "unit_of_measurement";
   "attribution"; "restored"; "supported_color_modes"].

Section Attributes.

(** The values of attributes, with the test [value !== undefined]. *)
Context {V : Type} (defined : V -> bool).

(** The first loop of [getImportantAttributes], over [keys]. *)
Fixpoint addPriority (attributes : list (string * V)) (keys : list string)
    (attrs : list (string * V)) : list (string * V) :=
  match keys with
  | [] => attrs
  | key :: rest =>
      match Map_get key attributes with
      | Some v =>
          if defined v && negb (includes skipKeys key)
          then addPriority attributes rest (attrs ++ [(key, v)])
          else addPriority attributes rest attrs
      | None => addPriority attributes rest attrs
      end
  end.

(** The second loop, over [Object.entries(entity.attributes)]. *)
Fixpoint addOthers (entries : list (string * V))
    (attrs : list (string * V)) : list (string * V) :=
  match entries with
  | [] => attrs
  | (key, value) :: rest =>
      if (10 <=? length attrs)%nat then attrs
      else if negb (includes priorityKeys key) && negb (includes skipKeys key)
      then addOthers rest (attrs ++ [(key, value)])
      else addOthers rest attrs
  end.

(** [getImportantAttributes(entity)]; [attributes] is
    [entity.attributes], in the order of [Object.entries]. *)
Definition getImportantAttributes (attributes : list (string * V))
    : list (string * V) :=
  addOthers attributes (addPriority attributes priorityKeys []).

End Attributes.

End Hover.

(** The test of the first loop of [getImportantAttributes]. *)
Definition picked {V : Type} (defined : V -> bool)
    (attributes : list (string * V)) (k : string) : bool :=
  match Map_get k attributes with
  | Some v => defined v && negb (Hover.includes Hover.skipKeys k)
  | None => false
  end.

(** The entry that the first loop of [getImportantAttributes] adds for
    the key [k], if any. *)
Definition priorityEntry {V : Type} (defined : V -> bool)
    (attributes : list (string * V)) (k : string) : option (string * V) :=
  match Map_get k attributes with
  | Some v =>
      if defined v && negb (Hover.includes Hover.skipKeys k)
      then Some (k, v) else None
  | None => None
  end.

(** The test of the second loop of [getImportantAttributes]. *)
Definition other {V : Type} (entry : string * V) : bool :=
  negb (Hover.includes Hover.priorityKeys entry.1)
  && negb (Hover.includes Hover.skipKeys entry.1).

(** An entity with more attributes than the hover lists. *)
Definition crowded : list (string * jsval) :=
  [("a", VNum 1); ("friendly_name", VStr "Kitchen"); ("b", VNum 2);
   ("mode", VStr "eco"); ("c", VNum 3); ("d", VNum 4); ("e", VNum 5);
   ("icon", VStr "mdi:fan"); ("f", VNum 6); ("temperature", VNum 21);
   ("g", VNum 7); ("h", VNum 8); ("i", VNum 9); ("j", VNum 10)].

(** ** [utils/logger.ts] *)

Module Logger.

Inductive LogLevel : Type := DEBUG | INFO | WARN | ERROR.

(** The value of a member of the enum, a string. *)
Definition name (l : LogLevel) : string :=
  match l with
  | DEBUG => "DEBUG"
  | INFO => "INFO"
  | WARN => "WARN"
  | ERROR => "ERROR"
  end.

Definition LOG_LEVEL_PRIORITY (l : LogLevel) : Z :=
  match l with
  | DEBUG => 0
  | INFO => 1
  | WARN => 2
  | ERROR => 3
  end.

(** [s in LOG_LEVEL_PRIORITY], with the level that [s] names. *)
Definition named (s : string) : option LogLevel :=
  if String.eqb s "DEBUG" then Some DEBUG
  else if String.eqb s "INFO" then Some INFO
  else if String.eqb s "WARN" then Some WARN
  else if String.eqb s "ERROR" then Some ERROR
  else None.

(** A logger; [connection] names the LSP connection it writes to. *)
Record Logger : Type := {
  level : LogLevel;
  connection : option nat;
  context : string
}.

(** [new Logger(context)], the context defaulting to ['HomeAssistantLSP'] *)
Definition new (ctx : option string) : Logger :=
  {| level := INFO; connection := None;
     context := default "HomeAssistantLSP" ctx |}.

Definition setConnection (c : nat) (lg : Logger) : Logger :=
  {| level := level lg; connection := Some c; context := context lg |}.

Definition getLevel (lg : Logger) : LogLevel := level lg.

(** [shouldLog(level)] *)
Definition shouldLog (l : LogLevel) (lg : Logger) : bool :=
  LOG_LEVEL_PRIORITY l >=? LOG_LEVEL_PRIORITY (level lg).

(** The [data] argument of the logging methods: none, an object with the
    text [JSON.stringify] gives for it ([None] when that throws), or a
    value of another type with its text. *)
Inductive Data : Type :=
  | NoData
  | ObjectData (json : option string)
  | OtherData (text : string).

(** [formatMessage(level, message, data)]; [timestamp] is
    [new Date().toISOString()]. *)
Definition formatMessage (timestamp : string) (l : LogLevel)
    (message : string) (data : Data) (lg : Logger) : string :=
  let formattedMessage :=
    ("[" ++ timestamp ++ "] [" ++ name l ++ "] [" ++ context lg ++ "] "
     ++ message)%string in
  match data with
  | NoData => formattedMessage
  | ObjectData (Some json) => (formattedMessage ++ " " ++ json)%string
  | ObjectData None => (formattedMessage ++ " [Object]")%string
  | OtherData text => (formattedMessage ++ " " ++ text)%string
  end.

(** Where a message is written: a method of the connection's console, or
    the standard error stream. *)
Inductive Written : Type :=
  | Console_error (c : nat) (text : string)
  | Console_warn (c : nat) (text : string)
  | Console_info (c : nat) (text : string)
  | Console_log (c : nat) (text : string)
  | Stderr (text : string).

(** [log(level, message, data)]: what it writes. *)
Definition log (timestamp : string) (l : LogLevel) (message : string)
    (data : Data) (lg : Logger) : list Written :=
  if negb (shouldLog l lg) then []
  else
    let formattedMessage := formatMessage timestamp l message data lg in
    match connection lg with
    | Some c =>
        match l with
        | ERROR => [Console_error c formattedMessage]
        | WARN => [Console_warn c formattedMessage]
        | INFO => [Console_info c formattedMessage]
        | DEBUG => [Console_log c formattedMessage]
        end
    | None => [Stderr (formattedMessage ++ String (Ascii.ascii_of_nat 10) "")]
    end.

Definition debug (timestamp message : string) (data : Data) (lg : Logger)
    : list Written := log timestamp DEBUG message data lg.

Definition info (timestamp message : string) (data : Data) (lg : Logger)
    : list Written := log timestamp INFO message data lg.

Definition warn (timestamp message : string) (data : Data) (lg : Logger)
    : list Written := log timestamp WARN message data lg.

(** [error(message, error)]; an [Error] is passed on as the object
    [{ message, stack }]. *)
Definition error (timestamp message : string) (errorData : Data)
    (lg : Logger) : list Written := log timestamp ERROR message errorData lg.

Section Case.

(** [String.prototype.toUpperCase] *)
Variable toUpperCase : string -> string.

(** [setLevel(level)] *)
Definition setLevel (l : string) (lg : Logger) : Logger :=
  match named (toUpperCase l) with
  | Some l' =>
      {| level := l'; connection := connection lg; context := context lg |}
  | None => lg
  end.

(** [child(childContext)] *)
Definition child (childContext : string) (lg : Logger) : Logger :=
  let childLogger :=
    new (Some (context lg ++ ":" ++ childContext)%string) in
  let childLogger := setLevel (name (level lg)) childLogger in
  match connection lg with
  | Some c => setConnection c childLogger
  | None => childLogger
  end.

(** [getLogger(context)] on the module's [globalLogger]; the result is
    the logger returned and the new [globalLogger]. *)
Definition getLogger (ctx : option string) (globalLogger : option Logger)
    : Logger * option Logger :=
  match globalLogger with
  | None =>
      let g := new (Some (match ctx with
                          | Some c => if truthy_string c then c
                                      else "HomeAssistantLSP"
                          | None => "HomeAssistantLSP"
                          end)) in
      (g, Some g)
  | Some g =>
      match ctx with
      | Some c => if truthy_string c then (child c g, Some g) else (g, Some g)
      | None => (g, Some g)
      end
  end.

End Case.

End Logger.

(** ** Strings of JavaScript, as the providers use them *)

(** Text is held as the bytes of its UTF-8 form.  The functions below
    look for ASCII characters only, which no byte of another character
    equals. *)

(** [\w]: a letter, a digit or the underscore. *)
Definition isWord (c : Ascii.ascii) : bool :=
  let n := Ascii.N_of_ascii c in
  ((48 <=? n) && (n <=? 57) || (65 <=? n) && (n <=? 90)
   || (97 <=? n) && (n <=? 122) || (n =? 95))%N.

Fixpoint takeWhile {A} (p : A -> bool) (l : list A) : list A :=
  match l with
  | [] => []
  | x :: r => if p x then x :: takeWhile p r else []
  end.

(** The match of [[class]*$] in [text]: the longest suffix of [text]
    whose characters are all in the class. *)
Definition suffixIn (class : Ascii.ascii -> bool) (text : string) : string :=
  String.string_of_list_ascii
    (reverse (takeWhile class (reverse (String.list_ascii_of_string text)))).

(** [s.includes(sub)] *)
Fixpoint includes (s sub : string) : bool :=
  String.prefix sub s
  || match s with
     | EmptyString => false
     | String _ r => includes r sub
     end.

(** [s.endsWith(p)] *)
Definition endsWith (s p : string) : bool :=
  String.prefix (String.rev p) (String.rev s).

(** [s.split(sep)] for a separator of one character. *)
Fixpoint split (sep : Ascii.ascii) (s : string) : list string :=
  match s with
  | EmptyString => [EmptyString]
  | String c r =>
      if Ascii.eqb c sep then EmptyString :: split sep r
      else
        match split sep r with
        | part :: parts => String c part :: parts
        | [] => [String c EmptyString]
        end
  end.

(** [x || d] on a text that may be missing. *)
Definition or_text (x : option string) (d : string) : string :=
  match x with
  | Some s => if truthy_string s then s else d
  | None => d
  end.

(** The line feed. *)
Definition LF : string := String (Ascii.ascii_of_nat 10) EmptyString.

(** [array.join(sep)] *)
Fixpoint join (sep : string) (l : list string) : string :=
  match l with
  | [] => EmptyString
  | [x] => x
  | x :: r => (x ++ sep ++ join sep r)%string
  end.

(** ** [types/homeassistant.ts] and [providers/completion.ts] *)

Module Completion.

(** An [Entity], with the attributes the providers read; they are texts
    when present. *)
Record Entity : Type := {
  entity_id : string;
  state : string;
  friendly_name : option string;
  unit_of_measurement : option string;
  device_class : option string;
  icon : option string
}.

(** A field of a service and a [Service]. *)
Record Field : Type := {
  required : bool;
  field_description : option string
}.

Record Service : Type := {
  service_name : option string;
  description : option string;
  fields : option (list (string * Field))
}.

Inductive CompletionContext : Type :=
  | ENTITY_ID
  | DOMAIN
  | SERVICE
  | UNKNOWN.

Inductive CompletionItemKind : Type := Value | Module_ | Function.

Record CompletionItem : Type := {
  label : string;
  kind : CompletionItemKind;
  detail : string;
  documentation : string;
  insertText : string;
  sortText : string
}.

Definition isDot (c : Ascii.ascii) : bool := Ascii.eqb c "."%char.

(** [detectContext(text)]: [text.match(/([\w.]+)$/)] is [null] when the
    longest suffix of such characters is empty. *)
Definition detectContext (text : string) : CompletionContext :=
  let token := suffixIn (fun c => isWord c || isDot c) text in
  if negb (truthy_string token) then UNKNOWN
  else if includes token "." then
    if includes token ".." || Config.startsWith token "."
       || endsWith token ".."
    then UNKNOWN
    else ENTITY_ID
  else DOMAIN.

(** [extractPrefix(text)]: the match of [/[\w._]*$/], which always
    exists. *)
Definition extractPrefix (text : string) : string :=
  suffixIn (fun c => isWord c || isDot c || Ascii.eqb c "_"%char) text.

(** [formatEntityDocumentation(entity)] *)
Definition formatEntityDocumentation (entity : Entity) : string :=
  let friendlyName := or_text (friendly_name entity) (entity_id entity) in
  let domain := hd EmptyString (split "."%char (entity_id entity)) in
  let unit := or_text (unit_of_measurement entity) "" in
  let doc :=
    ("**" ++ friendlyName ++ "**" ++ LF ++ LF
     ++ "**Entity ID:** `" ++ entity_id entity ++ "`" ++ LF ++ LF
     ++ "**Domain:** " ++ domain ++ LF ++ LF
     ++ "**State:** " ++ state entity
     ++ (if truthy_string unit then " " ++ unit else "") ++ LF ++ LF)%string in
  let attrs :=
    omap (fun '(attr, value) =>
            match value with
            | Some v => if truthy_string v
                        then Some ("- **" ++ attr ++ ":** " ++ v)%string
                        else None
            | None => None
            end)
      [("device_class", device_class entity);
       ("unit_of_measurement", unit_of_measurement entity);
       ("icon", icon entity)] in
  if (0 <? length attrs)%nat
  then (doc ++ "**Attributes:**" ++ LF ++ join LF attrs ++ LF)%string
  else doc.

(** The item [completeEntityId] makes for an entity. *)
Definition entityItem (entity : Entity) : CompletionItem :=
  let friendlyName := or_text (friendly_name entity) (entity_id entity) in
  let state := if truthy_string (state entity) then state entity
               else "unknown" in
  let unit := or_text (unit_of_measurement entity) "" in
  {| label := entity_id entity;
     kind := Value;
     detail := (friendlyName ++ " (" ++ state
                ++ (if truthy_string unit then " " ++ unit else "") ++ ")")%string;
     documentation := formatEntityDocumentation entity;
     insertText := entity_id entity;
     sortText := entity_id entity |}.

Section Case.

(** [String.prototype.toLowerCase] *)
Variable toLowerCase : string -> string.

(** The test of the loop of [completeEntityId]: [true] when the entity
    is kept. *)
Definition matchesEntity (hasDot : bool) (prefix domainPrefix
    entityPrefix : string) (entity : Entity) : bool :=
  if negb (truthy_string (entity_id entity)) then false
  else if hasDot then
    let parts := split "."%char (entity_id entity) in
    if (length parts <? 2)%nat then false
    else
      let entityDomain := nth 0 parts EmptyString in
      let entityName := nth 1 parts EmptyString in
      if negb (String.eqb entityDomain domainPrefix) then false
      else if truthy_string entityPrefix
              && negb (Config.startsWith (toLowerCase entityName)
                         (toLowerCase entityPrefix))
      then false
      else true
  else
    if truthy_string prefix
       && negb (Config.startsWith (toLowerCase (entity_id entity))
                  (toLowerCase prefix))
    then false
    else true.

(** [completeEntityId(prefix)], on the entities [getEntities] gave. *)
Definition completeEntityId (prefix : string) (entities : list Entity)
    : list CompletionItem :=
  let hasDot := includes prefix "." in
  let parts := if hasDot then split "."%char prefix else [prefix; EmptyString] in
  let domainPrefix := nth 0 parts EmptyString in
  let entityPrefix := nth 1 parts EmptyString in
  let items :=
    entityItem
    <$> filter (fun entity =>
                  matchesEntity hasDot prefix domainPrefix entityPrefix
                    entity) entities in
  take 50 items.

(** [domains.add(domain)] on a [Set], in insertion order. *)
Definition Set_add (x : string) (s : list string) : list string :=
  if bool_decide (x ∈ s) then s else s ++ [x].

(** [Array.prototype.sort()] without comparator. *)
Definition sort (l : list string) : list string :=
  merge_sort (fun a b => String.leb a b) l.

(** [completeDomain(prefix)] *)
Definition completeDomain (prefix : string) (entities : list Entity)
    : list CompletionItem :=
  let domains :=
    foldl (fun s entity =>
             Set_add (hd EmptyString (split "."%char (entity_id entity))) s)
      [] entities in
  omap (fun domain =>
          if truthy_string prefix
             && negb (Config.startsWith (toLowerCase domain)
                        (toLowerCase prefix))
          then None
          else
            let count :=
              length (filter (fun e =>
                                Config.startsWith (entity_id e)
                                  (domain ++ ".")%string) entities) in
            Some {| label := domain;
                    kind := Module_;
                    detail := (Hover.show (Z.of_nat count)
                               ++ " entities")%string;
                    documentation :=
                      ("Home Assistant domain: **" ++ domain ++ "**"
                       ++ LF ++ LF ++ "Contains "
                       ++ Hover.show (Z.of_nat count)
                       ++ " entities.")%string;
                    insertText := (domain ++ ".")%string;
                    sortText := domain |})
    (sort domains).

(** [formatServiceDocumentation(domain, serviceName, service)] *)
Definition formatServiceDocumentation (domain serviceName : string)
    (service : Service) : string :=
  let doc := ("**" ++ domain ++ "." ++ serviceName ++ "**" ++ LF ++ LF)%string in
  let doc :=
    match description service with
    | Some d => if truthy_string d then (doc ++ d ++ LF ++ LF)%string else doc
    | None => doc
    end in
  match fields service with
  | Some fs =>
      if (0 <? length fs)%nat then
        foldl (fun doc '(fieldName, field) =>
                 (doc ++ "- **" ++ fieldName ++ "**"
                  ++ (if required field then " *(required)*" else "")
                  ++ ": " ++ or_text (field_description field) "" ++ LF)%string)
          (doc ++ "**Fields:**" ++ LF)%string fs
      else doc
  | None => doc
  end.

(** [completeService(prefix)], on the services [getServices] gave, in the
    order of [Object.entries]. *)
Definition completeService (prefix : string)
    (services : list (string * list (string * Service)))
    : list CompletionItem :=
  let hasDot := includes prefix "." in
  let parts := if hasDot then split "."%char prefix else [prefix; EmptyString] in
  let domainPrefix := nth 0 parts EmptyString in
  let servicePrefix := nth 1 parts EmptyString in
  let items :=
    flat_map (fun '(domain, domainServices) =>
      if hasDot && negb (Config.startsWith domain domainPrefix) then []
      else
        omap (fun '(serviceName, service) =>
          let fullServiceName := (domain ++ "." ++ serviceName)%string in
          let skip :=
            if hasDot then
              truthy_string servicePrefix
              && negb (Config.startsWith (toLowerCase serviceName)
                         (toLowerCase servicePrefix))
            else
              truthy_string prefix
              && negb (Config.startsWith (toLowerCase fullServiceName)
                         (toLowerCase prefix)) in
          if skip then None
          else
            Some {| label := fullServiceName;
                    kind := Function;
                    detail := or_text (description service)
                                (or_text (service_name service) "");
                    documentation :=
                      formatServiceDocumentation domain serviceName service;
                    insertText := fullServiceName;
                    sortText := fullServiceName |})
          domainServices) services in
  take 50 items.

(** [provideCompletionItems(document, position)]: [textBeforeCursor] is
    the part of the current line before the cursor, [entities] and
    [services] are what [getEntities] and [getServices] settle with when
    they are awaited.  The promise of [completeEntityId],
    [completeDomain] or [completeService] is returned without [await],
    so its rejection is not caught by the [try] block and is the
    rejection of the call. *)
Definition provideCompletionItems (textBeforeCursor : string)
    (entities : Settled (list Entity))
    (services : Settled (list (string * list (string * Service))))
    : Settled (list CompletionItem) :=
  let context := detectContext textBeforeCursor in
  let prefix := extractPrefix textBeforeCursor in
  match context with
  | ENTITY_ID =>
      match entities with
      | Fulfilled es => Fulfilled (completeEntityId prefix es)
      | Thrown e => Thrown e
      end
  | DOMAIN =>
      match entities with
      | Fulfilled es => Fulfilled (completeDomain prefix es)
      | Thrown e => Thrown e
      end
  | SERVICE =>
      match services with
      | Fulfilled ss => Fulfilled (completeService prefix ss)
      | Thrown e => Thrown e
      end
  | UNKNOWN => Fulfilled []
  end.

End Case.

End Completion.

(** ** Regular expressions, as the providers use them *)

(** The text of a document is a sequence of UTF-16 code units, which is
    what [match.index] and the positions of a range count; a code unit
    is a number of [N]. *)

Module RegExp.

(** A matcher is given the code unit before the position ([None] at the
    start of the input) and the input from the position on; it answers
    with the number of code units of the match.  The continuation of a
    matcher is the rest of the pattern, as in the semantics of the
    language. *)
Definition Matcher : Type := option N -> list N -> option nat.

(** [\w], without the [u] flag. *)
Definition word (c : N) : bool :=
  ((48 <=? c) && (c <=? 57) || (65 <=? c) && (c <=? 90)
   || (97 <=? c) && (c <=? 122) || (c =? 95))%N.

Definition isWordChar (c : option N) : bool :=
  match c with
  | Some c => word c
  | None => false
  end.

(** The end of the pattern. *)
Definition accept : Matcher := fun _ _ => Some 0%nat.

(** [\b] *)
Definition boundary (k : Matcher) : Matcher :=
  fun prev s =>
    if xorb (isWordChar prev) (isWordChar (head s)) then k prev s else None.

(** One character of a class. *)
Definition one (class : N -> bool) (k : Matcher) : Matcher :=
  fun _ s =>
    match s with
    | c :: r => if class c then S <$> k (Some c) r else None
    | [] => None
    end.

(** [class+], greedy: after a character of the class, more of them are
    tried before the rest of the pattern. *)
Fixpoint plus (class : N -> bool) (k : Matcher)
    (prev : option N) (s : list N) : option nat :=
  match s with
  | c :: r =>
      if class c then
        match plus class k (Some c) r with
        | Some n => Some (S n)
        | None => S <$> k (Some c) r
        end
      else None
  | [] => None
  end.

(** The first position from [i] on at which [m] matches, with the length
    of the match. *)
Fixpoint search (m : Matcher) (prev : option N) (s : list N)
    (i : nat) : option (nat * nat) :=
  match m prev s with
  | Some n => Some (i, n)
  | None =>
      match s with
      | c :: r => search m (Some c) r (S i)
      | [] => None
      end
  end.

(** [pattern.exec(input)] for a pattern with the [g] flag, from
    [lastIndex]: the index and the length of the match, and the new
    [lastIndex]. *)
Definition exec (m : Matcher) (lastIndex : nat) (input : list N)
    : option (nat * nat) * nat :=
  if (length input <? lastIndex)%nat then (None, 0%nat)
  else
    match search m (last (take lastIndex input)) (drop lastIndex input)
            lastIndex with
    | Some (index, n) => (Some (index, n), (index + n)%nat)
    | None => (None, 0%nat)
    end.

(** [pattern.test(input)] for a pattern without the [g] flag. *)
Definition test (m : Matcher) (input : list N) : bool :=
  match search m None input 0 with
  | Some _ => true
  | None => false
  end.

End RegExp.

(** The text of code units that are ASCII characters. *)
Definition text_of (l : list N) : string :=
  String.string_of_list_ascii (Ascii.ascii_of_N <$> l).

(** [text.split('\n')] *)
Fixpoint lines_of (text : list N) : list (list N) :=
  match text with
  | [] => [[]]
  | c :: r =>
      if (c =? 10)%N then [] :: lines_of r
      else
        match lines_of r with
        | l :: ls => (c :: l) :: ls
        | [] => [[c]]
        end
  end.

(** White space and line terminators, which [trim] removes. *)
Definition isSpace (c : N) : bool :=
  bool_decide (c ∈ [9; 10; 11; 12; 13; 32; 160; 5760; 8192; 8193; 8194;
                     8195; 8196; 8197; 8198; 8199; 8200; 8201; 8202; 8232;
                     8233; 8239; 8287; 12288; 65279]%N).

Fixpoint dropWhile {A} (p : A -> bool) (l : list A) : list A :=
  match l with
  | [] => []
  | x :: r => if p x then dropWhile p r else l
  end.

(** [line.trim()] *)
Definition trim (line : list N) : list N :=
  reverse (dropWhile isSpace (reverse (dropWhile isSpace line))).

(** [line.includes(sub)] *)
Fixpoint includesUnits (line sub : list N) : bool :=
  bool_decide (sub `prefix_of` line)
  || match line with
     | [] => false
     | _ :: r => includesUnits r sub
     end.

(** ** [providers/diagnostics.ts] *)

Module Diagnostics.

Record Position : Type := { line : nat; character : nat }.

Record Range : Type := { start : Position; end_ : Position }.

Record Reference : Type := { entityId : string; range : Range }.

Inductive DiagnosticSeverity : Type := Error_ | Warning | Information | Hint.

Record Diagnostic : Type := {
  severity : DiagnosticSeverity;
  d_range : Range;
  message : string;
  source : string
}.

Definition lower_ (c : N) : bool :=
  ((97 <=? c) && (c <=? 122) || (c =? 95))%N.

Definition lowerDigit_ (c : N) : bool :=
  ((97 <=? c) && (c <=? 122) || (48 <=? c) && (c <=? 57) || (c =? 95))%N.

(** [/\b([a-z_]+\.[a-z0-9_]+)\b/g] *)
Definition entityIdPattern : RegExp.Matcher :=
  RegExp.boundary
    (RegExp.plus lower_
       (RegExp.one (N.eqb 46)
          (RegExp.plus lowerDigit_ (RegExp.boundary RegExp.accept)))).

(** [/!\w+/] *)
Definition tagPattern : RegExp.Matcher :=
  RegExp.one (N.eqb 33) (RegExp.plus RegExp.word RegExp.accept).

Definition extensions : list string :=
  ["yaml"; "yml"; "json"; "xml"; "txt"; "md"; "py"; "js"; "ts"; "conf";
   "cfg"; "ini"; "toml"].

(** [/\.(yaml|yml|...|toml)$/.test(entityId)] *)
Definition hasFileExtension (entityId : string) : bool :=
  existsb (fun ext => endsWith entityId ("." ++ ext)%string) extensions.

(** The tests that make [extractEntityReferences] pass over a line. *)
Definition skipped (line : list N) : bool :=
  match trim line with
  | c :: _ => (c =? 35)%N
  | [] => false
  end
  || RegExp.test tagPattern line
  || (includesUnits line [47%N] || includesUnits line [58; 47; 47]%N).

(** The [while] loop over the matches of a line: [lastIndex] is the
    state of the pattern, which is shared by all lines; [fuel] bounds
    the number of calls of [exec]. *)
Fixpoint matches (fuel : nat) (lineNum : nat) (line : list N)
    (lastIndex : nat) (references : list Reference)
    : option (list Reference * nat) :=
  match fuel with
  | O => None
  | S fuel =>
      match RegExp.exec entityIdPattern lastIndex line with
      | (None, lastIndex) => Some (references, lastIndex)
      | (Some (index, n), lastIndex) =>
          let entityId := text_of (take n (drop index line)) in
          let startChar := index in
          let endChar := (startChar + String.length entityId)%nat in
          if hasFileExtension entityId then
            matches fuel lineNum line lastIndex references
          else
            matches fuel lineNum line lastIndex
              (references
               ++ [{| entityId := entityId;
                      range :=
                        {| start := {| line := lineNum;
                                       character := startChar |};
                           end_ := {| line := lineNum;
                                      character := endChar |} |} |}])
      end
  end.

(** The [for] loop over the lines, from line [lineNum] on. *)
Fixpoint forLines (lineNum : nat) (lines : list (list N))
    (lastIndex : nat) (references : list Reference)
    : option (list Reference * nat) :=
  match lines with
  | [] => Some (references, lastIndex)
  | line :: rest =>
      if skipped line then forLines (S lineNum) rest lastIndex references
      else
        match matches (S (length line)) lineNum line lastIndex references with
        | Some (references, lastIndex) =>
            forLines (S lineNum) rest lastIndex references
        | None => None
        end
  end.

(** [extractEntityReferences(text)]; [None] stands for a loop over the
    matches of a line that has not ended after one call of [exec] for
    each code unit of the line and one more. *)
Definition extractEntityReferences (text : list N)
    : option (list Reference) :=
  fst <$> forLines 0 (lines_of text) 0 [].

(** [new Map(entities.map((e) => [e.entity_id, e]))] *)
Definition entityMap (entities : list Completion.Entity)
    : list (string * Completion.Entity) :=
  foldl (fun m e => Map_set (Completion.entity_id e) e m) [] entities.

(** The body of the loop of [performValidation]: the diagnostic of a
    reference, if it has one. *)
Definition check (entities : list Completion.Entity) (ref : Reference)
    : option Diagnostic :=
  match Map_get (entityId ref) (entityMap entities) with
  | None =>
      Some {| severity := Warning;
              d_range := range ref;
              message := ("Entity '" ++ entityId ref
                          ++ "' not found in Home Assistant")%string;
              source := "homeassistant-lsp" |}
  | Some entity =>
      if String.eqb (Completion.state entity) "unavailable" then
        Some {| severity := Information;
                d_range := range ref;
                message := ("Entity '" ++ entityId ref
                            ++ "' is currently unavailable")%string;
                source := "homeassistant-lsp" |}
      else None
  end.

(** [performValidation(document)]: [isConnected] is the answer of the
    client, [entities] is what [getEntities] settles with when it is
    awaited, [text] is the text of the document; an error is caught and
    gives no diagnostic. *)
Definition performValidation (isConnected : bool)
    (entities : Settled (list Completion.Entity)) (text : list N)
    : option (list Diagnostic) :=
  if negb isConnected then Some []
  else
    match entities with
    | Thrown _ => Some []
    | Fulfilled entities =>
        match extractEntityReferences text with
        | Some entityReferences =>
            Some (omap (check entities) entityReferences)
        | None => None
        end
    end.

End Diagnostics.

(** ** What the references of a text are *)

(** What a match of a pattern [\b(class1+\.class2+)\b] at index [j] of
    [line], of [n] code units, is. *)
Definition id_match (class1 class2 : N -> bool) (line : list N)
    (j n : nat) : Prop :=
  exists domain name,
    take n (drop j line) = domain ++ [46%N] ++ name
    /\ n = (length domain + 1 + length name)%nat
    /\ (j + n <= length line)%nat
    /\ domain <> [] /\ name <> []
    /\ forallb class1 domain = true
    /\ forallb class2 name = true
    /\ RegExp.isWordChar (last (take j line)) = false
    /\ RegExp.isWordChar (line !! (j + n)%nat) = false.

Definition startChar (r : Diagnostics.Reference) : nat :=
  Diagnostics.character (Diagnostics.start (Diagnostics.range r)).

Definition endChar (r : Diagnostics.Reference) : nat :=
  Diagnostics.character (Diagnostics.end_ (Diagnostics.range r)).

Definition lineOf (r : Diagnostics.Reference) : nat :=
  Diagnostics.line (Diagnostics.start (Diagnostics.range r)).

(** The reference [r] is to an entity id that stands in [line]: its
    range is on one line and covers [domain.name], a domain of small
    letters and underscores and a name of small letters, digits and
    underscores that is not a file extension, with no character of a
    word before or after it. *)
Definition refers (line : list N) (r : Diagnostics.Reference)
    : Prop :=
  Diagnostics.line (Diagnostics.end_ (Diagnostics.range r)) = lineOf r
  /\ exists domain name,
       Diagnostics.entityId r = text_of (domain ++ [46%N] ++ name)
       /\ take (length domain + 1 + length name) (drop (startChar r) line)
          = domain ++ [46%N] ++ name
       /\ endChar r = (startChar r + (length domain + 1 + length name))%nat
       /\ (endChar r <= length line)%nat
       /\ domain <> [] /\ name <> []
       /\ forallb Diagnostics.lower_ domain = true
       /\ forallb Diagnostics.lowerDigit_ name = true
       /\ RegExp.isWordChar (last (take (startChar r) line)) = false
       /\ RegExp.isWordChar (line !! endChar r) = false
       /\ text_of name ∉ Diagnostics.extensions.

(** [r1] ends before [r2] starts, in the order of the document. *)
Definition before (r1 r2 : Diagnostics.Reference) : Prop :=
  (lineOf r1 < lineOf r2)%nat
  \/ (lineOf r1 = lineOf r2 /\ (endChar r1 <= startChar r2)%nat).

(** The references [refs] of one line follow each other from the index
    [from] on. *)
Fixpoint ordered (from : nat) (refs : list Diagnostics.Reference) : Prop :=
  match refs with
  | [] => True
  | r :: rest =>
      (from <= startChar r)%nat /\ (startChar r < endChar r)%nat
      /\ ordered (endChar r) rest
  end.

(** The entity the map of [performValidation] holds for an id: the last
    entity of the list with this id. *)
Definition known (entities : list Completion.Entity) (id : string)
    : option Completion.Entity :=
  last (filter (fun e => Completion.entity_id e = id) entities).

(** The references that get a diagnostic: those to an id that is not
    known, or to an entity that is unavailable. *)
Definition flagged (entities : list Completion.Entity)
    (r : Diagnostics.Reference) : bool :=
  match known entities (Diagnostics.entityId r) with
  | None => true
  | Some e => String.eqb (Completion.state e) "unavailable"
  end.

(** ** The debounced validation of [providers/diagnostics.ts] *)

Module Debounce.

Record TextDocument : Type := {
  uri : string;
  getText : list N
}.

(** The provider and what surrounds it: the map [debounceTimer] of the
    provider, the timeouts that are set and have neither fired nor been
    cleared (with the document and the promise of their callback), the
    callbacks that have fired and await [performValidation], and the
    promises [validateDocument] has returned, with the diagnostics they
    are resolved with. *)
Record State : Type := {
  debounceTimer : list (string * nat);
  timeouts : list (nat * (TextDocument * nat));
  nextTimeout : nat;
  awaited : list (nat * TextDocument);
  promises : list (option (list Diagnostics.Diagnostic))
}.

Definition initial : State :=
  {| debounceTimer := []; timeouts := []; nextTimeout := 0;
     awaited := []; promises := [] |}.

(** [clearTimeout(timer)] *)
Definition clearTimeout (timer : nat) (st : State) : State :=
  {| debounceTimer := debounceTimer st;
     timeouts := Map_delete timer (timeouts st);
     nextTimeout := nextTimeout st;
     awaited := awaited st;
     promises := promises st |}.

(** [validateDocument(document, debounce)]: the promise it returns and
    the new state. *)
Definition validateDocument (document : TextDocument) (debounce : bool)
    (st : State) : nat * State :=
  let promise := length (promises st) in
  if debounce then
    let st :=
      match Map_get (uri document) (debounceTimer st) with
      | Some existingTimer => clearTimeout existingTimer st
      | None => st
      end in
    let timer := nextTimeout st in
    (promise,
     {| debounceTimer := Map_set (uri document) timer (debounceTimer st);
        timeouts := Map_set timer (document, promise) (timeouts st);
        nextTimeout := S (nextTimeout st);
        awaited := awaited st;
        promises := promises st ++ [None] |})
  else
    (promise,
     {| debounceTimer := debounceTimer st;
        timeouts := timeouts st;
        nextTimeout := nextTimeout st;
        awaited := Map_set promise document (awaited st);
        promises := promises st ++ [None] |}).

(** A timeout elapses: its callback removes the entry of the document
    and starts [performValidation]. *)
Definition timeout (timer : nat) (st : State) : State :=
  match Map_get timer (timeouts st) with
  | Some (document, promise) =>
      {| debounceTimer := Map_delete (uri document) (debounceTimer st);
         timeouts := Map_delete timer (timeouts st);
         nextTimeout := nextTimeout st;
         awaited := Map_set promise document (awaited st);
         promises := promises st |}
  | None => st
  end.

(** An awaited [performValidation] ends, the client and the cache having
    answered with [isConnected] and [entities]: the promise is resolved
    with its diagnostics. *)
Definition validated (promise : nat) (isConnected : bool)
    (entities : Settled (list Completion.Entity)) (st : State) : State :=
  match Map_get promise (awaited st) with
  | Some document =>
      match Diagnostics.performValidation isConnected entities
              (getText document) with
      | Some diagnostics =>
          {| debounceTimer := debounceTimer st;
             timeouts := timeouts st;
             nextTimeout := nextTimeout st;
             awaited := Map_delete promise (awaited st);
             promises := <[promise := Some diagnostics]> (promises st) |}
      | None => st
      end
  | None => st
  end.

(** [clearDebounce(documentUri)] *)
Definition clearDebounce (documentUri : string) (st : State) : State :=
  match Map_get documentUri (debounceTimer st) with
  | Some timer =>
      let st := clearTimeout timer st in
      {| debounceTimer := Map_delete documentUri (debounceTimer st);
         timeouts := timeouts st;
         nextTimeout := nextTimeout st;
         awaited := awaited st;
         promises := promises st |}
  | None => st
  end.

(** [clearAllDebounce()] *)
Definition clearAllDebounce (st : State) : State :=
  let st := foldl (fun st timer => clearTimeout timer st) st
              (debounceTimer st).*2 in
  {| debounceTimer := [];
     timeouts := timeouts st;
     nextTimeout := nextTimeout st;
     awaited := awaited st;
     promises := promises st |}.

(** What happens to a provider. *)
Inductive Event : Type :=
  | Call_validateDocument (document : TextDocument) (debounce : bool)
  | Timeout (timer : nat)
  | Validated (promise : nat) (isConnected : bool)
      (entities : Settled (list Completion.Entity))
  | Call_clearDebounce (documentUri : string)
  | Call_clearAllDebounce.

Definition step (e : Event) (st : State) : State :=
  match e with
  | Call_validateDocument document debounce =>
      snd (validateDocument document debounce st)
  | Timeout timer => timeout timer st
  | Validated promise isConnected entities =>
      validated promise isConnected entities st
  | Call_clearDebounce documentUri => clearDebounce documentUri st
  | Call_clearAllDebounce => clearAllDebounce st
  end.

Definition run (events : list Event) (st : State) : State :=
  foldl (fun st e => step e st) st events.

Definition reachable (st : State) : Prop :=
  exists events, st = run events initial.

(** The promise is pending. *)
Definition pending (promise : nat) (st : State) : Prop :=
  promises st !! promise = Some None.

(** The timeout set for the validation of the document, which holds
    the promise, is still set. *)
Definition scheduled (promise : nat) (document : TextDocument)
    (st : State) : Prop :=
  exists timer, Map_get timer (timeouts st) = Some (document, promise).

(** The calls that take the pending validation of a document away. *)
Definition supersedes (documentUri : string) (e : Event) : Prop :=
  match e with
  | Call_validateDocument document debounce =>
      debounce = true /\ uri document = documentUri
  | Call_clearDebounce u => u = documentUri
  | Call_clearAllDebounce => True
  | _ => False
  end.

(** What holds of the timeouts and of the promises of a provider. *)
Record inv (st : State) : Prop := {
  inv_wf : Map_wf (timeouts st);
  inv_registered : forall t d p,
    Map_get t (timeouts st) = Some (d, p) ->
    Map_get (uri d) (debounceTimer st) = Some t;
  inv_fresh : forall t d p,
    Map_get t (timeouts st) = Some (d, p) -> (t < nextTimeout st)%nat;
  inv_pending : forall t d p,
    Map_get t (timeouts st) = Some (d, p) -> pending p st;
  inv_unique : forall t t' d d' p,
    Map_get t (timeouts st) = Some (d, p) ->
    Map_get t' (timeouts st) = Some (d', p) -> t = t';
  inv_awaited : forall p d,
    Map_get p (awaited st) = Some d ->
    (p < length (promises st))%nat
    /\ forall t d', Map_get t (timeouts st) <> Some (d', p)
}.

(** A promise that nothing can resolve any more. *)
Definition stranded (p : nat) (st : State) : Prop :=
  pending p st
  /\ (forall t d, Map_get t (timeouts st) <> Some (d, p))
  /\ Map_get p (awaited st) = None.

End Debounce.

(** In [line], after [pre], stands the id [domain.name], between two
    word boundaries and with no dot before it. *)
Definition first_id (class1 class2 : N -> bool)
    (line pre domain name post : list N) : Prop :=
  line = pre ++ domain ++ [46%N] ++ name ++ post
  /\ (46%N ∉ pre)
  /\ RegExp.isWordChar (last pre) = false
  /\ domain <> [] /\ name <> []
  /\ forallb class1 domain = true
  /\ forallb class2 name = true
  /\ RegExp.isWordChar (head post) = false.

(** ** [providers/hover.ts]: the entity id under the cursor *)

Module HoverProvider.

(** [[a-z_]] and [[a-z0-9_]] with the [i] flag: the letters of both
    cases. *)
Definition letter_ (c : N) : bool :=
  ((97 <=? c) && (c <=? 122) || (65 <=? c) && (c <=? 90) || (c =? 95))%N.

Definition letterDigit_ (c : N) : bool :=
  ((97 <=? c) && (c <=? 122) || (65 <=? c) && (c <=? 90)
   || (48 <=? c) && (c <=? 57) || (c =? 95))%N.

(** [/\b([a-z_]+\.[a-z0-9_]+)\b/gi] *)
Definition entityIdPattern : RegExp.Matcher :=
  RegExp.boundary
    (RegExp.plus letter_
       (RegExp.one (N.eqb 46)
          (RegExp.plus letterDigit_ (RegExp.boundary RegExp.accept)))).

(** The [while] loop of [extractEntityId]: [lastIndex] is the state of
    the pattern, [fuel] bounds the number of calls of [exec]; [Some
    None] is the result [null]. *)
Fixpoint matches (fuel : nat) (line : list N) (cursorPos : nat)
    (lastIndex : nat) : option (option string) :=
  match fuel with
  | O => None
  | S fuel =>
      match RegExp.exec entityIdPattern lastIndex line with
      | (None, _) => Some None
      | (Some (index, n), lastIndex) =>
          let match0 := text_of (take n (drop index line)) in
          let start := index in
          let end_ := (start + String.length match0)%nat in
          if (start <=? cursorPos)%nat && (cursorPos <=? end_)%nat then
            Some (Some match0)
          else matches fuel line cursorPos lastIndex
      end
  end.

(** [extractEntityId(line, cursorPos)]; [None] stands for a loop that
    has not ended after one call of [exec] for each code unit of the
    line and one more. *)
Definition extractEntityId (line : list N) (cursorPos : nat)
    : option (option string) :=
  matches (S (length line)) line cursorPos 0.

End HoverProvider.

(** ** [commands.ts] *)

Module Commands.

(** The values a client passes as arguments of a command. *)
#[warnings="-register-all"]
Inductive Json : Type :=
  | JNull
  | JBool (b : bool)
  | JNum (n : Z)
  | JStr (s : string)
  | JArr (items : list Json)
  | JObj (members : list (string * Json)).

(** Truthiness. *)
Definition truthy (v : Json) : bool :=
  match v with
  | JNull => false
  | JBool b => b
  | JNum n => negb (n =? 0)
  | JStr s => truthy_string s
  | JArr _ | JObj _ => true
  end.

(** [typeof v === 'object'] *)
Definition isObject (v : Json) : bool :=
  match v with
  | JNull | JArr _ | JObj _ => true
  | _ => false
  end.

(** What reading a property gives. *)
Inductive Read : Type :=
  | Undefined
  | Value (v : Json)
  | Builtin.

(** [v.name] for a value that is not [null] and one of the names that
    are read here, [views], [domain] and [search]: a member of an
    object, and for a text the method [search] of its prototype. *)
Definition get (name : string) (v : Json) : Read :=
  match v with
  | JObj members =>
      match Map_get name members with
      | Some x => Value x
      | None => Undefined
      end
  | JStr _ => if String.eqb name "search" then Builtin else Undefined
  | _ => Undefined
  end.

Definition truthy_read (r : Read) : bool :=
  match r with
  | Undefined => false
  | Value v => truthy v
  | Builtin => true
  end.

Record Dashboard : Type := {
  id : string;
  url_path : string;
  title : string;
  icon : option string;
  require_admin : bool;
  show_in_sidebar : bool;
  mode : string
}.

(** The [data] of a result. *)
Inductive Data : Type :=
  | Dashboards (dashboards : list Dashboard)
  | DashboardConfig (config : Json)
  | Message (message : string)
  | Status (connected : bool) (state : Client.ConnectionState)
      (cacheStats : Cache.CacheStats)
  | AnEntity (entity : Completion.Entity)
  | Entities (entities : list Completion.Entity)
  | Services (services : Json)
  | Areas.

Record CommandResult : Type := {
  success : bool;
  data : option Data;
  error : option string
}.

Definition ok (d : Data) : CommandResult :=
  {| success := true; data := Some d; error := None |}.

Definition failed (e : string) : CommandResult :=
  {| success := false; data := None; error := Some e |}.

Definition not_connected : CommandResult :=
  failed "Not connected to Home Assistant".

(** [error instanceof Error ? error.message : ...] *)
Definition message_of (e : Error) : string :=
  match e with MkError m => m end.

(** What the handler rests on.  Of the client: its state [St], the
    answers of [isConnected()] and [getState()], and the calls that are
    awaited, with what they settle with and the state they leave.  Of
    the language: [String.prototype.toLowerCase], the text of a value
    that is not a text, and the messages of the two type errors (a
    property of [null] is read; what is called is not a function). *)
Record Env (St : Type) : Type := {
  isConnected : St -> bool;
  getState : St -> Client.ConnectionState;
  getDashboards : St -> Settled (list Dashboard) * St;
  getDashboardConfig : option Json -> St -> Settled Json * St;
  saveDashboardConfig : Json -> option Json -> St -> Settled unit * St;
  getStates : St -> Settled (list Completion.Entity) * St;
  getServices : St -> Settled Json * St;
  toLowerCase : string -> string;
  String_ : Json -> string;
  cannot_read : string -> string;
  not_a_function : string -> string
}.

Arguments isConnected {St} _ _.
Arguments getState {St} _ _.
Arguments getDashboards {St} _ _.
Arguments getDashboardConfig {St} _ _ _.
Arguments saveDashboardConfig {St} _ _ _ _.
Arguments getStates {St} _ _.
Arguments getServices {St} _ _.
Arguments toLowerCase {St} _ _.
Arguments String_ {St} _ _.
Arguments cannot_read {St} _ _.
Arguments not_a_function {St} _ _.

Section Handler.

Context {St : Type} (env : Env St).

(** The handler's view of the world: the client and the cache. *)
Definition World : Type := St * Cache.Cache.

(** [listDashboards()]; an error of the client is thrown on. *)
Definition listDashboards (w : World) : Settled CommandResult * World :=
  let '(s, c) := w in
  if negb (isConnected env s) then (Fulfilled not_connected, w)
  else
    let '(r, s) := getDashboards env s in
    match r with
    | Fulfilled dashboards =>
        let editableDashboards :=
          filter (fun d => mode d = "storage") dashboards in
        (Fulfilled (ok (Dashboards editableDashboards)), (s, c))
    | Thrown e => (Thrown e, (s, c))
    end.

(** [getDashboardConfig(args)] *)
Definition getDashboardConfig_ (args : option (list Json)) (w : World)
    : CommandResult * World :=
  let '(s, c) := w in
  if negb (isConnected env s) then (not_connected, w)
  else
    let urlPath :=
      match args with
      | Some (a :: _) => Some a
      | _ => None
      end in
    let '(r, s) := getDashboardConfig env urlPath s in
    match r with
    | Fulfilled config => (ok (DashboardConfig config), (s, c))
    | Thrown e => (failed (message_of e), (s, c))
    end.

(** [saveDashboardConfig(args)] *)
Definition saveDashboardConfig_ (args : option (list Json)) (w : World)
    : CommandResult * World :=
  let '(s, c) := w in
  if negb (isConnected env s) then (not_connected, w)
  else
    match args with
    | None | Some [] => (failed "Missing config parameter", w)
    | Some (config :: rest) =>
        let urlPath := head rest in
        if negb (truthy config) || negb (isObject config) then
          (failed "Invalid config: must be an object", w)
        else if negb (truthy_read (get "views" config))
                || negb (match get "views" config with
                         | Value (JArr _) => true
                         | _ => false
                         end) then
          (failed "Invalid config: missing or invalid views array", w)
        else
          let '(r, s) := saveDashboardConfig env config urlPath s in
          match r with
          | Fulfilled _ =>
              (ok (Message "Dashboard configuration saved successfully"),
               (s, c))
          | Thrown e => (failed (message_of e), (s, c))
          end
    end.

(** [reloadCache()] *)
Definition reloadCache (w : World) : CommandResult * World :=
  let '(s, c) := w in
  (ok (Message "Cache reloaded successfully"), (s, Cache.invalidateAll c)).

(** [getConnectionStatus()] *)
Definition getConnectionStatus (w : World) : CommandResult * World :=
  let '(s, c) := w in
  let state := getState env s in
  let connected := isConnected env s in
  (ok (Status connected state (Cache.getStats c)), w).

(** The text of a value in a template or before [+ '.']. *)
Definition text (v : Json) : string :=
  match v with
  | JStr s => s
  | _ => String_ env v
  end.

(** [getEntityState(args)]; [===] holds of an id and a text only. *)
Definition getEntityState (args : option (list Json)) (w : World)
    : CommandResult * World :=
  let '(s, c) := w in
  if negb (isConnected env s) then (not_connected, w)
  else
    match args with
    | None | Some [] => (failed "Missing entity_id parameter", w)
    | Some (entityId :: _) =>
        let '(r, s) := getStates env s in
        match r with
        | Fulfilled entities =>
            let entity :=
              match entityId with
              | JStr i =>
                  snd <$> list_find
                            (fun e => Completion.entity_id e = i) entities
              | _ => None
              end in
            match entity with
            | None =>
                (failed ("Entity '" ++ text entityId ++ "' not found"),
                 (s, c))
            | Some entity => (ok (AnEntity entity), (s, c))
            end
        | Thrown e => (failed (message_of e), (s, c))
        end
    end.

(** The filters of [listEntities], applied to the entities: an error is
    the type error they throw. *)
Definition filterEntities (filters : Json)
    (entities : list Completion.Entity)
    : Settled (list Completion.Entity) :=
  match filters with
  | JNull => Thrown (MkError (cannot_read env "domain"))
  | _ =>
      let filteredEntities :=
        if truthy_read (get "domain" filters) then
          let domain :=
            match get "domain" filters with
            | Value v => text v
            | _ => EmptyString
            end in
          filter (fun e =>
                    Is_true (Config.startsWith (Completion.entity_id e)
                               (domain ++ ".")%string)) entities
        else entities in
      if truthy_read (get "search" filters) then
        match get "search" filters with
        | Value (JStr search) =>
            let searchLower := toLowerCase env search in
            Fulfilled
              (filter (fun e =>
                         let friendlyName :=
                           toLowerCase env
                             (or_text (Completion.friendly_name e) "") in
                         Is_true
                           (includes (toLowerCase env (Completion.entity_id e))
                              searchLower
                            || includes friendlyName searchLower))
                 filteredEntities)
        | _ => Thrown (MkError (not_a_function env "filters.search.toLowerCase"))
        end
      else Fulfilled filteredEntities
  end.

(** [listEntities(args)] *)
Definition listEntities (args : option (list Json)) (w : World)
    : CommandResult * World :=
  let '(s, c) := w in
  if negb (isConnected env s) then (not_connected, w)
  else
    let '(r, s) := getStates env s in
    match r with
    | Fulfilled entities =>
        let filteredEntities :=
          match args with
          | Some (filters :: _) => filterEntities filters entities
          | _ => Fulfilled entities
          end in
        match filteredEntities with
        | Fulfilled filteredEntities =>
            (ok (Entities filteredEntities), (s, c))
        | Thrown e => (failed (message_of e), (s, c))
        end
    | Thrown e => (failed (message_of e), (s, c))
    end.

(** [listServices()] *)
Definition listServices (w : World) : CommandResult * World :=
  let '(s, c) := w in
  if negb (isConnected env s) then (not_connected, w)
  else
    let '(r, s) := getServices env s in
    match r with
    | Fulfilled services => (ok (Services services), (s, c))
    | Thrown e => (failed (message_of e), (s, c))
    end.

(** [listAreas()] *)
Definition listAreas (w : World) : CommandResult * World :=
  let '(s, c) := w in
  if negb (isConnected env s) then (not_connected, w)
  else (ok Areas, w).

(** [callService(args)] *)
Definition callService (args : option (list Json)) (w : World)
    : CommandResult * World :=
  let '(s, c) := w in
  if negb (isConnected env s) then (not_connected, w)
  else
    match args with
    | None | Some [] =>
        (failed "Missing service parameter (format: domain.service)", w)
    | Some (service :: _) =>
        if match service with
           | JStr service => negb (includes service ".")
           | _ => true
           end
        then (failed "Invalid service format (expected: domain.service)", w)
        else (failed "Service calling not yet implemented", w)
    end.

(** [executeCommand(command, args)] *)
Definition executeCommand (command : string) (args : option (list Json))
    (w : World) : CommandResult * World :=
  if String.eqb command "homeassistant.listDashboards" then
    match listDashboards w with
    | (Fulfilled r, w) => (r, w)
    | (Thrown e, w) => (failed (message_of e), w)
    end
  else if String.eqb command "homeassistant.getDashboardConfig" then
    getDashboardConfig_ args w
  else if String.eqb command "homeassistant.saveDashboardConfig" then
    saveDashboardConfig_ args w
  else if String.eqb command "homeassistant.reloadCache" then
    reloadCache w
  else if String.eqb command "homeassistant.getConnectionStatus" then
    getConnectionStatus w
  else if String.eqb command "homeassistant.getEntityState" then
    getEntityState args w
  else if String.eqb command "homeassistant.listEntities" then
    listEntities args w
  else if String.eqb command "homeassistant.listServices" then
    listServices w
  else if String.eqb command "homeassistant.listAreas" then
    listAreas w
  else if String.eqb command "homeassistant.callService" then
    callService args w
  else (failed ("Unknown command: " ++ command), w).

End Handler.

(** The commands that are answered without a connection. *)
Definition local : list string :=
  ["homeassistant.reloadCache"; "homeassistant.getConnectionStatus"].

(** The commands that ask for a connection first. *)
Definition remote : list string :=
  ["homeassistant.listDashboards"; "homeassistant.getDashboardConfig";
   "homeassistant.saveDashboardConfig"; "homeassistant.getEntityState";
   "homeassistant.listEntities"; "homeassistant.listServices";
   "homeassistant.listAreas"; "homeassistant.callService"].

(** A client that counts the calls it gets and answers each with an
    empty result, in a language whose texts have one case. *)
Definition counting (connected : bool) : Env nat :=
  {| isConnected := fun _ => connected;
     getState := fun _ => if connected then Client.CONNECTED
                          else Client.DISCONNECTED;
     getDashboards := fun s => (Fulfilled [], S s);
     getDashboardConfig := fun _ s => (Fulfilled JNull, S s);
     saveDashboardConfig := fun _ _ s => (Fulfilled tt, S s);
     getStates := fun s => (Fulfilled [], S s);
     getServices := fun s => (Fulfilled JNull, S s);
     toLowerCase := fun x => x;
     String_ := fun _ => EmptyString;
     cannot_read := fun x => x;
     not_a_function := fun x => x |}.

End Commands.

(** The code units of a text of ASCII characters. *)
Definition units (s : string) : list N :=
  Ascii.N_of_ascii <$> String.list_ascii_of_string s.

(** [pattern.test(key)] for a pattern with the [g] flag, from
    [lastIndex]. *)
Definition test_g (m : RegExp.Matcher) (lastIndex : nat) (k : string)
    : bool * nat :=
  match RegExp.exec m lastIndex (units k) with
  | (Some _, lastIndex') => (true, lastIndex')
  | (None, lastIndex') => (false, lastIndex')
  end.

(** The pattern [/user:/]. *)
Definition user_colon : RegExp.Matcher :=
  RegExp.one (N.eqb 117) (RegExp.one (N.eqb 115) (RegExp.one (N.eqb 101)
    (RegExp.one (N.eqb 114) (RegExp.one (N.eqb 58) RegExp.accept)))).

(** A cache with the keys [user:1], [user:2] and [user:3]. *)
Definition three_users : Cache.Cache :=
  Cache.set 0 "user:3" (VStr "c") None
    (Cache.set 0 "user:2" (VStr "b") None
       (Cache.set 0 "user:1" (VStr "a") None (Cache.new Cache.no_options))).

(** ** Proof steps for the methods *)

(** Unfolds the monadic primitives and the projections applied to a world
    given by its fields. *)
Ltac step_m :=
  cbv beta iota zeta delta
    [Client.newPromise Client.settle Client.resolve Client.reject
     Client.setTimeout Client.clearTimeout Client.ws_readyState
     Client.ws_send Client.ws_close Client.pending_set
     Client.pending_delete Client.set_ws Client.set_url Client.set_token
     Client.set_messageId Client.set_pendingRequests Client.set_state
     Client.set_reconnectAttempts Client.set_subscriptions
     Client.set_onceAuthenticated Client.set_onceAuthFailed
     Client.set_promises Client.set_timers Client.set_sockets
     Client.set_catchers Client.emit Client.modify Client.modify_rt
     Client.gets Client.gets_rt Client.bind Client.ret
     Client.this Client.rt Client.ws Client.url Client.token
     Client.messageId Client.pendingRequests Client.state
     Client.reconnectAttempts Client.subscriptions
     Client.onceAuthenticated Client.onceAuthFailed Client.promises
     Client.timers Client.sockets Client.catchers Client.emitted].

(** Takes a world apart into its fields. *)
Ltac open_world w :=
  destruct w as [[w_ws w_url w_token w_messageId w_pending w_state
                  w_attempts w_subs w_onceA w_onceF]
                 [w_promises w_timers w_sockets w_catchers w_emitted]].

(** * Properties *)

(** ** The [Map] model *)

Section JsMapFacts.
Context {K V : Type} `{EqDecision K}.
Implicit Types (k : K) (v : V) (m : list (K * V)).

Lemma Map_get_set_eq k v m : Map_get k (Map_set k v m) = Some v.
Proof.
  induction m as [|[k' v'] r IH]; simpl.
  - by rewrite decide_True.
  - destruct (decide (k = k')) as [->|Hne]; simpl.
    + by rewrite decide_True.
    + by rewrite decide_False.
Qed.

Lemma Map_get_set_ne k k' v m :
  k ≠ k' -> Map_get k' (Map_set k v m) = Map_get k' m.
Proof.
  intros Hne. induction m as [|[k0 v0] r IH]; simpl.
  - rewrite decide_False; [done | congruence].
  - destruct (decide (k = k0)) as [->|Hk]; simpl.
    + rewrite !decide_False; [done | congruence | congruence].
    + destruct (decide (k' = k0)); [done | apply IH].
Qed.

Lemma Map_get_delete_ne k k' m :
  k ≠ k' -> Map_get k' (Map_delete k m) = Map_get k' m.
Proof.
  intros Hne. induction m as [|[k0 v0] r IH]; simpl; [done|].
  destruct (decide (k = k0)) as [->|Hk]; simpl.
  - rewrite decide_False; [done | congruence].
  - destruct (decide (k' = k0)); [done | apply IH].
Qed.

Lemma Map_get_None_notin k m : Map_get k m = None -> k ∉ Map_keys m.
Proof.
  unfold Map_keys. induction m as [|[k0 v0] r IH]; simpl.
  - intros _. apply not_elem_of_nil.
  - destruct (decide (k = k0)); [done|].
    intros Hr. apply not_elem_of_cons. split; [done | by apply IH].
Qed.

Lemma Map_get_notin k m : k ∉ Map_keys m -> Map_get k m = None.
Proof.
  unfold Map_keys. induction m as [|[k0 v0] r IH]; simpl; [done|].
  intros [Hne Hr]%not_elem_of_cons.
  rewrite decide_False; [by apply IH | done].
Qed.

Lemma Map_get_Some_elem k v m : Map_get k m = Some v -> (k, v) ∈ m.
Proof.
  induction m as [|[k0 v0] r IH]; simpl; [done|].
  destruct (decide (k = k0)) as [->|Hne].
  - intros [= ->]. apply list_elem_of_here.
  - intros Hr. apply list_elem_of_further. by apply IH.
Qed.

Lemma Map_get_delete_eq k m : Map_wf m -> Map_get k (Map_delete k m) = None.
Proof.
  unfold Map_wf, Map_keys. induction m as [|[k0 v0] r IH]; simpl; [done|].
  intros [Hnotin Hnd]%NoDup_cons.
  destruct (decide (k = k0)) as [->|Hne]; simpl.
  - by apply Map_get_notin.
  - rewrite decide_False; [by apply IH | done].
Qed.

Lemma Map_delete_absent k m : Map_get k m = None -> Map_delete k m = m.
Proof.
  induction m as [|[k0 v0] r IH]; simpl; [done|].
  destruct (decide (k = k0)); [done|].
  intros Hr. by rewrite IH.
Qed.

Lemma Map_delete_size k v m :
  Map_get k m = Some v -> S (Map_size (Map_delete k m)) = Map_size m.
Proof.
  unfold Map_size. induction m as [|[k0 v0] r IH]; simpl; [done|].
  destruct (decide (k = k0)); [done|].
  intros Hr. simpl. by rewrite IH.
Qed.

Lemma Map_set_absent k v m :
  Map_get k m = None -> Map_set k v m = m ++ [(k, v)].
Proof.
  induction m as [|[k0 v0] r IH]; simpl; [done|].
  destruct (decide (k = k0)); [done|].
  intros Hr. by rewrite IH.
Qed.

Lemma Map_set_present_size k v v0 m :
  Map_get k m = Some v0 -> Map_size (Map_set k v m) = Map_size m.
Proof.
  unfold Map_size. induction m as [|[k1 v1] r IH]; simpl; [done|].
  destruct (decide (k = k1)); [done|].
  intros Hr. simpl. by rewrite IH.
Qed.

Lemma Map_set_delete_fresh k v m :
  Map_get k m = None -> Map_delete k (Map_set k v m) = m.
Proof.
  induction m as [|[k0 v0] r IH]; simpl.
  - by rewrite decide_True.
  - destruct (decide (k = k0)) as [->|Hne]; [done|].
    intros Hr. simpl. rewrite decide_False; [by rewrite IH | done].
Qed.

Lemma Map_delete_keys_sub k m x : x ∈ Map_keys (Map_delete k m) -> x ∈ Map_keys m.
Proof.
  unfold Map_keys. induction m as [|[k0 v0] r IH]; simpl; [done|].
  destruct (decide (k = k0)); simpl.
  - apply list_elem_of_further.
  - intros [->|Hx]%elem_of_cons.
    + apply list_elem_of_here.
    + apply list_elem_of_further. by apply IH.
Qed.

Lemma Map_delete_wf k m : Map_wf m -> Map_wf (Map_delete k m).
Proof.
  unfold Map_wf. induction m as [|[k0 v0] r IH]; simpl; [done|].
  unfold Map_keys in *. simpl.
  intros [Hnotin Hnd]%NoDup_cons.
  destruct (decide (k = k0)); [done|]. simpl.
  apply NoDup_cons. split; [|by apply IH].
  intros Hin. apply Hnotin. by eapply Map_delete_keys_sub.
Qed.
Lemma Map_delete_sublist k m : Map_delete k m `sublist_of` m.
Proof.
  induction m as [|[k0 v0] r IH]; simpl; [done|].
  destruct (decide (k = k0)).
  - by apply sublist_cons.
  - by apply sublist_skip.
Qed.

Lemma Map_delete_elem_key k v m : Map_wf m -> (k, v) ∉ Map_delete k m.
Proof.
  intros Hwf Hin.
  apply (Map_get_None_notin k (Map_delete k m)).
  - by apply Map_get_delete_eq.
  - unfold Map_keys. apply list_elem_of_fmap. by exists (k, v).
Qed.
Lemma Map_set_present_keys k v v0 m :
  Map_get k m = Some v0 -> Map_keys (Map_set k v m) = Map_keys m.
Proof.
  unfold Map_keys. induction m as [|[k1 v1] r IH]; simpl; [done|].
  destruct (decide (k = k1)) as [->|Hne]; [done|].
  intros Hr. simpl. f_equal. by apply IH.
Qed.

Lemma Map_set_wf k v m : Map_wf m -> Map_wf (Map_set k v m).
Proof.
  intros Hwf. unfold Map_wf in *.
  destruct (Map_get k m) as [v0|] eqn:Hk.
  - by rewrite (Map_set_present_keys k v v0 m Hk).
  - rewrite (Map_set_absent k v m Hk). unfold Map_keys in *.
    rewrite fmap_app. simpl. apply NoDup_app. split; [done|]. split.
    + intros x Hx Hx'. apply list_elem_of_singleton in Hx' as ->.
      by apply (Map_get_None_notin k m Hk).
    + apply NoDup_singleton.
Qed.
End JsMapFacts.

(** ** The cache: reads *)

Section CacheReads.
Import Cache.
Implicit Types (c : Cache) (k : string) (now : Z).

Lemma get_absent now k c :
  Map_get k (cache c) = None ->
  get now k c
  = (VNull, emit (cache_miss k) (with_stats (incr_misses (stats c)) c)).
Proof. unfold get. by intros ->. Qed.

Lemma get_stale now k c entry :
  Map_get k (cache c) = Some entry ->
  expiresAt entry < now ->
  get now k c
  = (VNull,
     emit (cache_expired k)
       (sync_size (with_stats (incr_misses (stats c))
                     (with_cache (Map_delete k (cache c)) c)))).
Proof.
  unfold get. intros -> Hlt.
  assert ((now >? expiresAt entry) = true) as -> by lia. done.
Qed.

Lemma get_fresh now k c entry :
  Map_get k (cache c) = Some entry ->
  now <= expiresAt entry ->
  get now k c
  = (value entry, emit (cache_hit k) (with_stats (incr_hits (stats c)) c)).
Proof.
  unfold get. intros -> Hle.
  assert ((now >? expiresAt entry) = false) as -> by lia. done.
Qed.

(** A read never changes an entry of another key. *)
Lemma get_other now k k' c :
  k ≠ k' -> Map_get k' (cache (get now k c).2) = Map_get k' (cache c).
Proof.
  intros Hne. unfold get.
  destruct (Map_get k (cache c)) as [entry|] eqn:Hk; [|done].
  destruct (now >? expiresAt entry); [|done].
  simpl. by apply Map_get_delete_ne.
Qed.


Lemma get_config now k c :
  defaultTTL (get now k c).2 = defaultTTL c
  /\ maxSize (get now k c).2 = maxSize c.
Proof.
  unfold get.
  destruct (Map_get k (cache c)) as [entry|]; [|done].
  by destruct (now >? expiresAt entry).
Qed.
End CacheReads.

(** C5.  An entry whose expiry has passed is answered as absent by
    [get]: the result is [null], the miss counter goes up by one and the
    hit counter stays, and the entry is removed from the store while every
    other key keeps its entry.  Conversely a read that returns a value
    found the entry with [now <= expiresAt]. *)
Theorem get_expired_is_a_miss (now : Z) (k : string) (c : Cache.Cache)
    (entry : Cache.CacheEntry) :
  Map_wf (Cache.cache c) ->
  Map_get k (Cache.cache c) = Some entry ->
  (Cache.expiresAt entry < now ->
     (Cache.get now k c).1 = VNull
     /\ Cache.misses (Cache.stats (Cache.get now k c).2)
        = S (Cache.misses (Cache.stats c))
     /\ Cache.hits (Cache.stats (Cache.get now k c).2)
        = Cache.hits (Cache.stats c)
     /\ Cache.cache (Cache.get now k c).2 = Map_delete k (Cache.cache c)
     /\ Map_get k (Cache.cache (Cache.get now k c).2) = None
     /\ S (Cache.cache_size (Cache.get now k c).2) = Cache.cache_size c
     /\ forall k', k ≠ k' ->
          Map_get k' (Cache.cache (Cache.get now k c).2)
          = Map_get k' (Cache.cache c))
  /\ ((Cache.get now k c).1 ≠ VNull ->
        now <= Cache.expiresAt entry
        /\ (Cache.get now k c).1 = Cache.value entry).
Proof.
  intros Hwf Hk. split.
  - intros Hlt. rewrite (get_stale now k c entry Hk Hlt). simpl.
    repeat split; try done.
    + by apply Map_get_delete_eq.
    + unfold Cache.cache_size. by eapply Map_delete_size.
    + intros k' Hne. by apply Map_get_delete_ne.
  - intros Hval. destruct (Z_lt_le_dec (Cache.expiresAt entry) now) as [Hlt|Hle].
    + rewrite (get_stale now k c entry Hk Hlt) in Hval. done.
    + by rewrite (get_fresh now k c entry Hk Hle).
Qed.

Lemma get_expired_is_a_miss_witness :
  (Cache.get 10001 "" full_with_empty_key).1 = VNull
  /\ Map_get "" (Cache.cache (Cache.get 10001 "" full_with_empty_key).2) = None.
Proof.
  assert (Hwf : Map_wf (Cache.cache full_with_empty_key)).
  { unfold Map_wf. vm_compute. apply NoDup_cons. split.
    - intros [H|H]%elem_of_cons; [done | by apply elem_of_nil in H].
    - apply NoDup_singleton. }
  destruct (get_expired_is_a_miss 10001 "" full_with_empty_key
              {| Cache.value := VStr "x"; Cache.expiresAt := 10000;
                 Cache.key := "" |} Hwf eq_refl) as [H _].
  destruct (H ltac:(simpl; lia)) as (H1 & _ & _ & _ & H5 & _).
  split; assumption.
Defined.

(** ** The cache: writes *)

Section CacheWrites.
Import Cache.
Implicit Types (c : Cache) (k : string) (now : Z).

Lemma evictOldest_config c :
  defaultTTL (evictOldest c) = defaultTTL c
  /\ maxSize (evictOldest c) = maxSize c.
Proof.
  unfold evictOldest.
  destruct (scanOldest (cache c) None None) as [k0|]; [|done].
  by destruct (truthy_string k0).
Qed.

(** [evictOldest] never touches a key that is not in the store. *)
Lemma evictOldest_absent k c :
  Map_get k (cache c) = None -> Map_get k (cache (evictOldest c)) = None.
Proof.
  intros Hk. unfold evictOldest.
  destruct (scanOldest (cache c) None None) as [k0|]; [|done].
  destruct (truthy_string k0); [|done]. simpl.
  destruct (decide (k0 = k)) as [->|Hne].
  - by rewrite Map_delete_absent.
  - by rewrite Map_get_delete_ne.
Qed.

Lemma set_get_eq now k v ttl c :
  Map_get k (cache (set now k v ttl c)) = Some (written now k v ttl c).
Proof.
  unfold set, written.
  destruct ((Z.of_nat (Map_size (cache c)) >=? maxSize c)
            && negb (Map_has k (cache c))); simpl.
  - destruct (evictOldest_config c) as [-> _]. apply Map_get_set_eq.
  - apply Map_get_set_eq.
Qed.


Lemma touch_present now k ttl c entry :
  Map_get k (cache c) = Some entry ->
  touch now k ttl c
  = (true,
     emit (cache_touch k)
       (with_cache
          (Map_set k {| value := value entry;
                        expiresAt := now + if_defined ttl (defaultTTL c) * 1000;
                        key := key entry |} (cache c)) c)).
Proof. unfold touch. by intros ->. Qed.
End CacheWrites.

(** C10.  [touch] makes no expiry check: on an entry that is still in the
    store although its expiry has passed (a [get] at that moment answers
    [null]), it returns [true] and sets the expiry to [now + ttl] seconds
    (the default TTL when [ttl] is omitted) without changing the value, and
    a [get] up to that new expiry returns the stale value as a hit. *)
Theorem touch_revives_expired (now later : Z) (k : string) (ttl : option Z)
    (c : Cache.Cache) (entry : Cache.CacheEntry) :
  Map_get k (Cache.cache c) = Some entry ->
  Cache.expiresAt entry < now ->
  later <= now + if_defined ttl (Cache.defaultTTL c) * 1000 ->
  (Cache.get now k c).1 = VNull
  /\ (Cache.touch now k ttl c).1 = true
  /\ Map_get k (Cache.cache (Cache.touch now k ttl c).2)
     = Some {| Cache.value := Cache.value entry;
               Cache.expiresAt := now + if_defined ttl (Cache.defaultTTL c) * 1000;
               Cache.key := Cache.key entry |}
  /\ (Cache.get later k (Cache.touch now k ttl c).2).1 = Cache.value entry
  /\ Cache.hits (Cache.stats (Cache.get later k (Cache.touch now k ttl c).2).2)
     = S (Cache.hits (Cache.stats c)).
Proof.
  intros Hk Hexp Hlater.
  rewrite (get_stale now k c entry Hk Hexp).
  rewrite (touch_present now k ttl c entry Hk). simpl.
  split; [done|]. split; [done|].
  split; [apply Map_get_set_eq|].
  set (e' := {| Cache.value := Cache.value entry;
                Cache.expiresAt := now + if_defined ttl (Cache.defaultTTL c) * 1000;
                Cache.key := Cache.key entry |}).
  rewrite (get_fresh later k _ e').
  - simpl. split; reflexivity.
  - simpl. apply Map_get_set_eq.
  - simpl. exact Hlater.
Qed.

Lemma touch_revives_expired_witness :
  (Cache.get 10001 "" full_with_empty_key).1 = VNull
  /\ (Cache.touch 10001 "" (Some 5) full_with_empty_key).1 = true
  /\ (Cache.get 15001
        "" (Cache.touch 10001 "" (Some 5) full_with_empty_key).2).1
     = VStr "x".
Proof.
  destruct (touch_revives_expired 10001 15001 "" (Some 5) full_with_empty_key
              {| Cache.value := VStr "x"; Cache.expiresAt := 10000;
                 Cache.key := "" |} eq_refl ltac:(simpl; lia)
              ltac:(simpl; lia)) as (H1 & H2 & _ & H4 & _).
  repeat split; assumption.
Defined.

(** ** The cache: eviction *)

Section Eviction.
Import Cache.
Implicit Types (c : Cache) (k : string) (now : Z).

Lemma Map_elem_get {K V} `{EqDecision K} (k : K) (v : V) (m : list (K * V)) :
  Map_wf m -> (k, v) ∈ m -> Map_get k m = Some v.
Proof.
  unfold Map_wf, Map_keys. induction m as [|[k0 v0] r IH]; simpl.
  - intros _ Hin. by apply elem_of_nil in Hin.
  - intros [Hnotin Hnd]%NoDup_cons [Heq|Hin]%elem_of_cons.
    + injection Heq as -> ->. by rewrite decide_True.
    + destruct (decide (k = k0)) as [->|Hne]; [|by apply IH].
      exfalso. apply Hnotin. apply list_elem_of_fmap. by exists (k0, v).
Qed.



End Eviction.

(** C3.  A store of maximum size two that holds the keys [""] (least
    expiry) and ["b"] is full; [set] of the new key ["c"] evicts nothing:
    the store grows to three entries and the eviction counter stays at
    zero.  With the key ["a"] in place of [""] the same call removes ["a"],
    keeps the size at two and counts one eviction. *)
Theorem set_at_capacity_empty_key_not_evicted :
  (Z.of_nat (Cache.cache_size full_with_empty_key)
   = Cache.maxSize full_with_empty_key
   /\ Map_get "c" (Cache.cache full_with_empty_key) = None
   /\ Cache.keys (Cache.set 0 "c" (VStr "z") (Some 30) full_with_empty_key)
      = [""; "b"; "c"]
   /\ Cache.evictions
        (Cache.stats (Cache.set 0 "c" (VStr "z") (Some 30) full_with_empty_key))
      = 0%nat)
  /\ (Cache.keys (Cache.set 0 "c" (VStr "z") (Some 30) full_cache) = ["b"; "c"]
      /\ Cache.evictions
           (Cache.stats (Cache.set 0 "c" (VStr "z") (Some 30) full_cache))
         = 1%nat).
Proof. vm_compute. repeat split. Qed.

(** ** The cache: the store is a [Map] *)

Section CacheWf.
Import Cache.
Implicit Types (c : Cache) (k : string) (now : Z).

Lemma new_wf options : Map_wf (cache (new options)).
Proof. apply NoDup_nil_2. Qed.

Lemma get_wf now k c : Map_wf (cache c) -> Map_wf (cache (get now k c).2).
Proof.
  intros Hwf. unfold get.
  destruct (Map_get k (cache c)) as [entry|]; [|done].
  destruct (now >? expiresAt entry); [|done].
  simpl. by apply Map_delete_wf.
Qed.

Lemma evictOldest_wf c : Map_wf (cache c) -> Map_wf (cache (evictOldest c)).
Proof.
  intros Hwf. unfold evictOldest.
  destruct (scanOldest (cache c) None None) as [k0|]; [|done].
  destruct (truthy_string k0); [|done].
  simpl. by apply Map_delete_wf.
Qed.

Lemma set_wf now k v ttl c :
  Map_wf (cache c) -> Map_wf (cache (set now k v ttl c)).
Proof.
  intros Hwf. unfold set.
  destruct ((Z.of_nat (Map_size (cache c)) >=? maxSize c)
            && negb (Map_has k (cache c))); simpl.
  - by apply Map_set_wf, evictOldest_wf.
  - by apply Map_set_wf.
Qed.

Lemma touch_wf now k ttl c :
  Map_wf (cache c) -> Map_wf (cache (touch now k ttl c).2).
Proof.
  intros Hwf. unfold touch.
  destruct (Map_get k (cache c)) as [entry|]; [|done].
  simpl. by apply Map_set_wf.
Qed.

Lemma invalidate_wf k c :
  Map_wf (cache c) -> Map_wf (cache (invalidate k c)).
Proof.
  intros Hwf. unfold invalidate.
  destruct (Map_has k (cache c)); [|done].
  simpl. by apply Map_delete_wf.
Qed.

Lemma getOrFetch_wf {St : Type} now later k
    (fetchFn : St -> Settled jsval * St) ttl c s :
  Map_wf (cache c) ->
  Map_wf (cache (getOrFetch now later k fetchFn ttl c s).1.2).
Proof.
  intros Hwf. unfold getOrFetch.
  pose proof (get_wf now k c Hwf) as Hget.
  destruct (get now k c) as [cached c1]. simpl in Hget.
  destruct (not_null cached); [done|].
  destruct (fetchFn s) as [[v|e] s']; [|done].
  simpl. by apply set_wf.
Qed.
End CacheWf.

(** ** The cache: [getOrFetch] *)

Section GetOrFetch.
Import Cache.
Context {St : Type}.
Implicit Types (c : Cache) (k : string) (now : Z)
  (fetchFn : St -> Settled jsval * St).

Lemma getOrFetch_hit now later k fetchFn ttl c s entry :
  Map_get k (cache c) = Some entry ->
  now <= expiresAt entry ->
  value entry ≠ VNull ->
  getOrFetch now later k fetchFn ttl c s
  = (Fulfilled (value entry),
     emit (cache_hit k) (with_stats (incr_hits (stats c)) c), s).
Proof.
  intros Hk Hle Hv. unfold getOrFetch.
  rewrite (get_fresh now k c entry Hk Hle).
  by destruct (value entry).
Qed.

Lemma getOrFetch_miss now later k fetchFn ttl c s :
  (get now k c).1 = VNull ->
  getOrFetch now later k fetchFn ttl c s
  = match fetchFn s with
    | (Fulfilled v, s') => (Fulfilled v, set later k v ttl (get now k c).2, s')
    | (Thrown e, s') => (Thrown e, (get now k c).2, s')
    end.
Proof.
  unfold getOrFetch. destruct (get now k c) as [cached c1]. simpl.
  intros ->. simpl. by destruct (fetchFn s) as [[v|e] s'].
Qed.

(** While the entry is valid, further calls answer from the store and
    leave the supplier alone. *)
Lemma getOrFetch_each_hits times k fetchFn ttl c s entry :
  Map_get k (cache c) = Some entry ->
  value entry ≠ VNull ->
  Forall (fun t => t <= expiresAt entry) times ->
  exists c',
    getOrFetch_each times k fetchFn ttl c s
    = (replicate (length times) (Fulfilled (value entry)), c', s)
    /\ cache c' = cache c.
Proof.
  intros Hk Hv Htimes. revert c Hk.
  induction Htimes as [|t rest Ht Hrest IH]; intros c Hk; simpl.
  - by exists c.
  - rewrite (getOrFetch_hit t t k fetchFn ttl c s entry Hk Ht Hv).
    destruct (IH (emit (cache_hit k) (with_stats (incr_hits (stats c)) c)) Hk)
      as (c' & -> & Hc').
    by exists c'.
Qed.
End GetOrFetch.

(** C4, amended.  When the first [getOrFetch] finds nothing and the
    supplier answers a value other than [null], the value is stored and
    every further call up to the entry's expiry returns it without calling
    the supplier: the supplier has run exactly once. *)
Theorem getOrFetch_fetches_once {St : Type}
    (fetchFn : St -> Settled jsval * St) (k : string) (ttl : option Z)
    (c : Cache.Cache) (s s' : St) (now later : Z) (times : list Z)
    (v : jsval) :
  (Cache.get now k c).1 = VNull ->
  fetchFn s = (Fulfilled v, s') ->
  v ≠ VNull ->
  Forall (fun t => t <= later + if_defined ttl (Cache.defaultTTL c) * 1000)
         times ->
  exists c1 c2,
    Cache.getOrFetch now later k (counted fetchFn) ttl c (s, 0%nat)
    = (Fulfilled v, c1, (s', 1%nat))
    /\ getOrFetch_each times k (counted fetchFn) ttl c1 (s', 1%nat)
       = (replicate (length times) (Fulfilled v), c2, (s', 1%nat)).
Proof.
  intros Hmiss Hfetch Hv Htimes.
  rewrite getOrFetch_miss by done. simpl. rewrite Hfetch.
  eexists. 
  pose proof (set_get_eq later k v ttl (Cache.get now k c).2) as Hset.
  destruct (get_config now k c) as [Httl _].
  destruct (getOrFetch_each_hits times k (counted fetchFn) ttl
              (Cache.set later k v ttl (Cache.get now k c).2) (s', 1%nat)
              (written later k v ttl (Cache.get now k c).2) Hset)
    as (c2 & Heach & _).
  - done.
  - simpl. by rewrite Httl.
  - exists c2. split; [reflexivity | exact Heach].
Qed.

Lemma getOrFetch_fetches_once_witness :
  exists c1 c2,
    Cache.getOrFetch 0 5 "ha:entities" (counted (answering (VStr "on")))
      (Some 300) two_slots (tt, 0%nat)
    = (Fulfilled (VStr "on"), c1, (tt, 1%nat))
    /\ getOrFetch_each [6; 299000; 300005] "ha:entities"
         (counted (answering (VStr "on"))) (Some 300) c1 (tt, 1%nat)
       = (replicate 3 (Fulfilled (VStr "on")), c2, (tt, 1%nat)).
Proof.
  apply (getOrFetch_fetches_once (answering (VStr "on")) "ha:entities"
           (Some 300) two_slots tt tt 0 5 [6; 299000; 300005] (VStr "on")).
  - reflexivity.
  - reflexivity.
  - discriminate.
  - simpl. repeat constructor; lia.
Defined.

(** C4 as stated fails for the value [null]: the supplier answers [null],
    the entry is stored until 300 s, and the second call one millisecond
    later calls the supplier again. *)
Lemma getOrFetch_null_is_fetched_again :
  exists c1 c2,
    Cache.getOrFetch 0 0 "k" (counted (answering VNull)) (Some 300)
      (Cache.new Cache.no_options) (tt, 0%nat)
    = (Fulfilled VNull, c1, (tt, 1%nat))
    /\ Map_get "k" (Cache.cache c1)
       = Some {| Cache.value := VNull; Cache.expiresAt := 300000;
                 Cache.key := "k" |}
    /\ Cache.getOrFetch 1 1 "k" (counted (answering VNull)) (Some 300) c1
         (tt, 1%nat)
       = (Fulfilled VNull, c2, (tt, 2%nat)).
Proof. do 2 eexists. vm_compute. repeat split. Qed.

(** C8, amended.  When the supplier is consulted and fails, its error is
    the outcome of [getOrFetch] and [set] is not reached: the store is the
    one the read left.  Every other key keeps its entry; under the key
    itself there is no entry, unless a still-valid entry holding [null] was
    there before, which stays as it was. *)
Theorem getOrFetch_failure_stores_nothing {St : Type}
    (fetchFn : St -> Settled jsval * St) (k : string) (ttl : option Z)
    (c : Cache.Cache) (s s' : St) (now later : Z) (e : Error) :
  Map_wf (Cache.cache c) ->
  (Cache.get now k c).1 = VNull ->
  fetchFn s = (Thrown e, s') ->
  Cache.getOrFetch now later k fetchFn ttl c s
  = (Thrown e, (Cache.get now k c).2, s')
  /\ (forall k', k ≠ k' ->
        Map_get k' (Cache.cache (Cache.get now k c).2)
        = Map_get k' (Cache.cache c))
  /\ (Map_get k (Cache.cache (Cache.get now k c).2) = None
      \/ exists entry,
           Map_get k (Cache.cache c) = Some entry
           /\ Map_get k (Cache.cache (Cache.get now k c).2) = Some entry
           /\ Cache.value entry = VNull
           /\ now <= Cache.expiresAt entry).
Proof.
  intros Hwf Hmiss Hfetch.
  rewrite getOrFetch_miss by done. rewrite Hfetch.
  split; [done|]. split.
  - intros k' Hne. by apply get_other.
  - destruct (Map_get k (Cache.cache c)) as [entry|] eqn:Hk.
    + destruct (Z_lt_le_dec (Cache.expiresAt entry) now) as [Hlt|Hle].
      * left. rewrite (get_stale now k c entry Hk Hlt). simpl.
        by apply Map_get_delete_eq.
      * right. exists entry. rewrite (get_fresh now k c entry Hk Hle) in *.
        simpl in *. done.
    + left. rewrite (get_absent now k c Hk). simpl. done.
Qed.

Lemma getOrFetch_failure_stores_nothing_witness :
  Cache.getOrFetch 10001 10002 "" (failing (MkError "Fetch failed")) None
    full_with_empty_key tt
  = (Thrown (MkError "Fetch failed"),
     (Cache.get 10001 "" full_with_empty_key).2, tt)
  /\ Map_get "" (Cache.cache (Cache.get 10001 "" full_with_empty_key).2) = None.
Proof.
  assert (Hwf : Map_wf (Cache.cache full_with_empty_key)).
  { unfold Map_wf. vm_compute. apply NoDup_cons. split.
    - intros [H|H]%elem_of_cons; [done | by apply elem_of_nil in H].
    - apply NoDup_singleton. }
  destruct (getOrFetch_failure_stores_nothing
              (failing (MkError "Fetch failed")) "" None full_with_empty_key
              tt tt 10001 10002 (MkError "Fetch failed") Hwf eq_refl eq_refl)
    as (H1 & _ & _).
  split; [exact H1 | reflexivity].
Defined.

(** C8 as stated fails when the key already holds a valid [null]: the
    supplier is consulted and fails, and the entry is still in the store
    afterwards. *)
Lemma getOrFetch_failure_keeps_null_entry :
  exists c',
    Cache.getOrFetch 1 1 "k" (failing (MkError "Fetch failed")) None
      holding_null tt
    = (Thrown (MkError "Fetch failed"), c', tt)
    /\ Map_get "k" (Cache.cache c')
       = Some {| Cache.value := VNull; Cache.expiresAt := 300000;
                 Cache.key := "k" |}.
Proof. eexists. vm_compute. split; reflexivity. Qed.

(** ** The connection manager: promises *)

Section Promises.
Import Client.
Implicit Types (w : World) (p q : nat) (e : Error).


Lemma lookup_fresh {A} (l : list A) (x : A) : (l ++ [x]) !! length l = Some x.
Proof. by rewrite list_lookup_middle. Qed.

Lemma insert_fresh {A} (l : list A) (x y : A) :
  <[length l := y]> (l ++ [x]) = l ++ [y].
Proof.
  rewrite insert_app_r_alt by lia. by rewrite Nat.sub_diag.
Qed.

Lemma for_each_cons {A} (f : A -> M unit) (x : A) (r : list A) w :
  (for_each (x :: r) f w).2 = (for_each r f (f x w).2).2.
Proof. simpl. unfold bind. by destruct (f x w). Qed.

(** What [reject] does to the world. *)
Lemma reject_this p e w : this (reject p e w).2 = this w.
Proof.
  open_world w. step_m.
  destruct (_ !! p) as [[]|]; simpl; try done.
  by destruct (bool_decide _).
Qed.

Lemma reject_rt p e w :
  promises (rt (reject p e w).2)
  = match promises (rt w) !! p with
    | Some Pending => <[p := Rejected e]> (promises (rt w))
    | _ => promises (rt w)
    end
  /\ timers (rt (reject p e w).2) = timers (rt w)
  /\ sockets (rt (reject p e w).2) = sockets (rt w).
Proof.
  open_world w. step_m.
  destruct (_ !! p) as [[]|]; simpl; try done.
  by destruct (bool_decide _).
Qed.

(** A pending promise is rejected with the error given; a promise
    already rejected with that error stays so whatever is rejected. *)
Lemma reject_pending p e w :
  promises (rt w) !! p = Some Pending ->
  promises (rt (reject p e w).2) !! p = Some (Rejected e).
Proof.
  intros Hp. destruct (reject_rt p e w) as [-> _]. rewrite Hp.
  apply list_lookup_insert_eq. by eapply lookup_lt_Some.
Qed.

Lemma reject_keeps q o p e w :
  promises (rt w) !! q = Some o -> o ≠ Pending ->
  promises (rt (reject p e w).2) !! q = Some o.
Proof.
  intros Hq Ho. destruct (reject_rt p e w) as [-> _].
  destruct (promises (rt w) !! p) as [[]|] eqn:Hp; try done.
  rewrite list_lookup_insert_ne; [done|]. intros ->. congruence.
Qed.

Lemma reject_other q p e w :
  p ≠ q ->
  promises (rt (reject p e w).2) !! q = promises (rt w) !! q.
Proof.
  intros Hne. destruct (reject_rt p e w) as [-> _].
  destruct (promises (rt w) !! p) as [[]|] eqn:Hp; try done.
  by rewrite list_lookup_insert_ne.
Qed.
End Promises.

(** ** The connection manager: requests *)

Section Requests.
Import Client.
Implicit Types (w : World).

Lemma sendMessage_closed m w :
  transport_open w = false -> sendMessage m w = (Some not_connected, w).
Proof.
  unfold transport_open, sendMessage. open_world w. step_m.
  destruct w_ws as [sock|]; [|done].
  destruct (_ !! sock) as [k|]; [|done].
  simpl. by intros ->.
Qed.

Lemma disconnect_closes w :
  transport_open (disconnect w).2 = false
  /\ state (this (disconnect w).2) = DISCONNECTED
  /\ pendingRequests (this (disconnect w).2) = [].
Proof.
  unfold disconnect, transport_open. open_world w. step_m.
  by destruct w_ws.
Qed.
End Requests.

(** C2, amended.  A request issued while the object holds no socket or
    its socket is not open is rejected at once with "WebSocket is not
    connected" and nothing is sent on any socket; this is the case after
    [disconnect()].  The connection state is not consulted. *)
Theorem sendRequest_without_open_transport (w : Client.World) (ty : string)
    (fs : list (string * jsval)) :
  (transport_open w = false ->
     Client.promises (Client.rt (Client.sendRequest ty fs w).2)
       !! (Client.sendRequest ty fs w).1
     = Some (Client.Rejected Client.not_connected)
     /\ transmitted (Client.sendRequest ty fs w).2 = transmitted w
     /\ Client.state (Client.this (Client.sendRequest ty fs w).2)
        = Client.state (Client.this w))
  /\ transport_open (Client.disconnect w).2 = false
  /\ Client.state (Client.this (Client.disconnect w).2) = Client.DISCONNECTED.
Proof.
  split; [|by destruct (disconnect_closes w) as (? & ? & _)].
  intros Hclosed. unfold Client.sendRequest.
  unfold Client.bind at 1. unfold Client.newPromise at 1.
  unfold transmitted, transport_open in *. open_world w. step_m.
  cbv beta iota zeta delta [Client.ws Client.this Client.sockets Client.rt]
    in Hclosed.
  unfold Client.sendMessage. step_m.
  destruct w_ws as [sock|]; simpl.
  - destruct (w_sockets !! sock) as [k|]; simpl in *.
    + rewrite Hclosed. simpl. rewrite lookup_fresh. simpl.
      destruct (bool_decide _); simpl; rewrite insert_fresh, lookup_fresh; done.
    + rewrite lookup_fresh. simpl.
      destruct (bool_decide _); simpl; rewrite insert_fresh, lookup_fresh; done.
  - rewrite lookup_fresh. simpl.
    destruct (bool_decide _); simpl; rewrite insert_fresh, lookup_fresh; done.
Qed.

Lemma sendRequest_without_open_transport_witness :
  Client.promises
    (Client.rt (Client.sendRequest "get_states" []
                  (Client.disconnect connected).2).2)
    !! (Client.sendRequest "get_states" [] (Client.disconnect connected).2).1
  = Some (Client.Rejected Client.not_connected)
  /\ transmitted (Client.sendRequest "get_states" []
                    (Client.disconnect connected).2).2
     = transmitted (Client.disconnect connected).2.
Proof.
  destruct (sendRequest_without_open_transport (Client.disconnect connected).2
              "get_states" []) as [H _].
  destruct (H eq_refl) as (H1 & H2 & _).
  split; assumption.
Defined.

Section Reachability.
Import Client.
Variable T : string -> option Error.

Lemma reachable_run actions w : reachable T w -> reachable T (run T actions w).
Proof.
  revert w. induction actions as [|a rest IH]; intros w Hw; simpl; [done|].
  apply IH. by constructor.
Qed.
End Reachability.

(** C2 as stated fails in the [AUTHENTICATING] state: the socket is open,
    so the request is transmitted and its promise stays pending. *)
Lemma request_sent_while_authenticating :
  Client.reachable Client.scheme_checking authenticating
  /\ Client.state (Client.this authenticating) = Client.AUTHENTICATING
  /\ Client.promises
       (Client.rt (Client.sendRequest "get_states" [] authenticating).2)
       !! (Client.sendRequest "get_states" [] authenticating).1
     = Some Client.Pending
  /\ transmitted authenticating
     = [[ {| Client.id := None; Client.type := "auth";
             Client.fields := [("access_token", VStr "secret")] |} ]]
  /\ transmitted (Client.sendRequest "get_states" [] authenticating).2
     = [[ {| Client.id := None; Client.type := "auth";
             Client.fields := [("access_token", VStr "secret")] |};
          {| Client.id := Some 1; Client.type := "get_states";
             Client.fields := [] |} ]].
Proof.
  split.
  - apply reachable_run. constructor.
  - vm_compute. repeat split.
Qed.

(** ** The connection manager: [connect] and authentication *)

Section Connect.
Import Client.
Variable T : string -> option Error.
Implicit Types (w : World) (p : nat).







End Connect.

Section ConfigFacts.
Import Config.


Lemma validate_foreign_scheme_message cfg ha :
  homeassistant cfg = Some ha ->
  host ha ≠ "" -> token ha ≠ "" ->
  isWebSocketUrl (host ha) = false ->
  validate (Some cfg)
  = Thrown (MkError
      "homeassistant.host must be a WebSocket URL (ws:// or wss://)").
Proof.
  intros Hha Hh Ht Hurl. unfold validate. rewrite Hha, Hurl.
  destruct (host ha); [done|]. destruct (token ha); [done|]. done.
Qed.
End ConfigFacts.




(** ** The connection manager: [handleClose] *)

Section Close.
Import Client.
Implicit Types (w : World) (p : nat).

Lemma reject_closed_effect i pr w :
  pendingRequests (this (reject_closed (i, pr) w).2)
  = Map_delete i (pendingRequests (this w))
  /\ reconnectAttempts (this (reject_closed (i, pr) w).2)
     = reconnectAttempts (this w)
  /\ state (this (reject_closed (i, pr) w).2) = state (this w)
  /\ promises (rt (reject_closed (i, pr) w).2)
     = match promises (rt w) !! promise pr with
       | Some Pending =>
           <[promise pr := Rejected connection_closed]> (promises (rt w))
       | _ => promises (rt w)
       end
  /\ timers (rt (reject_closed (i, pr) w).2)
     = alter deactivate (timeout pr) (timers (rt w))
  /\ sockets (rt (reject_closed (i, pr) w).2) = sockets (rt w).
Proof.
  unfold reject_closed. open_world w. step_m. simpl.
  destruct (_ !! promise pr) as [[]|]; simpl; try done.
  by destruct (bool_decide _).
Qed.

(** The loop empties the map it runs over. *)
Lemma close_loop_empties entries w :
  pendingRequests (this w) = entries ->
  pendingRequests (this (for_each entries reject_closed w).2) = [].
Proof.
  revert w. induction entries as [|[i pr] rest IH]; intros w Hw.
  - done.
  - rewrite for_each_cons.
    destruct (reject_closed_effect i pr w) as (Hpend & _).
    apply IH. rewrite Hpend, Hw. simpl. by rewrite decide_True.
Qed.

Lemma close_loop_frame entries w :
  reconnectAttempts (this (for_each entries reject_closed w).2)
  = reconnectAttempts (this w)
  /\ state (this (for_each entries reject_closed w).2) = state (this w)
  /\ length (timers (rt (for_each entries reject_closed w).2))
     = length (timers (rt w))
  /\ length (promises (rt (for_each entries reject_closed w).2))
     = length (promises (rt w))
  /\ sockets (rt (for_each entries reject_closed w).2) = sockets (rt w).
Proof.
  revert w. induction entries as [|[i pr] rest IH]; intros w.
  - done.
  - rewrite for_each_cons.
    destruct (reject_closed_effect i pr w) as (_ & Ha & Hs & Hp & Ht & Hk).
    destruct (IH (reject_closed (i, pr) w).2) as (-> & -> & -> & -> & ->).
    rewrite Ha, Hs, Ht, Hp, Hk, length_alter.
    repeat split.
    destruct (promises (rt w) !! promise pr) as [[]|]; try done.
    by rewrite length_insert.
Qed.

(** Every promise the loop meets pending ends rejected with
    "Connection closed". *)
Lemma close_loop_rejects entries p w :
  ((exists i pr, (i, pr) ∈ entries /\ promise pr = p)
   /\ promises (rt w) !! p = Some Pending)
  \/ promises (rt w) !! p = Some (Rejected connection_closed) ->
  promises (rt (for_each entries reject_closed w).2) !! p
  = Some (Rejected connection_closed).
Proof.
  revert w. induction entries as [|[i pr] rest IH]; intros w.
  - intros [[(i & pr & Hin & _) _]|H]; [by apply elem_of_nil in Hin | done].
  - intros Hp. rewrite for_each_cons.
    destruct (reject_closed_effect i pr w) as (_ & _ & _ & Hps & _).
    apply IH. rewrite Hps.
    destruct Hp as [[(i' & pr' & Hin & Hpr) Hpend]|Hrej].
    + destruct (decide (promise pr = p)) as [Heq|Hne].
      * right. rewrite Heq, Hpend. apply list_lookup_insert_eq.
        by eapply lookup_lt_Some.
      * left. split.
        -- apply elem_of_cons in Hin as [Hhd|Hin].
           ++ injection Hhd as -> ->. done.
           ++ by exists i', pr'.
        -- destruct (promises (rt w) !! promise pr) as [[]|]; try done.
           by rewrite list_lookup_insert_ne.
    + right.
      destruct (promises (rt w) !! promise pr) as [[]|] eqn:Hq; try done.
      rewrite list_lookup_insert_ne; [done|]. intros Heq.
      rewrite Heq in Hq. congruence.
Qed.

(** [handleClose], after its loop. *)
Lemma handleClose_after_loop w :
  (handleClose w).2
  = (let n := reconnectAttempts (this (after_close_loop w)) in
     if (n <? maxReconnectAttempts)%nat then
       (bind (set_reconnectAttempts (S n)) (fun _ =>
        bind (emit (EvReconnecting (S n) (backoff (S n)))) (fun _ =>
        bind (setTimeout Reconnect (backoff (S n))) (fun _ => ret tt)))
          (after_close_loop w)).2
     else (emit EvMaxReconnectAttempts (after_close_loop w)).2).
Proof.
  unfold handleClose, after_close_loop, closing.
  open_world w. step_m. simpl.
  destruct (for_each _ reject_closed _) as [[] w2]. simpl.
  destruct w2 as [[] []]. simpl.
  by destruct (_ <? maxReconnectAttempts)%nat.
Qed.

Lemma after_close_loop_frame w :
  reconnectAttempts (this (after_close_loop w)) = reconnectAttempts (this w)
  /\ length (timers (rt (after_close_loop w))) = length (timers (rt w))
  /\ pendingRequests (this (after_close_loop w)) = []
  /\ state (this (after_close_loop w)) = DISCONNECTED.
Proof.
  unfold after_close_loop.
  destruct (close_loop_frame (pendingRequests (this w)) (closing w))
    as (-> & -> & -> & _).
  split; [done|]. split; [done|]. split; [|done].
  by apply close_loop_empties.
Qed.

Lemma backoff_capped n : (6 <= n)%nat -> backoff n = 30000.
Proof.
  intros Hn. unfold backoff, reconnectDelay.
  assert (2 ^ 5 <= 2 ^ (Z.of_nat n - 1)) as Hpow.
  { apply Z.pow_le_mono_r; lia. }
  change (2 ^ 5) with 32 in Hpow. lia.
Qed.
End Close.

Section CloseTail.
Import Client.
Implicit Types (w : World).

Lemma closing_rt w :
  promises (rt (closing w)) = promises (rt w)
  /\ pendingRequests (this (closing w)) = pendingRequests (this w).
Proof. unfold closing. open_world w. step_m. done. Qed.

(** What follows the loop touches neither the promises nor the map. *)
Lemma handleClose_keeps w :
  promises (rt (handleClose w).2) = promises (rt (after_close_loop w))
  /\ pendingRequests (this (handleClose w).2)
     = pendingRequests (this (after_close_loop w)).
Proof.
  rewrite handleClose_after_loop.
  destruct (after_close_loop w) as [[] []]. cbv zeta. step_m. simpl.
  by destruct (_ <? maxReconnectAttempts)%nat.
Qed.

Lemma handleClose_retry w :
  (reconnectAttempts (this w) < maxReconnectAttempts)%nat ->
  reconnectAttempts (this (handleClose w).2) = S (reconnectAttempts (this w))
  /\ timers (rt (handleClose w).2)
     = timers (rt (after_close_loop w))
       ++ [{| callback := Reconnect;
              delay := backoff (S (reconnectAttempts (this w)));
              active := true |}]
  /\ head (emitted (rt (handleClose w).2))
     = Some (EvReconnecting (S (reconnectAttempts (this w)))
               (backoff (S (reconnectAttempts (this w))))).
Proof.
  intros Hlt. rewrite handleClose_after_loop.
  destruct (after_close_loop_frame w) as (Hn & _).
  destruct (after_close_loop w) as [[] []]. cbv zeta. step_m. simpl in *.
  subst. apply Nat.ltb_lt in Hlt. rewrite Hlt. done.
Qed.

Lemma handleClose_exhausted w :
  (maxReconnectAttempts <= reconnectAttempts (this w))%nat ->
  reconnectAttempts (this (handleClose w).2) = reconnectAttempts (this w)
  /\ timers (rt (handleClose w).2) = timers (rt (after_close_loop w))
  /\ head (emitted (rt (handleClose w).2)) = Some EvMaxReconnectAttempts.
Proof.
  intros Hge. rewrite handleClose_after_loop.
  destruct (after_close_loop_frame w) as (Hn & _).
  destruct (after_close_loop w) as [[] []]. cbv zeta. step_m. simpl in *.
  subst. apply Nat.ltb_ge in Hge. rewrite Hge. done.
Qed.
End CloseTail.

(** ** The connection manager: the bookkeeping of the pending map *)

Section Bookkeeping.
Import Client.
Implicit Types (w : World).

Lemma consistent_init : consistent init.
Proof.
  unfold consistent, connect_promises. simpl.
  split; [|split; [|split; [|split]]].
  - intros i pr H. by apply elem_of_nil in H.
  - apply NoDup_nil_2.
  - intros ? ? ? ? H. by apply elem_of_nil in H.
  - intros p H. by apply elem_of_nil in H.
  - intros h t i p H. done.
Qed.

Lemma adds_no_request_refl w : adds_no_request w w.
Proof.
  unfold adds_no_request. split; [done|]. split; [lia|]. split; [lia|].
  split; [done|]. split.
  - intros p Hp. by left.
  - intros h t i p Ht Hcb. left. by exists h, t.
Qed.

Lemma consistent_adds_no_request w w' :
  consistent w -> adds_no_request w w' -> consistent w'.
Proof.
  intros (Hout & Hwf & Hinj & Hcon & Htim) (Hsub & Hid & Hlen & Hsame & Hc & Ht).
  pose proof (sublist_subseteq _ _ Hsub) as Hin.
  unfold consistent. split; [|split; [|split; [|split]]].
  - intros i pr H. rewrite (Hsame i pr H).
    destruct (Hout i pr (Hin _ H)) as [Hp Hlt]. split; [done | lia].
  - unfold Map_wf, Map_keys in *.
    eapply sublist_NoDup; [exact Hwf | exact (fmap_sublist fst _ _ Hsub)].
  - intros i pr i' pr' H1 H2. apply Hinj; by apply Hin.
  - intros p H. split.
    + destruct (Hc p H) as [Hold|Hnew]; [|lia].
      destruct (Hcon p Hold) as [Hlt _]. lia.
    + intros i pr Hpr Heq. destruct (Hc p H) as [Hold|Hnew].
      * destruct (Hcon p Hold) as [_ Hne]. by apply (Hne i pr (Hin _ Hpr)).
      * destruct (Hout i pr (Hin _ Hpr)) as [Hpend _].
        apply lookup_lt_Some in Hpend. lia.
  - intros h t i p H H0. split.
    + destruct (Ht h t i p H H0) as [(h0 & t0 & Hh0 & Hcb0)|Hnew]; [|lia].
      destruct (Htim h0 t0 i p Hh0 Hcb0) as [Hlt _]. lia.
    + intros i' pr' Hpr Heq.
      destruct (Ht h t i p H H0) as [(h0 & t0 & Hh0 & Hcb0)|Hnew].
      * destruct (Htim h0 t0 i p Hh0 Hcb0) as [_ Hkey].
        by apply (Hkey i' pr' (Hin _ Hpr)).
      * destruct (Hout i' pr' (Hin _ Hpr)) as [Hpend _].
        apply lookup_lt_Some in Hpend. lia.
Qed.

Lemma adds_no_request_trans w w1 w2 :
  adds_no_request w w1 -> adds_no_request w1 w2 -> adds_no_request w w2.
Proof.
  intros (Hsub & Hid & Hlen & Hsame & Hc & Ht)
         (Hsub' & Hid' & Hlen' & Hsame' & Hc' & Ht').
  pose proof (sublist_subseteq _ _ Hsub') as Hin'.
  unfold adds_no_request.
  split; [by etrans|]. split; [lia|]. split; [lia|]. split; [|split].
  - intros i pr H. rewrite (Hsame' i pr H). apply (Hsame i pr). by apply Hin'.
  - intros p H. destruct (Hc' p H) as [H1|H1]; [|right; lia].
    destruct (Hc p H1) as [H0|H0]; [by left | right; lia].
  - intros h t i p H Hcb.
    destruct (Ht' h t i p H Hcb) as [(h1 & t1 & H1 & Hcb1)|H1]; [|right; lia].
    destruct (Ht h1 t1 i p H1 Hcb1) as [H0|H0]; [by left | right; lia].
Qed.

Lemma settles_refl ls w : settles ls w w.
Proof. unfold settles. repeat split; (done || lia). Qed.

Lemma settles_trans ls w w1 w2 :
  settles ls w w1 -> settles ls w1 w2 -> settles ls w w2.
Proof.
  intros (Hp & Hid & Ht & Hc & Hlen & Hq) (Hp' & Hid' & Ht' & Hc' & Hlen' & Hq').
  unfold settles. split; [congruence|]. split; [lia|]. split; [congruence|].
  split; [auto|]. split; [congruence|].
  intros q Hnot. rewrite (Hq' q Hnot). by apply Hq.
Qed.

Lemma settles_mono ls ls' w w' :
  (forall p, p ∈ ls -> p ∈ ls') -> settles ls w w' -> settles ls' w w'.
Proof.
  intros Hsub (Hp & Hid & Ht & Hc & Hlen & Hq).
  unfold settles. repeat split; try done.
  intros q Hnot. apply Hq. intros Hin. by apply Hnot, Hsub.
Qed.

Lemma callbacks_lookup (ts ts' : list Timer) h t :
  callback <$> ts' = callback <$> ts ->
  ts' !! h = Some t ->
  exists t0, ts !! h = Some t0 /\ callback t0 = callback t.
Proof.
  intros Heq Hh.
  assert ((callback <$> ts) !! h = Some (callback t)) as Hc.
  { rewrite <- Heq, list_lookup_fmap, Hh. done. }
  rewrite list_lookup_fmap in Hc.
  destruct (ts !! h) as [t0|]; [|done].
  exists t0. split; [done|]. by injection Hc.
Qed.

(** Settling promises that no pending request waits on adds no request. *)
Lemma settles_adds_no_request ls w w' :
  (forall p i pr,
     p ∈ ls -> (i, pr) ∈ pendingRequests (this w) -> promise pr ≠ p) ->
  settles ls w w' -> adds_no_request w w'.
Proof.
  intros Hls (Hp & Hid & Ht & Hc & Hlen & Hq).
  unfold adds_no_request. rewrite Hp.
  split; [done|]. split; [lia|]. split; [lia|]. split; [|split].
  - intros i pr Hin. apply Hq. intros Hl. by apply (Hls _ i pr Hl Hin).
  - intros p H. left. by apply Hc.
  - intros h t i p H Hcb. left.
    destruct (callbacks_lookup _ _ h t Ht H) as (t0 & H0 & Hcb0).
    exists h, t0. split; [done | congruence].
Qed.

(** Entries of the pending map wait on promises that exist. *)
Lemma consistent_promise_lt w i pr :
  consistent w ->
  (i, pr) ∈ pendingRequests (this w) ->
  (promise pr < length (promises (rt w)))%nat.
Proof.
  intros (Hout & _) Hin. destruct (Hout i pr Hin) as [Hp _].
  by eapply lookup_lt_Some.
Qed.

Lemma connectPromise_alter (f : Socket -> Socket) i (ss : list Socket) :
  (forall k, connectPromise (f k) = connectPromise k) ->
  connectPromise <$> alter f i ss = connectPromise <$> ss.
Proof.
  intros Hf. rewrite (list_fmap_alter connectPromise f (fun x => x)).
  - by apply list_alter_id.
  - apply Forall_forall. intros k _. by rewrite Hf.
Qed.

Lemma callback_alter_deactivate h (ts : list Timer) :
  callback <$> alter deactivate h ts = callback <$> ts.
Proof.
  rewrite (list_fmap_alter callback deactivate (fun x => x)).
  - by apply list_alter_id.
  - by apply Forall_forall.
Qed.

Lemma settles_reject p e w : settles [p] w (reject p e w).2.
Proof.
  unfold settles, connect_promises. open_world w. step_m. simpl.
  destruct (w_promises !! p) as [[]|] eqn:Hp; simpl;
    try (repeat split; (done || lia)).
  destruct (bool_decide _); simpl.
  all: split; [done|]; split; [lia|]; split; [done|]; split; [done|].
  all: split; [by rewrite length_insert|].
  all: intros q Hq; apply list_lookup_insert_ne; intros ->;
       apply Hq, list_elem_of_here.
Qed.

Lemma settles_resolve p v w : settles [p] w (resolve p v w).2.
Proof.
  unfold settles, connect_promises. open_world w. step_m. simpl.
  destruct (w_promises !! p) as [[]|] eqn:Hp; simpl;
    try (repeat split; (done || lia)).
  split; [done|]; split; [lia|]; split; [done|]; split; [done|].
  split; [by rewrite length_insert|].
  intros q Hq; apply list_lookup_insert_ne; intros ->;
    apply Hq, list_elem_of_here.
Qed.

Lemma settles_on_auth_failed error p w :
  settles [p] w (on_auth_failed error p w).2.
Proof.
  unfold settles, connect_promises, on_auth_failed. open_world w. step_m. simpl.
  destruct (w_promises !! p) as [[]|] eqn:Hp; simpl;
    try (repeat split; (done || lia)).
  destruct (bool_decide _); simpl.
  all: split; [done|]; split; [lia|]; split; [done|]; split; [done|].
  all: split; [by rewrite length_insert|].
  all: intros q Hq; apply list_lookup_insert_ne; intros ->;
       apply Hq, list_elem_of_here.
Qed.

Lemma settles_on_authenticated p w :
  settles [p] w (on_authenticated p w).2.
Proof.
  unfold settles, connect_promises, on_authenticated.
  open_world w. step_m. simpl.
  destruct (w_promises !! p) as [[]|] eqn:Hp; simpl;
    try (repeat split; (done || lia)).
  split; [done|]; split; [lia|]; split; [done|]; split; [done|].
  split; [by rewrite length_insert|].
  intros q Hq; apply list_lookup_insert_ne; intros ->;
    apply Hq, list_elem_of_here.
Qed.

Lemma settles_for_each (f : nat -> M unit) ls w :
  (forall p w0, settles [p] w0 (f p w0).2) ->
  settles ls w (for_each ls f w).2.
Proof.
  intros Hf. revert w. induction ls as [|p rest IH]; intros w.
  - apply settles_refl.
  - rewrite for_each_cons. eapply settles_trans.
    + eapply settles_mono; [|apply Hf].
      intros q Hq. apply list_elem_of_singleton in Hq as ->.
      apply list_elem_of_here.
    + eapply settles_mono; [|apply IH].
      intros q Hq. by apply list_elem_of_further.
Qed.

Lemma settles_sendMessage m w : settles [] w (sendMessage m w).2.
Proof.
  unfold settles, connect_promises, sendMessage. open_world w. step_m.
  destruct w_ws as [sock|]; simpl; [|repeat split; (done || lia)].
  destruct (w_sockets !! sock) as [k|]; simpl; [|repeat split; (done || lia)].
  destruct (is_open (readyState k)); simpl; [|repeat split; (done || lia)].
  rewrite connectPromise_alter by done. repeat split; (done || lia).
Qed.

Lemma settles_emit_authenticated w :
  settles (onceAuthenticated (this w)) w (emit_authenticated w).2.
Proof.
  unfold emit_authenticated. open_world w. step_m. simpl.
  eapply settles_trans; [|apply settles_for_each, settles_on_authenticated].
  unfold settles, connect_promises. simpl.
  repeat split; try (done || lia).
  intros p Hp. apply elem_of_app. by right.
Qed.

Lemma settles_emit_auth_failed error w :
  settles (onceAuthFailed (this w)) w (emit_auth_failed error w).2.
Proof.
  unfold emit_auth_failed. open_world w. step_m. simpl.
  eapply settles_trans; [|apply settles_for_each, settles_on_auth_failed].
  unfold settles, connect_promises. simpl.
  repeat split; try (done || lia).
  intros p Hp. rewrite !elem_of_app in *. simpl in Hp. tauto.
Qed.

(** Settling the outcome of a [connect] call adds no request. *)
Lemma settles_connect_promises ls w w' :
  consistent w ->
  (forall p, p ∈ ls -> p ∈ connect_promises w) ->
  settles ls w w' -> adds_no_request w w'.
Proof.
  intros (_ & _ & _ & Hcon & _) Hls Hs.
  eapply settles_adds_no_request; [|exact Hs].
  intros p i pr Hp Hin. destruct (Hcon p (Hls p Hp)) as [_ Hne].
  by apply (Hne i pr).
Qed.

Lemma settles_nothing w w' : settles [] w w' -> adds_no_request w w'.
Proof.
  apply settles_adds_no_request. intros p i pr Hp.
  by apply elem_of_nil in Hp.
Qed.

(** Dropping an entry and then settling a promise that only this entry
    waits on adds no request. *)
Lemma drop_entry_adds_no_request w w1 w2 i p :
  consistent w ->
  (forall i' pr', (i', pr') ∈ pendingRequests (this w) ->
                  promise pr' = p -> i' = i) ->
  pendingRequests (this w1) = Map_delete i (pendingRequests (this w)) ->
  messageId (this w1) = messageId (this w) ->
  callback <$> timers (rt w1) = callback <$> timers (rt w) ->
  connect_promises w1 = connect_promises w ->
  promises (rt w1) = promises (rt w) ->
  settles [p] w1 w2 ->
  adds_no_request w w2.
Proof.
  intros Hw Hkey Hp Hid Ht Hc Hps Hs.
  destruct Hw as (_ & Hwf & _).
  eapply adds_no_request_trans.
  - instantiate (1 := w1). unfold adds_no_request.
    rewrite Hp, Hid, Hc, Hps.
    split; [apply Map_delete_sublist|]. split; [lia|]. split; [lia|].
    split; [done|]. split; [by left|].
    intros h t i0 p0 H Hcb. left.
    destruct (callbacks_lookup _ _ h t Ht H) as (t0 & H0 & Hcb0).
    exists h, t0. split; [done | congruence].
  - eapply settles_adds_no_request; [|exact Hs].
    intros q i' pr' Hq Hin Heq.
    apply list_elem_of_singleton in Hq as ->.
    rewrite Hp in Hin.
    pose proof (sublist_subseteq _ _ (Map_delete_sublist i _) _ Hin) as Hin0.
    pose proof (Hkey i' pr' Hin0 Heq) as ->.
    by apply (Map_delete_elem_key i pr' _ Hwf).
Qed.

Lemma respond_adds_no_request w i pending (g : M unit) :
  consistent w ->
  Map_get i (pendingRequests (this w)) = Some pending ->
  (forall w0, settles [promise pending] w0 (g w0).2) ->
  adds_no_request w
    (bind (clearTimeout (timeout pending))
       (fun _ => bind (pending_delete i) (fun _ => g)) w).2.
Proof.
  intros Hw Hget Hg.
  pose proof (Map_get_Some_elem _ _ _ Hget) as Hin.
  pose proof Hw as (_ & _ & Hinj & _).
  set (w1 := (bind (clearTimeout (timeout pending))
                (fun _ => pending_delete i) w).2).
  assert ((bind (clearTimeout (timeout pending))
             (fun _ => bind (pending_delete i) (fun _ => g)) w).2
          = (g w1).2) as ->.
  { unfold w1. open_world w. step_m. done. }
  apply (drop_entry_adds_no_request w w1 (g w1).2 i (promise pending) Hw).
  - intros i' pr' Hin' Heq. by apply (Hinj i' pr' i pending).
  - unfold w1. open_world w. step_m. done.
  - unfold w1. open_world w. step_m. done.
  - unfold w1. open_world w. step_m. simpl. apply callback_alter_deactivate.
  - unfold w1, connect_promises. open_world w. step_m. done.
  - unfold w1. open_world w. step_m. done.
  - apply Hg.
Qed.

Lemma handleMessage_adds_no_request data w :
  consistent w -> adds_no_request w (handleMessage data w).2.
Proof.
  intros Hw. unfold handleMessage. destruct data as [why|message].
  { apply settles_nothing. unfold settles, connect_promises.
    open_world w. step_m. simpl. repeat split; (done || lia). }
  destruct (String.eqb (f_type message) "auth_required").
  { apply settles_nothing.
    unfold bind at 1. unfold set_state at 1, modify at 1.
    unfold bind at 1. unfold emit at 1, modify_rt at 1.
    unfold bind at 1. unfold gets at 1.
    unfold bind at 1.
    match goal with |- context [sendMessage ?m ?w0] =>
      pose proof (settles_sendMessage m w0) as Hs;
      destruct (sendMessage m w0) as [thrown w1]
    end.
    eapply settles_trans; [|eapply settles_trans; [exact Hs|]].
    - unfold settles, connect_promises. open_world w. simpl.
      repeat split; (done || lia).
    - destruct thrown; [|apply settles_refl].
      unfold settles, connect_promises. open_world w1. step_m. simpl.
      repeat split; (done || lia). }
  destruct (String.eqb (f_type message) "auth_ok").
  { eapply settles_connect_promises; [done| |apply settles_emit_authenticated].
    intros p Hp. unfold connect_promises. apply elem_of_app. by left. }
  destruct (String.eqb (f_type message) "auth_invalid").
  { eapply settles_connect_promises; [done| |apply settles_emit_auth_failed].
    intros p Hp. unfold connect_promises. rewrite !elem_of_app. tauto. }
  destruct (String.eqb (f_type message) "event" && truthy_id (f_id message)).
  { apply settles_nothing. unfold settles, connect_promises.
    open_world w. step_m. simpl.
    destruct (Map_get _ w_subs); simpl; repeat split; (done || lia). }
  destruct (f_id message) as [i|]; [|apply adds_no_request_refl].
  unfold bind at 1. unfold gets at 1.
  destruct (Map_get i (pendingRequests (this w))) as [pending|] eqn:Hget;
    [|apply adds_no_request_refl].
  destruct (String.eqb (f_type message) "result").
  - destruct (f_success message).
    + apply respond_adds_no_request; [done | done |].
      intros w0. apply settles_resolve.
    + apply respond_adds_no_request; [done | done |].
      intros w0. apply settles_reject.
  - apply respond_adds_no_request; [done | done |].
    intros w0. apply settles_refl.
Qed.

Lemma disconnect_adds_no_request w : adds_no_request w (disconnect w).2.
Proof.
  unfold adds_no_request, connect_promises, disconnect. open_world w. step_m.
  destruct w_ws as [sock|]; simpl.
  - rewrite connectPromise_alter.
    + split; [apply sublist_nil_l|]. split; [lia|]. split; [lia|].
      split; [intros i pr Hin; by apply elem_of_nil in Hin|].
      split; [by left|].
      intros h t i p Ht Hcb. left. by exists h, t.
    + intros k. by destruct (readyState k).
  - split; [apply sublist_nil_l|]. split; [lia|]. split; [lia|].
    split; [intros i pr Hin; by apply elem_of_nil in Hin|].
    split; [by left|].
    intros h t i p Ht Hcb. left. by exists h, t.
Qed.

Lemma subscribeEvents_settles ev cb w :
  settles [] w (subscribeEvents ev cb w).2.
Proof.
  unfold subscribeEvents.
  unfold bind at 1. unfold gets at 1.
  unfold bind at 1. unfold set_messageId at 1, modify at 1.
  unfold bind at 1. unfold gets at 1.
  unfold bind at 1. unfold set_subscriptions at 1, modify at 1.
  unfold bind at 1.
  match goal with |- context [sendMessage ?m ?w0] =>
    pose proof (settles_sendMessage m w0) as Hs;
    destruct (sendMessage m w0) as [thrown w1]
  end.
  eapply settles_trans;
    [|eapply settles_trans; [exact Hs|]].
  - unfold settles, connect_promises. open_world w. simpl.
    repeat split; (done || lia).
  - destruct thrown; apply settles_refl.
Qed.

Lemma unsubscribeEvents_settles i w :
  settles [] w (unsubscribeEvents i w).2.
Proof.
  unfold unsubscribeEvents.
  unfold bind at 1. unfold gets at 1.
  unfold bind at 1. unfold set_subscriptions at 1, modify at 1.
  unfold bind at 1. unfold gets at 1.
  unfold bind at 1. unfold set_messageId at 1, modify at 1.
  unfold bind at 1.
  match goal with |- context [sendMessage ?m ?w0] =>
    pose proof (settles_sendMessage m w0) as Hs;
    destruct (sendMessage m w0) as [thrown w1]
  end.
  eapply settles_trans;
    [|eapply settles_trans; [exact Hs|]].
  - unfold settles, connect_promises. open_world w. simpl.
    repeat split; (done || lia).
  - destruct thrown; apply settles_refl.
Qed.

Lemma set_readyState_settles sock s w :
  settles [] w (set_readyState sock s w).2.
Proof.
  unfold settles, connect_promises, set_readyState. open_world w. step_m. simpl.
  rewrite connectPromise_alter by done. repeat split; (done || lia).
Qed.

Lemma emit_settles e w : settles [] w (emit e w).2.
Proof.
  unfold settles, connect_promises. open_world w. step_m. simpl.
  repeat split; (done || lia).
Qed.

Lemma catch_emit_settles p w : settles [] w (catch_emit p w).2.
Proof.
  unfold settles, connect_promises, catch_emit. open_world w. step_m. simpl.
  destruct (w_promises !! p) as [[]|]; simpl; repeat split; (done || lia).
Qed.

Lemma reject_closed_quiet entry w :
  messageId (this (reject_closed entry w).2) = messageId (this w)
  /\ connect_promises (reject_closed entry w).2 = connect_promises w
  /\ callback <$> timers (rt (reject_closed entry w).2)
     = callback <$> timers (rt w)
  /\ length (promises (rt (reject_closed entry w).2))
     = length (promises (rt w)).
Proof.
  destruct entry as [i pr].
  unfold reject_closed, connect_promises. open_world w. step_m. simpl.
  destruct (_ !! promise pr) as [[]|]; simpl;
    try (by rewrite callback_alter_deactivate).
  destruct (bool_decide _); simpl;
    by rewrite callback_alter_deactivate, length_insert.
Qed.

Lemma close_loop_quiet entries w :
  messageId (this (for_each entries reject_closed w).2) = messageId (this w)
  /\ connect_promises (for_each entries reject_closed w).2 = connect_promises w
  /\ callback <$> timers (rt (for_each entries reject_closed w).2)
     = callback <$> timers (rt w)
  /\ length (promises (rt (for_each entries reject_closed w).2))
     = length (promises (rt w)).
Proof.
  revert w. induction entries as [|entry rest IH]; intros w; [done|].
  rewrite for_each_cons.
  destruct (reject_closed_quiet entry w) as (Hid & Hc & Ht & Hlen).
  destruct (IH (reject_closed entry w).2) as (-> & -> & -> & ->).
  by rewrite Hid, Hc, Ht, Hlen.
Qed.

Lemma handleClose_adds_no_request w : adds_no_request w (handleClose w).2.
Proof.
  rewrite handleClose_after_loop.
  destruct (after_close_loop_frame w) as (_ & _ & Hempty & _).
  assert (messageId (this (after_close_loop w)) = messageId (this w)
          /\ connect_promises (after_close_loop w) = connect_promises w
          /\ callback <$> timers (rt (after_close_loop w))
             = callback <$> timers (rt w)
          /\ length (promises (rt (after_close_loop w)))
             = length (promises (rt w))) as (Hid & Hc & Ht & Hlen).
  { unfold after_close_loop.
    destruct (close_loop_quiet (pendingRequests (this w)) (closing w))
      as (-> & -> & -> & ->).
    unfold closing, connect_promises. open_world w. step_m. done. }
  cbv zeta.
  assert (forall w',
            pendingRequests (this w') = [] ->
            messageId (this w') = messageId (this w) ->
            connect_promises w' = connect_promises w ->
            (forall h t i p, timers (rt w') !! h = Some t ->
               callback t = RequestTimeout i p ->
               exists h0 t0, timers (rt w) !! h0 = Some t0
                             /\ callback t0 = RequestTimeout i p) ->
            length (promises (rt w')) = length (promises (rt w)) ->
            adds_no_request w w') as Hgen.
  { intros w' H1 H2 H3 H4 H5. unfold adds_no_request.
    rewrite H1, H2, H3, H5.
    split; [apply sublist_nil_l|]. split; [lia|]. split; [lia|].
    split; [intros i pr Hin; by apply elem_of_nil in Hin|].
    split; [by left|]. intros h t i p Hh Hcb. left. by eapply H4. }
  assert (forall h t i p,
            timers (rt (after_close_loop w)) !! h = Some t ->
            callback t = RequestTimeout i p ->
            exists h0 t0, timers (rt w) !! h0 = Some t0
                          /\ callback t0 = RequestTimeout i p) as Hold.
  { intros h t i p Hh Hcb.
    destruct (callbacks_lookup _ _ h t Ht Hh) as (t0 & H0 & Hcb0).
    exists h, t0. split; [done | congruence]. }
  revert Hempty Hid Hc Hold Hlen.
  generalize (after_close_loop w). intros w2 Hempty Hid Hc Hold Hlen.
  destruct (_ <? maxReconnectAttempts)%nat.
  - apply Hgen.
    + open_world w2. step_m. done.
    + open_world w2. step_m. done.
    + rewrite <- Hc. unfold connect_promises. open_world w2. step_m. done.
    + intros h t i p Hh Hcb. apply (Hold h t i p); [|done].
      revert Hh. open_world w2. step_m. simpl. intros Hh.
      apply lookup_app_Some in Hh as [Hh|[_ Hh]]; [done|].
      apply list_lookup_singleton_Some in Hh as [_ <-]. done.
    + rewrite <- Hlen. open_world w2. step_m. done.
  - apply Hgen.
    + open_world w2. step_m. done.
    + open_world w2. step_m. done.
    + rewrite <- Hc. unfold connect_promises. open_world w2. step_m. done.
    + intros h t i p Hh Hcb. apply (Hold h t i p); [|done].
      revert Hh. open_world w2. step_m. done.
    + rewrite <- Hlen. open_world w2. step_m. done.
Qed.

Lemma fresh_id w :
  consistent w ->
  Map_get (messageId (this w)) (pendingRequests (this w)) = None.
Proof.
  intros (Hout & _). apply Map_get_notin. intros Hin.
  unfold Map_keys in Hin. apply list_elem_of_fmap in Hin as ([i pr] & Hi & Hin).
  simpl in Hi. subst. destruct (Hout _ _ Hin) as [_ Hlt]. lia.
Qed.

(** A request that [sendMessage] refuses leaves no entry behind. *)
Lemma sendRequest_refused_adds_no_request w ty fs :
  consistent w ->
  transport_open w = false ->
  adds_no_request w (sendRequest ty fs w).2.
Proof.
  intros Hw Hclosed.
  pose proof (fresh_id w Hw) as Hfresh.
  pose proof (fun i pr => consistent_promise_lt w i pr Hw) as Hlt.
  unfold sendRequest.
  unfold bind at 1. unfold newPromise at 1.
  unfold adds_no_request, connect_promises, transport_open in *.
  open_world w. step_m.
  cbv beta iota zeta delta [ws this sockets rt messageId pendingRequests
                            promises] in Hclosed, Hfresh, Hlt.
  assert (forall m w0,
            ws (this w0) = w_ws -> sockets (rt w0) = w_sockets ->
            sendMessage m w0 = (Some not_connected, w0)) as Hsend.
  { intros m w0 H1 H2. apply sendMessage_closed. unfold transport_open.
    by rewrite H1, H2. }
  rewrite Hsend by done. step_m. simpl.
  rewrite lookup_fresh. simpl.
  rewrite (Map_set_delete_fresh _ _ _ Hfresh).
  destruct (bool_decide _); simpl; rewrite insert_fresh.
  all: split; [done|]; split; [lia|]; split; [rewrite length_app; simpl; lia|].
  all: split; [intros i pr Hin; rewrite lookup_app_l; [done|by eapply Hlt]|].
  all: split; [by left|].
  all: intros h t i p Hh Hcb; rewrite length_app; simpl.
  all: destruct (decide (h = length w_timers)) as [->|Hne];
       [ rewrite list_lookup_alter_eq, lookup_fresh in Hh; simpl in Hh;
         injection Hh as <-; simpl in Hcb; injection Hcb as <- <-;
         right; lia
       | rewrite list_lookup_alter_ne in Hh by done;
         apply lookup_app_Some in Hh as [Hh|[Hge Hh]];
         [ left; by exists h, t
         | apply list_lookup_singleton_Some in Hh as [Hz _]; lia ] ].
Qed.

(** A request that is transmitted gets its entry, its promise and its
    timer, all fresh. *)
Lemma sendRequest_sent_consistent w ty fs :
  consistent w ->
  transport_open w = true ->
  consistent (sendRequest ty fs w).2.
Proof.
  intros Hw Hopen.
  pose proof (fresh_id w Hw) as Hfresh.
  destruct Hw as (Hout & Hwf & Hinj & Hcon & Htim).
  unfold sendRequest, sendMessage.
  unfold consistent, connect_promises, transport_open, Map_wf, Map_keys in *.
  open_world w. step_m.
  cbv beta iota zeta delta [ws this sockets rt messageId pendingRequests
                            promises timers onceAuthenticated onceAuthFailed]
    in Hopen, Hfresh, Hout, Hwf, Hinj, Hcon, Htim.
  destruct w_ws as [sock|]; [|done].
  destruct (w_sockets !! sock) as [k|] eqn:Hk; [|done].
  simpl in Hopen. simpl. rewrite Hopen. simpl.
  rewrite (Map_set_absent _ _ _ Hfresh).
  rewrite connectPromise_alter by done.
  split; [|split; [|split; [|split]]].
  - intros i pr [Hin|Hin]%elem_of_app.
    + destruct (Hout i pr Hin) as [Hp Hi]. split; [|lia].
      rewrite lookup_app_l; [done | by eapply lookup_lt_Some].
    + apply list_elem_of_singleton in Hin. injection Hin as -> ->. simpl.
      split; [apply lookup_fresh | lia].
  - rewrite fmap_app. simpl. apply NoDup_app. split; [done|]. split.
    + intros i Hi Hi'. apply list_elem_of_singleton in Hi' as ->.
      apply list_elem_of_fmap in Hi as ([i pr] & Hi & Hin). simpl in Hi. subst.
      destruct (Hout _ _ Hin) as [_ Hlt]. lia.
    + apply NoDup_singleton.
  - intros i pr i' pr' [H1|H1]%elem_of_app [H2|H2]%elem_of_app Heq.
    + by apply (Hinj i pr i' pr').
    + apply list_elem_of_singleton in H2. injection H2 as -> ->. simpl in Heq.
      destruct (Hout i pr H1) as [Hp _]. apply lookup_lt_Some in Hp. lia.
    + apply list_elem_of_singleton in H1. injection H1 as -> ->. simpl in Heq.
      destruct (Hout i' pr' H2) as [Hp _]. apply lookup_lt_Some in Hp. lia.
    + apply list_elem_of_singleton in H1. apply list_elem_of_singleton in H2.
      congruence.
  - intros p Hp. destruct (Hcon p Hp) as [Hlt Hne]. split.
    + rewrite length_app. simpl. lia.
    + intros i pr [Hin|Hin]%elem_of_app; [by apply (Hne i pr)|].
      apply list_elem_of_singleton in Hin. injection Hin as -> ->. simpl. lia.
  - intros h t i p Hh Hcb. rewrite length_app. simpl.
    apply lookup_app_Some in Hh as [Hh|[Hge Hh]].
    + destruct (Htim h t i p Hh Hcb) as [Hlt Hkey]. split; [lia|].
      intros i' pr' [Hin|Hin]%elem_of_app Heq; [by apply (Hkey i' pr')|].
      apply list_elem_of_singleton in Hin. injection Hin as -> ->.
      simpl in Heq. lia.
    + apply list_lookup_singleton_Some in Hh as [_ <-]. simpl in Hcb.
      injection Hcb as <- <-. split; [lia|].
      intros i' pr' [Hin|Hin]%elem_of_app Heq.
      * destruct (Hout i' pr' Hin) as [Hp _]. apply lookup_lt_Some in Hp. lia.
      * apply list_elem_of_singleton in Hin. by injection Hin as -> ->.
Qed.

Lemma sendRequest_consistent w ty fs :
  consistent w -> consistent (sendRequest ty fs w).2.
Proof.
  intros Hw. destruct (transport_open w) eqn:Hopen.
  - by apply sendRequest_sent_consistent.
  - eapply consistent_adds_no_request; [exact Hw|].
    by apply sendRequest_refused_adds_no_request.
Qed.

Lemma clearTimeout_settles h w : settles [] w (clearTimeout h w).2.
Proof.
  unfold settles, connect_promises. open_world w. step_m. simpl.
  rewrite callback_alter_deactivate. repeat split; (done || lia).
Qed.
End Bookkeeping.

Section BookkeepingSteps.
Import Client.
Variable T : string -> option Error.
Implicit Types (w : World).

Lemma connect_adds_no_request w u tok :
  consistent w -> adds_no_request w (connect T u tok w).2.
Proof.
  intros Hw. pose proof (fun i pr => consistent_promise_lt w i pr Hw) as Hlt.
  unfold adds_no_request, connect_promises, connect in *.
  destruct (T u) as [err|]; open_world w; step_m; simpl in *.
  - rewrite lookup_fresh. simpl.
    destruct (bool_decide _); simpl; rewrite insert_fresh.
    all: split; [done|]; split; [lia|]; split; [rewrite length_app; simpl; lia|].
    all: split; [intros i pr Hin; rewrite lookup_app_l; [done|by eapply Hlt]|].
    all: split; [intros p Hp; by left|].
    all: intros h t i p Ht Hcb; left; by exists h, t.
  - split; [done|]. split; [lia|]. split; [rewrite length_app; simpl; lia|].
    split; [intros i pr Hin; rewrite lookup_app_l; [done|by eapply Hlt]|].
    split.
    + intros p Hp. rewrite length_app. simpl.
      rewrite fmap_app in Hp. simpl in Hp.
      rewrite !elem_of_app in Hp. rewrite !elem_of_app.
      rewrite !list_elem_of_singleton in Hp.
      destruct Hp as [[ ? | -> ]|[[ ? | -> ]|[ ? | -> ]]]; auto; right; lia.
    + intros h t i p Ht Hcb. left. by exists h, t.
Qed.

Lemma reconnect_adds_no_request w :
  consistent w -> adds_no_request w (reconnect T w).2.
Proof.
  intros Hw. unfold reconnect.
  unfold bind at 1. unfold gets at 1.
  destruct (state (this w)); try apply adds_no_request_refl.
  unfold bind at 1. unfold gets at 1.
  unfold bind at 1. unfold gets at 1.
  unfold bind at 1.
  pose proof (connect_adds_no_request w (url (this w)) (token (this w)) Hw)
    as Hc.
  destruct (connect T (url (this w)) (token (this w)) w) as [p w1].
  eapply adds_no_request_trans; [exact Hc|].
  apply settles_nothing, catch_emit_settles.
Qed.

Lemma timeout_adds_no_request w h t i p :
  consistent w ->
  timers (rt w) !! h = Some t ->
  callback t = RequestTimeout i p ->
  adds_no_request w
    (bind (clearTimeout h) (fun _ => run_timer T (RequestTimeout i p)) w).2.
Proof.
  intros Hw Hh Hcb.
  pose proof Hw as (_ & _ & _ & _ & Htim).
  destruct (Htim h t i p Hh Hcb) as [_ Hkey].
  set (w1 := (bind (clearTimeout h) (fun _ => pending_delete i) w).2).
  assert ((bind (clearTimeout h)
             (fun _ => run_timer T (RequestTimeout i p)) w).2
          = (reject p (MkError "Request timeout") w1).2) as ->.
  { unfold w1, run_timer. clear. open_world w.
    unfold bind, clearTimeout, pending_delete, gets, gets_rt, set_timers,
      set_pendingRequests, modify, modify_rt. done. }
  apply (drop_entry_adds_no_request w w1 _ i p Hw Hkey).
  - unfold w1. clear. open_world w. step_m. done.
  - unfold w1. clear. open_world w. step_m. done.
  - unfold w1. clear. open_world w. step_m. simpl.
    apply callback_alter_deactivate.
  - unfold w1, connect_promises. clear. open_world w. step_m. done.
  - unfold w1. clear. open_world w. step_m. done.
  - apply settles_reject.
Qed.

(** Every action keeps the bookkeeping of the pending map. *)
Lemma consistent_step w a : consistent w -> consistent (step T w a).
Proof.
  intros Hw. unfold step.
  destruct a as [u tok| |ty fs|ev cb|i|sock|sock data|sock e|sock|h]; simpl.
  - pose proof (connect_adds_no_request w u tok Hw) as H.
    unfold bind. destruct (connect T u tok w) as [p w1].
    by eapply consistent_adds_no_request.
  - eapply consistent_adds_no_request; [exact Hw|].
    apply disconnect_adds_no_request.
  - pose proof (sendRequest_consistent w ty fs Hw) as H.
    unfold bind. by destruct (sendRequest ty fs w) as [p w1].
  - pose proof (subscribeEvents_settles ev cb w) as H.
    unfold bind. destruct (subscribeEvents ev cb w) as [r w1].
    eapply consistent_adds_no_request; [exact Hw|]. by apply settles_nothing.
  - pose proof (unsubscribeEvents_settles i w) as H.
    unfold bind. destruct (unsubscribeEvents i w) as [r w1].
    eapply consistent_adds_no_request; [exact Hw|]. by apply settles_nothing.
  - eapply consistent_adds_no_request; [exact Hw|].
    apply settles_nothing.
    unfold bind at 1. unfold ws_readyState at 1.
    unfold bind at 1. unfold gets_rt at 1. unfold ret at 1.
    destruct (is_connecting _); [|apply settles_refl].
    unfold bind at 1.
    pose proof (set_readyState_settles sock WS_OPEN w) as H.
    destruct (set_readyState sock WS_OPEN w) as [[] w1].
    eapply settles_trans; [exact H | apply emit_settles].
  - eapply consistent_adds_no_request; [exact Hw|].
    unfold bind at 1. unfold ws_readyState at 1.
    unfold bind at 1. unfold gets_rt at 1. unfold ret at 1.
    destruct (is_open _); [|apply adds_no_request_refl].
    by apply handleMessage_adds_no_request.
  - eapply consistent_adds_no_request; [exact Hw|].
    unfold bind at 1. unfold gets_rt at 1.
    destruct (sockets (rt w) !! sock) as [k|] eqn:Hk;
      [|apply adds_no_request_refl].
    apply (settles_connect_promises [connectPromise k]); [done| |].
    + intros p Hp. apply list_elem_of_singleton in Hp as ->.
      unfold connect_promises. rewrite !elem_of_app. right. right.
      apply list_elem_of_fmap. exists k. split; [done|].
      by eapply list_elem_of_lookup_2.
    + unfold bind at 1.
      pose proof (emit_settles (EvError e) w) as H1.
      destruct (emit (EvError e) w) as [[] w1].
      unfold bind at 1.
      assert (settles [] w1 (set_state ERROR w1).2) as H2.
      { unfold settles, connect_promises. clear. open_world w1. step_m.
        simpl. repeat split; (done || lia). }
      destruct (set_state ERROR w1) as [[] w2].
      eapply settles_trans; [|apply settles_reject].
      eapply settles_mono; [|eapply settles_trans; [exact H1 | exact H2]].
      intros p Hp. by apply elem_of_nil in Hp.
  - eapply consistent_adds_no_request; [exact Hw|].
    unfold bind at 1. unfold gets_rt at 1.
    destruct (sockets (rt w) !! sock) as [k|]; [|apply adds_no_request_refl].
    destruct (is_closed (readyState k)); [apply adds_no_request_refl|].
    unfold bind at 1.
    pose proof (set_readyState_settles sock WS_CLOSED w) as H.
    destruct (set_readyState sock WS_CLOSED w) as [[] w1].
    eapply adds_no_request_trans; [by apply settles_nothing|].
    apply handleClose_adds_no_request.
  - eapply consistent_adds_no_request; [exact Hw|].
    unfold bind at 1. unfold gets_rt at 1.
    destruct (timers (rt w) !! h) as [t|] eqn:Hh; [|apply adds_no_request_refl].
    destruct (active t); [|apply adds_no_request_refl].
    destruct (callback t) as [i p|] eqn:Hcb.
    + by eapply timeout_adds_no_request.
    + unfold bind at 1.
      pose proof (clearTimeout_settles h w) as H.
      destruct (clearTimeout h w) as [[] w1].
      apply settles_nothing in H.
      eapply adds_no_request_trans; [exact H|].
      apply reconnect_adds_no_request.
      by eapply consistent_adds_no_request.
Qed.

Lemma reachable_consistent w : reachable T w -> consistent w.
Proof.
  induction 1 as [|w a Hw IH].
  - apply consistent_init.
  - by apply consistent_step.
Qed.
End BookkeepingSteps.

(** [handleClose] rejects every request whose promise is pending and
    leaves the map empty. *)
Lemma handleClose_rejects_pending (w : Client.World) :
  (forall i pr,
     (i, pr) ∈ Client.pendingRequests (Client.this w) ->
     Client.promises (Client.rt w) !! Client.promise pr = Some Client.Pending) ->
  Client.pendingRequests (Client.this (Client.handleClose w).2) = []
  /\ forall i pr,
       (i, pr) ∈ Client.pendingRequests (Client.this w) ->
       Client.promises (Client.rt (Client.handleClose w).2)
         !! Client.promise pr
       = Some (Client.Rejected Client.connection_closed).
Proof.
  intros Hpending.
  destruct (handleClose_keeps w) as [-> ->].
  destruct (after_close_loop_frame w) as (_ & _ & Hempty & _).
  split; [exact Hempty|].
  intros i pr Hin. unfold after_close_loop.
  destruct (closing_rt w) as [Hps _].
  apply close_loop_rejects. left. split.
  - by exists i, pr.
  - rewrite Hps. by eapply Hpending.
Qed.

Section CloseEvent.
Import Client.
Variable T : string -> option Error.
Implicit Types (w : World).

(** The ['close'] event of a socket that is not yet closed runs
    [handleClose]; marking the socket closed touches nothing else. *)
Lemma step_close w sock k :
  sockets (rt w) !! sock = Some k ->
  is_closed (readyState k) = false ->
  step T w (On_close sock)
  = (handleClose (set_readyState sock WS_CLOSED w).2).2
  /\ this (set_readyState sock WS_CLOSED w).2 = this w
  /\ promises (rt (set_readyState sock WS_CLOSED w).2) = promises (rt w).
Proof.
  intros Hk Hopen. unfold step, perform, set_readyState.
  open_world w. step_m. simpl in *. rewrite Hk, Hopen. simpl.
  split; [|done]. by destruct (handleClose _).
Qed.
End CloseEvent.

(** C6.  In every world the object can reach, when a socket that is not
    yet closed reports ['close'], every entry of the pending map, however
    many there are, is an outstanding request (its promise is pending) and
    is rejected with "Connection closed", and the pending map is empty when
    the handler returns. *)
Theorem close_rejects_every_pending_request
    (T : string -> option Error) (w : Client.World) (sock : nat)
    (k : Client.Socket) :
  Client.reachable T w ->
  Client.sockets (Client.rt w) !! sock = Some k ->
  Client.is_closed (Client.readyState k) = false ->
  Client.pendingRequests (Client.this (Client.step T w (Client.On_close sock)))
  = []
  /\ forall i pr,
       (i, pr) ∈ Client.pendingRequests (Client.this w) ->
       Client.promises (Client.rt w) !! Client.promise pr
       = Some Client.Pending
       /\ Client.promises (Client.rt (Client.step T w (Client.On_close sock)))
            !! Client.promise pr
          = Some (Client.Rejected Client.connection_closed).
Proof.
  intros Hreach Hk Hopen.
  destruct (reachable_consistent T w Hreach) as (Hout & _).
  assert (Hpending : forall i pr,
            (i, pr) ∈ Client.pendingRequests (Client.this w) ->
            Client.promises (Client.rt w) !! Client.promise pr
            = Some Client.Pending).
  { intros i pr Hin. by destruct (Hout i pr Hin). }
  destruct (step_close T w sock k Hk Hopen) as (-> & Hthis & Hps).
  set (w1 := (Client.set_readyState sock Client.WS_CLOSED w).2) in *.
  destruct (handleClose_rejects_pending w1) as [Hempty Hrej].
  - rewrite Hthis, Hps. exact Hpending.
  - split; [exact Hempty|]. intros i pr Hin.
    split; [by apply (Hpending i pr)|].
    apply (Hrej i pr). by rewrite Hthis.
Qed.

Lemma close_rejects_every_pending_request_witness :
  Client.pendingRequests (Client.this three_in_flight)
  = [(1, {| Client.promise := 1; Client.timeout := 0 |});
     (2, {| Client.promise := 2; Client.timeout := 1 |});
     (3, {| Client.promise := 3; Client.timeout := 2 |})]
  /\ Client.pendingRequests
       (Client.this
          (Client.step Client.scheme_checking three_in_flight
             (Client.On_close 0%nat))) = []
  /\ Forall (fun p =>
       Client.promises
         (Client.rt
            (Client.step Client.scheme_checking three_in_flight
               (Client.On_close 0%nat))) !! p
       = Some (Client.Rejected Client.connection_closed)) [1; 2; 3]%nat.
Proof.
  assert (Hreach : Client.reachable Client.scheme_checking three_in_flight).
  { unfold three_in_flight, connected.
    do 2 apply reachable_run. apply Client.reachable_init. }
  destruct (close_rejects_every_pending_request Client.scheme_checking
              three_in_flight 0%nat
              {| Client.sock_url := "ws://ha.local:8123/api/websocket";
                 Client.readyState := Client.WS_OPEN;
                 Client.sent :=
                   [{| Client.id := None; Client.type := "auth";
                       Client.fields := [("access_token", VStr "secret")] |};
                    {| Client.id := Some 1; Client.type := "get_states";
                       Client.fields := [] |};
                    {| Client.id := Some 2; Client.type := "get_services";
                       Client.fields := [] |};
                    {| Client.id := Some 3; Client.type := "get_config";
                       Client.fields := [] |}];
                 Client.connectPromise := 0 |}
              Hreach ltac:(vm_compute; reflexivity) eq_refl)
    as [Hempty Hrej].
  split; [reflexivity|]. split; [exact Hempty|].
  repeat apply Forall_cons_2; [| | |apply Forall_nil_2].
  - apply (Hrej 1 {| Client.promise := 1; Client.timeout := 0 |}).
    vm_compute. apply list_elem_of_here.
  - apply (Hrej 2 {| Client.promise := 2; Client.timeout := 1 |}).
    vm_compute. apply list_elem_of_further, list_elem_of_here.
  - apply (Hrej 3 {| Client.promise := 3; Client.timeout := 2 |}).
    vm_compute. do 2 apply list_elem_of_further. apply list_elem_of_here.
Defined.

(** C7.  The delay of reconnection attempt [n] is
    [min (1000 * 2^(n-1)) 30000] milliseconds: 1, 2, 4, 8 and 16 seconds
    for attempts 1 to 5 and 30 seconds from attempt 6 on.  A close with
    fewer than ten attempts counted counts one more, announces it and sets
    one timer with that delay; a close with ten attempts counted sets no
    timer and emits ['max_reconnect_attempts'].  Eleven closes in a row
    after a successful connection announce the ten delays in order and give
    up once. *)
Theorem reconnect_backoff_schedule (w : Client.World) :
  (Client.backoff 1 = 1000 /\ Client.backoff 2 = 2000
   /\ Client.backoff 3 = 4000 /\ Client.backoff 4 = 8000
   /\ Client.backoff 5 = 16000)
  /\ (forall n, (6 <= n)%nat -> Client.backoff n = 30000)
  /\ (forall n, Client.backoff n = Z.min (1000 * 2 ^ (Z.of_nat n - 1)) 30000)
  /\ ((Client.reconnectAttempts (Client.this w) < 10)%nat ->
        Client.reconnectAttempts (Client.this (Client.handleClose w).2)
        = S (Client.reconnectAttempts (Client.this w))
        /\ (exists ts,
              Client.timers (Client.rt (Client.handleClose w).2)
              = ts ++ [{| Client.callback := Client.Reconnect;
                          Client.delay :=
                            Client.backoff
                              (S (Client.reconnectAttempts (Client.this w)));
                          Client.active := true |}]
              /\ length ts = length (Client.timers (Client.rt w)))
        /\ head (Client.emitted (Client.rt (Client.handleClose w).2))
           = Some (Client.EvReconnecting
                     (S (Client.reconnectAttempts (Client.this w)))
                     (Client.backoff
                        (S (Client.reconnectAttempts (Client.this w))))))
  /\ ((10 <= Client.reconnectAttempts (Client.this w))%nat ->
        Client.reconnectAttempts (Client.this (Client.handleClose w).2)
        = Client.reconnectAttempts (Client.this w)
        /\ length (Client.timers (Client.rt (Client.handleClose w).2))
           = length (Client.timers (Client.rt w))
        /\ head (Client.emitted (Client.rt (Client.handleClose w).2))
           = Some Client.EvMaxReconnectAttempts)
  /\ (announced_delays
        (Client.run Client.scheme_checking (drops 11 0 0) connected)
      = [1000; 2000; 4000; 8000; 16000; 30000; 30000; 30000; 30000; 30000]
      /\ gave_up (Client.run Client.scheme_checking (drops 10 0 0) connected)
         = 0%nat
      /\ gave_up (Client.run Client.scheme_checking (drops 11 0 0) connected)
         = 1%nat).
Proof.
  split; [by vm_compute|].
  split; [exact backoff_capped|].
  split; [reflexivity|].
  split; [|split].
  - intros Hlt. destruct (handleClose_retry w Hlt) as (Hn & Hts & Hev).
    destruct (after_close_loop_frame w) as (_ & Hlen & _).
    split; [exact Hn|]. split; [|exact Hev].
    by exists (Client.timers (Client.rt (after_close_loop w))).
  - intros Hge. destruct (handleClose_exhausted w Hge) as (Hn & Hts & Hev).
    destruct (after_close_loop_frame w) as (_ & Hlen & _).
    split; [exact Hn|]. split; [|exact Hev].
    by rewrite Hts.
  - vm_compute. repeat split.
Qed.

Lemma reconnect_backoff_schedule_witness :
  Client.reconnectAttempts (Client.this (Client.handleClose connected).2)
  = 1%nat
  /\ head (Client.emitted (Client.rt (Client.handleClose connected).2))
     = Some (Client.EvReconnecting 1 1000).
Proof.
  destruct (reconnect_backoff_schedule connected) as (_ & _ & _ & H & _).
  destruct (H ltac:(vm_compute; lia)) as (H1 & _ & H3).
  split; [exact H1 | exact H3].
Defined.

(** ** The connection manager: [disconnect] and the reconnection timer *)

Section Disconnect.
Import Client.
Variable T : string -> option Error.
Implicit Types (w : World).

Lemma disconnect_keeps_timers w :
  timers (rt (disconnect w).2) = timers (rt w)
  /\ promises (rt (disconnect w).2) = promises (rt w)
  /\ state (this (disconnect w).2) = DISCONNECTED.
Proof.
  unfold disconnect. open_world w. step_m. by destruct w_ws.
Qed.

(** The timer callback calls [connect] whenever it finds the state
    [DISCONNECTED]. *)
Lemma reconnect_when_disconnected w :
  state (this w) = DISCONNECTED ->
  state (this (reconnect T w).2) ≠ DISCONNECTED
  /\ length (promises (rt (reconnect T w).2)) = S (length (promises (rt w))).
Proof.
  unfold reconnect, connect, catch_emit. open_world w. step_m. simpl.
  intros ->. cbv iota beta. step_m. simpl.
  destruct (T w_url) as [err|]; step_m; simpl.
  - rewrite lookup_fresh. simpl.
    destruct (bool_decide _); simpl; rewrite insert_fresh, lookup_fresh;
      simpl; rewrite length_app; simpl; split; (done || lia).
  - rewrite lookup_fresh. simpl. rewrite length_app. simpl.
    split; (done || lia).
Qed.

(** A reconnection that is scheduled when [disconnect()] is called is
    carried out when its timer comes due. *)
Lemma scheduled_reconnect_survives_disconnect w h t :
  timers (rt w) !! h = Some t ->
  callback t = Reconnect ->
  active t = true ->
  state (this (step T w Call_disconnect)) = DISCONNECTED
  /\ state (this (run T [Call_disconnect; On_timer h] w)) ≠ DISCONNECTED
  /\ length (promises (rt (run T [Call_disconnect; On_timer h] w)))
     = S (length (promises (rt w))).
Proof.
  intros Hh Hcb Hact.
  destruct (disconnect_keeps_timers w) as (Hts & Hps & Hst).
  change (step T w Call_disconnect) with (disconnect w).2.
  change (run T [Call_disconnect; On_timer h] w)
    with (step T (disconnect w).2 (On_timer h)).
  split; [exact Hst|].
  rewrite <- Hts in Hh. rewrite <- Hps.
  set (w1 := (disconnect w).2) in *. clearbody w1.
  unfold step, perform.
  assert (state (this (clearTimeout h w1).2) = DISCONNECTED
          /\ promises (rt (clearTimeout h w1).2) = promises (rt w1))
    as [Hst' Hps'].
  { clear Hh. open_world w1. step_m. simpl in *. done. }
  assert ((bind (gets_rt timers) (fun ts =>
            match ts !! h with
            | Some t0 =>
                if active t0
                then bind (clearTimeout h) (fun _ => run_timer T (callback t0))
                else ret tt
            | None => ret tt
            end) w1).2
          = (reconnect T (clearTimeout h w1).2).2) as ->.
  { unfold bind at 1. unfold gets_rt at 1. rewrite Hh, Hact, Hcb.
    unfold bind. simpl. by destruct (clearTimeout h w1). }
  rewrite <- Hps'. by apply reconnect_when_disconnected.
Qed.
End Disconnect.

(** C1.  After a successful connection the server drops the socket, which
    schedules a reconnection in one second; [disconnect()] is called and
    leaves the state [DISCONNECTED] with the timer still active; when the
    timer comes due [connect] runs again: the state is [CONNECTING] and a
    second socket exists.  The same happens when [disconnect()] is called
    on the live connection and the ['close'] event of its socket follows. *)
Theorem disconnect_does_not_cancel_reconnect :
  (Client.state
     (Client.this
        (Client.run Client.scheme_checking
           [Client.On_close 0%nat; Client.Call_disconnect] connected))
   = Client.DISCONNECTED
   /\ Client.timers
        (Client.rt
           (Client.run Client.scheme_checking
              [Client.On_close 0%nat; Client.Call_disconnect] connected))
      = [{| Client.callback := Client.Reconnect; Client.delay := 1000;
            Client.active := true |}]
   /\ Client.state
        (Client.this
           (Client.run Client.scheme_checking
              [Client.On_close 0%nat; Client.Call_disconnect;
               Client.On_timer 0%nat] connected))
      = Client.CONNECTING
   /\ length
        (Client.sockets
           (Client.rt
              (Client.run Client.scheme_checking
                 [Client.On_close 0%nat; Client.Call_disconnect;
                  Client.On_timer 0%nat] connected)))
      = 2%nat)
  /\ (Client.state
        (Client.this
           (Client.run Client.scheme_checking [Client.Call_disconnect]
              connected))
      = Client.DISCONNECTED
      /\ Client.timers
           (Client.rt
              (Client.run Client.scheme_checking
                 [Client.Call_disconnect; Client.On_close 0%nat] connected))
         = [{| Client.callback := Client.Reconnect; Client.delay := 1000;
               Client.active := true |}]
      /\ Client.state
           (Client.this
              (Client.run Client.scheme_checking
                 [Client.Call_disconnect; Client.On_close 0%nat;
                  Client.On_timer 0%nat] connected))
         = Client.CONNECTING).
Proof. vm_compute. repeat split. Qed.

(** * Further properties *)

(** ** The cache: what every sequence of calls keeps *)

Section CacheCalls.
Import Cache.
Implicit Types (c : Cache) (k : string) (now : Z).

Lemma filter_keys_wf (P : string * CacheEntry -> bool) (m : list (string * CacheEntry)) :
  Map_wf m -> Map_wf (filter (fun kv => P kv) m).
Proof.
  unfold Map_wf, Map_keys. intros Hwf.
  eapply sublist_NoDup; [exact Hwf|].
  apply fmap_sublist, sublist_filter.
Qed.

Lemma invalidatePattern_sweep test li c :
  invalidatePattern test li c
  = (emit (cache_pattern_invalidate (sweep test li (cache c)).1.2)
       (sync_size (with_cache (sweep test li (cache c)).1.1 c)),
     (sweep test li (cache c)).2).
Proof.
  unfold invalidatePattern.
  by destruct (sweep test li (cache c)) as [[kept count] li'].
Qed.

Lemma sweep_sublist test li (m : list (string * CacheEntry)) :
  (sweep test li m).1.1 `sublist_of` m.
Proof.
  revert li. induction m as [|[k e] r IH]; intros li; cbn [sweep]; [done|].
  destruct (test li k) as [matched li1]. specialize (IH li1).
  destruct (sweep test li1 r) as [[kept count] li2]. cbn [fst] in *.
  destruct matched; cbn [fst];
    [by apply sublist_cons | by apply sublist_skip].
Qed.

Lemma sweep_count test li (m : list (string * CacheEntry)) :
  (length (sweep test li m).1.1 + (sweep test li m).1.2)%nat = length m.
Proof.
  revert li. induction m as [|[k e] r IH]; intros li; cbn [sweep]; [done|].
  destruct (test li k) as [matched li1]. specialize (IH li1).
  destruct (sweep test li1 r) as [[kept count] li2]. cbn [fst snd] in *.
  destruct matched; cbn [fst snd length]; lia.
Qed.

Lemma sweep_stateless (pattern : string -> bool) test li
    (m : list (string * CacheEntry)) :
  (forall i k, test i k = (pattern k, i)) ->
  sweep test li m
  = (filter (fun kv => negb (pattern kv.1)) m,
     length (filter (fun kv => pattern kv.1) m), li).
Proof.
  intros Htest. induction m as [|[k e] r IH]; cbn [sweep]; [done|].
  rewrite Htest, IH, !filter_cons. cbn [fst].
  by destruct (pattern k).
Qed.

Lemma invalidatePattern_wf test li c :
  Map_wf (cache c) -> Map_wf (cache (invalidatePattern test li c).1).
Proof.
  rewrite invalidatePattern_sweep. cbn [fst]. unfold Map_wf, Map_keys.
  intros Hwf. eapply sublist_NoDup; [exact Hwf|].
  apply fmap_sublist. simpl. apply sweep_sublist.
Qed.

Lemma get_tracked now k c : tracked c -> tracked (get now k c).2.
Proof.
  intros [Hsz Hwf]. split; [|by apply get_wf].
  unfold get. destruct (Map_get k (cache c)) as [entry|]; [|done].
  by destruct (now >? expiresAt entry).
Qed.

Lemma evictOldest_tracked c : tracked c -> tracked (evictOldest c).
Proof.
  intros [Hsz Hwf]. split; [|by apply evictOldest_wf].
  unfold evictOldest.
  destruct (scanOldest (cache c) None None) as [k0|]; [|done].
  by destruct (truthy_string k0).
Qed.

Lemma set_tracked now k v ttl c : tracked c -> tracked (set now k v ttl c).
Proof. intros [Hsz Hwf]. split; [done | by apply set_wf]. Qed.

Lemma has_tracked now k c : tracked c -> tracked (has now k c).2.
Proof.
  intros [Hsz Hwf]. unfold has.
  destruct (Map_get k (cache c)) as [entry|]; [|done].
  destruct (now >? expiresAt entry); [|done].
  split; [done|]. simpl. by apply Map_delete_wf.
Qed.

Lemma touch_tracked now k ttl c : tracked c -> tracked (touch now k ttl c).2.
Proof.
  intros [Hsz Hwf]. split; [|by apply touch_wf].
  unfold touch. destruct (Map_get k (cache c)) as [entry|] eqn:Hk; [|done].
  simpl. rewrite Hsz. symmetry. by eapply Map_set_present_size.
Qed.

Lemma getOrFetch_tracked {St} now later k (fetchFn : St -> Settled jsval * St)
    ttl c s :
  tracked c -> tracked (getOrFetch now later k fetchFn ttl c s).1.2.
Proof.
  intros Ht. unfold getOrFetch.
  pose proof (get_tracked now k c Ht) as Hget.
  destruct (get now k c) as [cached c1]. simpl in Hget.
  destruct (not_null cached); [done|].
  destruct (fetchFn s) as [[v|e] s']; [|done].
  simpl. by apply set_tracked.
Qed.

Lemma call_tracked c a :
  is_destroy a = false -> tracked c -> tracked (call c a).
Proof.
  intros Hd Ht. destruct a; simpl.
  - by apply get_tracked.
  - by apply set_tracked.
  - by apply has_tracked.
  - destruct Ht as [Hsz Hwf]. split; [|by apply invalidate_wf].
    unfold invalidate. by destruct (Map_has k (cache c)).
  - split; [done | apply NoDup_nil_2].
  - destruct Ht as [Hsz Hwf]. split; [|by apply invalidatePattern_wf].
    by rewrite invalidatePattern_sweep.
  - by apply getOrFetch_tracked.
  - by apply touch_tracked.
  - destruct Ht as [Hsz Hwf]. unfold cleanup.
    destruct (0 <? _)%nat; [|done].
    split; [done|]. simpl.
    by apply (filter_keys_wf (fun kv => negb (now >? expiresAt kv.2))).
  - done.
  - by apply has_tracked.
Qed.

Lemma calls_tracked l c :
  Forall (fun a => is_destroy a = false) l ->
  tracked c -> tracked (calls l c).
Proof.
  revert c. induction l as [|a l IH]; intros c Hl Ht; [done|].
  apply Forall_cons in Hl as [Ha Hl].
  simpl. apply IH; [done|]. by apply call_tracked.
Qed.

(** The store is empty, as [destroy] leaves it, or the counter agrees. *)
Lemma call_stale c a :
  Map_wf (cache c) ->
  cache c = [] \/ size (stats c) = Map_size (cache c) ->
  Map_wf (cache (call c a))
  /\ (cache (call c a) = []
      \/ size (stats (call c a)) = Map_size (cache (call c a))).
Proof.
  intros Hwf [Hnil|Hsz].
  - destruct c as [m d mx cp st em]. simpl in Hnil. subst m.
    assert (Map_wf (@nil (string * CacheEntry))) as Hnd by apply NoDup_nil_2.
    destruct a; try (split; [exact Hnd | by left]).
    + split; [by apply set_wf | by right].
    + cbn [call]. unfold getOrFetch, get. cbn [Map_get cache not_null].
      destruct (fetchFn ()) as [[v|e] s']; cbn [fst snd].
      * split; [by apply set_wf | by right].
      * split; [exact Hnd | by left].
  - destruct (decide (is_destroy a = true)) as [Hd|Hd].
    + destruct a; try done. simpl. split; [apply NoDup_nil_2 | by left].
    + apply not_true_is_false in Hd.
      destruct (call_tracked c a Hd (conj Hsz Hwf)) as [? ?].
      split; [done | by right].
Qed.

Lemma calls_stale l c :
  Map_wf (cache c) ->
  cache c = [] \/ size (stats c) = Map_size (cache c) ->
  Map_wf (cache (calls l c))
  /\ (cache (calls l c) = []
      \/ size (stats (calls l c)) = Map_size (cache (calls l c))).
Proof.
  revert c. induction l as [|a l IH]; intros c Hwf Hc; [done|].
  simpl. destruct (call_stale c a Hwf Hc) as [Hwf' Hc']. by apply IH.
Qed.

Lemma get_reads now k c : reads_of (get now k c).2 = S (reads_of c).
Proof.
  unfold get, reads_of.
  destruct (Map_get k (cache c)) as [entry|]; simpl; [|lia].
  destruct (now >? expiresAt entry); simpl; lia.
Qed.

Lemma evictOldest_reads c : reads_of (evictOldest c) = reads_of c.
Proof.
  unfold evictOldest, reads_of.
  destruct (scanOldest (cache c) None None) as [k0|]; [|done].
  by destruct (truthy_string k0).
Qed.

Lemma set_reads now k v ttl c : reads_of (set now k v ttl c) = reads_of c.
Proof.
  unfold set.
  destruct ((Z.of_nat (Map_size (cache c)) >=? maxSize c)
            && negb (Map_has k (cache c))); [|done].
  by rewrite <- (evictOldest_reads c).
Qed.

Lemma call_reads c a :
  reads_of (call c a) = ((if is_read a then 1 else 0) + reads_of c)%nat.
Proof.
  destruct a; simpl.
  - apply get_reads.
  - apply set_reads.
  - unfold has. destruct (Map_get k (cache c)) as [entry|]; [|done].
    by destruct (now >? expiresAt entry).
  - unfold invalidate. by destruct (Map_has k (cache c)).
  - done.
  - by rewrite invalidatePattern_sweep.
  - unfold getOrFetch.
    pose proof (get_reads now k c) as Hget.
    destruct (get now k c) as [cached c1]. simpl in Hget.
    destruct (not_null cached); [done|].
    destruct (fetchFn ()) as [[v|e] s']; [|done].
    simpl. by rewrite set_reads.
  - unfold touch. by destruct (Map_get k (cache c)).
  - unfold cleanup. by destruct (0 <? _)%nat.
  - done.
  - unfold isValid, has. destruct (Map_get k (cache c)) as [entry|]; [|done].
    by destruct (now >? expiresAt entry).
Qed.

Lemma calls_reads l c :
  reads_of (calls l c) = (length (filter (fun a => is_read a) l) + reads_of c)%nat.
Proof.
  revert c. induction l as [|a l IH]; intros c; [done|].
  simpl. rewrite IH, call_reads.
  rewrite filter_cons. destruct (is_read a); simpl; lia.
Qed.
End CacheCalls.

(** X1.  On a fresh cache, after any sequence of calls of [get], [set],
    [has], [isValid], [invalidate], [invalidateAll], [invalidatePattern],
    [getOrFetch], [touch], [destroy] and of the periodic [cleanup], the
    keys of the store are unique and [hits + misses] is the number of
    reads ([get] and [getOrFetch]) among the calls.  The [size] counter
    of the statistics equals the number of entries of the store as long
    as [destroy] is not among the calls; [destroy] clears the store and
    leaves the counter, which then is out of date until a later call sets
    it: in any case the counter is right or the store is empty.  So after
    a [set] and a [destroy] the counter says one and the store is
    empty. *)
Theorem stats_track_the_store (options : Cache.CacheOptions)
    (l : list CacheCall) :
  (Forall (fun a => is_destroy a = false) l ->
   Cache.size (Cache.getStats (calls l (Cache.new options)))
   = Cache.cache_size (calls l (Cache.new options)))
  /\ (Cache.size (Cache.getStats (calls l (Cache.new options)))
      = Cache.cache_size (calls l (Cache.new options))
      \/ Cache.cache_size (calls l (Cache.new options)) = 0%nat)
  /\ NoDup (Cache.keys (calls l (Cache.new options)))
  /\ (Cache.hits (Cache.getStats (calls l (Cache.new options)))
      + Cache.misses (Cache.getStats (calls l (Cache.new options))))%nat
     = length (filter (fun a => is_read a) l)
  /\ (forall now k v ttl,
        Cache.cache_size
          (calls (l ++ [Do_set now k v ttl; Do_destroy])
             (Cache.new options)) = 0%nat
        /\ (0 < Cache.size
                  (Cache.getStats
                     (calls (l ++ [Do_set now k v ttl; Do_destroy])
                        (Cache.new options))))%nat).
Proof.
  destruct (calls_stale l (Cache.new options)) as [Hwf Hc].
  { apply new_wf. }
  { by left. }
  split.
  { intros Hl. destruct (calls_tracked l (Cache.new options) Hl) as [Hsz _].
    - split; [done | apply new_wf].
    - done. }
  split.
  { destruct Hc as [Hnil|Hsz]; [right | by left].
    unfold Cache.cache_size. by rewrite Hnil. }
  split; [done|]. split.
  { pose proof (calls_reads l (Cache.new options)) as H.
    unfold reads_of in H. unfold Cache.getStats. rewrite H. simpl. lia. }
  intros now k v ttl.
  unfold calls. rewrite foldl_app. fold (calls l (Cache.new options)).
  cbn [foldl call]. split; [done|].
  pose proof (set_get_eq now k v ttl (calls l (Cache.new options))) as Hget.
  unfold Cache.destroy, Cache.getStats.
  cbn [Cache.stats Cache.with_cache].
  change (Cache.size (Cache.stats (Cache.set now k v ttl ?c)))
    with (Map_size (Cache.cache (Cache.set now k v ttl c))).
  destruct (Cache.cache (Cache.set now k v ttl _)); [done|].
  simpl. lia.
Qed.

Section CacheBound.
Import Cache.
Implicit Types (c : Cache) (k : string) (now : Z).






End CacheBound.

Section ExpiryFacts.
Implicit Types (m : list (string * Cache.CacheEntry)) (k : string).









End ExpiryFacts.



(** ** The cache: the other methods *)

Section CacheMore.
Import Cache.
Implicit Types (c : Cache) (k : string) (now : Z).

Lemma set_defaultTTL now k v ttl c :
  defaultTTL (set now k v ttl c) = defaultTTL c.
Proof.
  unfold set.
  destruct ((Z.of_nat (Map_size (cache c)) >=? maxSize c)
            && negb (Map_has k (cache c))); [|done].
  simpl. by destruct (evictOldest_config c).
Qed.

Lemma has_true now k c :
  (has now k c).1 = true
  <-> exists entry, Map_get k (cache c) = Some entry /\ now <= expiresAt entry.
Proof.
  unfold has. destruct (Map_get k (cache c)) as [entry|].
  - destruct (now >? expiresAt entry) eqn:Hgt; simpl.
    + split; [done|]. intros (e & [= <-] & Hle). lia.
    + split; [|done]. intros _. exists entry. split; [done | lia].
  - simpl. split; [done|]. by intros (e & ? & _).
Qed.

Lemma Map_get_filter_keys (p : string -> bool) k (m : list (string * CacheEntry)) :
  Map_get k (filter (fun kv => negb (p kv.1)) m)
  = if p k then None else Map_get k m.
Proof.
  induction m as [|[k0 e0] r IH]; simpl.
  - by destruct (p k).
  - rewrite filter_cons. simpl.
    destruct (p k0) eqn:Hk0; simpl.
    + rewrite IH. destruct (decide (k = k0)) as [->|Hne]; [|done].
      by rewrite Hk0.
    + destruct (decide (k = k0)) as [->|Hne]; [|done].
      by rewrite Hk0.
Qed.

Lemma filter_split_length {A} (p : A -> bool) (l : list A) :
  (length l - length (filter (fun x => negb (p x)) l))%nat
  = length (filter (fun x => p x) l).
Proof.
  induction l as [|x l IH]; [done|].
  rewrite !filter_cons. pose proof (length_filter (fun x => negb (p x)) l).
  destruct (p x); simpl in *; lia.
Qed.
Lemma filter_all {A} (p : A -> bool) (l : list A) :
  (forall x, x ∈ l -> p x = true) -> filter (fun x => p x) l = l.
Proof.
  induction l as [|x l IH]; intros Hall; [done|].
  rewrite filter_cons. rewrite (Hall x) by apply list_elem_of_here. simpl.
  f_equal. apply IH. intros y Hy. apply Hall. by apply list_elem_of_further.
Qed.

Lemma filter_full_length {A} (p : A -> bool) (l : list A) :
  (length l <= length (filter (fun x => p x) l))%nat ->
  filter (fun x => p x) l = l.
Proof.
  induction l as [|x l IH]; [done|].
  rewrite filter_cons. pose proof (length_filter (fun x => p x) l).
  destruct (p x); simpl; intros Hlen; [|lia].
  f_equal. apply IH. lia.
Qed.

Lemma filter_some_out {A} (p : A -> bool) (l : list A) x :
  x ∈ l -> p x = false ->
  (length (filter (fun x => p x) l) < length l)%nat.
Proof.
  induction l as [|y l IH]; intros Hin Hp.
  - by apply elem_of_nil in Hin.
  - rewrite filter_cons. pose proof (length_filter (fun x => p x) l).
    apply elem_of_cons in Hin as [->|Hin].
    + rewrite Hp. simpl. lia.
    + specialize (IH Hin Hp). destruct (p y); simpl; lia.
Qed.
Lemma cleanup_cases now c :
  let kept := filter (fun kv : string * CacheEntry =>
                        negb (now >? expiresAt kv.2)) (cache c) in
  (kept = cache c /\ cleanup now c = c)
  \/ ((length kept < length (cache c))%nat
      /\ cleanup now c
         = emit (cache_cleanup (length (cache c) - length kept))
             (sync_size (with_cache kept c))).
Proof.
  intros kept. unfold cleanup, Map_size. fold kept.
  pose proof (length_filter
                (fun kv : string * CacheEntry => negb (now >? expiresAt kv.2))
                (cache c)) as Hlen.
  fold kept in Hlen.
  destruct (0 <? length (cache c) - length kept)%nat eqn:Hpos.
  - right. apply Nat.ltb_lt in Hpos. split; [lia | done].
  - left. apply Nat.ltb_ge in Hpos. split; [|done].
    apply (filter_full_length
             (fun kv : string * CacheEntry => negb (now >? expiresAt kv.2))).
    fold kept. lia.
Qed.
End CacheMore.

(** X3.  A value written with [set] is read back by [get] as a hit for as
    long as the clock has not passed [now + ttl * 1000] (the default TTL when
    none is given), and as a miss afterwards. *)
Theorem set_then_get (now t : Z) (k : string) (v : jsval) (ttl : option Z)
    (c : Cache.Cache) :
  (t <= now + if_defined ttl (Cache.defaultTTL c) * 1000 ->
     (Cache.get t k (Cache.set now k v ttl c)).1 = v
     /\ Cache.cache (Cache.get t k (Cache.set now k v ttl c)).2
        = Cache.cache (Cache.set now k v ttl c)
     /\ Cache.hits (Cache.stats (Cache.get t k (Cache.set now k v ttl c)).2)
        = S (Cache.hits (Cache.stats c))
     /\ Cache.misses (Cache.stats (Cache.get t k (Cache.set now k v ttl c)).2)
        = Cache.misses (Cache.stats c))
  /\ (now + if_defined ttl (Cache.defaultTTL c) * 1000 < t ->
        (Cache.get t k (Cache.set now k v ttl c)).1 = VNull
        /\ Cache.hits (Cache.stats (Cache.get t k (Cache.set now k v ttl c)).2)
           = Cache.hits (Cache.stats c)
        /\ Cache.misses
             (Cache.stats (Cache.get t k (Cache.set now k v ttl c)).2)
           = S (Cache.misses (Cache.stats c))).
Proof.
  pose proof (set_get_eq now k v ttl c) as Hget.
  pose proof (set_reads now k v ttl c) as Hreads.
  assert (Cache.hits (Cache.stats (Cache.set now k v ttl c))
          = Cache.hits (Cache.stats c)
          /\ Cache.misses (Cache.stats (Cache.set now k v ttl c))
             = Cache.misses (Cache.stats c)) as [Hh Hm].
  { unfold Cache.set.
    destruct ((Z.of_nat (Map_size (Cache.cache c)) >=? Cache.maxSize c)
              && negb (Map_has k (Cache.cache c))); [|done].
    simpl. unfold Cache.evictOldest.
    destruct (Cache.scanOldest (Cache.cache c) None None) as [k0|]; [|done].
    by destruct (truthy_string k0). }
  split; intros Ht.
  - rewrite (get_fresh t k _ _ Hget) by (simpl; lia). cbn -[Cache.set].
    by rewrite Hh, Hm.
  - rewrite (get_stale t k _ _ Hget) by (simpl; lia). cbn -[Cache.set].
    by rewrite Hh, Hm.
Qed.

Lemma set_then_get_witness :
  (Cache.get 299999 "k" (Cache.set 0 "k" (VNum 7) None
                           (Cache.new Cache.no_options))).1 = VNum 7
  /\ (Cache.get 10001 "k" (Cache.set 0 "k" (VNum 7) (Some 10)
                            (Cache.new Cache.no_options))).1 = VNull.
Proof.
  split.
  - apply (set_then_get 0 299999 "k" (VNum 7) None
             (Cache.new Cache.no_options)). vm_compute. discriminate.
  - apply (set_then_get 0 10001 "k" (VNum 7) (Some 10)
             (Cache.new Cache.no_options)). reflexivity.
Defined.

(** X4.  [has] (and [isValid], which calls it) answers [true] exactly when
    the key has an entry whose expiry has not passed, which is when [get]
    reports a hit; unlike [get] it changes no counter of the statistics but
    [size] and emits no event, and it leaves the cache as it is when it
    answers [true]. *)
Theorem has_is_a_silent_get (now : Z) (k : string) (c : Cache.Cache) :
  Cache.isValid now k c = Cache.has now k c
  /\ ((Cache.has now k c).1 = true
      <-> exists entry,
            Map_get k (Cache.cache c) = Some entry
            /\ now <= Cache.expiresAt entry)
  /\ ((Cache.has now k c).1 = true
      <-> head (Cache.emitted (Cache.get now k c).2) = Some (Cache.cache_hit k))
  /\ ((Cache.has now k c).1 = true -> (Cache.has now k c).2 = c)
  /\ Cache.hits (Cache.stats (Cache.has now k c).2) = Cache.hits (Cache.stats c)
  /\ Cache.misses (Cache.stats (Cache.has now k c).2)
     = Cache.misses (Cache.stats c)
  /\ Cache.evictions (Cache.stats (Cache.has now k c).2)
     = Cache.evictions (Cache.stats c)
  /\ Cache.emitted (Cache.has now k c).2 = Cache.emitted c.
Proof.
  split; [done|]. split; [apply has_true|].
  unfold Cache.has, Cache.get.
  destruct (Map_get k (Cache.cache c)) as [entry|]; simpl.
  - destruct (now >? Cache.expiresAt entry); simpl; repeat split; done.
  - repeat split; done.
Qed.

Lemma has_is_a_silent_get_witness :
  (Cache.has 5 "k" (Cache.set 0 "k" VNull (Some 300)
                      (Cache.new Cache.no_options))).2
  = Cache.set 0 "k" VNull (Some 300) (Cache.new Cache.no_options).
Proof.
  apply (has_is_a_silent_get 5 "k"
           (Cache.set 0 "k" VNull (Some 300) (Cache.new Cache.no_options))).
  reflexivity.
Defined.



(** X6.  After [invalidate] the key has no entry and a [get] misses; every
    other key keeps its entry; hits and misses are not counted; for a key
    without entry the call changes nothing and emits no event. *)
Theorem invalidate_removes_only_its_key (k : string) (c : Cache.Cache) :
  Map_wf (Cache.cache c) ->
  Map_get k (Cache.cache (Cache.invalidate k c)) = None
  /\ (forall now, (Cache.get now k (Cache.invalidate k c)).1 = VNull)
  /\ (forall k', k' ≠ k ->
        Map_get k' (Cache.cache (Cache.invalidate k c))
        = Map_get k' (Cache.cache c))
  /\ reads_of (Cache.invalidate k c) = reads_of c
  /\ (Map_get k (Cache.cache c) = None -> Cache.invalidate k c = c)
  /\ (forall entry, Map_get k (Cache.cache c) = Some entry ->
        S (Cache.cache_size (Cache.invalidate k c)) = Cache.cache_size c
        /\ Cache.emitted (Cache.invalidate k c)
           = Cache.cache_invalidate k :: Cache.emitted c).
Proof.
  intros Hwf.
  assert (Map_get k (Cache.cache (Cache.invalidate k c)) = None) as Hgone.
  { unfold Cache.invalidate, Map_has.
    destruct (Map_get k (Cache.cache c)) eqn:Hk; [|done].
    simpl. by apply Map_get_delete_eq. }
  split; [done|]. split.
  { intros now. by rewrite (get_absent now k _ Hgone). }
  unfold Cache.invalidate, Map_has, Cache.cache_size.
  destruct (Map_get k (Cache.cache c)) as [entry|] eqn:Hk; simpl.
  - repeat split; [|done|].
    + intros k' Hne. by apply Map_get_delete_ne.
    + injection H as <-. by eapply Map_delete_size.
  - repeat split; done.
Qed.

Lemma invalidate_removes_only_its_key_witness :
  Map_get "a" (Cache.cache (Cache.invalidate "a" full_cache)) = None
  /\ (forall now, (Cache.get now "a" (Cache.invalidate "a" full_cache)).1 = VNull).
Proof.
  destruct (invalidate_removes_only_its_key "a" full_cache) as (H1 & H2 & _).
  - apply (bool_decide_unpack _). vm_compute. exact I.
  - split; [exact H1 | exact H2].
Defined.

(** X7.  [invalidatePattern] asks [pattern.test(key)] for each key in
    the order of the store, each test starting from the [lastIndex] the
    one before left, and removes the entries for which the answer is
    true: the entries it keeps are entries of the store, in their order,
    the count it reports is the number of entries removed, the [size]
    counter is set to the number of entries kept and the counters of the
    reads are left.  For a pattern whose test depends on the key alone (a
    pattern without the flags [g] and [y]) it removes exactly the entries
    whose key matches: a matching key has no entry afterwards, every other
    key keeps its entry, and the count is the number of keys that match.
    With the flag [g] a matching key may stay: [/user:/g] on the keys
    [user:1], [user:2], [user:3] removes the first and the third, and
    [user:2], tested from the [lastIndex] 5 that the match in [user:1]
    left, stays. *)
Theorem invalidatePattern_removes_the_matches :
  (forall test lastIndex c,
     Cache.cache (Cache.invalidatePattern test lastIndex c).1
       `sublist_of` Cache.cache c
     /\ (exists count,
          Cache.emitted (Cache.invalidatePattern test lastIndex c).1
          = Cache.cache_pattern_invalidate count :: Cache.emitted c
          /\ (Cache.cache_size (Cache.invalidatePattern test lastIndex c).1
              + count)%nat = Cache.cache_size c)
     /\ Cache.size (Cache.stats (Cache.invalidatePattern test lastIndex c).1)
        = Cache.cache_size (Cache.invalidatePattern test lastIndex c).1
     /\ reads_of (Cache.invalidatePattern test lastIndex c).1 = reads_of c)
  /\ (forall (pattern : string -> bool) test,
        (forall i k, test i k = (pattern k, i)) ->
        forall lastIndex c,
          (forall k,
             Map_get k
               (Cache.cache (Cache.invalidatePattern test lastIndex c).1)
             = if pattern k then None else Map_get k (Cache.cache c))
          /\ Cache.emitted (Cache.invalidatePattern test lastIndex c).1
             = Cache.cache_pattern_invalidate
                 (length (filter (fun k => pattern k) (Cache.keys c)))
               :: Cache.emitted c
          /\ (Cache.invalidatePattern test lastIndex c).2 = lastIndex)
  /\ Cache.keys three_users = ["user:1"; "user:2"; "user:3"]
  /\ test_g user_colon 0 "user:1" = (true, 5%nat)
  /\ test_g user_colon 5 "user:2" = (false, 0%nat)
  /\ test_g user_colon 0 "user:2" = (true, 5%nat)
  /\ Cache.keys
       (Cache.invalidatePattern (test_g user_colon) 0 three_users).1
     = ["user:2"]
  /\ Cache.emitted
       (Cache.invalidatePattern (test_g user_colon) 0 three_users).1
     = Cache.cache_pattern_invalidate 2 :: Cache.emitted three_users.
Proof.
  split.
  { intros test li c. rewrite invalidatePattern_sweep. cbn [fst].
    split; [apply sweep_sublist|]. split; [|done].
    eexists. split; [reflexivity|]. apply sweep_count. }
  split; [|by vm_compute].
  intros pattern test Htest li c.
  rewrite invalidatePattern_sweep, (sweep_stateless pattern) by done.
  cbn [fst snd]. split; [intros k; apply Map_get_filter_keys|].
  split; [|done].
  unfold Cache.keys, Map_keys. simpl. do 2 f_equal.
  induction (Cache.cache c) as [|[k0 e0] r IH]; [done|].
  rewrite fmap_cons, !filter_cons. simpl.
  destruct (pattern k0); simpl; by rewrite IH.
Qed.

(** X8.  The periodic [cleanup] removes exactly the entries whose expiry
    has passed and keeps the others in their order; when nothing has
    expired it changes nothing and emits no event, otherwise it reports
    the number of entries removed. *)
Theorem cleanup_removes_the_expired (now : Z) (c : Cache.Cache) :
  (forall k entry,
     (k, entry) ∈ Cache.cache (Cache.cleanup now c)
     <-> (k, entry) ∈ Cache.cache c /\ now <= Cache.expiresAt entry)
  /\ Cache.cache (Cache.cleanup now c) `sublist_of` Cache.cache c
  /\ ((forall k entry, (k, entry) ∈ Cache.cache c ->
         now <= Cache.expiresAt entry) ->
      Cache.cleanup now c = c)
  /\ (forall k entry,
        (k, entry) ∈ Cache.cache c -> Cache.expiresAt entry < now ->
        exists n,
          (0 < n)%nat
          /\ (n + Cache.cache_size (Cache.cleanup now c))%nat
             = Cache.cache_size c
          /\ Cache.emitted (Cache.cleanup now c)
             = Cache.cache_cleanup n :: Cache.emitted c
          /\ Cache.size (Cache.stats (Cache.cleanup now c))
             = Cache.cache_size (Cache.cleanup now c)).
Proof.
  pose proof (cleanup_cases now c) as Hcases. cbv zeta in Hcases.
  pose (keep := fun kv : string * Cache.CacheEntry =>
                  negb (now >? Cache.expiresAt kv.2)).
  pose (kept := filter (fun kv => keep kv) (Cache.cache c)).
  change (filter _ (Cache.cache c)) with kept in Hcases.
  assert (forall k entry, (k, entry) ∈ kept
            <-> (k, entry) ∈ Cache.cache c /\ now <= Cache.expiresAt entry)
    as Hkept.
  { intros k entry. unfold kept, keep. rewrite list_elem_of_filter. simpl.
    destruct (now >? Cache.expiresAt entry) eqn:Hgt; simpl; split;
      intros [? ?]; split; (done || lia). }
  assert (Cache.cache (Cache.cleanup now c) = kept) as Hst.
  { by destruct Hcases as [[Heq ->]|[_ ->]]. }
  split; [by rewrite Hst|]. split; [rewrite Hst; apply sublist_filter|].
  split.
  - intros Hall. destruct Hcases as [[_ ->]|[Hless _]]; [done|].
    exfalso. assert (kept = Cache.cache c) as Heq; [|rewrite Heq in Hless; lia].
    apply filter_all. intros [k entry] Hin. unfold keep. simpl.
    specialize (Hall k entry Hin). lia.
  - intros k entry Hin Hlt.
    assert (length kept < length (Cache.cache c))%nat as Hless.
    { apply (filter_some_out keep _ (k, entry)); [done|].
      unfold keep. simpl. lia. }
    exists (length (Cache.cache c) - length kept)%nat.
    destruct Hcases as [[Heq _]|[_ ->]]; [rewrite Heq in Hless; lia|].
    unfold Cache.cache_size, Map_size. simpl. repeat split; lia.
Qed.

Lemma cleanup_removes_the_expired_witness :
  Cache.cleanup 5 full_cache = full_cache
  /\ exists n, Cache.emitted (Cache.cleanup 15000 full_cache)
               = Cache.cache_cleanup n :: Cache.emitted full_cache.
Proof.
  destruct (cleanup_removes_the_expired 5 full_cache) as (_ & _ & H & _).
  destruct (cleanup_removes_the_expired 15000 full_cache) as (_ & _ & _ & H').
  split.
  - apply H. intros k entry Hin. vm_compute in Hin.
    repeat (apply elem_of_cons in Hin as [Hin|Hin];
            [injection Hin as -> ->; vm_compute; discriminate|]).
    by apply elem_of_nil in Hin.
  - destruct (H' "a" {| Cache.value := VStr "x"; Cache.expiresAt := 10000;
                        Cache.key := "a" |})
      as (n & _ & _ & Hev & _).
    + vm_compute. apply list_elem_of_here.
    + reflexivity.
    + by exists n.
Defined.

(** ** The connection manager: the handshake *)

Section Handshake.
Import Client.
Variable T : string -> option Error.

End Handshake.


(** ** The connection manager: requests and their answers *)

Section Answers.
Import Client.
Variable T : string -> option Error.
Implicit Types (w : World).

Lemma sendRequest_open w sock ty fs :
  holds_open w sock ->
  Map_get (messageId (this w)) (pendingRequests (this w)) = None ->
  sendRequest ty fs w
  = (length (promises (rt w)), request_sent w sock ty fs).
Proof.
  intros (Hws & k & Hk & Hopen) Hfresh.
  unfold sendRequest, sendMessage, request_sent.
  open_world w. step_m.
  cbv beta iota zeta delta [ws this sockets rt messageId pendingRequests]
    in Hws, Hk, Hfresh.
  subst w_ws. simpl. rewrite Hk. simpl. rewrite Hopen. simpl.
  by rewrite (Map_set_absent _ _ _ Hfresh).
Qed.

Lemma request_sent_open w sock ty fs :
  holds_open w sock -> holds_open (request_sent w sock ty fs) sock.
Proof.
  intros (Hws & k & Hk & Hopen). split; [done|].
  exists (with_sent {| id := Some (messageId (this w)); type := ty;
                       fields := fs |} k).
  split; [|done]. simpl. by rewrite list_lookup_alter_eq, Hk.
Qed.

(** A frame that reaches an open socket is handled. *)
Lemma deliver w sock k data :
  sockets (rt w) !! sock = Some k -> readyState k = WS_OPEN ->
  step T w (On_message sock data) = (handleMessage data w).2.
Proof.
  intros Hk Hopen. unfold step, perform. open_world w. step_m.
  cbv beta iota zeta delta [sockets rt] in Hk. rewrite Hk.
  simpl. by rewrite Hopen.
Qed.

(** The answer to a request that is waiting. *)
Lemma handle_result w i pr success v em :
  Map_get i (pendingRequests (this w)) = Some pr ->
  promises (rt w) !! promise pr = Some Pending ->
  pendingRequests (this (handleMessage (result_frame i success v em) w).2)
  = Map_delete i (pendingRequests (this w))
  /\ promises (rt (handleMessage (result_frame i success v em) w).2)
     = <[promise pr :=
           if success then Resolved v
           else Rejected (MkError (default "Request failed" em))]>
         (promises (rt w))
  /\ timers (rt (handleMessage (result_frame i success v em) w).2)
     = alter deactivate (timeout pr) (timers (rt w))
  /\ sockets (rt (handleMessage (result_frame i success v em) w).2)
     = sockets (rt w)
  /\ state (this (handleMessage (result_frame i success v em) w).2)
     = state (this w)
  /\ messageId (this (handleMessage (result_frame i success v em) w).2)
     = messageId (this w).
Proof.
  intros Hi Hp. unfold handleMessage, result_frame.
  open_world w. step_m.
  cbv beta iota zeta delta [pendingRequests this promises rt] in Hi, Hp.
  simpl. rewrite Hi.
  destruct success; step_m; simpl; rewrite Hp; [done|].
  step_m. by destruct (bool_decide _).
Qed.
End Answers.

(** X10.  A request issued while the socket the object holds is open is
    sent under the next message id with a fresh pending promise and a
    timer of 30 s.  When the server's [result] frame with that id arrives,
    the promise is resolved with the result if the frame reports success
    and is rejected with the frame's error message (['Request failed']
    when it has none) otherwise; the entry is removed and the timer
    cancelled. *)
Theorem response_settles_request (T : string -> option Error)
    (w : Client.World) (sock : nat) (ty : string)
    (fs : list (string * jsval)) (success : bool) (v : jsval)
    (em : option string) :
  Client.reachable T w ->
  holds_open w sock ->
  let i := Client.messageId (Client.this w) in
  let p := length (Client.promises (Client.rt w)) in
  let h := length (Client.timers (Client.rt w)) in
  let w1 := Client.step T w (Client.Call_sendRequest ty fs) in
  let w2 := Client.step T w1
              (Client.On_message sock (result_frame i success v em)) in
  (Client.sendRequest ty fs w).1 = p
  /\ sent_on w1 sock
     = sent_on w sock
       ++ [{| Client.id := Some i; Client.type := ty; Client.fields := fs |}]
  /\ Map_get i (Client.pendingRequests (Client.this w1))
     = Some {| Client.promise := p; Client.timeout := h |}
  /\ Client.promises (Client.rt w1) !! p = Some Client.Pending
  /\ Client.timers (Client.rt w1) !! h
     = Some {| Client.callback := Client.RequestTimeout i p;
               Client.delay := 30000; Client.active := true |}
  /\ Client.promises (Client.rt w2) !! p
     = Some (if success then Client.Resolved v
             else Client.Rejected
                    (MkError (default "Request failed" em)))
  /\ Client.pendingRequests (Client.this w2)
     = Client.pendingRequests (Client.this w)
  /\ Client.timers (Client.rt w2) !! h
     = Some {| Client.callback := Client.RequestTimeout i p;
               Client.delay := 30000; Client.active := false |}.
Proof.
  intros Hreach Hopen. cbv zeta.
  pose proof (fresh_id w (reachable_consistent T w Hreach)) as Hfresh.
  pose proof (sendRequest_open w sock ty fs Hopen Hfresh) as Hsend.
  assert (Client.step T w (Client.Call_sendRequest ty fs)
          = request_sent w sock ty fs) as ->.
  { unfold Client.step, Client.perform, Client.bind.
    by rewrite Hsend. }
  destruct (request_sent_open w sock ty fs Hopen) as (_ & k1 & Hk1 & Hopen1).
  rewrite (deliver T _ sock k1 _ Hk1 Hopen1).
  set (pr := {| Client.promise := length (Client.promises (Client.rt w));
                Client.timeout := length (Client.timers (Client.rt w)) |}).
  assert (Map_get (Client.messageId (Client.this w))
            (Client.pendingRequests (Client.this (request_sent w sock ty fs)))
          = Some pr) as Hget.
  { unfold request_sent.
    cbv beta iota zeta delta [Client.pendingRequests Client.this].
    rewrite <- (Map_set_absent _ _ _ Hfresh). apply Map_get_set_eq. }
  assert (Client.promises (Client.rt (request_sent w sock ty fs))
            !! Client.promise pr = Some Client.Pending) as Hp.
  { simpl. apply lookup_fresh. }
  destruct (handle_result (request_sent w sock ty fs) _ pr success v em
              Hget Hp) as (Hpend & Hproms & Htimers & _).
  rewrite Hpend, Hproms, Htimers, Hsend.
  destruct Hopen as (Hws & k & Hk & Hko).
  split; [done|]. split.
  { unfold sent_on. simpl. rewrite list_lookup_alter_eq, Hk. done. }
  split; [done|]. split; [done|]. split; [simpl; apply lookup_fresh|].
  split; [simpl; by rewrite insert_fresh, lookup_fresh|].
  split.
  { unfold request_sent.
    cbv beta iota zeta delta [Client.pendingRequests Client.this].
    rewrite <- (Map_set_absent _ _ _ Hfresh).
    by apply Map_set_delete_fresh. }
  simpl. by rewrite list_lookup_alter_eq, lookup_fresh.
Qed.

Lemma response_settles_request_witness :
  Client.promises
    (Client.rt
       (Client.step Client.scheme_checking
          (Client.step Client.scheme_checking connected
             (Client.Call_sendRequest "get_states" []))
          (Client.On_message 0%nat
             (result_frame (Client.messageId (Client.this connected)) true
                (VStr "[]") None))))
    !! length (Client.promises (Client.rt connected))
  = Some (Client.Resolved (VStr "[]")).
Proof.
  assert (Hreach : Client.reachable Client.scheme_checking connected).
  { unfold connected. apply reachable_run, Client.reachable_init. }
  assert (Hopen : holds_open connected 0).
  { split; [vm_compute; reflexivity|].
    eexists. split; vm_compute; reflexivity. }
  exact (proj1 (proj2 (proj2 (proj2 (proj2 (proj2
    (response_settles_request Client.scheme_checking connected 0%nat
       "get_states" [] true (VStr "[]") None Hreach Hopen))))))).
Defined.

Section Stranded.
Import Client.
Variable T : string -> option Error.
Implicit Types (w : World).

(** A frame that is no [result] but carries the id of a waiting request
    takes the entry and the timer away and settles nothing. *)
Lemma handle_other w i pr ty :
  Map_get i (pendingRequests (this w)) = Some pr ->
  handled_before_requests ty = false ->
  ty ≠ "result" ->
  pendingRequests (this (handleMessage (other_frame i ty) w).2)
  = Map_delete i (pendingRequests (this w))
  /\ promises (rt (handleMessage (other_frame i ty) w).2) = promises (rt w)
  /\ timers (rt (handleMessage (other_frame i ty) w).2)
     = alter deactivate (timeout pr) (timers (rt w))
  /\ sockets (rt (handleMessage (other_frame i ty) w).2) = sockets (rt w).
Proof.
  intros Hi Hty Hres. unfold handled_before_requests in Hty.
  apply orb_false_elim in Hty as [Hty H4].
  apply orb_false_elim in Hty as [Hty H3].
  apply orb_false_elim in Hty as [H1 H2].
  apply String.eqb_neq in Hres.
  unfold handleMessage, other_frame.
  cbv beta iota zeta delta [f_type f_id].
  rewrite H1, H2, H3, H4, Hres. cbn [andb].
  open_world w. step_m.
  cbv beta iota zeta delta [pendingRequests this] in Hi.
  by rewrite Hi.
Qed.

(** A frame with an id nothing waits for changes nothing, unless its type
    is one of those treated first. *)
Lemma handle_unknown w i ty success v em :
  Map_get i (pendingRequests (this w)) = None ->
  handled_before_requests ty = false ->
  handleMessage
    (Parsed {| f_id := Some i; f_type := ty; f_success := success;
               f_result := v; f_error_message := em; f_message := None;
               f_event := VNull |}) w
  = (tt, w).
Proof.
  intros Hi Hty. unfold handled_before_requests in Hty.
  apply orb_false_elim in Hty as [Hty H4].
  apply orb_false_elim in Hty as [Hty H3].
  apply orb_false_elim in Hty as [H1 H2].
  unfold handleMessage.
  cbv beta iota zeta delta [f_type f_id].
  rewrite H1, H2, H3, H4. cbn [andb].
  open_world w. step_m.
  cbv beta iota zeta delta [pendingRequests this] in Hi.
  by rewrite Hi.
Qed.

(** A timer that has been cancelled does nothing when it comes due. *)
Lemma inactive_timer w h t :
  timers (rt w) !! h = Some t -> active t = false ->
  step T w (On_timer h) = w.
Proof.
  intros Hh Hact. unfold step, perform. open_world w. step_m.
  cbv beta iota zeta delta [timers rt] in Hh. by rewrite Hh, Hact.
Qed.

(** The timer of a request comes due. *)
Lemma request_timer w h t i p :
  timers (rt w) !! h = Some t -> active t = true ->
  callback t = RequestTimeout i p ->
  this (step T w (On_timer h))
  = this (pending_delete i w).2
  /\ promises (rt (step T w (On_timer h)))
     = match promises (rt w) !! p with
       | Some Pending => <[p := Rejected (MkError "Request timeout")]>
                           (promises (rt w))
       | _ => promises (rt w)
       end
  /\ timers (rt (step T w (On_timer h)))
     = alter deactivate h (timers (rt w))
  /\ sockets (rt (step T w (On_timer h))) = sockets (rt w).
Proof.
  intros Hh Hact Hcb. unfold step, perform, run_timer. open_world w. step_m.
  cbv beta iota zeta delta [timers rt] in Hh. rewrite Hh, Hact.
  step_m. rewrite Hcb. step_m. simpl.
  destruct (w_promises !! p) as [[]|]; simpl; try done.
  step_m. by destruct (bool_decide _).
Qed.

Lemma pending_delete_this i w :
  pendingRequests (this (pending_delete i w).2)
  = Map_delete i (pendingRequests (this w)).
Proof. open_world w. by step_m. Qed.
End Stranded.

Section InFlight.
Import Client.
Variable T : string -> option Error.
Implicit Types (w : World).

(** What is known once a request has been transmitted. *)
Lemma request_in_flight w sock ty fs :
  reachable T w ->
  holds_open w sock ->
  step T w (Call_sendRequest ty fs) = request_sent w sock ty fs
  /\ Map_get (messageId (this w)) (pendingRequests (this w)) = None
  /\ Map_get (messageId (this w))
       (pendingRequests (this (request_sent w sock ty fs)))
     = Some {| promise := length (promises (rt w));
               timeout := length (timers (rt w)) |}
  /\ Map_delete (messageId (this w))
       (pendingRequests (this (request_sent w sock ty fs)))
     = pendingRequests (this w)
  /\ holds_open (request_sent w sock ty fs) sock.
Proof.
  intros Hreach Hopen.
  pose proof (fresh_id w (reachable_consistent T w Hreach)) as Hfresh.
  pose proof (sendRequest_open w sock ty fs Hopen Hfresh) as Hsend.
  split.
  { unfold step, perform, bind. by rewrite Hsend. }
  split; [done|].
  unfold request_sent.
  cbv beta iota zeta delta [pendingRequests this].
  rewrite <- (Map_set_absent _ _ _ Hfresh).
  split; [apply Map_get_set_eq|].
  split; [by apply Map_set_delete_fresh|].
  rewrite (Map_set_absent _ _ _ Hfresh).
  by apply request_sent_open.
Qed.
End InFlight.

(** X11.  A frame that carries the id of a request in flight and whose
    type is none of [auth_required], [auth_ok], [auth_invalid], [event]
    (the types [handleMessage] treats first, without looking at the
    requests) and [result], such as [pong], removes the request's entry
    and cancels its timer without settling its promise.  Nothing settles
    it afterwards: the [result] frame for that id is ignored when it
    arrives and the cancelled timer does nothing. *)
Theorem non_result_frame_strands_request (T : string -> option Error)
    (w : Client.World) (sock : nat) (ty : string)
    (fs : list (string * jsval)) (ty' : string) :
  Client.reachable T w ->
  holds_open w sock ->
  handled_before_requests ty' = false ->
  ty' ≠ "result" ->
  let i := Client.messageId (Client.this w) in
  let p := length (Client.promises (Client.rt w)) in
  let h := length (Client.timers (Client.rt w)) in
  let w1 := Client.step T w (Client.Call_sendRequest ty fs) in
  let w2 := Client.step T w1 (Client.On_message sock (other_frame i ty')) in
  Client.promises (Client.rt w2) !! p = Some Client.Pending
  /\ Client.pendingRequests (Client.this w2)
     = Client.pendingRequests (Client.this w)
  /\ Client.timers (Client.rt w2) !! h
     = Some {| Client.callback := Client.RequestTimeout i p;
               Client.delay := 30000; Client.active := false |}
  /\ (forall success v em,
        Client.step T w2
          (Client.On_message sock (result_frame i success v em)) = w2)
  /\ Client.step T w2 (Client.On_timer h) = w2.
Proof.
  intros Hreach Hopen Hty Hres. cbv zeta.
  destruct (request_in_flight T w sock ty fs Hreach Hopen)
    as (-> & Hfresh & Hget & Hdel & _ & k1 & Hk1 & Hopen1).
  rewrite (deliver T _ sock k1 _ Hk1 Hopen1).
  destruct (handle_other (request_sent w sock ty fs) _ _ ty' Hget Hty Hres)
    as (Hpend & Hproms & Htimers & Hsocks).
  set (w2 := (Client.handleMessage _ (request_sent w sock ty fs)).2) in *.
  rewrite Hdel in Hpend.
  assert (Client.timers (Client.rt w2)
            !! length (Client.timers (Client.rt w))
          = Some {| Client.callback :=
                      Client.RequestTimeout
                        (Client.messageId (Client.this w))
                        (length (Client.promises (Client.rt w)));
                    Client.delay := 30000; Client.active := false |}) as Hh.
  { rewrite Htimers. simpl. by rewrite list_lookup_alter_eq, lookup_fresh. }
  split; [rewrite Hproms; simpl; apply lookup_fresh|].
  split; [done|]. split; [done|]. split.
  - intros success v em.
    rewrite (deliver T w2 sock k1) by (by rewrite ?Hsocks).
    unfold result_frame. rewrite handle_unknown; [done | | done].
    by rewrite Hpend.
  - by eapply inactive_timer.
Qed.

Lemma non_result_frame_strands_request_witness :
  Client.promises
    (Client.rt
       (Client.step Client.scheme_checking
          (Client.step Client.scheme_checking connected
             (Client.Call_sendRequest "ping" []))
          (Client.On_message 0%nat
             (other_frame (Client.messageId (Client.this connected))
                "pong"))))
    !! length (Client.promises (Client.rt connected))
  = Some Client.Pending.
Proof.
  assert (Hreach : Client.reachable Client.scheme_checking connected).
  { unfold connected. apply reachable_run, Client.reachable_init. }
  assert (Hopen : holds_open connected 0).
  { split; [vm_compute; reflexivity|].
    eexists. split; vm_compute; reflexivity. }
  exact (proj1
    (non_result_frame_strands_request Client.scheme_checking connected
       0%nat "ping" [] "pong" Hreach Hopen
       ltac:(vm_compute; reflexivity) ltac:(discriminate))).
Defined.

(** X12.  When the timer of a request in flight comes due before the
    answer, the promise is rejected with ['Request timeout'] and the entry
    is removed; the answer is ignored when it arrives later. *)
Theorem timeout_rejects_request (T : string -> option Error)
    (w : Client.World) (sock : nat) (ty : string)
    (fs : list (string * jsval)) :
  Client.reachable T w ->
  holds_open w sock ->
  let i := Client.messageId (Client.this w) in
  let p := length (Client.promises (Client.rt w)) in
  let h := length (Client.timers (Client.rt w)) in
  let w1 := Client.step T w (Client.Call_sendRequest ty fs) in
  let w2 := Client.step T w1 (Client.On_timer h) in
  Client.promises (Client.rt w2) !! p
  = Some (Client.Rejected (MkError "Request timeout"))
  /\ Client.pendingRequests (Client.this w2)
     = Client.pendingRequests (Client.this w)
  /\ (forall success v em,
        Client.step T w2
          (Client.On_message sock (result_frame i success v em)) = w2).
Proof.
  intros Hreach Hopen. cbv zeta.
  destruct (request_in_flight T w sock ty fs Hreach Hopen)
    as (-> & Hfresh & Hget & Hdel & _ & k1 & Hk1 & Hopen1).
  destruct (request_timer T (request_sent w sock ty fs)
              (length (Client.timers (Client.rt w)))
              {| Client.callback :=
                   Client.RequestTimeout (Client.messageId (Client.this w))
                     (length (Client.promises (Client.rt w)));
                 Client.delay := 30000; Client.active := true |}
              (Client.messageId (Client.this w))
              (length (Client.promises (Client.rt w))))
    as (Hthis & Hproms & Htimers & Hsocks); [apply lookup_fresh | done | done |].
  set (w2 := Client.step T (request_sent w sock ty fs) _) in *.
  assert (Client.pendingRequests (Client.this w2)
          = Client.pendingRequests (Client.this w)) as Hpend.
  { by rewrite Hthis, pending_delete_this. }
  split.
  { rewrite Hproms. simpl. rewrite lookup_fresh.
    by rewrite insert_fresh, lookup_fresh. }
  split; [done|].
  intros success v em.
  rewrite (deliver T w2 sock k1) by (by rewrite ?Hsocks).
  unfold result_frame. rewrite handle_unknown; [done | | done].
  by rewrite Hpend.
Qed.

Lemma timeout_rejects_request_witness :
  Client.promises
    (Client.rt
       (Client.step Client.scheme_checking
          (Client.step Client.scheme_checking connected
             (Client.Call_sendRequest "get_states" []))
          (Client.On_timer (length (Client.timers (Client.rt connected))))))
    !! length (Client.promises (Client.rt connected))
  = Some (Client.Rejected (MkError "Request timeout")).
Proof.
  assert (Hreach : Client.reachable Client.scheme_checking connected).
  { unfold connected. apply reachable_run, Client.reachable_init. }
  assert (Hopen : holds_open connected 0).
  { split; [vm_compute; reflexivity|].
    eexists. split; vm_compute; reflexivity. }
  exact (proj1 (timeout_rejects_request Client.scheme_checking connected
                  0%nat "get_states" [] Hreach Hopen)).
Defined.

Section Dropped.
Import Client.
Variable T : string -> option Error.
Implicit Types (w : World).

(** [disconnect] starts closing the socket it holds. *)
Lemma disconnect_socket w sock k :
  ws (this w) = Some sock ->
  sockets (rt w) !! sock = Some k ->
  readyState k = WS_OPEN ->
  sockets (rt (disconnect w).2) !! sock = Some (with_readyState WS_CLOSING k)
  /\ ws (this (disconnect w).2) = None.
Proof.
  intros Hws Hk Hopen. unfold disconnect. open_world w. step_m.
  cbv beta iota zeta delta [ws this sockets rt] in Hws, Hk.
  subst w_ws. simpl. rewrite list_lookup_alter_eq, Hk. simpl.
  by rewrite Hopen.
Qed.

(** With nothing waiting, [handleClose] settles nothing and keeps the
    timers that are set. *)
Lemma handleClose_nothing_pending w :
  pendingRequests (this w) = [] ->
  promises (rt (handleClose w).2) = promises (rt w)
  /\ pendingRequests (this (handleClose w).2) = []
  /\ state (this (handleClose w).2) = DISCONNECTED
  /\ forall h t, timers (rt w) !! h = Some t ->
                 timers (rt (handleClose w).2) !! h = Some t.
Proof.
  intros Hnone. unfold handleClose. open_world w. step_m.
  cbv beta iota zeta delta [pendingRequests this] in Hnone. subst w_pending.
  simpl. destruct (w_attempts <? maxReconnectAttempts)%nat; simpl.
  - repeat split; try done. intros h t Hh.
    rewrite lookup_app_l; [done | by eapply lookup_lt_Some].
  - repeat split; done.
Qed.
End Dropped.

(** X13.  [disconnect()] forgets the requests in flight without settling
    them: the map of pending requests is emptied, yet the promise of a
    request just sent is still pending and its timer still set.  The
    ['close'] event of the socket that follows rejects nothing, and the
    caller hears of the request only when its timer comes due, 30 s after
    it was sent, as ['Request timeout']. *)
Theorem disconnect_leaves_requests_unsettled (T : string -> option Error)
    (w : Client.World) (sock : nat) (ty : string)
    (fs : list (string * jsval)) :
  Client.reachable T w ->
  holds_open w sock ->
  let p := length (Client.promises (Client.rt w)) in
  let h := length (Client.timers (Client.rt w)) in
  let w1 := Client.step T w (Client.Call_sendRequest ty fs) in
  let w2 := Client.step T w1 Client.Call_disconnect in
  let w3 := Client.step T w2 (Client.On_close sock) in
  let w4 := Client.step T w3 (Client.On_timer h) in
  Client.pendingRequests (Client.this w2) = []
  /\ Client.state (Client.this w2) = Client.DISCONNECTED
  /\ Client.promises (Client.rt w2) = Client.promises (Client.rt w1)
  /\ Client.timers (Client.rt w2) = Client.timers (Client.rt w1)
  /\ Client.promises (Client.rt w2) !! p = Some Client.Pending
  /\ Client.promises (Client.rt w3) = Client.promises (Client.rt w1)
  /\ Client.promises (Client.rt w4) !! p
     = Some (Client.Rejected (MkError "Request timeout")).
Proof.
  intros Hreach Hopen. cbv zeta.
  destruct (request_in_flight T w sock ty fs Hreach Hopen)
    as (-> & Hfresh & Hget & Hdel & Hws1 & k1 & Hk1 & Hopen1).
  set (w1 := request_sent w sock ty fs) in *.
  change (Client.step T w1 Client.Call_disconnect)
    with (Client.disconnect w1).2.
  destruct (disconnect_keeps_timers w1) as (Hts & Hps & Hst).
  destruct (disconnect_closes w1) as (_ & _ & Hnone).
  destruct (disconnect_socket w1 sock k1 Hws1 Hk1 Hopen1) as [Hk2 _].
  set (w2 := (Client.disconnect w1).2) in *.
  destruct (step_close T w2 sock _ Hk2 eq_refl) as (Hstep & Hthis & Hproms).
  destruct (handleClose_nothing_pending
              (Client.set_readyState sock Client.WS_CLOSED w2).2)
    as (Hps3 & _ & _ & Hts3); [by rewrite Hthis|].
  assert (Client.timers
            (Client.rt (Client.set_readyState sock Client.WS_CLOSED w2).2)
          = Client.timers (Client.rt w2)) as Hts2.
  { clear. unfold Client.set_readyState. open_world w2. by step_m. }
  rewrite Hstep.
  set (w3 := (Client.handleClose _).2) in *.
  assert (Client.promises (Client.rt w1)
            !! length (Client.promises (Client.rt w)) = Some Client.Pending)
    as Hp by apply lookup_fresh.
  assert (Client.promises (Client.rt w3) = Client.promises (Client.rt w1))
    as Hps13 by (by rewrite Hps3, Hproms, Hps).
  split; [done|]. split; [done|]. split; [done|]. split; [done|].
  split; [by rewrite Hps|]. split; [done|].
  destruct (request_timer T w3 (length (Client.timers (Client.rt w)))
              {| Client.callback :=
                   Client.RequestTimeout (Client.messageId (Client.this w))
                     (length (Client.promises (Client.rt w)));
                 Client.delay := 30000; Client.active := true |}
              (Client.messageId (Client.this w))
              (length (Client.promises (Client.rt w))))
    as (_ & Hps4 & _); [|done|done|].
  { apply Hts3. rewrite Hts2, Hts. apply lookup_fresh. }
  rewrite Hps4, Hps13, Hp.
  apply list_lookup_insert_eq. by eapply lookup_lt_Some.
Qed.

Lemma disconnect_leaves_requests_unsettled_witness :
  Client.promises
    (Client.rt
       (Client.step Client.scheme_checking
          (Client.step Client.scheme_checking connected
             (Client.Call_sendRequest "get_states" []))
          Client.Call_disconnect))
    !! length (Client.promises (Client.rt connected))
  = Some Client.Pending.
Proof.
  assert (Hreach : Client.reachable Client.scheme_checking connected).
  { unfold connected. apply reachable_run, Client.reachable_init. }
  assert (Hopen : holds_open connected 0).
  { split; [vm_compute; reflexivity|].
    eexists. split; vm_compute; reflexivity. }
  exact (proj1 (proj2 (proj2 (proj2 (proj2
    (disconnect_leaves_requests_unsettled Client.scheme_checking
       connected 0%nat "get_states" [] Hreach Hopen)))))).
Defined.

(** ** The connection manager: message ids and subscriptions *)

Section Ids.
Import Client.
Variable T : string -> option Error.
Implicit Types (w : World).

Lemma bind_ids {A B} (m : M A) (k : A -> M B) w :
  subs_id (m w).2 = subs_id w ->
  (forall a w0, subs_id (k a w0).2 = subs_id w0) ->
  subs_id (bind m k w).2 = subs_id w.
Proof.
  unfold bind. destruct (m w) as [a w1]. simpl. intros H1 H2.
  by rewrite H2.
Qed.

Lemma for_each_ids {A} (f : A -> M unit) (l : list A) w :
  (forall x w0, subs_id (f x w0).2 = subs_id w0) ->
  subs_id (for_each l f w).2 = subs_id w.
Proof.
  intros Hf. revert w. induction l as [|x l IH]; intros w; [done|].
  by rewrite for_each_cons, IH, Hf.
Qed.

(** Steps that touch neither the subscriptions nor the counter. *)
Ltac ids_prim :=
  match goal with
  | |- subs_id (_ ?w0).2 = subs_id ?w0 =>
      unfold subs_id; destruct w0 as [[] []]; step_m;
      repeat (match goal with
              | |- context [match ?x with _ => _ end] => is_var x; destruct x
              | |- context [match ?l !! ?p with _ => _ end] =>
                  destruct (l !! p)
              | |- context [match Map_get ?k ?m with _ => _ end] =>
                  destruct (Map_get k m)
              | |- context [if ?b then _ else _] => destruct b
              end; step_m);
      done
  end.

Ltac ids :=
  repeat first
    [ apply bind_ids; [|intros ? ?]
    | apply for_each_ids; intros ? ?
    | match goal with
      | |- subs_id (match ?x with _ => _ end _).2 = _ => destruct x
      | |- subs_id ((if ?x then _ else _) _).2 = _ => destruct x
      end
    | solve [ids_prim] ].

Lemma reject_ids p e w : subs_id (reject p e w).2 = subs_id w.
Proof. unfold subs_id. by rewrite reject_this. Qed.

Lemma resolve_ids p v w : subs_id (resolve p v w).2 = subs_id w.
Proof. ids_prim. Qed.

Lemma sendMessage_ids m w : subs_id (sendMessage m w).2 = subs_id w.
Proof. unfold sendMessage. ids. Qed.

Lemma handleMessage_ids data w : subs_id (handleMessage data w).2 = subs_id w.
Proof.
  unfold handleMessage, emit_authenticated, emit_auth_failed,
    on_authenticated, on_auth_failed.
  ids; try apply sendMessage_ids; try apply reject_ids;
    try apply resolve_ids.
Qed.

Lemma handleClose_ids w : subs_id (handleClose w).2 = subs_id w.
Proof.
  unfold handleClose, reject_closed. ids; try apply reject_ids.
Qed.

Lemma connect_ids u tok w : subs_id (connect T u tok w).2 = subs_id w.
Proof. unfold connect. ids; apply reject_ids. Qed.

Lemma reconnect_ids w : subs_id (reconnect T w).2 = subs_id w.
Proof. unfold reconnect, catch_emit. ids; apply connect_ids. Qed.

Lemma timer_ids h w : subs_id (step T w (On_timer h)) = subs_id w.
Proof.
  unfold step, perform, run_timer. ids;
    try apply reject_ids; try apply reconnect_ids.
Qed.

Lemma sendRequest_ids ty fs w :
  subs_id (sendRequest ty fs w).2
  = (subscriptions (this w), messageId (this w) + 1).
Proof.
  unfold sendRequest.
  unfold bind at 1. unfold newPromise, bind at 1, gets_rt at 1.
  unfold bind at 1. unfold set_promises, modify_rt. unfold ret at 1.
  unfold bind at 1. unfold gets at 1. cbn [fst snd this].
  unfold bind at 1. unfold set_messageId, modify. cbn [fst snd this rt].
  unfold bind at 1. unfold setTimeout, bind at 1, gets_rt at 1.
  cbn [fst snd this rt].
  unfold bind at 1. unfold set_timers, modify_rt. unfold ret at 1.
  cbn [fst snd this rt].
  unfold bind at 1. unfold pending_set, bind at 1, gets at 1.
  unfold set_pendingRequests, modify. cbn [fst snd this rt].
  unfold bind at 1.
  match goal with
  | |- context [sendMessage ?m ?w0] =>
      pose proof (sendMessage_ids m w0) as Hs;
      destruct (sendMessage m w0) as [[e|] w1]
  end; cbn [fst snd] in *.
  - unfold bind.
    assert (subs_id (clearTimeout (length (timers (rt w))) w1).2 = subs_id w1)
      as Hclear.
    { unfold subs_id. destruct w1 as [[] []]. by step_m. }
    destruct (clearTimeout _ w1) as [[] w2]. simpl in Hclear.
    assert (subs_id (pending_delete (messageId (this w)) w2).2 = subs_id w2)
      as Hdel.
    { unfold subs_id. destruct w2 as [[] []]. by step_m. }
    destruct (pending_delete _ w2) as [[] w3]. simpl in Hdel.
    pose proof (reject_ids (length (promises (rt w))) e w3) as Hrej.
    destruct (reject _ e w3) as [[] w4]. simpl in *.
    rewrite Hrej, Hdel, Hclear, Hs. by destruct w as [[] []].
  - unfold ret. simpl. rewrite Hs. by destruct w as [[] []].
Qed.

Lemma subscribeEvents_ids ev cb w :
  subs_id (subscribeEvents ev cb w).2
  = (Map_set (messageId (this w)) cb (subscriptions (this w)),
     messageId (this w) + 1).
Proof.
  unfold subscribeEvents.
  unfold bind at 1. unfold gets at 1.
  unfold bind at 1. unfold set_messageId, modify. cbn [fst snd this rt].
  unfold bind at 1. unfold gets at 1. cbn [fst snd this rt].
  unfold bind at 1. unfold set_subscriptions, modify. cbn [fst snd this rt].
  unfold bind.
  match goal with
  | |- context [sendMessage ?m ?w0] =>
      pose proof (sendMessage_ids m w0) as Hs;
      destruct (sendMessage m w0) as [[e|] w1]
  end; cbn [fst snd] in *; unfold ret; simpl; rewrite Hs;
    by destruct w as [[] []].
Qed.

Lemma unsubscribeEvents_ids i w :
  subs_id (unsubscribeEvents i w).2
  = (Map_delete i (subscriptions (this w)), messageId (this w) + 1).
Proof.
  unfold unsubscribeEvents.
  unfold bind at 1. unfold gets at 1.
  unfold bind at 1. unfold set_subscriptions, modify. cbn [fst snd this rt].
  unfold bind at 1. unfold gets at 1. cbn [fst snd this rt].
  unfold bind at 1. unfold set_messageId, modify. cbn [fst snd this rt].
  unfold bind.
  match goal with
  | |- context [sendMessage ?m ?w0] =>
      pose proof (sendMessage_ids m w0) as Hs;
      destruct (sendMessage m w0) as [[e|] w1]
  end; cbn [fst snd] in *; unfold ret; simpl; rewrite Hs;
    by destruct w as [[] []].
Qed.

Lemma step_ids w a :
  subs_id (step T w a)
  = match a with
    | Call_sendRequest _ _ => (subscriptions (this w), messageId (this w) + 1)
    | Call_subscribeEvents _ cb =>
        (Map_set (messageId (this w)) cb (subscriptions (this w)),
         messageId (this w) + 1)
    | Call_unsubscribeEvents i =>
        (Map_delete i (subscriptions (this w)), messageId (this w) + 1)
    | Call_disconnect => ([], messageId (this w))
    | _ => subs_id w
    end.
Proof.
  destruct a.
  - unfold step, perform, bind.
    pose proof (connect_ids u tok w) as Hc.
    by destruct (connect T u tok w).
  - unfold step, perform, subs_id, disconnect. open_world w. step_m.
    by destruct w_ws.
  - unfold step, perform, bind.
    pose proof (sendRequest_ids ty fs w) as Hc.
    by destruct (sendRequest ty fs w).
  - unfold step, perform, bind.
    pose proof (subscribeEvents_ids eventType cb w) as Hc.
    by destruct (subscribeEvents eventType cb w).
  - unfold step, perform, bind.
    pose proof (unsubscribeEvents_ids subscriptionId w) as Hc.
    by destruct (unsubscribeEvents subscriptionId w).
  - unfold step, perform, subs_id, set_readyState. open_world w. step_m.
    destruct (_ !! sock) as [k|]; simpl; [|done].
    by destruct (is_connecting (readyState k)).
  - unfold step, perform. unfold bind at 1.
    assert (forall B (x : ReadyState * World) (f : ReadyState -> M B),
              (let (a, w') := x in f a w') = f x.1 x.2) as Hlet
      by (by intros B [] f).
    rewrite Hlet.
    assert ((ws_readyState sock w).2 = w) as ->.
    { open_world w. by step_m. }
    destruct (is_open _); [apply handleMessage_ids | done].
  - unfold step, perform, subs_id. open_world w. step_m.
    destruct (_ !! sock) as [k|]; simpl; [|done].
    step_m. destruct (_ !! connectPromise k) as [[]|]; simpl; try done.
    step_m. by destruct (bool_decide _).
  - unfold step, perform. unfold bind at 1. unfold gets_rt at 1.
    destruct (sockets (rt w) !! sock) as [k|]; [|done].
    destruct (is_closed (readyState k)); [done|].
    unfold bind.
    assert (subs_id (set_readyState sock WS_CLOSED w).2 = subs_id w) as Hset.
    { unfold subs_id, set_readyState. open_world w. by step_m. }
    destruct (set_readyState sock WS_CLOSED w) as [[] w1]. simpl in Hset.
    by rewrite handleClose_ids.
  - apply timer_ids.
Qed.

Lemma subs_ok_step w a : subs_ok w -> subs_ok (step T w a).
Proof.
  intros (Hone & Hbelow & Hwf).
  pose proof (step_ids w a) as Hids. unfold subs_ok.
  assert (subscriptions (this (step T w a)) = (subs_id (step T w a)).1
          /\ messageId (this (step T w a)) = (subs_id (step T w a)).2)
    as [-> ->] by done.
  rewrite Hids.
  destruct a; simpl; try (split; [lia|]; split; [|done];
                          intros i cb' Hin; specialize (Hbelow i cb' Hin); lia).
  - split; [done|]. split; [|apply NoDup_nil_2].
    intros i cb Hin. by apply elem_of_nil in Hin.
  - split; [lia|].
    assert (Map_get (messageId (this w)) (subscriptions (this w)) = None)
      as Hfresh.
    { apply Map_get_notin. intros Hin. unfold Map_keys in Hin.
      apply list_elem_of_fmap in Hin as ([i c] & Hi & Hin). simpl in Hi. subst.
      specialize (Hbelow _ _ Hin). lia. }
    split; [|by apply Map_set_wf].
    rewrite (Map_set_absent _ _ _ Hfresh).
    intros i cb' [Hin|Hin]%elem_of_app.
    + specialize (Hbelow i cb' Hin). lia.
    + apply list_elem_of_singleton in Hin. injection Hin as -> ->. lia.
  - split; [lia|]. split; [|by apply Map_delete_wf].
    intros i cb' Hin.
    assert ((i, cb') ∈ subscriptions (this w)) as Hin'.
    { eapply elem_of_sublist; [exact Hin | apply Map_delete_sublist]. }
    specialize (Hbelow i cb' Hin'). lia.
Qed.

Lemma reachable_subs_ok w : reachable T w -> subs_ok w.
Proof.
  induction 1 as [|w a Hw IH]; [|by apply subs_ok_step].
  split; [simpl; lia|]. split; [|apply NoDup_nil_2].
  intros i cb Hin. by apply elem_of_nil in Hin.
Qed.
End Ids.

Section Subscriptions.
Import Client.
Variable T : string -> option Error.
Implicit Types (w : World).

Lemma fresh_subscription w :
  subs_ok w -> Map_get (messageId (this w)) (subscriptions (this w)) = None.
Proof.
  intros (_ & Hbelow & _). apply Map_get_notin. intros Hin.
  unfold Map_keys in Hin.
  apply list_elem_of_fmap in Hin as ([i c] & Hi & Hin). simpl in Hi. subst.
  specialize (Hbelow _ _ Hin). lia.
Qed.

Lemma sendMessage_open w sock k m :
  ws (this w) = Some sock ->
  sockets (rt w) !! sock = Some k ->
  readyState k = WS_OPEN ->
  sendMessage m w
  = (None,
     {| this := this w;
        rt := {| promises := promises (rt w); timers := timers (rt w);
                 sockets := alter (with_sent m) sock (sockets (rt w));
                 catchers := catchers (rt w);
                 emitted := emitted (rt w) |} |}).
Proof.
  intros Hws Hk Hopen. unfold sendMessage. open_world w. step_m.
  cbv beta iota zeta delta [ws this sockets rt] in Hws, Hk.
  subst w_ws. simpl. rewrite Hk. simpl. by rewrite Hopen.
Qed.

(** An event for a subscription runs its callback and nothing else. *)
Lemma handle_event w i cb event :
  i ≠ 0 ->
  Map_get i (subscriptions (this w)) = Some cb ->
  handleMessage (event_frame i event) w
  = (tt,
     {| this := this w;
        rt := {| promises := promises (rt w); timers := timers (rt w);
                 sockets := sockets (rt w); catchers := catchers (rt w);
                 emitted := EvCallback cb event :: emitted (rt w) |} |}).
Proof.
  intros Hi Hget. unfold handleMessage, event_frame.
  cbv beta iota zeta delta [f_type f_id f_event truthy_id].
  assert ((i =? 0) = false) as -> by lia.
  open_world w. step_m. simpl.
  cbv beta iota zeta delta [subscriptions this] in Hget. by rewrite Hget.
Qed.

Lemma handle_event_unsubscribed w i event :
  i ≠ 0 ->
  Map_get i (subscriptions (this w)) = None ->
  handleMessage (event_frame i event) w = (tt, w).
Proof.
  intros Hi Hget. unfold handleMessage, event_frame.
  cbv beta iota zeta delta [f_type f_id f_event truthy_id].
  assert ((i =? 0) = false) as -> by lia.
  open_world w. step_m. simpl.
  cbv beta iota zeta delta [subscriptions this] in Hget. by rewrite Hget.
Qed.
End Subscriptions.

(** X14.  In every world a fresh object can reach, the counter of message
    ids is at least 1 and above the id of every pending request and of
    every subscription, and no two pending requests and no two
    subscriptions share an id: the id the next request or subscription
    takes is in use by none.  No call and no event makes the counter go
    down. *)
Theorem message_ids_are_fresh (T : string -> option Error)
    (w : Client.World) :
  Client.reachable T w ->
  1 <= Client.messageId (Client.this w)
  /\ (forall i pr, (i, pr) ∈ Client.pendingRequests (Client.this w) ->
        i < Client.messageId (Client.this w))
  /\ (forall i cb, (i, cb) ∈ Client.subscriptions (Client.this w) ->
        1 <= i < Client.messageId (Client.this w))
  /\ NoDup (Client.pendingRequests (Client.this w)).*1
  /\ NoDup (Client.subscriptions (Client.this w)).*1
  /\ Map_get (Client.messageId (Client.this w))
       (Client.pendingRequests (Client.this w)) = None
  /\ Map_get (Client.messageId (Client.this w))
       (Client.subscriptions (Client.this w)) = None
  /\ (forall a, Client.messageId (Client.this w)
                <= Client.messageId (Client.this (Client.step T w a))).
Proof.
  intros Hreach.
  pose proof (reachable_consistent T w Hreach) as Hc.
  pose proof (reachable_subs_ok T w Hreach) as Hs.
  pose proof (fresh_id w Hc) as Hfp.
  pose proof (fresh_subscription w Hs) as Hfs.
  destruct Hc as (Hout & Hwf & _). destruct Hs as (Hone & Hbelow & Hwfs).
  split; [done|]. split; [intros i pr Hin; by destruct (Hout i pr Hin)|].
  split; [done|]. split; [done|]. split; [done|]. split; [done|].
  split; [done|].
  intros a. pose proof (step_ids T w a) as Hids.
  assert (Client.messageId (Client.this (Client.step T w a))
          = (subs_id (Client.step T w a)).2) as -> by done.
  rewrite Hids. destruct a; simpl; lia.
Qed.

Lemma message_ids_are_fresh_witness :
  Map_get (Client.messageId (Client.this three_in_flight))
    (Client.pendingRequests (Client.this three_in_flight)) = None.
Proof.
  assert (Hreach : Client.reachable Client.scheme_checking three_in_flight).
  { unfold three_in_flight, connected.
    do 2 apply reachable_run. apply Client.reachable_init. }
  exact (proj1 (proj2 (proj2 (proj2 (proj2 (proj2
    (message_ids_are_fresh Client.scheme_checking three_in_flight
       Hreach))))))).
Defined.

(** X15.  [subscribeEvents] called while the socket is not open throws
    ['WebSocket is not connected'], yet the callback stays registered
    under the id it took and the counter has moved on; nothing is sent.
    Likewise [unsubscribeEvents] removes the subscription and takes an id
    although it throws. *)
Theorem subscribe_without_transport_still_registers (w : Client.World)
    (eventType : string) (cb : nat) (subscriptionId : Z) :
  transport_open w = false ->
  ((Client.subscribeEvents eventType cb w).1 = Thrown Client.not_connected
   /\ Client.subscriptions (Client.this (Client.subscribeEvents eventType cb w).2)
      = Map_set (Client.messageId (Client.this w)) cb
          (Client.subscriptions (Client.this w))
   /\ Client.messageId (Client.this (Client.subscribeEvents eventType cb w).2)
      = Client.messageId (Client.this w) + 1
   /\ Client.rt (Client.subscribeEvents eventType cb w).2 = Client.rt w)
  /\ ((Client.unsubscribeEvents subscriptionId w).1
      = Thrown Client.not_connected
      /\ Client.subscriptions
           (Client.this (Client.unsubscribeEvents subscriptionId w).2)
         = Map_delete subscriptionId (Client.subscriptions (Client.this w))
      /\ Client.messageId
           (Client.this (Client.unsubscribeEvents subscriptionId w).2)
         = Client.messageId (Client.this w) + 1
      /\ Client.rt (Client.unsubscribeEvents subscriptionId w).2 = Client.rt w).
Proof.
  intros Hclosed.
  assert (forall m w0,
            Client.ws (Client.this w0) = Client.ws (Client.this w) ->
            Client.sockets (Client.rt w0) = Client.sockets (Client.rt w) ->
            Client.sendMessage m w0 = (Some Client.not_connected, w0)) as Hsend.
  { intros m w0 H1 H2. apply sendMessage_closed. unfold transport_open in *.
    by rewrite H1, H2. }
  unfold Client.subscribeEvents, Client.unsubscribeEvents.
  open_world w. step_m. rewrite !Hsend by done. done.
Qed.

Lemma subscribe_without_transport_still_registers_witness :
  (Client.subscribeEvents "state_changed" 7 Client.init).1
  = Thrown Client.not_connected
  /\ Client.subscriptions
       (Client.this (Client.subscribeEvents "state_changed" 7 Client.init).2)
     = [(1, 7%nat)].
Proof.
  destruct (subscribe_without_transport_still_registers Client.init
              "state_changed" 7 0 ltac:(vm_compute; reflexivity))
    as [(H1 & H2 & _) _].
  split; [exact H1 | exact H2].
Defined.

(** X16.  A subscription made while the socket is open sends a
    [subscribe_events] frame under the next message id and returns that
    id.  An [event] frame with this id then runs the callback with the
    frame's event and changes nothing else; once [unsubscribeEvents] has
    been called for the id, the same frame changes nothing at all. *)
Theorem events_reach_their_subscriber (T : string -> option Error)
    (w : Client.World) (sock : nat) (eventType : string) (cb : nat)
    (event : jsval) :
  Client.reachable T w ->
  holds_open w sock ->
  let i := Client.messageId (Client.this w) in
  let w1 := Client.step T w (Client.Call_subscribeEvents eventType cb) in
  let w2 := Client.step T w1 (Client.On_message sock (event_frame i event)) in
  let w3 := Client.step T w1 (Client.Call_unsubscribeEvents i) in
  (Client.subscribeEvents eventType cb w).1 = Fulfilled i
  /\ sent_on w1 sock
     = sent_on w sock
       ++ [{| Client.id := Some i; Client.type := "subscribe_events";
              Client.fields := [("event_type", VStr eventType)] |}]
  /\ Client.emitted (Client.rt w2)
     = Client.EvCallback cb event :: Client.emitted (Client.rt w1)
  /\ Client.this w2 = Client.this w1
  /\ Client.promises (Client.rt w2) = Client.promises (Client.rt w1)
  /\ Client.subscriptions (Client.this w3)
     = Client.subscriptions (Client.this w)
  /\ Client.step T w3 (Client.On_message sock (event_frame i event)) = w3.
Proof.
  intros Hreach Hopen. cbv zeta.
  pose proof (reachable_subs_ok T w Hreach) as Hs.
  pose proof (fresh_subscription w Hs) as Hfresh.
  destruct Hs as (Hone & _).
  destruct Hopen as (Hws & k & Hk & Hko).
  set (i := Client.messageId (Client.this w)) in *.
  set (m := {| Client.id := Some i; Client.type := "subscribe_events";
               Client.fields := [("event_type", VStr eventType)] |}).
  (* the world after the subscription *)
  assert (Client.subscribeEvents eventType cb w
          = (Fulfilled i,
             {| Client.this :=
                  {| Client.ws := Client.ws (Client.this w);
                     Client.url := Client.url (Client.this w);
                     Client.token := Client.token (Client.this w);
                     Client.messageId := i + 1;
                     Client.pendingRequests :=
                       Client.pendingRequests (Client.this w);
                     Client.state := Client.state (Client.this w);
                     Client.reconnectAttempts :=
                       Client.reconnectAttempts (Client.this w);
                     Client.subscriptions :=
                       Map_set i cb (Client.subscriptions (Client.this w));
                     Client.onceAuthenticated :=
                       Client.onceAuthenticated (Client.this w);
                     Client.onceAuthFailed :=
                       Client.onceAuthFailed (Client.this w) |};
                Client.rt :=
                  {| Client.promises := Client.promises (Client.rt w);
                     Client.timers := Client.timers (Client.rt w);
                     Client.sockets :=
                       alter (Client.with_sent m) sock
                         (Client.sockets (Client.rt w));
                     Client.catchers := Client.catchers (Client.rt w);
                     Client.emitted := Client.emitted (Client.rt w) |} |}))
    as Hsub.
  { unfold Client.subscribeEvents, Client.sendMessage, i, m.
    open_world w. step_m.
    cbv beta iota zeta delta [Client.ws Client.this Client.sockets Client.rt]
      in Hws, Hk.
    subst w_ws. simpl. rewrite Hk. simpl. by rewrite Hko. }
  assert (Client.step T w (Client.Call_subscribeEvents eventType cb)
          = (Client.subscribeEvents eventType cb w).2) as ->.
  { unfold Client.step, Client.perform, Client.bind.
    by destruct (Client.subscribeEvents eventType cb w). }
  rewrite Hsub. cbn [fst snd].
  set (w1 := {| Client.this := _; Client.rt := _ |}).
  assert (Client.sockets (Client.rt w1) !! sock
          = Some (Client.with_sent m k)) as Hk1.
  { simpl. by rewrite list_lookup_alter_eq, Hk. }
  split; [done|]. split.
  { unfold sent_on. rewrite Hk1, Hk. done. }
  rewrite (deliver T w1 sock _ _ Hk1 Hko).
  rewrite (handle_event w1 i cb event); [| lia | apply Map_get_set_eq].
  split; [done|]. split; [done|]. split; [done|].
  (* after the cancellation *)
  assert (Client.step T w1 (Client.Call_unsubscribeEvents i)
          = (Client.unsubscribeEvents i w1).2) as ->.
  { unfold Client.step, Client.perform, Client.bind.
    by destruct (Client.unsubscribeEvents i w1). }
  pose proof (unsubscribeEvents_ids i w1) as Hids.
  assert (Client.subscriptions (Client.this (Client.unsubscribeEvents i w1).2)
          = Client.subscriptions (Client.this w)) as Hsubs3.
  { assert (Client.subscriptions
              (Client.this (Client.unsubscribeEvents i w1).2)
            = (subs_id (Client.unsubscribeEvents i w1).2).1) as -> by done.
    rewrite Hids. simpl. by apply Map_set_delete_fresh. }
  split; [done|].
  assert (exists k3,
            Client.sockets (Client.rt (Client.unsubscribeEvents i w1).2)
              !! sock = Some k3
            /\ Client.readyState k3 = Client.WS_OPEN) as (k3 & Hk3 & Hko3).
  { unfold Client.unsubscribeEvents.
    unfold Client.bind at 1. unfold Client.gets at 1.
    unfold Client.bind at 1. unfold Client.set_subscriptions, Client.modify.
    cbn [fst snd].
    unfold Client.bind at 1. unfold Client.gets at 1. cbn [fst snd].
    unfold Client.bind at 1. unfold Client.set_messageId, Client.modify.
    cbn [fst snd]. unfold Client.bind.
    erewrite sendMessage_open; [| exact Hws | exact Hk1 | exact Hko].
    cbn [fst snd Client.ret Client.rt Client.sockets].
    eexists. split; [by rewrite list_lookup_alter_eq, Hk1 | done]. }
  rewrite (deliver T _ sock k3 _ Hk3 Hko3).
  rewrite handle_event_unsubscribed; [done | lia |].
  by rewrite Hsubs3.
Qed.

Lemma events_reach_their_subscriber_witness :
  Client.emitted
    (Client.rt
       (Client.step Client.scheme_checking
          (Client.step Client.scheme_checking connected
             (Client.Call_subscribeEvents "state_changed" 7))
          (Client.On_message 0%nat
             (event_frame (Client.messageId (Client.this connected))
                (VStr "on")))))
  = Client.EvCallback 7 (VStr "on")
    :: Client.emitted
         (Client.rt
            (Client.step Client.scheme_checking connected
               (Client.Call_subscribeEvents "state_changed" 7))).
Proof.
  assert (Hreach : Client.reachable Client.scheme_checking connected).
  { unfold connected. apply reachable_run, Client.reachable_init. }
  assert (Hopen : holds_open connected 0).
  { split; [vm_compute; reflexivity|].
    eexists. split; vm_compute; reflexivity. }
  exact (proj1 (proj2 (proj2
    (events_reach_their_subscriber Client.scheme_checking connected 0%nat
       "state_changed" 7 (VStr "on") Hreach Hopen)))).
Defined.

(** ** The connection manager: reconnection and failures *)

Section Reconnection.
Import Client.
Variable T : string -> option Error.
Implicit Types (w : World).

(** The listeners of ['authenticated'], run one after the other. *)
Lemma authenticated_listeners ls w :
  ls ≠ [] ->
  state (this (for_each ls on_authenticated w).2) = CONNECTED
  /\ reconnectAttempts (this (for_each ls on_authenticated w).2) = 0%nat
  /\ onceAuthenticated (this (for_each ls on_authenticated w).2)
     = onceAuthenticated (this w)
  /\ sockets (rt (for_each ls on_authenticated w).2) = sockets (rt w).
Proof.
  revert w. induction ls as [|p ls IH]; intros w Hne; [done|].
  rewrite for_each_cons.
  assert (state (this (on_authenticated p w).2) = CONNECTED
          /\ reconnectAttempts (this (on_authenticated p w).2) = 0%nat
          /\ onceAuthenticated (this (on_authenticated p w).2)
             = onceAuthenticated (this w)
          /\ sockets (rt (on_authenticated p w).2) = sockets (rt w))
    as (H1 & H2 & H3 & H4).
  { unfold on_authenticated. open_world w. step_m.
    by destruct (_ !! p) as [[]|]. }
  destruct ls as [|q ls]; [done|].
  destruct (IH (on_authenticated p w).2) as (I1 & I2 & I3 & I4); [done|].
  by rewrite I1, I2, I3, I4.
Qed.

Lemma handleClose_state w : state (this (handleClose w).2) = DISCONNECTED.
Proof.
  rewrite handleClose_after_loop.
  destruct (after_close_loop_frame w) as (_ & _ & _ & Hst).
  destruct (after_close_loop w) as [[] []]. cbv zeta. step_m. simpl in *.
  by destruct (_ <? maxReconnectAttempts)%nat.
Qed.
End Reconnection.

(** The callback of a reconnection timer tests the state: when the
    timer comes due and the state is not [DISCONNECTED] (a [connect]
    called in the meantime, for one), it opens no socket, makes no promise
    and leaves the object as it is. *)
Theorem reconnect_timer_checks_the_state (T : string -> option Error)
    (w : Client.World) (h : nat) (t : Client.Timer) :
  Client.timers (Client.rt w) !! h = Some t ->
  Client.active t = true ->
  Client.callback t = Client.Reconnect ->
  Client.state (Client.this w) ≠ Client.DISCONNECTED ->
  Client.this (Client.step T w (Client.On_timer h)) = Client.this w
  /\ Client.sockets (Client.rt (Client.step T w (Client.On_timer h)))
     = Client.sockets (Client.rt w)
  /\ Client.promises (Client.rt (Client.step T w (Client.On_timer h)))
     = Client.promises (Client.rt w)
  /\ Client.emitted (Client.rt (Client.step T w (Client.On_timer h)))
     = Client.emitted (Client.rt w)
  /\ Client.timers (Client.rt (Client.step T w (Client.On_timer h)))
     = alter Client.deactivate h (Client.timers (Client.rt w)).
Proof.
  intros Hh Hact Hcb Hst.
  unfold Client.step, Client.perform, Client.run_timer, Client.reconnect.
  open_world w. step_m.
  cbv beta iota zeta delta [Client.timers Client.rt Client.state Client.this]
    in Hh, Hst.
  rewrite Hh, Hact. step_m. rewrite Hcb. step_m.
  by destruct w_state.
Qed.

Lemma reconnect_timer_checks_the_state_witness :
  Client.sockets
    (Client.rt
       (Client.step Client.scheme_checking
          (Client.run Client.scheme_checking
             [Client.On_close 0%nat;
              Client.Call_connect "ws://ha.local:8123/api/websocket" "secret"]
             connected)
          (Client.On_timer 0%nat)))
  = Client.sockets
      (Client.rt
         (Client.run Client.scheme_checking
            [Client.On_close 0%nat;
             Client.Call_connect "ws://ha.local:8123/api/websocket" "secret"]
            connected)).
Proof.
  exact (proj1 (proj2
    (reconnect_timer_checks_the_state Client.scheme_checking
       (Client.run Client.scheme_checking
          [Client.On_close 0%nat;
           Client.Call_connect "ws://ha.local:8123/api/websocket" "secret"]
          connected)
       0%nat
       {| Client.callback := Client.Reconnect; Client.delay := 1000;
          Client.active := true |}
       ltac:(vm_compute; reflexivity) ltac:(vm_compute; reflexivity)
       ltac:(vm_compute; reflexivity) ltac:(vm_compute; discriminate)))).
Defined.

(** When the server accepts the token while a [connect] call waits,
    the state becomes [CONNECTED] and the count of reconnection attempts
    goes back to zero, so that the next time the connection drops the
    first retry is announced after one second again. *)
Theorem backoff_starts_over_once_connected (T : string -> option Error)
    (w : Client.World) (sock : nat) (k : Client.Socket) :
  Client.sockets (Client.rt w) !! sock = Some k ->
  Client.readyState k = Client.WS_OPEN ->
  Client.onceAuthenticated (Client.this w) ≠ [] ->
  let w1 := Client.step T w (Client.On_message sock (frame "auth_ok")) in
  let w2 := Client.step T w1 (Client.On_close sock) in
  Client.state (Client.this w1) = Client.CONNECTED
  /\ Client.reconnectAttempts (Client.this w1) = 0%nat
  /\ Client.onceAuthenticated (Client.this w1) = []
  /\ Client.state (Client.this w2) = Client.DISCONNECTED
  /\ Client.reconnectAttempts (Client.this w2) = 1%nat
  /\ head (Client.emitted (Client.rt w2))
     = Some (Client.EvReconnecting 1 1000).
Proof.
  intros Hk Hopen Hls. cbv zeta.
  rewrite (deliver T w sock k _ Hk Hopen).
  assert ((Client.handleMessage (frame "auth_ok") w).2
          = (Client.for_each (Client.onceAuthenticated (Client.this w))
               Client.on_authenticated
               (Client.set_onceAuthenticated [] w).2).2) as Hhandle.
  { unfold Client.handleMessage, frame, Client.emit_authenticated.
    cbv beta iota zeta delta [Client.f_type]. cbn [String.eqb Ascii.eqb].
    simpl. open_world w. by step_m. }
  rewrite Hhandle.
  destruct (authenticated_listeners
              (Client.onceAuthenticated (Client.this w))
              (Client.set_onceAuthenticated [] w).2 Hls)
    as (H1 & H2 & H3 & H4).
  set (w1 := (Client.for_each _ _ _).2) in *.
  assert (Client.onceAuthenticated (Client.this w1) = []) as H3'.
  { rewrite H3. clear. open_world w. by step_m. }
  assert (Client.sockets (Client.rt w1) !! sock = Some k) as Hk1.
  { rewrite H4. clear -Hk. open_world w. by step_m. }
  split; [done|]. split; [done|]. split; [done|].
  destruct (step_close T w1 sock k Hk1) as (-> & Hthis & _).
  { by rewrite Hopen. }
  set (w1' := (Client.set_readyState sock Client.WS_CLOSED w1).2) in *.
  destruct (handleClose_retry w1') as (Hn & _ & Hev).
  { rewrite Hthis, H2. unfold Client.maxReconnectAttempts. lia. }
  rewrite Hthis, H2 in Hn, Hev.
  split; [apply handleClose_state|]. by split.
Qed.

Lemma backoff_starts_over_once_connected_witness :
  head
    (Client.emitted
       (Client.rt
          (Client.step Client.scheme_checking
             (Client.step Client.scheme_checking authenticating
                (Client.On_message 0%nat (frame "auth_ok")))
             (Client.On_close 0%nat))))
  = Some (Client.EvReconnecting 1 1000).
Proof.
  exact (proj2 (proj2 (proj2 (proj2 (proj2
    (backoff_starts_over_once_connected Client.scheme_checking authenticating
       0%nat
       {| Client.sock_url := "ws://ha.local:8123/api/websocket";
          Client.readyState := Client.WS_OPEN;
          Client.sent :=
            [{| Client.id := None; Client.type := "auth";
                Client.fields := [("access_token", VStr "secret")] |}];
          Client.connectPromise := 0 |}
       ltac:(vm_compute; reflexivity) ltac:(vm_compute; reflexivity)
       ltac:(vm_compute; discriminate))))))).
Defined.

(** With a listener on ['error'] the handler of the socket's ['error']
    event is the transition [On_error]. *)
Lemma on_error_heard (T : string -> option Error) (w : Client.World)
    (sock : nat) (e : Error) :
  Listening.on_error true sock e w
  = (None, Client.step T w (Client.On_error sock e)).
Proof.
  unfold Client.step, Client.perform, Listening.on_error,
    Listening.emit_error.
  open_world w. step_m.
  destruct (w_sockets !! sock) as [k|]; [|done]. step_m.
  destruct (w_promises !! Client.connectPromise k) as [[| |]|]; try done.
  step_m. by destruct (bool_decide _).
Qed.

(** Without one the handler throws at its first statement. *)
Lemma on_error_unheard (w : Client.World) (sock : nat) (k : Client.Socket)
    (e : Error) :
  Client.sockets (Client.rt w) !! sock = Some k ->
  Listening.on_error false sock e w = (Some e, w).
Proof.
  intros Hk. unfold Listening.on_error, Listening.emit_error.
  open_world w. step_m.
  cbv beta iota zeta delta [Client.sockets Client.rt] in Hk.
  by rewrite Hk.
Qed.

Lemma bind_ret_None {A : Type} (m : Client.M A) (w : Client.World) :
  Client.bind m (fun _ => Client.ret (@None Error)) w = (None, (m w).2).
Proof. unfold Client.bind, Client.ret. by destruct (m w). Qed.

Lemma handleMessage_heard (w : Client.World) (data : Client.Data) :
  Listening.handleMessage true data w
  = (None, (Client.handleMessage data w).2).
Proof.
  unfold Listening.handleMessage, Listening.emit_error.
  destruct data as [why|message].
  - unfold Client.handleMessage. open_world w. by step_m.
  - destruct (String.eqb (Client.f_type message) "auth_required") eqn:Hty;
      [|apply bind_ret_None].
    unfold Client.handleMessage. rewrite Hty.
    open_world w. step_m.
    destruct (Client.sendMessage _ _) as [[error|] w4]; [|done].
    by step_m.
Qed.

(** X17.  When a socket reports an error and the host listens on
    ['error'], the handler emits the error, sets the state to [ERROR] and
    rejects the promise of the [connect] call that made the socket; this
    is the transition [On_error].  The ['close'] event that follows sets
    the state to [DISCONNECTED] and, while fewer than ten attempts are
    counted, sets a reconnection timer: a connection that failed is tried
    again although the call was rejected.  When no listener is registered
    on ['error'] (this repository registers none), the [emit] at the head
    of the handler throws the error and the handler ends there: the state
    is not set to [ERROR], the promise of the [connect] call is not
    rejected, nothing changes. *)
Theorem socket_error_is_retried (T : string -> option Error)
    (w : Client.World) (sock : nat) (k : Client.Socket) (e : Error) :
  Client.sockets (Client.rt w) !! sock = Some k ->
  Client.is_closed (Client.readyState k) = false ->
  Client.promises (Client.rt w) !! Client.connectPromise k
  = Some Client.Pending ->
  (Client.reconnectAttempts (Client.this w) < 10)%nat ->
  let w1 := (Listening.on_error true sock e w).2 in
  let w2 := Client.step T w1 (Client.On_close sock) in
  (Listening.on_error true sock e w).1 = None
  /\ Client.step T w (Client.On_error sock e) = w1
  /\ Client.state (Client.this w1) = Client.ERROR
  /\ Client.promises (Client.rt w1) !! Client.connectPromise k
     = Some (Client.Rejected e)
  /\ Client.EvError e ∈ Client.emitted (Client.rt w1)
  /\ Client.state (Client.this w2) = Client.DISCONNECTED
  /\ Client.reconnectAttempts (Client.this w2)
     = S (Client.reconnectAttempts (Client.this w))
  /\ last (Client.timers (Client.rt w2))
     = Some {| Client.callback := Client.Reconnect;
               Client.delay :=
                 Client.backoff (S (Client.reconnectAttempts (Client.this w)));
               Client.active := true |}
  /\ Listening.on_error false sock e w = (Some e, w)
  /\ Client.state (Client.this (Listening.on_error false sock e w).2)
     = Client.state (Client.this w)
  /\ Client.promises (Client.rt (Listening.on_error false sock e w).2)
       !! Client.connectPromise k
     = Some Client.Pending.
Proof.
  intros Hk Hopen Hp Hlt. cbv zeta.
  rewrite (on_error_unheard w sock k e Hk).
  rewrite (on_error_heard T w sock e). cbn [fst snd].
  split; [done|]. split; [done|].
  assert (Client.state (Client.this (Client.step T w (Client.On_error sock e)))
          = Client.ERROR
          /\ Client.promises
               (Client.rt (Client.step T w (Client.On_error sock e)))
             = <[Client.connectPromise k := Client.Rejected e]>
                 (Client.promises (Client.rt w))
          /\ Client.EvError e
             ∈ Client.emitted
                 (Client.rt (Client.step T w (Client.On_error sock e)))
          /\ Client.sockets
               (Client.rt (Client.step T w (Client.On_error sock e)))
             = Client.sockets (Client.rt w)
          /\ Client.reconnectAttempts
               (Client.this (Client.step T w (Client.On_error sock e)))
             = Client.reconnectAttempts (Client.this w))
    as (Hst & Hps & Hev & Hsocks & Hn).
  { unfold Client.step, Client.perform. open_world w. step_m.
    cbv beta iota zeta delta [Client.sockets Client.rt Client.promises]
      in Hk, Hp.
    rewrite Hk. step_m. simpl. rewrite Hp. step_m.
    destruct (bool_decide _); simpl; repeat split; try done.
    - apply list_elem_of_further, list_elem_of_here.
    - apply list_elem_of_here. }
  set (w1 := Client.step T w (Client.On_error sock e)) in *.
  split; [done|]. split.
  { rewrite Hps. apply list_lookup_insert_eq. by eapply lookup_lt_Some. }
  split; [done|].
  destruct (step_close T w1 sock k) as (-> & Hthis & _);
    [by rewrite Hsocks | done |].
  set (w1' := (Client.set_readyState sock Client.WS_CLOSED w1).2) in *.
  destruct (handleClose_retry w1') as (Hn2 & Hts & _).
  { rewrite Hthis, Hn. unfold Client.maxReconnectAttempts. lia. }
  rewrite Hthis, Hn in Hn2, Hts.
  split; [apply handleClose_state|]. split; [done|].
  split; [rewrite Hts; apply last_snoc|]. done.
Qed.

Lemma socket_error_is_retried_witness :
  Client.state
    (Client.this
       (Client.step Client.scheme_checking
          (Listening.on_error true 0%nat (MkError "ECONNREFUSED")
             (Client.run Client.scheme_checking
                [Client.Call_connect "ws://ha.local:8123/api/websocket"
                   "secret"] Client.init)).2
          (Client.On_close 0%nat)))
  = Client.DISCONNECTED
  /\ Listening.on_error false 0%nat (MkError "ECONNREFUSED")
       (Client.run Client.scheme_checking
          [Client.Call_connect "ws://ha.local:8123/api/websocket" "secret"]
          Client.init)
     = (Some (MkError "ECONNREFUSED"),
        Client.run Client.scheme_checking
          [Client.Call_connect "ws://ha.local:8123/api/websocket" "secret"]
          Client.init).
Proof.
  destruct
    (socket_error_is_retried Client.scheme_checking
       (Client.run Client.scheme_checking
          [Client.Call_connect "ws://ha.local:8123/api/websocket" "secret"]
          Client.init)
       0%nat
       {| Client.sock_url := "ws://ha.local:8123/api/websocket";
          Client.readyState := Client.WS_CONNECTING;
          Client.sent := []; Client.connectPromise := 0 |}
       (MkError "ECONNREFUSED")
       ltac:(vm_compute; reflexivity) ltac:(vm_compute; reflexivity)
       ltac:(vm_compute; reflexivity) ltac:(vm_compute; lia))
    as (_ & _ & _ & _ & _ & H1 & _ & _ & H2 & _).
  split; [exact H1 | exact H2].
Defined.

(** X18.  Whatever goes wrong while a frame is handled is reported as a
    parse failure, by an [emit] of ['error'] in the [catch] block.  With
    a listener on ['error']: text that [JSON.parse] refuses emits
    ['error'] with ['Failed to parse message: ...'] and changes nothing
    else, and an [auth_required] frame that arrives while the socket the
    object holds is not open sets the state to [AUTHENTICATING], sends
    nothing, and emits ['error'] with ['Failed to parse message: Error:
    WebSocket is not connected'].  Without a listener on ['error'] (this
    repository registers none) that [emit] throws the same error out of
    [handleMessage]: for text that does not parse nothing changes, for
    the [auth_required] frame the state is [AUTHENTICATING] and the
    state event was emitted.  With a listener, [handleMessage] is the
    function of the transitions. *)
Theorem handling_failures_are_reported_as_parse_errors (w : Client.World)
    (why : string) :
  Listening.handleMessage true (Client.Unparsable why) w
  = (None,
     {| Client.this := Client.this w;
        Client.rt :=
          {| Client.promises := Client.promises (Client.rt w);
             Client.timers := Client.timers (Client.rt w);
             Client.sockets := Client.sockets (Client.rt w);
             Client.catchers := Client.catchers (Client.rt w);
             Client.emitted :=
               Client.EvError (MkError ("Failed to parse message: " ++ why))
               :: Client.emitted (Client.rt w) |} |})
  /\ Listening.handleMessage false (Client.Unparsable why) w
     = (Some (MkError ("Failed to parse message: " ++ why)), w)
  /\ (transport_open w = false ->
      (Listening.handleMessage true (frame "auth_required") w).1 = None
      /\ Client.state
           (Client.this
              (Listening.handleMessage true (frame "auth_required") w).2)
         = Client.AUTHENTICATING
      /\ Client.sockets
           (Client.rt
              (Listening.handleMessage true (frame "auth_required") w).2)
         = Client.sockets (Client.rt w)
      /\ Client.emitted
           (Client.rt
              (Listening.handleMessage true (frame "auth_required") w).2)
         = Client.EvError
             (MkError
                "Failed to parse message: Error: WebSocket is not connected")
           :: Client.EvState Client.AUTHENTICATING
           :: Client.emitted (Client.rt w))
  /\ (transport_open w = false ->
      (Listening.handleMessage false (frame "auth_required") w).1
      = Some (MkError
                "Failed to parse message: Error: WebSocket is not connected")
      /\ Client.state
           (Client.this
              (Listening.handleMessage false (frame "auth_required") w).2)
         = Client.AUTHENTICATING
      /\ Client.sockets
           (Client.rt
              (Listening.handleMessage false (frame "auth_required") w).2)
         = Client.sockets (Client.rt w)
      /\ Client.emitted
           (Client.rt
              (Listening.handleMessage false (frame "auth_required") w).2)
         = Client.EvState Client.AUTHENTICATING
           :: Client.emitted (Client.rt w))
  /\ (forall data,
        Client.handleMessage data w
        = (tt, (Listening.handleMessage true data w).2)).
Proof.
  assert (forall m w0,
            transport_open w = false ->
            Client.ws (Client.this w0) = Client.ws (Client.this w) ->
            Client.sockets (Client.rt w0) = Client.sockets (Client.rt w) ->
            Client.sendMessage m w0 = (Some Client.not_connected, w0)) as Hsend.
  { intros m w0 Hclosed H1 H2. apply sendMessage_closed.
    unfold transport_open in *. by rewrite H1, H2. }
  split.
  { unfold Listening.handleMessage, Listening.emit_error,
      Client.parse_failure. open_world w. by step_m. }
  split; [done|]. split; [|split].
  - intros Hclosed.
    unfold Listening.handleMessage, Listening.emit_error, frame.
    cbv beta iota zeta delta [Client.f_type]. cbn [String.eqb Ascii.eqb].
    simpl. open_world w. step_m. rewrite Hsend by done. step_m. done.
  - intros Hclosed.
    unfold Listening.handleMessage, Listening.emit_error, frame.
    cbv beta iota zeta delta [Client.f_type]. cbn [String.eqb Ascii.eqb].
    simpl. open_world w. step_m. rewrite Hsend by done. step_m. done.
  - intros data. rewrite handleMessage_heard. cbn [snd].
    by destruct (Client.handleMessage data w) as [[] w'].
Qed.

Lemma handling_failures_are_reported_as_parse_errors_witness :
  (Listening.handleMessage false (frame "auth_required") Client.init).1
  = Some (MkError
            "Failed to parse message: Error: WebSocket is not connected")
  /\ Client.state
       (Client.this
          (Listening.handleMessage false (frame "auth_required")
             Client.init).2)
     = Client.AUTHENTICATING.
Proof.
  destruct (handling_failures_are_reported_as_parse_errors Client.init "x")
    as (_ & _ & _ & H & _).
  destruct (H ltac:(vm_compute; reflexivity)) as (H1 & H2 & _).
  split; [exact H1 | exact H2].
Defined.

(** ** The hover: timestamps and attributes *)

Section HoverFacts.
Import Hover.

Lemma nested_floors (diff : Z) :
  diff / 1000 / 60 = diff / 60000
  /\ diff / 1000 / 60 / 60 = diff / 3600000
  /\ diff / 1000 / 60 / 60 / 24 = diff / 86400000.
Proof.
  rewrite !Z.div_div by lia. done.
Qed.
End HoverFacts.

(** X19.  [formatTimestamp] words the age of a timestamp by its whole
    seconds below one minute, whole minutes below one hour, whole hours
    below one day and whole days below one week, each rounded down, with
    the singular for exactly one minute, hour or day but ['1 seconds
    ago'] for one second; from one week on, and for text that denotes no
    date, it prints the date in the host's locale.  A timestamp in the
    future is worded as a negative number of seconds. *)
Theorem formatTimestamp_by_age (toLocaleString : option Z -> string)
    (now d : Z) :
  (now - d < 60000 ->
     Hover.formatTimestamp toLocaleString now (Some d)
     = (Hover.show ((now - d) / 1000) ++ " seconds ago")%string)
  /\ (60000 <= now - d < 3600000 ->
        Hover.formatTimestamp toLocaleString now (Some d)
        = (Hover.show ((now - d) / 60000) ++ " minute"
           ++ (if Z.eqb ((now - d) / 60000) 1 then "" else "s") ++ " ago")%string)
  /\ (3600000 <= now - d < 86400000 ->
        Hover.formatTimestamp toLocaleString now (Some d)
        = (Hover.show ((now - d) / 3600000) ++ " hour"
           ++ (if Z.eqb ((now - d) / 3600000) 1 then "" else "s") ++ " ago")%string)
  /\ (86400000 <= now - d < 604800000 ->
        Hover.formatTimestamp toLocaleString now (Some d)
        = (Hover.show ((now - d) / 86400000) ++ " day"
           ++ (if Z.eqb ((now - d) / 86400000) 1 then "" else "s") ++ " ago")%string)
  /\ (604800000 <= now - d ->
        Hover.formatTimestamp toLocaleString now (Some d)
        = toLocaleString (Some d))
  /\ Hover.formatTimestamp toLocaleString now None = toLocaleString None.
Proof.
  unfold Hover.formatTimestamp. cbv zeta.
  destruct (nested_floors (now - d)) as (-> & -> & ->).
  set (diff := now - d).
  assert (diff / 1000 < 60 <-> diff < 60000) as H1
    by (Z.div_mod_to_equations; lia).
  assert (diff / 60000 < 60 <-> diff < 3600000) as H2
    by (Z.div_mod_to_equations; lia).
  assert (diff / 3600000 < 24 <-> diff < 86400000) as H3
    by (Z.div_mod_to_equations; lia).
  assert (diff / 86400000 < 7 <-> diff < 604800000) as H4
    by (Z.div_mod_to_equations; lia).
  repeat split; intros; repeat case_match; try done; lia.
Qed.

Lemma formatTimestamp_by_age_witness :
  Hover.formatTimestamp (fun _ => "11/3/2026, 10:00:00 AM") 61000 (Some 0)
  = "1 minute ago"
  /\ Hover.formatTimestamp (fun _ => "11/3/2026, 10:00:00 AM") 1000 (Some 0)
     = "1 seconds ago"
  /\ Hover.formatTimestamp (fun _ => "11/3/2026, 10:00:00 AM") 0 (Some 5000)
     = "-5 seconds ago".
Proof.
  destruct (formatTimestamp_by_age (fun _ => "11/3/2026, 10:00:00 AM")
              61000 0) as (_ & H1 & _).
  destruct (formatTimestamp_by_age (fun _ => "11/3/2026, 10:00:00 AM")
              1000 0) as (H2 & _).
  destruct (formatTimestamp_by_age (fun _ => "11/3/2026, 10:00:00 AM")
              0 5000) as (H3 & _).
  split; [|split].
  - rewrite H1 by lia. reflexivity.
  - rewrite H2 by lia. reflexivity.
  - rewrite H3 by lia. reflexivity.
Defined.

Section HoverAttributes.
Import Hover.
Context {V : Type} (defined : V -> bool).
Implicit Types (A E attrs : list (string * V)) (k : string) (v : V).

Lemma addPriority_keys A keys attrs :
  (addPriority defined A keys attrs).*1
  = attrs.*1 ++ filter (fun k => picked defined A k) keys.
Proof.
  revert attrs. induction keys as [|key rest IH]; intros attrs; simpl.
  - by rewrite app_nil_r.
  - rewrite filter_cons.
    destruct (picked defined A key) eqn:Hp; unfold picked in Hp;
      destruct (Map_get key A) as [v|]; simpl; try rewrite Hp;
      try done; try apply IH.
    rewrite IH, fmap_app. simpl. by rewrite <- app_assoc.
Qed.

Lemma addPriority_elem A keys attrs k v :
  (k, v) ∈ addPriority defined A keys attrs
  <-> (k, v) ∈ attrs
      \/ (k ∈ keys /\ Map_get k A = Some v /\ defined v = true
          /\ includes skipKeys k = false).
Proof.
  revert attrs. induction keys as [|key rest IH]; intros attrs; simpl.
  - rewrite elem_of_nil. tauto.
  - rewrite elem_of_cons.
    destruct (Map_get key A) as [v0|] eqn:Hget.
    + destruct (defined v0 && negb (includes skipKeys key)) eqn:Hpick.
      * rewrite IH, elem_of_app, list_elem_of_singleton.
        apply andb_true_iff in Hpick as [Hd Hs].
        apply negb_true_iff in Hs. split.
        -- intros [[?|Heq]|?]; [tauto | | tauto].
           injection Heq as -> ->. tauto.
        -- intros [?|([->|?] & Hk & ?)]; [tauto | | tauto].
           rewrite Hget in Hk. injection Hk as ->. tauto.
      * rewrite IH. split; [tauto|].
        intros [?|([->|?] & Hk & Hd & Hs)]; [tauto | | tauto].
        rewrite Hget in Hk. injection Hk as ->.
        rewrite Hd, Hs in Hpick. done.
    + rewrite IH. split; [tauto|].
      intros [?|([->|?] & Hk & ?)]; [tauto | | tauto]. congruence.
Qed.

Lemma addOthers_full E attrs :
  (10 <= length attrs)%nat -> addOthers E attrs = attrs.
Proof.
  intros Hlen. destruct E as [|[key value] rest]; [done|]. cbn [addOthers].
  by rewrite (proj2 (Nat.leb_le _ _) Hlen).
Qed.

Lemma addOthers_length E attrs :
  (length attrs <= length (addOthers E attrs))%nat
  /\ ((length attrs <= 10)%nat -> (length (addOthers E attrs) <= 10)%nat).
Proof.
  revert attrs. induction E as [|[key value] rest IH]; intros attrs;
    cbn [addOthers].
  - done.
  - destruct (10 <=? length attrs)%nat eqn:Hfull; [done|].
    apply Nat.leb_gt in Hfull.
    destruct (negb (includes priorityKeys key)
              && negb (includes skipKeys key)); [|apply IH].
    destruct (IH (attrs ++ [(key, value)])) as [H1 H2].
    rewrite length_app in *. cbn [length] in *. split; [lia|].
    intros _. apply H2. lia.
Qed.

Lemma addOthers_elem E attrs k v :
  (k, v) ∈ addOthers E attrs ->
  (k, v) ∈ attrs
  \/ ((k, v) ∈ E /\ includes priorityKeys k = false
      /\ includes skipKeys k = false).
Proof.
  revert attrs. induction E as [|[key value] rest IH]; intros attrs;
    cbn [addOthers].
  - by left.
  - destruct (10 <=? length attrs)%nat; [by left|].
    destruct (negb (includes priorityKeys key)
              && negb (includes skipKeys key)) eqn:Hok.
    + intros [Hin|(Hin & ?)]%IH.
      * apply elem_of_app in Hin as [?|Hin]; [by left|].
        apply list_elem_of_singleton in Hin. injection Hin as -> ->.
        apply andb_true_iff in Hok as [H1 H2].
        apply negb_true_iff in H1, H2.
        right. split; [apply list_elem_of_here | done].
      * right. split; [by apply list_elem_of_further | done].
    + intros [?|(Hin & ?)]%IH; [by left|].
      right. split; [by apply list_elem_of_further | done].
Qed.

Lemma addOthers_keeps E attrs k v :
  (k, v) ∈ attrs -> (k, v) ∈ addOthers E attrs.
Proof.
  revert attrs. induction E as [|[key value] rest IH]; intros attrs Hin;
    cbn [addOthers]; [done|].
  destruct (10 <=? length attrs)%nat; [done|].
  destruct (negb (includes priorityKeys key)
            && negb (includes skipKeys key)); [|by apply IH].
  apply IH, elem_of_app. by left.
Qed.

Lemma addOthers_all E attrs k v :
  (length (addOthers E attrs) < 10)%nat ->
  (k, v) ∈ E -> includes priorityKeys k = false ->
  includes skipKeys k = false ->
  (k, v) ∈ addOthers E attrs.
Proof.
  revert attrs. induction E as [|[key value] rest IH]; intros attrs;
    cbn [addOthers].
  - intros _ Hin. by apply elem_of_nil in Hin.
  - destruct (10 <=? length attrs)%nat eqn:Hfull.
    { apply Nat.leb_le in Hfull. lia. }
    intros Hlen [Heq|Hin]%elem_of_cons Hp Hs.
    + injection Heq as -> ->. rewrite Hp, Hs. cbn [negb andb].
      apply addOthers_keeps, elem_of_app. right. apply list_elem_of_here.
    + destruct (negb (includes priorityKeys key)
                && negb (includes skipKeys key)); by apply IH.
Qed.

Lemma addOthers_NoDup E attrs :
  Map_wf E -> NoDup attrs.*1 ->
  (forall k, k ∈ attrs.*1 -> k ∈ E.*1 -> includes priorityKeys k = true) ->
  NoDup (addOthers E attrs).*1.
Proof.
  unfold Map_wf, Map_keys.
  revert attrs. induction E as [|[key value] rest IH]; intros attrs;
    cbn [addOthers]; [done|].
  rewrite fmap_cons. cbn [fst].
  intros [Hnotin Hnd]%NoDup_cons Hattrs Hsep.
  destruct (10 <=? length attrs)%nat; [done|].
  destruct (negb (includes priorityKeys key)
            && negb (includes skipKeys key)) eqn:Hok.
  - apply andb_true_iff in Hok as [H1 _]. apply negb_true_iff in H1.
    apply IH; [done | |].
    + rewrite fmap_app. simpl. apply NoDup_app. split; [done|]. split.
      * intros k Hk Hk'. apply list_elem_of_singleton in Hk' as ->.
        rewrite Hsep in H1; [done | done | apply list_elem_of_here].
      * apply NoDup_singleton.
    + intros k Hk Hk'. rewrite fmap_app in Hk. simpl in Hk.
      apply elem_of_app in Hk as [Hk|Hk].
      * apply Hsep; [done | by apply list_elem_of_further].
      * apply list_elem_of_singleton in Hk as ->. done.
  - apply IH; [done | done |].
    intros k Hk Hk'. apply Hsep; [done | by apply list_elem_of_further].
Qed.
Lemma addPriority_order A keys attrs :
  addPriority defined A keys attrs
  = attrs ++ omap (priorityEntry defined A) keys.
Proof.
  revert attrs. induction keys as [|key rest IH]; intros attrs;
    cbn [addPriority].
  - by rewrite app_nil_r.
  - change (omap (priorityEntry defined A) (key :: rest))
      with (match priorityEntry defined A key with
            | Some e => e :: omap (priorityEntry defined A) rest
            | None => omap (priorityEntry defined A) rest
            end).
    unfold priorityEntry at 1.
    destruct (Map_get key A) as [v|]; [|apply IH].
    destruct (defined v && negb (includes skipKeys key)); [|apply IH].
    by rewrite IH, <- app_assoc.
Qed.

Lemma addOthers_order E attrs :
  addOthers E attrs
  = attrs ++ take (10 - length attrs) (filter (fun e => other e) E).
Proof.
  revert attrs. induction E as [|[key value] rest IH]; intros attrs;
    cbn [addOthers].
  - by rewrite filter_nil, take_nil, app_nil_r.
  - destruct (10 <=? length attrs)%nat eqn:Hfull.
    + apply Nat.leb_le in Hfull.
      replace (10 - length attrs)%nat with 0%nat by lia.
      by rewrite take_0, app_nil_r.
    + apply Nat.leb_gt in Hfull.
      destruct (negb (includes priorityKeys key)
                && negb (includes skipKeys key)) eqn:Hok.
      * rewrite filter_cons_True by (unfold other; cbn [fst]; by rewrite Hok).
        rewrite IH, length_app. cbn [length].
        replace (10 - length attrs)%nat
          with (S (10 - (length attrs + 1)))%nat by lia.
        cbn [take]. by rewrite <- app_assoc.
      * rewrite filter_cons_False
          by (unfold other; cbn [fst]; rewrite Hok; exact id).
        apply IH.
Qed.
End HoverAttributes.

(** X20.  [getImportantAttributes] lists first the priority attributes
    that are defined, in the fixed order of the priority keys, and after
    them the attributes that are neither priority keys nor skipped, in the
    order of the object, as many of them as bring the list to ten: the
    first [10 - p] of them when [p] priority attributes are listed.  It
    never lists an attribute it is told to skip, lists no key twice and
    gives each key the value the entity has for it.  The limit of ten
    holds for the second loop only: with all eleven priority attributes
    defined it lists eleven.  When fewer than ten are listed, every
    attribute that is neither a priority key nor skipped is among them. *)
Theorem hover_lists_important_attributes {V : Type} (defined : V -> bool)
    (attributes : list (string * V)) :
  Map_wf attributes ->
  Hover.getImportantAttributes defined attributes
  = omap (priorityEntry defined attributes) Hover.priorityKeys
    ++ take (10 - length (omap (priorityEntry defined attributes)
                            Hover.priorityKeys))
         (filter (fun e => other e) attributes)
  /\ (length (Hover.getImportantAttributes defined attributes) <= 11)%nat
  /\ ((10 < length (Hover.getImportantAttributes defined attributes))%nat ->
      (Hover.getImportantAttributes defined attributes).*1
      = Hover.priorityKeys)
  /\ (forall k v,
        (k, v) ∈ Hover.getImportantAttributes defined attributes ->
        Map_get k attributes = Some v /\ k ∉ Hover.skipKeys)
  /\ NoDup (Hover.getImportantAttributes defined attributes).*1
  /\ (forall k v,
        k ∈ Hover.priorityKeys -> Map_get k attributes = Some v ->
        defined v = true ->
        (k, v) ∈ Hover.getImportantAttributes defined attributes)
  /\ (forall k v,
        (length (Hover.getImportantAttributes defined attributes) < 10)%nat ->
        (k, v) ∈ attributes -> k ∉ Hover.priorityKeys ->
        k ∉ Hover.skipKeys ->
        (k, v) ∈ Hover.getImportantAttributes defined attributes).
Proof.
  intros Hwf. split.
  { unfold Hover.getImportantAttributes.
    by rewrite addOthers_order, addPriority_order. }
  unfold Hover.getImportantAttributes.
  set (first := Hover.addPriority defined attributes Hover.priorityKeys []).
  pose proof (addPriority_keys defined attributes Hover.priorityKeys [])
    as Hkeys.
  fold first in Hkeys. simpl in Hkeys.
  assert (length first <= 11)%nat as Hlen.
  { rewrite <- (length_fmap fst), Hkeys.
    etransitivity; [apply length_filter|]. done. }
  assert (forall k, k ∈ first.*1 -> k ∈ Hover.priorityKeys) as Hsub.
  { intros k. rewrite Hkeys. intros Hk%list_elem_of_filter. tauto. }
  assert (NoDup first.*1) as Hnd.
  { rewrite Hkeys. apply NoDup_filter.
    apply (bool_decide_unpack _). vm_compute. exact I. }
  assert (forall k, Hover.includes Hover.skipKeys k = false
                    <-> k ∉ Hover.skipKeys) as Hskip.
  { intros k. unfold Hover.includes. by rewrite bool_decide_eq_false. }
  assert (forall k, Hover.includes Hover.priorityKeys k = false
                    <-> k ∉ Hover.priorityKeys) as Hprio.
  { intros k. unfold Hover.includes. by rewrite bool_decide_eq_false. }
  split; [|split; [|split; [|split; [|split]]]].
  - destruct (decide (10 <= length first)%nat) as [Hfull|Hroom].
    + by rewrite addOthers_full.
    + destruct (addOthers_length attributes first) as [_ H]. lia.
  - intros Hbig.
    destruct (decide (10 <= length first)%nat) as [Hfull|Hroom].
    + rewrite addOthers_full in * by done.
      rewrite Hkeys. apply filter_full_length.
      rewrite <- Hkeys, length_fmap. simpl. lia.
    + destruct (addOthers_length attributes first) as [_ H]. lia.
  - intros k v Hin.
    apply addOthers_elem in Hin as [Hin|(Hin & _ & Hs)].
    + apply addPriority_elem in Hin as [Hin|(_ & Hget & _ & Hs)].
      * by apply elem_of_nil in Hin.
      * split; [done | by apply Hskip].
    + split; [by apply Map_elem_get | by apply Hskip].
  - apply addOthers_NoDup; [done | done |].
    intros k Hk _. unfold Hover.includes. apply bool_decide_eq_true.
    by apply Hsub.
  - intros k v Hk Hget Hd.
    apply addOthers_keeps, addPriority_elem. right.
    split; [done|]. split; [done|]. split; [done|].
    assert (Forall (fun k => Hover.includes Hover.skipKeys k = false)
              Hover.priorityKeys) as Hdisj.
    { apply (bool_decide_unpack _). vm_compute. exact I. }
    by apply (proj1 (Forall_forall _ _) Hdisj).
  - intros k v Hlt Hin Hp Hs.
    apply addOthers_all; [done | done | by apply Hprio | by apply Hskip].
Qed.

Lemma hover_lists_important_attributes_witness :
  Hover.getImportantAttributes (fun v : jsval => true) crowded
  = [("temperature", VNum 21); ("mode", VStr "eco"); ("a", VNum 1);
     ("b", VNum 2); ("c", VNum 3); ("d", VNum 4); ("e", VNum 5);
     ("f", VNum 6); ("g", VNum 7); ("h", VNum 8)]
  /\ Hover.getImportantAttributes (fun v : jsval => true) crowded
     = omap (priorityEntry (fun v : jsval => true) crowded)
         Hover.priorityKeys
       ++ take (10 - length (omap (priorityEntry (fun v : jsval => true)
                                     crowded) Hover.priorityKeys))
            (filter (fun e => other e) crowded).
Proof.
  split; [vm_compute; reflexivity|].
  apply (hover_lists_important_attributes (fun v : jsval => true) crowded).
  apply (bool_decide_unpack _). vm_compute. exact I.
Defined.

(** ** The logger *)

(** X21.  A message is written exactly when the priority of its level is
    not below that of the logger's level, and then once: to the method of
    the connection's console that goes with the level when a connection is
    set, to the standard error stream otherwise.  So [error] always writes,
    whatever the level of the logger, and a logger that was just made
    (level [INFO]) writes nothing for [debug]. *)
Theorem log_filters_by_priority (timestamp message : string)
    (data : Logger.Data) (lg : Logger.Logger) (l : Logger.LogLevel) :
  (Logger.log timestamp l message data lg = []
   <-> Logger.LOG_LEVEL_PRIORITY l
       < Logger.LOG_LEVEL_PRIORITY (Logger.level lg))
  /\ (Logger.LOG_LEVEL_PRIORITY (Logger.level lg)
      <= Logger.LOG_LEVEL_PRIORITY l ->
      match Logger.connection lg with
      | Some c =>
          Logger.log timestamp l message data lg
          = [match l with
             | Logger.ERROR => Logger.Console_error c
             | Logger.WARN => Logger.Console_warn c
             | Logger.INFO => Logger.Console_info c
             | Logger.DEBUG => Logger.Console_log c
             end (Logger.formatMessage timestamp l message data lg)]
      | None =>
          Logger.log timestamp l message data lg
          = [Logger.Stderr
               (Logger.formatMessage timestamp l message data lg
                ++ String (Ascii.ascii_of_nat 10) "")]
      end)
  /\ length (Logger.error timestamp message data lg) = 1%nat
  /\ (forall ctx,
        Logger.debug timestamp message data (Logger.new ctx) = []).
Proof.
  unfold Logger.error, Logger.debug, Logger.log, Logger.shouldLog.
  split; [|split; [|split]].
  - destruct (_ >=? _) eqn:Hge; simpl.
    + split; [|lia]. by destruct (Logger.connection lg), l.
    + split; [lia|done].
  - intros Hle. assert ((Logger.LOG_LEVEL_PRIORITY l
                         >=? Logger.LOG_LEVEL_PRIORITY (Logger.level lg))
                        = true) as -> by lia.
    simpl. by destruct (Logger.connection lg), l.
  - assert ((Logger.LOG_LEVEL_PRIORITY Logger.ERROR
             >=? Logger.LOG_LEVEL_PRIORITY (Logger.level lg)) = true) as ->.
    { destruct (Logger.level lg); simpl; lia. }
    simpl. by destruct (Logger.connection lg).
  - done.
Qed.

Lemma log_filters_by_priority_witness :
  Logger.log "2026-11-03T10:00:00.000Z" Logger.WARN "slow" Logger.NoData
    (Logger.new (Some "Cache"))
  = [Logger.Stderr
       (Logger.formatMessage "2026-11-03T10:00:00.000Z" Logger.WARN "slow"
          Logger.NoData (Logger.new (Some "Cache"))
        ++ String (Ascii.ascii_of_nat 10) "")].
Proof.
  exact (proj1 (proj2
    (log_filters_by_priority "2026-11-03T10:00:00.000Z" "slow" Logger.NoData
       (Logger.new (Some "Cache")) Logger.WARN))
    ltac:(vm_compute; discriminate)).
Defined.

(** X22.  [setLevel] takes the name of a level in any case that
    [toUpperCase] maps to it and ignores every other text.  A child logger
    has the context of its parent followed by [':'] and its own, and the
    level and the connection its parent has at that moment.  The first
    call of [getLogger] makes the global logger, named by the context of
    that call (['HomeAssistantLSP'] when it has none); every later call
    with a context returns a child of it, so the name given first
    prefixes the contexts of all others. *)
Theorem loggers_descend_from_the_first
    (toUpperCase : string -> string) (lg : Logger.Logger) :
  (forall l, toUpperCase (Logger.name l) = Logger.name l) ->
  (forall s l, toUpperCase s = Logger.name l ->
     Logger.level (Logger.setLevel toUpperCase s lg) = l)
  /\ (forall s, Logger.named (toUpperCase s) = None ->
        Logger.setLevel toUpperCase s lg = lg)
  /\ (forall c,
        Logger.child toUpperCase c lg
        = {| Logger.level := Logger.level lg;
             Logger.connection := Logger.connection lg;
             Logger.context := (Logger.context lg ++ ":" ++ c)%string |})
  /\ (forall c, c ≠ "" ->
        Logger.getLogger toUpperCase (Some c) None
        = (Logger.new (Some c), Some (Logger.new (Some c))))
  /\ Logger.getLogger toUpperCase None None
     = (Logger.new None, Some (Logger.new None))
  /\ (forall c, c ≠ "" ->
        Logger.getLogger toUpperCase (Some c) (Some lg)
        = ({| Logger.level := Logger.level lg;
              Logger.connection := Logger.connection lg;
              Logger.context := (Logger.context lg ++ ":" ++ c)%string |},
           Some lg))
  /\ Logger.getLogger toUpperCase None (Some lg) = (lg, Some lg).
Proof.
  intros Hnames.
  assert (forall l, Logger.named (Logger.name l) = Some l) as Hnamed
    by (by intros []).
  assert (forall c,
            Logger.child toUpperCase c lg
            = {| Logger.level := Logger.level lg;
                 Logger.connection := Logger.connection lg;
                 Logger.context := (Logger.context lg ++ ":" ++ c)%string |})
    as Hchild.
  { intros c. unfold Logger.child, Logger.setLevel.
    rewrite Hnames, Hnamed. by destruct (Logger.connection lg). }
  split; [|split; [|split; [|split; [|split; [|split]]]]].
  - intros s l Hs. unfold Logger.setLevel. by rewrite Hs, Hnamed.
  - intros s Hs. unfold Logger.setLevel. by rewrite Hs.
  - done.
  - intros c Hc. unfold Logger.getLogger. by destruct c.
  - done.
  - intros c Hc. unfold Logger.getLogger. rewrite Hchild. by destruct c.
  - done.
Qed.

Lemma loggers_descend_from_the_first_witness :
  Logger.getLogger (fun s => s) (Some "Config")
    (Some (Logger.new (Some "Cache")))
  = ({| Logger.level := Logger.INFO; Logger.connection := None;
        Logger.context := "Cache:Config" |},
     Some (Logger.new (Some "Cache"))).
Proof.
  destruct (loggers_descend_from_the_first (fun s => s)
              (Logger.new (Some "Cache")) ltac:(reflexivity))
    as (_ & _ & _ & _ & _ & H & _).
  apply (H "Config"). discriminate.
Defined.

(** ** The completion provider *)

Section Suffixes.
Implicit Types (class : ascii -> bool) (l : list ascii) (s : string).

Lemma takeWhile_ext {A} (p q : A -> bool) (l : list A) :
  (forall x, p x = q x) -> takeWhile p l = takeWhile q l.
Proof.
  intros Hpq. induction l as [|x l IH]; [done|].
  simpl. rewrite Hpq. destruct (q x); [by rewrite IH | done].
Qed.

(** A list is the elements [takeWhile] takes, all in the class, and a
    rest that is empty or starts outside the class. *)
Lemma takeWhile_split {A} (p : A -> bool) (l : list A) :
  exists rest,
    l = takeWhile p l ++ rest
    /\ Forall (fun x => p x = true) (takeWhile p l)
    /\ (rest = [] \/ exists x r, rest = x :: r /\ p x = false).
Proof.
  induction l as [|x l (rest & Hl & Hall & Hrest)]; simpl.
  - exists []. repeat split; [constructor | by left].
  - destruct (p x) eqn:Hx.
    + exists rest. split; [simpl; by f_equal|].
      split; [by constructor|done].
    + exists (x :: l). split; [done|]. split; [constructor|].
      right. by exists x, l.
Qed.

Lemma string_of_list_ascii_app (a b : list ascii) :
  String.string_of_list_ascii (a ++ b)
  = (String.string_of_list_ascii a ++ String.string_of_list_ascii b)%string.
Proof. induction a as [|c a IH]; [done|]. simpl. by rewrite IH. Qed.

(** What [suffixIn] returns. *)
Lemma suffixIn_spec class s :
  exists before,
    s = (before ++ suffixIn class s)%string
    /\ Forall (fun c => class c = true)
         (String.list_ascii_of_string (suffixIn class s))
    /\ (before = EmptyString
        \/ exists b c, before = (b ++ String c EmptyString)%string
                       /\ class c = false).
Proof.
  unfold suffixIn.
  destruct (takeWhile_split class (reverse (String.list_ascii_of_string s)))
    as (rest & Hl & Hall & Hrest).
  set (taken := takeWhile class (reverse (String.list_ascii_of_string s)))
    in *.
  exists (String.string_of_list_ascii (reverse rest)).
  split; [|split].
  - rewrite <- string_of_list_ascii_app, <- reverse_app, <- Hl.
    by rewrite reverse_involutive, String.string_of_list_ascii_of_string.
  - rewrite String.list_ascii_of_string_of_list_ascii.
    by apply Forall_reverse.
  - destruct Hrest as [->|(x & r & -> & Hx)]; [by left|].
    right. exists (String.string_of_list_ascii (reverse r)), x.
    split; [|done]. by rewrite reverse_cons, string_of_list_ascii_app.
Qed.

Lemma underscore_is_word c :
  (isWord c || Completion.isDot c || Ascii.eqb c "_"%char)
  = (isWord c || Completion.isDot c).
Proof.
  destruct (Ascii.eqb c "_"%char) eqn:Hc.
  - apply Ascii.eqb_eq in Hc as ->. done.
  - by rewrite orb_false_r.
Qed.

Lemma extractPrefix_token text :
  Completion.extractPrefix text
  = suffixIn (fun c => isWord c || Completion.isDot c) text.
Proof.
  unfold Completion.extractPrefix, suffixIn. do 2 f_equal.
  apply takeWhile_ext, underscore_is_word.
Qed.
End Suffixes.

(** X23.  The prefix that [extractPrefix] takes from the text before the
    cursor is its longest suffix of letters, digits, underscores and dots,
    and it is the token [detectContext] judges.  The context is [DOMAIN]
    exactly when the prefix is not empty and has no dot, and [ENTITY_ID]
    exactly when it has a dot, no two dots in a row and no dot in front.
    It is never [SERVICE]: whatever the text, the items offered do not
    depend on the services, and in the context [UNKNOWN] none is
    offered. *)
Theorem completion_context_follows_the_prefix (text : string) :
  (exists before,
     text = (before ++ Completion.extractPrefix text)%string
     /\ Forall (fun c => isWord c || Completion.isDot c = true)
          (String.list_ascii_of_string (Completion.extractPrefix text))
     /\ (before = EmptyString
         \/ exists b c, before = (b ++ String c EmptyString)%string
                        /\ isWord c || Completion.isDot c = false))
  /\ Completion.detectContext text ≠ Completion.SERVICE
  /\ (Completion.detectContext text = Completion.DOMAIN
      <-> Completion.extractPrefix text ≠ EmptyString
          /\ includes (Completion.extractPrefix text) "." = false)
  /\ (Completion.detectContext text = Completion.ENTITY_ID
      <-> includes (Completion.extractPrefix text) "." = true
          /\ includes (Completion.extractPrefix text) ".." = false
          /\ Config.startsWith (Completion.extractPrefix text) "." = false
          /\ endsWith (Completion.extractPrefix text) ".." = false)
  /\ (forall toLowerCase entities services services',
        Completion.provideCompletionItems toLowerCase text entities services
        = Completion.provideCompletionItems toLowerCase text entities
            services')
  /\ (forall toLowerCase entities services,
        Completion.detectContext text = Completion.UNKNOWN ->
        Completion.provideCompletionItems toLowerCase text entities services
        = Fulfilled []).
Proof.
  rewrite !extractPrefix_token.
  split; [apply suffixIn_spec|].
  unfold Completion.provideCompletionItems, Completion.detectContext.
  set (token := suffixIn _ text).
  destruct token as [|c token'] eqn:Htoken; simpl negb; cbv iota.
  - repeat split; try done.
    + intros [? _]. done.
    + intros (H & _). done.
  - set (tok := String c token') in *.
    destruct (includes tok ".") eqn:Hdot;
      [destruct (includes tok "..") eqn:Hdd;
       [|destruct (Config.startsWith tok ".") eqn:Hsw;
         [|destruct (endsWith tok "..") eqn:Hew]]|];
      cbn [orb]; repeat split; try done; try (by intros (? & ? & ? & ?));
      try (by intros (? & ?)).
Qed.

Lemma completion_context_follows_the_prefix_witness :
  Completion.provideCompletionItems (fun s => s) "sensor.."
    (Fulfilled
       [{| Completion.entity_id := "sensor.temperature";
           Completion.state := "21"; Completion.friendly_name := None;
           Completion.unit_of_measurement := None;
           Completion.device_class := None; Completion.icon := None |}])
    (Fulfilled [])
  = Fulfilled [].
Proof.
  apply (completion_context_follows_the_prefix "sensor..").
  vm_compute. reflexivity.
Defined.

Section EntityCompletion.
Import Completion.
Variable toLowerCase : string -> string.

Lemma includes_dot_cons c s :
  includes (String c s) "." = Ascii.eqb c "."%char || includes s ".".
Proof.
  cbn [includes String.prefix].
  destruct (ascii_dec "."%char c) as [<-|Hne].
  - rewrite Ascii.eqb_refl. by destruct s.
  - assert (Ascii.eqb c "."%char = false) as ->; [|done].
    apply Ascii.eqb_neq. congruence.
Qed.

Lemma append_nil (s : string) : (EmptyString ++ s)%string = s.
Proof. reflexivity. Qed.

Lemma append_cons c (s t : string) :
  (String c s ++ t)%string = String c (s ++ t)%string.
Proof. reflexivity. Qed.

Lemma includes_dot_app d r : includes (d ++ String "."%char r) "." = true.
Proof.
  induction d as [|c d IH].
  - rewrite append_nil, includes_dot_cons. done.
  - rewrite append_cons, includes_dot_cons, IH. apply orb_true_r.
Qed.

(** The first part of a text is what stands before its first dot. *)
Lemma split_app d r :
  includes d "." = false ->
  split "."%char (d ++ String "."%char r) = d :: split "."%char r.
Proof.
  induction d as [|c d IH]; intros Hd.
  - done.
  - rewrite includes_dot_cons in Hd. apply orb_false_elim in Hd as [Hc Hd].
    rewrite append_cons. cbn [split]. rewrite Hc. by rewrite IH.
Qed.

Lemma split_no_dot d : includes d "." = false -> split "."%char d = [d].
Proof.
  induction d as [|c d IH]; intros Hd; [done|].
  rewrite includes_dot_cons in Hd. apply orb_false_elim in Hd as [Hc Hd].
  cbn [split]. rewrite Hc. by rewrite IH.
Qed.

(** Every item stands for an entity that passed the test. *)
Lemma completeEntityId_elem prefix entities item :
  item ∈ completeEntityId toLowerCase prefix entities ->
  exists entity,
    entity ∈ entities /\ item = entityItem entity
    /\ matchesEntity toLowerCase (includes prefix ".") prefix
         (nth 0 (if includes prefix "." then split "."%char prefix
                 else [prefix; EmptyString]) EmptyString)
         (nth 1 (if includes prefix "." then split "."%char prefix
                 else [prefix; EmptyString]) EmptyString)
         entity = true.
Proof.
  unfold completeEntityId. cbv zeta. intros Hin.
  apply elem_of_take in Hin as (i & Hin & _).
  apply list_elem_of_lookup_2 in Hin.
  apply list_elem_of_fmap in Hin as (entity & -> & Hin).
  apply list_elem_of_filter in Hin as [Hm Hin].
  exists entity. split; [done|]. split; [done|].
  by destruct (matchesEntity _ _ _ _ _ _).
Qed.
End EntityCompletion.

(** X24.  [completeEntityId] offers at most fifty items, each the id of one
    of the entities, in the order of the entities; an entity without id
    is never offered.  For a prefix with a dot, every item is in the
    domain that stands before the first dot, compared as written, and its
    name starts with what stands between the first and the second dot,
    compared in lower case.  What follows a second dot is ignored:
    ['sensor.temp.x'] is completed like ['sensor.temp']. *)
Theorem entity_completion_matches_domain_and_name
    (toLowerCase : string -> string) (prefix : string)
    (entities : list Completion.Entity) :
  (length (Completion.completeEntityId toLowerCase prefix entities) <= 50)%nat
  /\ (Completion.label
      <$> Completion.completeEntityId toLowerCase prefix entities)
     `sublist_of` (Completion.entity_id <$> entities)
  /\ (forall item,
        item ∈ Completion.completeEntityId toLowerCase prefix entities ->
        Completion.label item ≠ EmptyString
        /\ Completion.insertText item = Completion.label item
        /\ Completion.sortText item = Completion.label item)
  /\ (includes prefix "." = true ->
      forall item,
        item ∈ Completion.completeEntityId toLowerCase prefix entities ->
        (2 <= length (split "."%char (Completion.label item)))%nat
        /\ nth 0 (split "."%char (Completion.label item)) EmptyString
           = nth 0 (split "."%char prefix) EmptyString
        /\ (nth 1 (split "."%char prefix) EmptyString = EmptyString
            \/ Config.startsWith
                 (toLowerCase
                    (nth 1 (split "."%char (Completion.label item))
                       EmptyString))
                 (toLowerCase (nth 1 (split "."%char prefix) EmptyString))
               = true))
  /\ (forall d e x,
        includes d "." = false -> includes e "." = false ->
        prefix = (d ++ "." ++ e ++ "." ++ x)%string ->
        Completion.completeEntityId toLowerCase prefix entities
        = Completion.completeEntityId toLowerCase (d ++ "." ++ e)%string
            entities).
Proof.
  split; [|split; [|split; [|split]]].
  - unfold Completion.completeEntityId. cbv zeta.
    rewrite length_take. lia.
  - unfold Completion.completeEntityId. cbv zeta.
    etransitivity; [apply fmap_sublist, sublist_take|].
    rewrite <- list_fmap_compose.
    apply (fmap_sublist Completion.entity_id), sublist_filter.
  - intros item Hin.
    apply completeEntityId_elem in Hin as (entity & _ & -> & Hm).
    split; [|done]. simpl. unfold Completion.matchesEntity in Hm.
    by destruct (Completion.entity_id entity).
  - intros Hdot item Hin.
    apply completeEntityId_elem in Hin as (entity & _ & -> & Hm).
    rewrite Hdot in Hm. unfold Completion.matchesEntity in Hm. simpl.
    destruct (negb (truthy_string (Completion.entity_id entity))); [done|].
    destruct (length (split "."%char (Completion.entity_id entity)) <? 2)%nat
      eqn:Hlen; [done|].
    apply Nat.ltb_ge in Hlen. split; [done|].
    destruct (negb (String.eqb _ _)) eqn:Hdom; [done|].
    apply negb_false_iff, String.eqb_eq in Hdom. split; [done|].
    destruct (truthy_string
                (nth 1 (split "."%char prefix) EmptyString)) eqn:He.
    + right. simpl in Hm.
      by destruct (Config.startsWith _ _).
    + left. by destruct (nth 1 (split "."%char prefix) EmptyString).
  - intros d e x Hd He ->.
    unfold Completion.completeEntityId. cbv zeta.
    assert ((d ++ "." ++ e ++ "." ++ x)%string
            = (d ++ String "."%char (e ++ String "."%char x))%string) as ->
      by done.
    assert ((d ++ "." ++ e)%string = (d ++ String "."%char e)%string) as ->
      by done.
    rewrite !includes_dot_app, !split_app by done.
    rewrite (split_no_dot e He). reflexivity.
Qed.

Lemma entity_completion_matches_domain_and_name_witness :
  nth 0
    (split "."%char
       (Completion.label
          (Completion.entityItem
             {| Completion.entity_id := "switch.spz1";
                Completion.state := "on";
                Completion.friendly_name := Some "Switch SPZ 1";
                Completion.unit_of_measurement := None;
                Completion.device_class := None;
                Completion.icon := None |}))) EmptyString
  = nth 0 (split "."%char "switch.spz") EmptyString.
Proof.
  destruct (entity_completion_matches_domain_and_name (fun s => s)
              "switch.spz"
              [{| Completion.entity_id := "switch.spz1";
                  Completion.state := "on";
                  Completion.friendly_name := Some "Switch SPZ 1";
                  Completion.unit_of_measurement := None;
                  Completion.device_class := None;
                  Completion.icon := None |};
               {| Completion.entity_id := "light.spz_light";
                  Completion.state := "on";
                  Completion.friendly_name := None;
                  Completion.unit_of_measurement := None;
                  Completion.device_class := None;
                  Completion.icon := None |}])
    as (_ & _ & _ & H & _).
  refine (proj1 (proj2 (H _ _ _))).
  - vm_compute. reflexivity.
  - vm_compute. apply list_elem_of_here.
Defined.

(** ** Matches of a pattern *)

Section Matching.

Import RegExp.

Lemma plus_spec class k s : forall prev n,
  plus class k prev s = Some n ->
  exists m r,
    n = (m + r)%nat /\ (1 <= m)%nat /\ (m <= length s)%nat
    /\ forallb class (take m s) = true
    /\ k (last (take m s)) (drop m s) = Some r.
Proof.
  induction s as [|c s IH]; intros prev n H; simpl in H; [discriminate|].
  destruct (class c) eqn:Hc; [|discriminate].
  destruct (plus class k (Some c) s) as [n'|] eqn:Hp.
  - injection H as <-.
    destruct (IH _ _ Hp) as (m & r & -> & Hm & Hlen & Hall & Hk).
    exists (S m), r. repeat split; simpl; try lia.
    + rewrite Hc. exact Hall.
    + destruct m as [|m]; [lia|].
      destruct s as [|c' s]; [simpl in Hlen; lia|].
      exact Hk.
  - destruct (k (Some c) s) as [r|] eqn:Hk; [|discriminate].
    injection H as <-.
    exists 1%nat, r. repeat split; simpl; try lia.
    + rewrite Hc. reflexivity.
    + exact Hk.
Qed.

Lemma search_spec m s : forall pre j n,
  search m (last pre) s (length pre) = Some (j, n) ->
  (length pre <= j <= length pre + length s)%nat
  /\ m (last (take j (pre ++ s))) (drop j (pre ++ s)) = Some n.
Proof.
  induction s as [|c s IH]; intros pre j n H; simpl in H.
  - destruct (m (last pre) []) as [n'|] eqn:Hm; [|discriminate].
    injection H as <- <-. simpl. split; [lia|].
    rewrite app_nil_r, take_ge, drop_ge by lia. exact Hm.
  - destruct (m (last pre) (c :: s)) as [n'|] eqn:Hm.
    + injection H as <- <-. simpl. split; [lia|].
      rewrite take_app_length, drop_app_length. exact Hm.
    + specialize (IH (pre ++ [c]) j n).
      rewrite last_snoc, length_app in IH. simpl in IH.
      rewrite Nat.add_1_r in IH.
      destruct (IH H) as [Hj Hm'].
      rewrite <- app_assoc in Hm'. simpl in Hm'.
      split; [simpl; lia|exact Hm'].
Qed.

Lemma exec_spec m lastIndex input r lastIndex' :
  exec m lastIndex input = (r, lastIndex') ->
  match r with
  | Some (j, n) =>
      (lastIndex <= j <= length input)%nat
      /\ m (last (take j input)) (drop j input) = Some n
      /\ lastIndex' = (j + n)%nat
  | None => lastIndex' = 0%nat
  end.
Proof.
  unfold exec. destruct (length input <? lastIndex)%nat eqn:Hlt.
  - intros [= <- <-]. reflexivity.
  - apply Nat.ltb_ge in Hlt.
    destruct (search _ _ _ _) as [[j n]|] eqn:Hs.
    + intros [= <- <-].
      pose proof (search_spec m (drop lastIndex input)
                    (take lastIndex input) j n) as Hspec.
      rewrite length_take, Nat.min_l, take_drop, length_drop in Hspec by lia.
      destruct (Hspec Hs) as [Hj Hm]. repeat split; try lia. exact Hm.
    + intros [= <- <-]. reflexivity.
Qed.

End Matching.

(** ** The references of a line *)

Section References.

Import RegExp Diagnostics.

Lemma lower_word c : lower_ c = true -> word c = true.
Proof.
  unfold lower_, word.
  rewrite !orb_true_iff, !andb_true_iff, !N.leb_le, !N.eqb_eq. lia.
Qed.

Lemma lowerDigit_word c : lowerDigit_ c = true -> word c = true.
Proof.
  unfold lowerDigit_, word.
  rewrite !orb_true_iff, !andb_true_iff, !N.leb_le, !N.eqb_eq. lia.
Qed.

Lemma forallb_last {A} (p : A -> bool) l x :
  forallb p l = true -> last l = Some x -> p x = true.
Proof.
  intros Hall Hl. apply last_Some in Hl as [l' ->].
  rewrite forallb_app in Hall. simpl in Hall.
  apply andb_true_iff in Hall as [_ H]. apply andb_true_iff in H as [H _].
  exact H.
Qed.

Lemma id_pattern_spec (class1 class2 : N -> bool) line j n :
  (forall c, class1 c = true -> word c = true) ->
  (forall c, class2 c = true -> word c = true) ->
  boundary
    (plus class1 (one (N.eqb 46) (plus class2 (boundary accept))))
    (last (take j line)) (drop j line) = Some n ->
  id_match class1 class2 line j n.
Proof.
  intros Hword1 Hword2. unfold boundary at 1.
  set (prev := last (take j line)). set (s := drop j line).
  destruct (xorb _ _) eqn:Hb; [|discriminate]. intros H.
  destruct (plus_spec _ _ _ _ _ H) as (m1 & r1 & -> & Hm1 & Hlen1 & Hall1 & H1).
  unfold one in H1.
  destruct (drop m1 s) as [|c s2] eqn:Hs2; [discriminate|].
  destruct (46 =? c)%N eqn:Hc; [|discriminate].
  apply N.eqb_eq in Hc. subst c.
  destruct (plus class2 _ _ s2) as [r2|] eqn:H2; [|discriminate].
  injection H1 as <-.
  destruct (plus_spec _ _ _ _ _ H2) as (m2 & r3 & -> & Hm2 & Hlen2 & Hall2 & H3).
  unfold boundary, accept in H3.
  destruct (xorb _ (isWordChar (head (drop m2 s2)))) eqn:Hb2; [|discriminate].
  injection H3 as <-.
  assert (Hs : s = take m1 s ++ 46%N :: take m2 s2 ++ drop m2 s2).
  { rewrite take_drop, <- Hs2, take_drop. reflexivity. }
  assert (Hlens : length s = (length line - j)%nat)
    by (unfold s; apply length_drop).
  assert (Hl1 : length (take m1 s) = m1) by (rewrite length_take; lia).
  assert (Hl2 : length (take m2 s2) = m2) by (rewrite length_take; lia).
  assert (Hlen : (m1 + 1 + m2 <= length s)%nat).
  { rewrite Hs, length_app. simpl. rewrite length_app. lia. }
  assert (Hhead : isWordChar (head s) = true).
  { destruct s as [|c s']; [simpl in Hlen1; lia|].
    destruct m1; [lia|]. simpl in Hall1.
    apply andb_true_iff in Hall1 as [Hc _]. simpl.
    apply Hword1, Hc. }
  assert (Hlast : isWordChar (last (take m2 s2)) = true).
  { destruct (last (take m2 s2)) as [x|] eqn:Hx.
    - simpl. eapply Hword2, forallb_last; eauto.
    - apply last_None in Hx. rewrite Hx in Hl2. simpl in Hl2. lia. }
  rewrite Hhead in Hb. rewrite Hlast in Hb2.
  assert (Hline : line = take j line ++ s) by (symmetry; apply take_drop).
  assert (Hj : length (take j line) = j) by (rewrite length_take; lia).
  unfold id_match. fold s. fold prev.
  remember (take m1 s) as A eqn:EA. remember (take m2 s2) as B eqn:EB.
  remember (drop m2 s2) as R eqn:ER. remember (take j line) as P eqn:EP.
  clear EA EB ER EP Hs2 H H2 Hlen1 Hlen2. clearbody s prev. subst s.
  exists A, B. repeat split.
  - replace (m1 + S (m2 + 0))%nat with (length A + length (46%N :: B))%nat
      by (simpl; lia).
    rewrite take_app_add. f_equal.
    change (46%N :: B ++ R) with ((46%N :: B) ++ R).
    rewrite take_app_length. reflexivity.
  - lia.
  - lia.
  - intros E. rewrite E in Hl1. simpl in Hl1. lia.
  - intros E. rewrite E in Hl2. simpl in Hl2. lia.
  - exact Hall1.
  - exact Hall2.
  - destruct (isWordChar prev); [discriminate|reflexivity].
  - rewrite Hline.
    rewrite lookup_app_r by lia.
    rewrite lookup_app_r by lia.
    replace (j + (m1 + S (m2 + 0)) - length P - length A)%nat
      with (S (length B)) by lia.
    simpl. rewrite lookup_app_r by lia. rewrite Nat.sub_diag.
    destruct R; simpl in *; [reflexivity|].
    destruct (word n); [discriminate|reflexivity].
Qed.

Lemma entityIdPattern_spec line j n :
  entityIdPattern (last (take j line)) (drop j line) = Some n ->
  id_match lower_ lowerDigit_ line j n.
Proof.
  apply id_pattern_spec; [apply lower_word|apply lowerDigit_word].
Qed.

End References.

Section Extraction.

Import RegExp Diagnostics.

Lemma text_of_app a b : text_of (a ++ b) = (text_of a ++ text_of b)%string.
Proof.
  unfold text_of. rewrite fmap_app. apply string_of_list_ascii_app.
Qed.

Lemma text_of_length l : String.length (text_of l) = length l.
Proof.
  unfold text_of. induction l as [|c l IH]; [reflexivity|].
  rewrite fmap_cons. cbn [String.string_of_list_ascii String.length length].
  rewrite IH. reflexivity.
Qed.

Lemma rev_app_append x : forall y acc,
  String.rev_app (x ++ y)%string acc = String.rev_app y (String.rev_app x acc).
Proof.
  induction x as [|c x IH]; intros y acc.
  - rewrite append_nil. reflexivity.
  - rewrite append_cons. simpl. apply IH.
Qed.

Lemma prefix_rev_app y : forall a b,
  String.prefix a b = true ->
  String.prefix (String.rev_app y a) (String.rev_app y b) = true.
Proof.
  induction y as [|c y IH]; intros a b H; simpl; [exact H|].
  apply IH. simpl. destruct (ascii_dec c c); [exact H|congruence].
Qed.

Lemma endsWith_append x y : endsWith (x ++ y)%string y = true.
Proof.
  unfold endsWith, String.rev. rewrite rev_app_append.
  apply prefix_rev_app. destruct (String.rev_app x ""); reflexivity.
Qed.

Lemma extension_dropped domain name :
  hasFileExtension (text_of (domain ++ [46%N] ++ name)) = false ->
  text_of name ∉ extensions.
Proof.
  intros H Hin. unfold hasFileExtension in H.
  rewrite <- not_true_iff_false in H. apply H.
  apply existsb_exists. exists (text_of name). split.
  - apply list_elem_of_In, Hin.
  - rewrite text_of_app, text_of_app. apply endsWith_append.
Qed.

Lemma ordered_from from from' refs :
  (from' <= from)%nat -> ordered from refs -> ordered from' refs.
Proof. destruct refs; simpl; [tauto|]. intros ? (? & ? & ?). repeat split; [lia|lia|done]. Qed.

Lemma ordered_ge from refs :
  ordered from refs -> Forall (fun r => (from <= startChar r)%nat) refs.
Proof.
  revert from. induction refs as [|r rest IH]; intros from; simpl.
  - constructor.
  - intros (H1 & H2 & H3). constructor; [exact H1|].
    eapply Forall_impl; [apply (IH _ H3)|]. simpl. intros; lia.
Qed.

(** The loop over the matches of a line ends, with the state of the
    pattern back at the start, and adds references of the line that
    follow each other. *)
Lemma matches_spec lineNum line fuel : forall lastIndex refs,
  (lastIndex <= length line)%nat ->
  (length line < fuel + lastIndex)%nat ->
  exists new,
    matches fuel lineNum line lastIndex refs = Some (refs ++ new, 0%nat)
    /\ Forall (fun r => lineOf r = lineNum /\ refers line r) new
    /\ ordered lastIndex new.
Proof.
  induction fuel as [|fuel IH]; intros lastIndex refs Hle Hfuel; [lia|].
  simpl. destruct (exec entityIdPattern lastIndex line) as [r li'] eqn:He.
  apply exec_spec in He. destruct r as [[j n]|].
  - destruct He as (Hj & Hm & ->).
    apply entityIdPattern_spec in Hm.
    destruct Hm as (domain & name & Htake & Hn & Hlen & Hd & Hnm & Hall1
                    & Hall2 & Hprev & Hnext).
    assert (1 <= n)%nat by lia.
    destruct (hasFileExtension _) eqn:Hext.
    + destruct (IH (j + n)%nat refs) as (new & -> & Hall & Hord); [lia|lia|].
      exists new. repeat split; [exact Hall|].
      eapply ordered_from; [|exact Hord]. lia.
    + destruct (IH (j + n)%nat
                  (refs ++ [{| entityId := text_of (take n (drop j line));
                               range :=
                                 {| start := {| line := lineNum;
                                                character := j |};
                                    end_ := {| line := lineNum;
                                               character :=
                                                 (j + String.length
                                                        (text_of (take n (drop j line))))%nat |} |} |}]))
        as (new & -> & Hall & Hord); [lia|lia|].
      eexists (_ :: new). rewrite <- app_assoc. simpl.
      split; [reflexivity|].
      rewrite text_of_length, length_take, length_drop, Nat.min_l by lia.
      split.
      * constructor; [|exact Hall]. split; [reflexivity|].
        split; [reflexivity|]. exists domain, name.
        unfold startChar, endChar. simpl. rewrite <- Hn.
        rewrite Htake in *.
        repeat split; try done.
        all: try lia. apply (extension_dropped domain name Hext).
      * simpl. unfold startChar, endChar. simpl.
        repeat split; [lia|lia|exact Hord].
  - subst li'. exists []. rewrite app_nil_r. repeat split; constructor.
Qed.

Lemma ordered_sorted lineNum from refs :
  Forall (fun r => lineOf r = lineNum) refs ->
  ordered from refs -> StronglySorted before refs.
Proof.
  revert from. induction refs as [|r rest IH]; intros from Hl Ho.
  - constructor.
  - inversion Hl as [|? ? Hr Hrest]; subst. destruct Ho as (H1 & H2 & H3).
    constructor; [eapply IH; eauto|].
    apply ordered_ge in H3.
    apply Forall_forall. intros r' Hr'.
    right. split.
    + rewrite Forall_forall in Hrest. rewrite (Hrest r' Hr'). reflexivity.
    + rewrite Forall_forall in H3. apply H3, Hr'.
Qed.

(** The loop over the lines: every line is finished with the state of
    the pattern at the start. *)
Lemma forLines_spec lines : forall lineNum refs,
  exists new,
    forLines lineNum lines 0 refs = Some (refs ++ new, 0%nat)
    /\ Forall (fun r =>
                 (lineNum <= lineOf r)%nat
                 /\ exists l, lines !! (lineOf r - lineNum)%nat = Some l
                              /\ skipped l = false /\ refers l r) new
    /\ StronglySorted before new.
Proof.
  induction lines as [|l rest IH]; intros lineNum refs; cbn [forLines].
  - exists []. rewrite app_nil_r. repeat split; constructor.
  - assert (Hshift : forall new,
      Forall (fun r =>
                (S lineNum <= lineOf r)%nat
                /\ exists l0, rest !! (lineOf r - S lineNum)%nat = Some l0
                              /\ skipped l0 = false /\ refers l0 r) new ->
      Forall (fun r =>
                (lineNum <= lineOf r)%nat
                /\ exists l0, (l :: rest) !! (lineOf r - lineNum)%nat = Some l0
                              /\ skipped l0 = false /\ refers l0 r) new).
    { intros new Hnew. eapply Forall_impl; [exact Hnew|].
      intros r (Hle & l0 & Hl0 & Hs & Hr).
      split; [lia|]. exists l0. split; [|done].
      replace (lineOf r - lineNum)%nat with (S (lineOf r - S lineNum)) by lia.
      exact Hl0. }
    destruct (skipped l) eqn:Hskip.
    + destruct (IH (S lineNum) refs) as (new & -> & Hall & Hsort).
      exists new. repeat split; [apply Hshift, Hall|exact Hsort].
    + destruct (matches_spec lineNum l (S (length l)) 0 refs)
        as (new1 & -> & Hall1 & Hord1); [lia|lia|].
      destruct (IH (S lineNum) (refs ++ new1)) as (new2 & -> & Hall2 & Hsort2).
      exists (new1 ++ new2). rewrite app_assoc. split; [reflexivity|]. split.
      * apply Forall_app. split; [|apply Hshift, Hall2].
        eapply Forall_impl; [exact Hall1|]. intros r [Hl Hr].
        split; [lia|]. exists l. rewrite Hl, Nat.sub_diag. done.
      * apply StronglySorted_app_2; [|eapply ordered_sorted; [|exact Hord1]|exact Hsort2].
        -- intros r1 r2 H1 H2. left.
           rewrite Forall_forall in Hall1, Hall2.
           destruct (Hall1 _ H1) as [-> _]. destruct (Hall2 _ H2) as [? _]. lia.
        -- eapply Forall_impl; [exact Hall1|]. intros r [Hl _]. exact Hl.
Qed.

Lemma references_found text :
  exists refs, extractEntityReferences text = Some refs.
Proof.
  unfold extractEntityReferences.
  destruct (forLines_spec (lines_of text) 0 []) as (new & -> & _).
  exists new. reflexivity.
Qed.

End Extraction.

Section Validation.

Import Diagnostics.

Lemma entityMap_known entities id :
  Map_get id (entityMap entities) = known entities id.
Proof.
  unfold entityMap, known.
  induction entities as [|e es IH] using rev_ind; [reflexivity|].
  rewrite foldl_app, filter_app. simpl.
  destruct (decide (id = Completion.entity_id e)) as [->|Hne].
  - rewrite Map_get_set_eq.
    rewrite filter_cons_True by reflexivity. rewrite filter_nil.
    rewrite last_snoc. reflexivity.
  - rewrite Map_get_set_ne by congruence.
    rewrite filter_cons_False by congruence. rewrite filter_nil, app_nil_r.
    exact IH.
Qed.

Lemma check_flagged entities r :
  match check entities r with
  | Some d =>
      flagged entities r = true /\ d_range d = range r
      /\ source d = "homeassistant-lsp"
      /\ match known entities (entityId r) with
         | None =>
             severity d = Warning
             /\ message d = ("Entity '" ++ entityId r
                             ++ "' not found in Home Assistant")%string
         | Some e =>
             Completion.state e = "unavailable"
             /\ severity d = Information
             /\ message d = ("Entity '" ++ entityId r
                             ++ "' is currently unavailable")%string
         end
  | None => flagged entities r = false
  end.
Proof.
  unfold check, flagged. rewrite entityMap_known.
  destruct (known entities (entityId r)) as [e|]; simpl.
  - destruct (String.eqb _ _) eqn:He; simpl; [|reflexivity].
    apply String.eqb_eq in He. rewrite He. done.
  - done.
Qed.

Lemma omap_check entities (refs : list Reference) :
  d_range <$> omap (check entities) refs
  = range <$> filter (fun r => flagged entities r) refs.
Proof.
  induction refs as [|r refs IH]; [reflexivity|].
  pose proof (check_flagged entities r) as H.
  change (omap (check entities) (r :: refs))
    with (match check entities r with
          | Some d => d :: omap (check entities) refs
          | None => omap (check entities) refs
          end).
  destruct (check entities r) as [d|].
  - destruct H as (Hf & Hr & _).
    rewrite filter_cons_True by (apply Is_true_true, Hf).
    rewrite !fmap_cons, Hr, IH. reflexivity.
  - rewrite filter_cons_False by (rewrite H; exact id). exact IH.
Qed.

End Validation.

(** X25. [performValidation] always gives a result.  Without a connection,
    or when the entities cannot be fetched, it gives no diagnostic.
    Otherwise it gives one diagnostic for each reference of the text
    whose id no entity has (a warning that the entity is not found) or
    whose entity is in the state "unavailable" (an information), in the
    order of the references and at their ranges; among entities with the
    same id the last one counts. *)
Theorem validation_flags_unknown_and_unavailable (isConnected : bool)
    (entities : Settled (list Completion.Entity)) (text : list N) :
  exists diagnostics refs,
    Diagnostics.performValidation isConnected entities text = Some diagnostics
    /\ Diagnostics.extractEntityReferences text = Some refs
    /\ match isConnected, entities with
       | true, Fulfilled es =>
           Diagnostics.d_range <$> diagnostics
           = Diagnostics.range <$> filter (fun r => flagged es r) refs
           /\ forall d, d ∈ diagnostics ->
                Diagnostics.source d = "homeassistant-lsp"
                /\ exists r, r ∈ refs
                     /\ Diagnostics.d_range d = Diagnostics.range r
                     /\ match known es (Diagnostics.entityId r) with
                        | None =>
                            Diagnostics.severity d = Diagnostics.Warning
                            /\ Diagnostics.message d
                               = ("Entity '" ++ Diagnostics.entityId r
                                  ++ "' not found in Home Assistant")%string
                        | Some e =>
                            Completion.state e = "unavailable"
                            /\ Diagnostics.severity d = Diagnostics.Information
                            /\ Diagnostics.message d
                               = ("Entity '" ++ Diagnostics.entityId r
                                  ++ "' is currently unavailable")%string
                        end
       | _, _ => diagnostics = []
       end.
Proof.
  destruct (references_found text) as (refs & Hrefs).
  unfold Diagnostics.performValidation.
  destruct isConnected; simpl; [|exists [], refs; done].
  destruct entities as [es|e]; [|exists [], refs; done].
  rewrite Hrefs. exists (omap (Diagnostics.check es) refs), refs.
  repeat split; [apply omap_check|..].
  - apply list_elem_of_omap in H as (r & Hr & Hc).
    pose proof (check_flagged es r) as Hf. rewrite Hc in Hf. tauto.
  - apply list_elem_of_omap in H as (r & Hr & Hc).
    pose proof (check_flagged es r) as Hf. rewrite Hc in Hf.
    exists r. tauto.
Qed.

(** ** The debounced validation *)

Section MapLookups.
Context {K V : Type} `{EqDecision K}.

Lemma Map_get_set_Some (k k' : K) (v x : V) m :
  Map_get k (Map_set k' v m) = Some x ->
  (k = k' /\ x = v) \/ (k <> k' /\ Map_get k m = Some x).
Proof.
  destruct (decide (k = k')) as [->|Hne].
  - rewrite Map_get_set_eq. intros [= <-]. left. done.
  - rewrite Map_get_set_ne by congruence. right. done.
Qed.

Lemma Map_get_delete_Some (k k' : K) (x : V) m :
  Map_wf m -> Map_get k (Map_delete k' m) = Some x ->
  k <> k' /\ Map_get k m = Some x.
Proof.
  intros Hwf. destruct (decide (k = k')) as [->|Hne].
  - rewrite Map_get_delete_eq by exact Hwf. discriminate.
  - rewrite Map_get_delete_ne by congruence. done.
Qed.

Lemma Map_get_deletes (ks : list K) : forall (m : list (K * V)) k x,
  Map_wf m ->
  Map_get k (foldl (fun m k => Map_delete k m) m ks) = Some x ->
  (k ∉ ks) /\ Map_get k m = Some x.
Proof.
  induction ks as [|k0 ks IH]; intros m k x Hwf; simpl.
  - intros Hx. split; [apply not_elem_of_nil|exact Hx].
  - intros Hx. apply IH in Hx as [Hn Hx]; [|apply Map_delete_wf, Hwf].
    apply Map_get_delete_Some in Hx as [Hne Hx]; [|exact Hwf].
    split; [|exact Hx]. apply not_elem_of_cons. done.
Qed.

Lemma Map_get_value (k : K) (x : V) m : Map_get k m = Some x -> x ∈ m.*2.
Proof.
  intros H. apply Map_get_Some_elem in H.
  apply list_elem_of_fmap. exists (k, x). done.
Qed.

End MapLookups.

Section Debounced.

Import Debounce.

Lemma pending_lt p st : pending p st -> (p < length (promises st))%nat.
Proof. unfold pending. apply lookup_lt_Some. Qed.

Lemma clearTimeouts_timeouts ts : forall st,
  timeouts (foldl (fun st timer => clearTimeout timer st) st ts)
  = foldl (fun m k => Map_delete k m) (timeouts st) ts
  /\ promises (foldl (fun st timer => clearTimeout timer st) st ts)
     = promises st
  /\ awaited (foldl (fun st timer => clearTimeout timer st) st ts)
     = awaited st
  /\ nextTimeout (foldl (fun st timer => clearTimeout timer st) st ts)
     = nextTimeout st.
Proof.
  induction ts as [|t ts IH]; intros st; simpl; [done|].
  destruct (IH (clearTimeout t st)) as (-> & -> & -> & ->). done.
Qed.

Lemma inv_initial : Debounce.inv initial.
Proof. split; simpl; try done. constructor. Qed.

Lemma inv_validateDocument document debounce st :
  Debounce.inv st -> Debounce.inv (snd (validateDocument document debounce st)).
Proof.
  intros [Hwf Hreg Hfresh Hpend Huniq Haw].
  unfold validateDocument. destruct debounce; simpl.
  - set (st' := match Map_get (uri document) (debounceTimer st) with
                | Some existingTimer => clearTimeout existingTimer st
                | None => st
                end).
    assert (Hd : debounceTimer st' = debounceTimer st)
      by (unfold st'; destruct (Map_get _ _); reflexivity).
    assert (Hn : nextTimeout st' = nextTimeout st)
      by (unfold st'; destruct (Map_get _ _); reflexivity).
    assert (Hp : promises st' = promises st)
      by (unfold st'; destruct (Map_get _ _); reflexivity).
    assert (Ha : awaited st' = awaited st)
      by (unfold st'; destruct (Map_get _ _); reflexivity).
    assert (Hwf' : Map_wf (timeouts st')).
    { unfold st'. destruct (Map_get _ _); simpl; [apply Map_delete_wf|]; done. }
    assert (Hsub : forall t d p,
      Map_get t (timeouts st') = Some (d, p) ->
      Map_get t (timeouts st) = Some (d, p)
      /\ Map_get (uri document) (debounceTimer st) <> Some t).
    { unfold st'. intros t d p.
      destruct (Map_get (uri document) (debounceTimer st)) as [t0|] eqn:E;
        simpl.
      - intros H. apply Map_get_delete_Some in H as [Hne H]; [|done].
        split; [done|congruence].
      - done. }
    rewrite Hd, Hn, Hp, Ha.
    split; simpl.
    + apply Map_set_wf, Hwf'.
    + intros t d p H. apply Map_get_set_Some in H as [[-> [= -> ->]]|[Hne H]].
      * apply Map_get_set_eq.
      * apply Hsub in H as [H Hnot].
        rewrite Map_get_set_ne; [apply (Hreg _ _ _ H)|].
        intros E. apply Hnot. rewrite E. apply (Hreg _ _ _ H).
    + intros t d p H. apply Map_get_set_Some in H as [[-> _]|[Hne H]]; [lia|].
      apply Hsub in H as [H _]. apply Hfresh in H. lia.
    + intros t d p H. unfold pending. simpl.
      apply Map_get_set_Some in H as [[-> [= -> ->]]|[Hne H]].
      * rewrite lookup_app_r by lia. rewrite Nat.sub_diag. reflexivity.
      * apply Hsub in H as [H _]. apply Hpend in H.
        rewrite lookup_app_l by (apply pending_lt, H). exact H.
    + intros t t' d d' p H H'.
      apply Map_get_set_Some in H as [[-> E]|[Hne H]];
        apply Map_get_set_Some in H' as [[-> E']|[Hne' H']].
      * reflexivity.
      * injection E as _ ->.
        apply Hsub in H' as [H' _]. apply Hpend, pending_lt in H'. lia.
      * injection E' as _ ->.
        apply Hsub in H as [H _]. apply Hpend, pending_lt in H. lia.
      * apply Hsub in H as [H _]. apply Hsub in H' as [H' _]. eauto.
    + intros p d H. destruct (Haw _ _ H) as [Hlt Hno].
      rewrite length_app. simpl. split; [lia|].
      intros t d' H'. apply Map_get_set_Some in H' as [[-> E]|[Hne H']].
      * injection E as _ ->. lia.
      * apply Hsub in H' as [H' _]. exact (Hno _ _ H').
  - split; simpl; try done.
    + intros t d p H. apply Hpend in H. unfold pending in *. simpl.
      rewrite lookup_app_l by (apply lookup_lt_Some in H; exact H). exact H.
    + intros p d H. rewrite length_app. simpl.
      apply Map_get_set_Some in H as [[-> ->]|[Hne H]].
      * split; [lia|]. intros t d' H'. apply Hpend, pending_lt in H'. lia.
      * destruct (Haw _ _ H) as [Hlt Hno]. split; [lia|exact Hno].
Qed.

Lemma inv_timeout timer st : Debounce.inv st -> Debounce.inv (timeout timer st).
Proof.
  intros [Hwf Hreg Hfresh Hpend Huniq Haw]. unfold timeout.
  destruct (Map_get timer (timeouts st)) as [[document promise]|] eqn:E;
    [|split; done].
  split; simpl.
  - apply Map_delete_wf, Hwf.
  - intros t d p H. apply Map_get_delete_Some in H as [Hne H]; [|done].
    rewrite Map_get_delete_ne; [apply (Hreg _ _ _ H)|].
    intros Eu. apply Hne.
    pose proof (Hreg _ _ _ H) as H1. pose proof (Hreg _ _ _ E) as H2.
    rewrite <- Eu in H1. congruence.
  - intros t d p H. apply Map_get_delete_Some in H as [_ H]; eauto.
  - intros t d p H. apply Map_get_delete_Some in H as [_ H]; [|done].
    exact (Hpend _ _ _ H).
  - intros t t' d d' p H H'.
    apply Map_get_delete_Some in H as [_ H]; [|done].
    apply Map_get_delete_Some in H' as [_ H']; [|done]. eauto.
  - intros p d H. apply Map_get_set_Some in H as [[-> ->]|[Hne H]].
    + split; [apply (pending_lt _ st), (Hpend _ _ _ E)|].
      intros t d' H'. apply Map_get_delete_Some in H' as [Hne H']; [|done].
      apply Hne. eauto.
    + destruct (Haw _ _ H) as [Hlt Hno]. split; [done|].
      intros t d' H'. apply Map_get_delete_Some in H' as [_ H']; [|done].
      exact (Hno _ _ H').
Qed.

Lemma inv_validated promise isConnected entities st :
  Debounce.inv st -> Debounce.inv (validated promise isConnected entities st).
Proof.
  intros [Hwf Hreg Hfresh Hpend Huniq Haw]. unfold validated.
  destruct (Map_get promise (awaited st)) as [document|] eqn:E; [|split; done].
  destruct (Diagnostics.performValidation _ _ _) as [diagnostics|];
    [|split; done].
  destruct (Haw _ _ E) as [Hlt Hno].
  split; simpl; try done.
  - intros t d p H. unfold pending. simpl.
    rewrite list_lookup_insert_ne; [exact (Hpend _ _ _ H)|].
    intros ->. exact (Hno _ _ H).
  - intros p d H. rewrite length_insert.
    destruct (decide (p = promise)) as [->|Hne].
    + split; [done|exact Hno].
    + rewrite Map_get_delete_ne in H by congruence. exact (Haw _ _ H).
Qed.

Lemma inv_clearDebounce documentUri st : Debounce.inv st -> Debounce.inv (clearDebounce documentUri st).
Proof.
  intros [Hwf Hreg Hfresh Hpend Huniq Haw]. unfold clearDebounce.
  destruct (Map_get documentUri (debounceTimer st)) as [timer|] eqn:E;
    [|split; done].
  split; simpl.
  - apply Map_delete_wf, Hwf.
  - intros t d p H. apply Map_get_delete_Some in H as [Hne H]; [|done].
    rewrite Map_get_delete_ne; [apply (Hreg _ _ _ H)|].
    intros Eu. apply Hne. pose proof (Hreg _ _ _ H) as H1.
    rewrite <- Eu in H1. congruence.
  - intros t d p H. apply Map_get_delete_Some in H as [_ H]; eauto.
  - intros t d p H. apply Map_get_delete_Some in H as [_ H]; [|done].
    exact (Hpend _ _ _ H).
  - intros t t' d d' p H H'.
    apply Map_get_delete_Some in H as [_ H]; [|done].
    apply Map_get_delete_Some in H' as [_ H']; [|done]. eauto.
  - intros p d H. destruct (Haw _ _ H) as [Hlt Hno]. split; [done|].
    intros t d' H'. apply Map_get_delete_Some in H' as [_ H']; [|done].
    exact (Hno _ _ H').
Qed.

Lemma clearAllDebounce_timeouts st t x :
  Debounce.inv st -> Map_get t (timeouts (clearAllDebounce st)) <> Some x.
Proof.
  intros [Hwf Hreg Hfresh Hpend Huniq Haw]. unfold clearAllDebounce. simpl.
  destruct (clearTimeouts_timeouts (debounceTimer st).*2 st) as (-> & _).
  intros H. apply Map_get_deletes in H as [Hn H]; [|done].
  destruct x as [d p]. apply Hn.
  eapply Map_get_value, Hreg, H.
Qed.

Lemma inv_clearAllDebounce st : Debounce.inv st -> Debounce.inv (clearAllDebounce st).
Proof.
  intros Hinv. pose proof (clearAllDebounce_timeouts st) as Hnone.
  destruct Hinv as [Hwf Hreg Hfresh Hpend Huniq Haw].
  assert (Hinv : Debounce.inv st) by (split; done).
  split.
  - unfold clearAllDebounce. simpl.
    destruct (clearTimeouts_timeouts (debounceTimer st).*2 st) as (-> & _).
    clear -Hwf. revert Hwf. generalize (timeouts st).
    induction ((debounceTimer st).*2) as [|t ts IH]; intros m Hm; simpl;
      [done|]. apply IH, Map_delete_wf, Hm.
  - intros t d p H. exfalso. exact (Hnone _ _ Hinv H).
  - intros t d p H. exfalso. exact (Hnone _ _ Hinv H).
  - intros t d p H. exfalso. exact (Hnone _ _ Hinv H).
  - intros t t' d d' p H. exfalso. exact (Hnone _ _ Hinv H).
  - unfold clearAllDebounce. simpl.
    destruct (clearTimeouts_timeouts (debounceTimer st).*2 st)
      as (Ht & -> & -> & _).
    intros p d H. destruct (Haw _ _ H) as [Hlt Hno]. split; [done|].
    intros t d' H'. exact (Hnone _ _ Hinv H').
Qed.

Lemma inv_step e st : Debounce.inv st -> Debounce.inv (step e st).
Proof.
  destruct e; simpl.
  - apply inv_validateDocument.
  - apply inv_timeout.
  - apply inv_validated.
  - apply inv_clearDebounce.
  - apply inv_clearAllDebounce.
Qed.

Lemma inv_run events : forall st, Debounce.inv st -> Debounce.inv (run events st).
Proof.
  induction events as [|e events IH]; intros st H; simpl; [done|].
  apply IH, inv_step, H.
Qed.

Lemma reachable_inv st : reachable st -> Debounce.inv st.
Proof. intros [events ->]. apply inv_run, inv_initial. Qed.

Lemma stranded_step e p st :
  Debounce.inv st -> Debounce.stranded p st -> Debounce.stranded p (step e st).
Proof.
  intros [Hwf Hreg Hfresh Hpend Huniq Haw] (Hp & Ht & Ha).
  pose proof (pending_lt _ _ Hp) as Hlt.
  destruct e as [document debounce|timer|promise isConnected entities
                 |documentUri|]; simpl.
  - unfold validateDocument. destruct debounce; simpl.
    + repeat split; simpl.
      * unfold pending in *. simpl.
        destruct (Map_get (uri document) (debounceTimer st)); simpl;
          rewrite lookup_app_l by done; exact Hp.
      * intros t d H.
        apply Map_get_set_Some in H as [[_ E]|[_ H]].
        -- injection E as _ E. revert E.
           destruct (Map_get (uri document) (debounceTimer st)); simpl; lia.
        -- destruct (Map_get (uri document) (debounceTimer st)); simpl in H.
           ++ apply Map_get_delete_Some in H as [_ H]; [|done].
              exact (Ht _ _ H).
           ++ exact (Ht _ _ H).
      * destruct (Map_get (uri document) (debounceTimer st)); exact Ha.
    + repeat split; simpl.
      * unfold pending in *. simpl. rewrite lookup_app_l by done. exact Hp.
      * exact Ht.
      * rewrite Map_get_set_ne by lia. exact Ha.
  - unfold timeout.
    destruct (Map_get timer (timeouts st)) as [[document promise]|] eqn:E;
      [|done].
    repeat split; simpl.
    + exact Hp.
    + intros t d H. apply Map_get_delete_Some in H as [_ H]; [|done].
      exact (Ht _ _ H).
    + rewrite Map_get_set_ne; [exact Ha|]. intros ->. exact (Ht _ _ E).
  - unfold validated.
    destruct (Map_get promise (awaited st)) as [document|] eqn:E; [|done].
    destruct (Diagnostics.performValidation _ _ _); [|done].
    assert (promise <> p) by congruence.
    repeat split; simpl.
    + unfold pending in *. simpl. rewrite list_lookup_insert_ne; done.
    + exact Ht.
    + rewrite Map_get_delete_ne; done.
  - unfold clearDebounce.
    destruct (Map_get documentUri (debounceTimer st)) as [timer|]; [|done].
    repeat split; simpl; [exact Hp| |exact Ha].
    intros t d H. apply Map_get_delete_Some in H as [_ H]; [|done].
    exact (Ht _ _ H).
  - unfold clearAllDebounce.
    destruct (clearTimeouts_timeouts (debounceTimer st).*2 st)
      as (Ht' & Hp' & Ha' & _).
    repeat split; simpl.
    + unfold pending in *. simpl. rewrite Hp'. exact Hp.
    + rewrite Ht'. intros t d H. apply Map_get_deletes in H as [_ H]; [|done].
      exact (Ht _ _ H).
    + rewrite Ha'. exact Ha.
Qed.

Lemma stranded_run events : forall p st,
  Debounce.inv st -> Debounce.stranded p st -> Debounce.stranded p (run events st).
Proof.
  induction events as [|e events IH]; intros p st Hinv H; simpl; [done|].
  apply IH; [apply inv_step, Hinv|apply stranded_step; done].
Qed.

(** A call that takes the pending validation of a document away leaves
    the promise of that validation stranded. *)
Lemma superseded_stranded e p t document st :
  Debounce.inv st ->
  Map_get t (timeouts st) = Some (document, p) ->
  supersedes (uri document) e ->
  Debounce.stranded p (step e st).
Proof.
  intros Hinv Hsched Hsup.
  pose proof Hinv as [Hwf Hreg Hfresh Hpend Huniq Haw].
  pose proof (Hpend _ _ _ Hsched) as Hp.
  pose proof (pending_lt _ _ Hp) as Hlt.
  pose proof (Hreg _ _ _ Hsched) as Hr.
  assert (Ha : Map_get p (awaited st) = None).
  { destruct (Map_get p (awaited st)) as [d|] eqn:E; [|done].
    destruct (Haw _ _ E) as [_ Hno]. destruct (Hno _ _ Hsched). }
  destruct e as [document' debounce|timer|promise isConnected entities
                 |documentUri|]; simpl in Hsup; try done; simpl.
  - destruct Hsup as [-> Hu]. unfold validateDocument. simpl.
    rewrite Hu, Hr. simpl. repeat split; simpl.
    + unfold pending in *. simpl. rewrite lookup_app_l by done. exact Hp.
    + intros t' d H. apply Map_get_set_Some in H as [[_ E]|[_ H]].
      * injection E as _ E. lia.
      * apply Map_get_delete_Some in H as [Hne H]; [|done].
        apply Hne. eauto.
    + exact Ha.
  - subst documentUri. unfold clearDebounce. rewrite Hr.
    repeat split; simpl; [exact Hp| |exact Ha].
    intros t' d H. apply Map_get_delete_Some in H as [Hne H]; [|done].
    apply Hne. eauto.
  - repeat split.
    + unfold clearAllDebounce, pending. simpl.
      destruct (clearTimeouts_timeouts (debounceTimer st).*2 st)
        as (_ & -> & _). exact Hp.
    + intros t' d. apply clearAllDebounce_timeouts, Hinv.
    + unfold clearAllDebounce. simpl.
      destruct (clearTimeouts_timeouts (debounceTimer st).*2 st)
        as (_ & _ & -> & _). exact Ha.
Qed.

End Debounced.

(** X26. A debounced validation whose timeout is still set when the same
    document is validated again with debouncing, or when [clearDebounce]
    is called for it, or [clearAllDebounce], is never finished: the
    promise [validateDocument] returned for it stays pending, whatever
    happens afterwards. *)
Theorem superseded_validation_stays_pending
    (st : Debounce.State) (document : Debounce.TextDocument)
    (between later : list Debounce.Event) (e : Debounce.Event) :
  Debounce.reachable st ->
  Debounce.scheduled
    (fst (Debounce.validateDocument document true st)) document
    (Debounce.run between
       (snd (Debounce.validateDocument document true st))) ->
  Debounce.supersedes (Debounce.uri document) e ->
  Debounce.pending
    (fst (Debounce.validateDocument document true st))
    (Debounce.run later
       (Debounce.step e
          (Debounce.run between
             (snd (Debounce.validateDocument document true st))))).
Proof.
  intros Hreach [t Hsched] Hsup.
  assert (Hinv : Debounce.inv (Debounce.run between
                        (snd (Debounce.validateDocument document true st)))).
  { apply inv_run, inv_validateDocument, reachable_inv, Hreach. }
  eapply stranded_run; [apply inv_step, Hinv|].
  eapply superseded_stranded; eauto.
Qed.

Lemma superseded_validation_stays_pending_witness :
  Debounce.pending
    (fst (Debounce.validateDocument
            {| Debounce.uri := "file:///automations.yaml";
               Debounce.getText := [] |} true Debounce.initial))
    (Debounce.run
       [Debounce.Timeout 1; Debounce.Validated 1 true (Fulfilled [])]
       (Debounce.step
          (Debounce.Call_validateDocument
             {| Debounce.uri := "file:///automations.yaml";
                Debounce.getText := [115; 46; 116]%N |} true)
          (Debounce.run []
             (snd (Debounce.validateDocument
                     {| Debounce.uri := "file:///automations.yaml";
                        Debounce.getText := [] |} true
                     Debounce.initial))))).
Proof.
  apply superseded_validation_stays_pending.
  - exists []. reflexivity.
  - exists 0%nat. vm_compute. reflexivity.
  - vm_compute. split; reflexivity.
Defined.

(** ** The first match of a line *)

Section FirstMatch.

Import RegExp.

(** Where the characters of the class end, [class+] has taken them all
    when the rest of the pattern matches there. *)
Lemma plus_run class k a rest r : forall prev,
  a <> [] ->
  forallb class a = true ->
  match rest with c :: _ => class c = false | [] => True end ->
  k (last a) rest = Some r ->
  plus class k prev (a ++ rest) = Some (length a + r)%nat.
Proof.
  induction a as [|c a IH]; intros prev Hne Hall Hrest Hk; [done|].
  simpl in Hall. apply andb_true_iff in Hall as [Hc Hall].
  simpl. rewrite Hc. destruct a as [|c' a].
  - simpl in *.
    replace (plus class k (Some c) rest) with (@None nat).
    + rewrite Hk. reflexivity.
    + destruct rest as [|c0 rest]; simpl; [reflexivity|].
      rewrite Hrest. reflexivity.
  - rewrite (IH (Some c)); [reflexivity|done|exact Hall|exact Hrest|].
    exact Hk.
Qed.

Lemma word_dot : word 46 = false.
Proof. reflexivity. Qed.

Lemma forallb_head {A} (p : A -> bool) l :
  l <> [] -> forallb p l = true -> exists x, head l = Some x /\ p x = true.
Proof.
  destruct l as [|x l]; [done|]. simpl. intros _ H.
  apply andb_true_iff in H as [H _]. eauto.
Qed.

Lemma forallb_last_Some {A} (p : A -> bool) l :
  l <> [] -> forallb p l = true -> exists x, last l = Some x /\ p x = true.
Proof.
  intros Hne Hall. destruct (last l) as [x|] eqn:Hl.
  - exists x. split; [reflexivity|]. eapply forallb_last; eauto.
  - apply last_None in Hl. done.
Qed.

Section Classes.

Variables class1 class2 : N -> bool.
Hypothesis word1 : forall c, class1 c = true -> word c = true.
Hypothesis word2 : forall c, class2 c = true -> word c = true.

Let pattern : Matcher :=
  boundary (plus class1 (one (N.eqb 46) (plus class2 (boundary accept)))).

(** The pattern matches an id that stands between two word boundaries,
    all of it. *)
Lemma id_pattern_run prev domain name post :
  domain <> [] -> name <> [] ->
  forallb class1 domain = true -> forallb class2 name = true ->
  isWordChar prev = false -> isWordChar (head post) = false ->
  pattern prev (domain ++ [46%N] ++ name ++ post)
  = Some (length domain + 1 + length name)%nat.
Proof.
  intros Hd Hn Hall1 Hall2 Hprev Hpost. unfold pattern, boundary at 1.
  destruct (forallb_head _ _ Hd Hall1) as (x & Hx & Hcx).
  replace (head (domain ++ [46%N] ++ name ++ post)) with (Some x)
    by (destruct domain; [done|simpl in *; congruence]).
  rewrite Hprev. simpl isWordChar. rewrite (word1 _ Hcx). simpl xorb. cbv iota.
  rewrite (plus_run class1 _ domain _ (1 + (length name + 0))%nat);
    [f_equal; lia|exact Hd|exact Hall1| |].
  - simpl. destruct (class1 46) eqn:E; [|reflexivity].
    apply word1 in E. discriminate.
  - simpl. rewrite (plus_run class2 _ name post 0%nat);
      [reflexivity|exact Hn|exact Hall2| |].
    + destruct post as [|c post]; [exact I|]. simpl in Hpost.
      destruct (class2 c) eqn:E; [|reflexivity].
      apply word2 in E. congruence.
    + unfold boundary, accept.
      destruct (forallb_last_Some _ _ Hn Hall2) as (y & -> & Hy).
      simpl. rewrite (word2 _ Hy), Hpost. reflexivity.
Qed.

(** No match starts before an id that no dot precedes. *)
Lemma id_pattern_none pre rest j :
  46%N ∉ pre -> isWordChar (last pre) = false ->
  (j < length pre)%nat ->
  pattern (last (take j (pre ++ rest))) (drop j (pre ++ rest)) = None.
Proof.
  intros Hdot Hlast Hj.
  destruct (pattern _ _) as [n|] eqn:Hm; [|reflexivity]. exfalso.
  apply id_pattern_spec in Hm; [|exact word1|exact word2].
  destruct Hm as (domain & name & Htake & Hn & Hlen & Hd & Hnm & Hall1
                  & Hall2 & _).
  assert (Hat : forall i, (i < n)%nat ->
            (pre ++ rest) !! (j + i)%nat = (domain ++ [46%N] ++ name) !! i).
  { intros i Hi. rewrite <- Htake, lookup_take_lt, lookup_drop by lia.
    reflexivity. }
  destruct (decide (j + length domain < length pre)%nat) as [Hlt|Hge].
  - apply Hdot. apply list_elem_of_lookup. exists (j + length domain)%nat.
    rewrite <- (lookup_app_l pre rest) by lia.
    rewrite Hat by lia. rewrite lookup_app_r by lia.
    rewrite Nat.sub_diag. reflexivity.
  - destruct (last pre) as [x|] eqn:Hx;
      [|apply last_None in Hx; subst pre; simpl in Hj; lia].
    assert (Hpre : pre !! (length pre - 1)%nat = Some x).
    { rewrite <- Hx. destruct pre using rev_ind; [simpl in Hj; lia|].
      rewrite last_snoc, length_app. simpl.
      rewrite lookup_app_r by lia.
      replace (length pre + 1 - 1 - length pre)%nat with 0%nat by lia.
      reflexivity. }
    assert (Hy : (domain ++ [46%N] ++ name) !! (length pre - 1 - j)%nat
                 = Some x).
    { rewrite <- Hat by lia.
      replace (j + (length pre - 1 - j))%nat with (length pre - 1)%nat by lia.
      rewrite lookup_app_l by lia. exact Hpre. }
    rewrite lookup_app_l in Hy by lia.
    simpl in Hlast.
    assert (class1 x = true).
    { rewrite forallb_forall in Hall1. apply Hall1.
      apply list_elem_of_In. eapply list_elem_of_lookup_2. exact Hy. }
    apply word1 in H. congruence.
Qed.

End Classes.

(** [search] gives the first position at which the pattern matches. *)
Lemma search_first m s : forall pre k n,
  (forall i, (i < k)%nat ->
     m (last (take (length pre + i) (pre ++ s)))
       (drop (length pre + i) (pre ++ s)) = None) ->
  m (last (take (length pre + k) (pre ++ s)))
    (drop (length pre + k) (pre ++ s)) = Some n ->
  (k <= length s)%nat ->
  search m (last pre) s (length pre) = Some ((length pre + k)%nat, n).
Proof.
  induction s as [|c s IH]; intros pre k n Hnone Hsome Hk.
  - simpl in Hk. assert (k = 0%nat) as -> by lia.
    rewrite Nat.add_0_r, app_nil_r, take_ge, drop_ge in Hsome by lia.
    simpl. rewrite Hsome, Nat.add_0_r. reflexivity.
  - destruct k as [|k].
    + rewrite Nat.add_0_r, take_app_length, drop_app_length in Hsome.
      simpl. rewrite Hsome, Nat.add_0_r. reflexivity.
    + pose proof (Hnone 0%nat ltac:(lia)) as H0.
      rewrite Nat.add_0_r, take_app_length, drop_app_length in H0.
      simpl. rewrite H0.
      specialize (IH (pre ++ [c]) k n).
      rewrite last_snoc, length_app in IH. simpl in IH.
      rewrite <- app_assoc in IH. simpl in IH.
      replace (length pre + 1)%nat with (S (length pre)) in IH by lia.
      rewrite IH; [f_equal; f_equal; lia| | |simpl in Hk; lia].
      * intros i Hi. specialize (Hnone (S i) ltac:(lia)).
        replace (S (length pre) + i)%nat with (length pre + S i)%nat by lia.
        exact Hnone.
      * replace (S (length pre) + k)%nat with (length pre + S k)%nat by lia.
        exact Hsome.
Qed.

(** The first call of [exec] on a line finds an id that stands between
    two word boundaries and that no dot precedes. *)
Lemma exec_first class1 class2 pre domain name post :
  (forall c, class1 c = true -> word c = true) ->
  (forall c, class2 c = true -> word c = true) ->
  46%N ∉ pre -> isWordChar (last pre) = false ->
  domain <> [] -> name <> [] ->
  forallb class1 domain = true -> forallb class2 name = true ->
  isWordChar (head post) = false ->
  exec (boundary
          (plus class1 (one (N.eqb 46) (plus class2 (boundary accept)))))
    0 (pre ++ domain ++ [46%N] ++ name ++ post)
  = (Some (length pre, (length domain + 1 + length name)%nat),
     (length pre + (length domain + 1 + length name))%nat).
Proof.
  intros word1 word2 Hdot Hlast Hd Hn Hall1 Hall2 Hpost.
  unfold exec. simpl (_ <? 0)%nat. cbv iota.
  rewrite take_0, drop_0.
  pose proof (search_first
                (boundary
                   (plus class1
                      (one (N.eqb 46) (plus class2 (boundary accept)))))
                (pre ++ domain ++ [46%N] ++ name ++ post) []
                (length pre) (length domain + 1 + length name)%nat) as H.
  simpl in H. simpl. rewrite H; [reflexivity| | |rewrite length_app; lia].
  - intros i Hi. apply id_pattern_none; done.
  - rewrite take_app_length, drop_app_length.
    apply id_pattern_run; done.
Qed.

End FirstMatch.

(** ** The entity id under the cursor *)

Section Hovered.

Import RegExp HoverProvider.

Lemma letter_word c : letter_ c = true -> word c = true.
Proof.
  unfold letter_, word.
  rewrite !orb_true_iff, !andb_true_iff, !N.leb_le, !N.eqb_eq. lia.
Qed.

Lemma letterDigit_word c : letterDigit_ c = true -> word c = true.
Proof.
  unfold letterDigit_, word.
  rewrite !orb_true_iff, !andb_true_iff, !N.leb_le, !N.eqb_eq. lia.
Qed.

Lemma hover_matches_spec line cursorPos fuel : forall lastIndex,
  (lastIndex <= length line)%nat ->
  (length line < fuel + lastIndex)%nat ->
  exists r,
    matches fuel line cursorPos lastIndex = Some r
    /\ forall id, r = Some id ->
         exists start n,
           id = text_of (take n (drop start line))
           /\ id_match letter_ letterDigit_ line start n
           /\ (lastIndex <= start <= cursorPos)%nat
           /\ (cursorPos <= start + n)%nat.
Proof.
  induction fuel as [|fuel IH]; intros lastIndex Hle Hfuel; [lia|].
  simpl. destruct (exec entityIdPattern lastIndex line) as [r li'] eqn:He.
  apply exec_spec in He. destruct r as [[j n]|].
  - destruct He as (Hj & Hm & ->).
    apply id_pattern_spec in Hm; [|apply letter_word|apply letterDigit_word].
    pose proof Hm as (domain & name & Htake & Hn & Hlen & _).
    rewrite text_of_length, length_take, length_drop, Nat.min_l by lia.
    destruct ((j <=? cursorPos)%nat && (cursorPos <=? j + n)%nat) eqn:Hc.
    + eexists. split; [reflexivity|]. intros id [= <-].
      apply andb_true_iff in Hc as [H1 H2].
      apply Nat.leb_le in H1, H2.
      exists j, n. repeat split; try done; lia.
    + destruct (IH (j + n)%nat) as (r & -> & Hr); [lia|lia|].
      exists r. split; [reflexivity|]. intros id Hid.
      destruct (Hr id Hid) as (start & n' & ? & ? & ? & ?).
      exists start, n'. repeat split; try done; lia.
  - exists None. split; [reflexivity|]. intros id [=].
Qed.

End Hovered.

Section FirstReference.

Import RegExp Diagnostics.

(** The reference to the id that stands at [j] of line [lineNum]. *)
Lemma matches_first lineNum l pre domain name post refs :
  first_id lower_ lowerDigit_ l pre domain name post ->
  hasFileExtension (text_of (domain ++ [46%N] ++ name)) = false ->
  exists r new,
    matches (S (length l)) lineNum l 0 refs = Some (refs ++ r :: new, 0%nat)
    /\ lineOf r = lineNum
    /\ startChar r = length pre
    /\ endChar r = (length pre + (length domain + 1 + length name))%nat
    /\ entityId r = text_of (domain ++ [46%N] ++ name).
Proof.
  intros (-> & Hdot & Hlast & Hd & Hn & Hall1 & Hall2 & Hpost) Hext.
  cbn [matches]. unfold entityIdPattern.
  rewrite (exec_first lower_ lowerDigit_ pre domain name post);
    try done; [|apply lower_word|apply lowerDigit_word].
  rewrite drop_app_length.
  assert (Htake : take (length domain + 1 + length name)
                    (domain ++ [46%N] ++ name ++ post)
                  = domain ++ [46%N] ++ name).
  { replace (length domain + 1 + length name)%nat
      with (length (domain ++ [46%N] ++ name))
      by (rewrite !length_app; simpl; lia).
    rewrite !app_assoc. rewrite <- (app_assoc domain).
    apply take_app_length. }
  rewrite Htake, Hext.
  set (r := {| entityId := text_of (domain ++ [46%N] ++ name);
               range := _ |}).
  destruct (matches_spec lineNum (pre ++ domain ++ [46%N] ++ name ++ post)
              (length (pre ++ domain ++ [46%N] ++ name ++ post))
              (length pre + (length domain + 1 + length name))%nat
              (refs ++ [r]))
    as (new & Hm & _).
  { rewrite !length_app. simpl. lia. }
  { rewrite !length_app. simpl. lia. }
  fold entityIdPattern. rewrite Hm.
  exists r, new. rewrite <- app_assoc. repeat split.
  unfold endChar, r. simpl. rewrite text_of_length, !length_app. simpl. lia.
Qed.

Lemma forLines_first lines : forall k lineNum refs l pre domain name post,
  lines !! k = Some l ->
  skipped l = false ->
  first_id lower_ lowerDigit_ l pre domain name post ->
  hasFileExtension (text_of (domain ++ [46%N] ++ name)) = false ->
  exists r all,
    forLines lineNum lines 0 refs = Some (all, 0%nat)
    /\ r ∈ all
    /\ lineOf r = (lineNum + k)%nat
    /\ startChar r = length pre
    /\ endChar r = (length pre + (length domain + 1 + length name))%nat
    /\ entityId r = text_of (domain ++ [46%N] ++ name).
Proof.
  induction lines as [|l0 rest IH];
    intros k lineNum refs l pre domain name post Hl Hskip Hid Hext;
    [done|].
  cbn [forLines]. destruct k as [|k]; simpl in Hl.
  - injection Hl as ->. rewrite Hskip.
    destruct (matches_first lineNum l pre domain name post refs Hid Hext)
      as (r & new & -> & H1 & H2 & H3 & H4).
    destruct (forLines_spec rest (S lineNum) (refs ++ r :: new))
      as (new2 & -> & _).
    exists r, ((refs ++ r :: new) ++ new2). rewrite Nat.add_0_r.
    repeat split; try done.
    apply elem_of_app. left. apply elem_of_app. right. apply list_elem_of_here.
  - destruct (skipped l0).
    + destruct (IH k (S lineNum) refs l pre domain name post Hl Hskip Hid Hext)
        as (r & all & -> & Hin & H1 & H2).
      exists r, all. rewrite H1. repeat split; try done; try tauto. lia.
    + destruct (matches_spec lineNum l0 (S (length l0)) 0 refs)
        as (new1 & -> & _); [lia|lia|].
      destruct (IH k (S lineNum) (refs ++ new1) l pre domain name post
                  Hl Hskip Hid Hext)
        as (r & all & -> & Hin & H1 & H2).
      exists r, all. rewrite H1. repeat split; try done; try tauto. lia.
Qed.

End FirstReference.

Section FirstHovered.

Import RegExp HoverProvider.

Lemma extractEntityId_first line cursorPos pre domain name post :
  first_id letter_ letterDigit_ line pre domain name post ->
  (length pre <= cursorPos)%nat ->
  (cursorPos <= length pre + (length domain + 1 + length name))%nat ->
  extractEntityId line cursorPos
  = Some (Some (text_of (domain ++ [46%N] ++ name))).
Proof.
  intros (-> & Hdot & Hlast & Hd & Hn & Hall1 & Hall2 & Hpost) H1 H2.
  unfold extractEntityId. cbn [HoverProvider.matches].
  unfold entityIdPattern.
  rewrite (exec_first letter_ letterDigit_ pre domain name post);
    try done; [|apply letter_word|apply letterDigit_word].
  rewrite drop_app_length.
  assert (Htake : take (length domain + 1 + length name)
                    (domain ++ [46%N] ++ name ++ post)
                  = domain ++ [46%N] ++ name).
  { replace (length domain + 1 + length name)%nat
      with (length (domain ++ [46%N] ++ name))
      by (rewrite !length_app; simpl; lia).
    rewrite !app_assoc. rewrite <- (app_assoc domain).
    apply take_app_length. }
  rewrite Htake, text_of_length.
  replace (length (domain ++ [46%N] ++ name))
    with (length domain + 1 + length name)%nat
    by (rewrite !length_app; simpl; lia).
  destruct (Nat.leb_spec (length pre) cursorPos); [|lia].
  destruct (Nat.leb_spec cursorPos
              (length pre + (length domain + 1 + length name))); [|lia].
  reflexivity.
Qed.

End FirstHovered.

(** X27. [extractEntityId] ends for every line and cursor.  When it gives
    an id, the id stands in the line between two word boundaries, is a
    domain of letters and underscores, a dot and a name of letters,
    digits and underscores, in either case, and the cursor is on it or
    directly behind it.  It gives the first such id of the line, when no
    dot precedes it, wherever the cursor is from its first character
    to directly behind its last. *)
Theorem hovered_id_is_under_the_cursor (line : list N) (cursorPos : nat) :
  exists r,
    HoverProvider.extractEntityId line cursorPos = Some r
    /\ (forall id, r = Some id ->
          exists start n,
            id = text_of (take n (drop start line))
            /\ id_match HoverProvider.letter_ HoverProvider.letterDigit_
                 line start n
            /\ (start <= cursorPos <= start + n)%nat)
    /\ (forall pre domain name post,
          first_id HoverProvider.letter_ HoverProvider.letterDigit_
            line pre domain name post ->
          (length pre <= cursorPos)%nat ->
          (cursorPos <= length pre + (length domain + 1 + length name))%nat ->
          r = Some (text_of (domain ++ [46%N] ++ name))).
Proof.
  destruct (hover_matches_spec line cursorPos (S (length line)) 0)
    as (r & Hr & Hid); [lia|lia|].
  exists r. split; [exact Hr|]. split.
  - intros id E.
    destruct (Hid id E) as (start & n & ? & ? & ? & ?).
    exists start, n. repeat split; try done; lia.
  - intros pre domain name post Hfirst H1 H2.
    pose proof (extractEntityId_first line cursorPos pre domain name post
                  Hfirst H1 H2) as E.
    unfold HoverProvider.extractEntityId in E.
    rewrite Hr in E. injection E as ->. reflexivity.
Qed.

(** X28. [extractEntityReferences] ends for every text.  Its references
    are entity ids that stand in the text: each lies on a line that is
    not passed over, covers a text [domain.name] of small letters,
    digits and underscores (no digit in the domain) between two word
    boundaries, has a name that is none of the file extensions, and the
    references come in the order of the document without overlap.  The
    first such id of a line that is not passed over, when no dot
    precedes it and the test for a file extension fails, is among the
    references. *)
Theorem references_stand_in_the_text (text : list N) :
  exists refs,
    Diagnostics.extractEntityReferences text = Some refs
    /\ StronglySorted before refs
    /\ (forall r, r ∈ refs ->
          exists l, lines_of text !! lineOf r = Some l
                    /\ Diagnostics.skipped l = false
                    /\ refers l r)
    /\ (forall k l pre domain name post,
          lines_of text !! k = Some l ->
          Diagnostics.skipped l = false ->
          first_id Diagnostics.lower_ Diagnostics.lowerDigit_
            l pre domain name post ->
          Diagnostics.hasFileExtension (text_of (domain ++ [46%N] ++ name))
          = false ->
          exists r,
            r ∈ refs
            /\ lineOf r = k
            /\ startChar r = length pre
            /\ endChar r
               = (length pre + (length domain + 1 + length name))%nat
            /\ Diagnostics.entityId r
               = text_of (domain ++ [46%N] ++ name)).
Proof.
  unfold Diagnostics.extractEntityReferences.
  destruct (forLines_spec (lines_of text) 0 []) as (new & Hnew & Hall & Hsort).
  rewrite Hnew. exists new. simpl. repeat split; [exact Hsort| |].
  - intros r Hr. rewrite Forall_forall in Hall.
    destruct (Hall r Hr) as (_ & l & Hl & Hs & Href).
    rewrite Nat.sub_0_r in Hl. exists l. done.
  - intros k l pre domain name post Hl Hskip Hfirst Hext.
    destruct (forLines_first (lines_of text) k 0%nat [] l pre domain name
                post Hl Hskip Hfirst Hext)
      as (r & all & Hall' & Hin & H1 & H2 & H3 & H4).
    rewrite Hnew in Hall'. injection Hall' as <-.
    exists r. done.
Qed.

(** ** The commands *)

(** X29. Without a connection, a command that needs Home Assistant is
    answered with the error "Not connected to Home Assistant": the
    client is not called, and neither the client nor the cache
    changes. *)
Theorem commands_need_a_connection {St : Type} (env : Commands.Env St)
    (command : string) (args : option (list Commands.Json)) (s : St)
    (c : Cache.Cache) :
  Commands.isConnected env s = false ->
  command ∈ Commands.remote ->
  Commands.executeCommand env command args (s, c)
  = (Commands.not_connected, (s, c)).
Proof.
  intros Hc Hin. unfold Commands.remote in Hin.
  repeat (apply elem_of_cons in Hin as [->|Hin]);
    [..|apply elem_of_nil in Hin; destruct Hin];
    unfold Commands.executeCommand; simpl;
    unfold Commands.listDashboards, Commands.getDashboardConfig_,
      Commands.saveDashboardConfig_, Commands.getEntityState,
      Commands.listEntities, Commands.listServices, Commands.listAreas,
      Commands.callService;
    rewrite Hc; reflexivity.
Qed.

Lemma commands_need_a_connection_witness :
  Commands.executeCommand
    (Commands.counting false)
    "homeassistant.listEntities"
    (Some [Commands.JObj [("domain", Commands.JStr "light")]])
    (0%nat, Cache.new Cache.no_options)
  = (Commands.not_connected, (0%nat, Cache.new Cache.no_options)).
Proof.
  apply commands_need_a_connection.
  - reflexivity.
  - apply (bool_decide_unpack _). vm_compute. exact I.
Defined.

(** [callService] never calls a service: whatever the arguments and
    the connection, the command fails, gives no data and changes neither
    the client nor the cache; with a connection and a text
    [domain.service] the error is "Service calling not yet
    implemented". *)
Theorem callService_is_not_carried_out {St : Type} (env : Commands.Env St)
    (args : option (list Commands.Json)) (s : St) (c : Cache.Cache) :
  Commands.success
    (Commands.executeCommand env "homeassistant.callService" args (s, c)).1
  = false
  /\ Commands.data
       (Commands.executeCommand env "homeassistant.callService" args
          (s, c)).1
     = None
  /\ (Commands.executeCommand env "homeassistant.callService" args (s, c)).2
     = (s, c)
  /\ forall service rest,
       Commands.isConnected env s = true ->
       args = Some (Commands.JStr service :: rest) ->
       includes service "." = true ->
       Commands.error
         (Commands.executeCommand env "homeassistant.callService" args
            (s, c)).1
       = Some "Service calling not yet implemented".
Proof.
  unfold Commands.executeCommand; simpl. unfold Commands.callService.
  destruct (Commands.isConnected env s); simpl.
  - destruct args as [[|service rest]|]; simpl.
    + repeat split. intros ? ? _ [=].
    + destruct service as [| | |service| |]; simpl; repeat split;
        try (intros ? ? _ [=]; fail).
      * destruct (includes service "."); reflexivity.
      * destruct (includes service "."); reflexivity.
      * destruct (includes service "."); reflexivity.
      * intros service' rest' _ [= -> ->] ->. reflexivity.
    + repeat split. intros ? ? _ [=].
  - repeat split. intros ? ? [=].
Qed.

(** X30. [saveDashboardConfig] succeeds only when there is a connection,
    the first argument is an object whose member [views] is an array,
    and the client has saved this object, under the path of the second
    argument; the state of the client is the one this call leaves. *)
Theorem dashboard_is_saved_only_with_views {St : Type}
    (env : Commands.Env St) (args : option (list Commands.Json)) (s : St)
    (c : Cache.Cache) :
  Commands.success
    (Commands.executeCommand env "homeassistant.saveDashboardConfig" args
       (s, c)).1
  = true ->
  Commands.isConnected env s = true
  /\ exists members views rest,
       args = Some (Commands.JObj members :: rest)
       /\ Map_get "views" members = Some (Commands.JArr views)
       /\ (Commands.saveDashboardConfig env (Commands.JObj members)
             (head rest) s).1
          = Fulfilled tt
       /\ (Commands.executeCommand env "homeassistant.saveDashboardConfig"
             args (s, c)).2
          = ((Commands.saveDashboardConfig env (Commands.JObj members)
                (head rest) s).2, c).
Proof.
  unfold Commands.executeCommand; simpl. unfold Commands.saveDashboardConfig_.
  destruct (Commands.isConnected env s); simpl; [|discriminate].
  destruct args as [[|config rest]|]; simpl; try discriminate.
  destruct config as [| | | |items|members]; simpl; try discriminate.
  - destruct b; discriminate.
  - destruct (negb (n =? 0)); discriminate.
  - destruct (truthy_string s0); discriminate.
  - destruct (Map_get "views" members) as [views|] eqn:Hv; simpl;
      [|discriminate].
    destruct views as [| | | |views|]; simpl; try discriminate.
    + destruct b; discriminate.
    + destruct (negb (n =? 0)); discriminate.
    + destruct (truthy_string s0); discriminate.
    + destruct (Commands.saveDashboardConfig env _ _ s) as [[[]|e] s']
        eqn:Hs; simpl; [|discriminate].
      intros _. split; [reflexivity|].
      exists members, views, rest. rewrite Hs. done.
Qed.

Lemma dashboard_is_saved_only_with_views_witness :
  Commands.isConnected (Commands.counting true) 0%nat = true
  /\ exists members views rest,
       Some [Commands.JObj [("title", Commands.JStr "Home");
                            ("views", Commands.JArr [])];
             Commands.JStr "lovelace-home"]
       = Some (Commands.JObj members :: rest)
       /\ Map_get "views" members = Some (Commands.JArr views)
       /\ (Commands.saveDashboardConfig (Commands.counting true)
             (Commands.JObj members) (head rest) 0%nat).1
          = Fulfilled tt
       /\ (Commands.executeCommand (Commands.counting true)
             "homeassistant.saveDashboardConfig"
             (Some [Commands.JObj [("title", Commands.JStr "Home");
                                   ("views", Commands.JArr [])];
                    Commands.JStr "lovelace-home"])
             (0%nat, Cache.new Cache.no_options)).2
          = ((Commands.saveDashboardConfig (Commands.counting true)
                (Commands.JObj members) (head rest) 0%nat).2,
             Cache.new Cache.no_options).
Proof.
  apply dashboard_is_saved_only_with_views. vm_compute. reflexivity.
Defined.

(** ** The providers on a sample *)

(** Of four lines, the comment, the line with a tag and the line with a
    path are passed over; in the first line the two ids are found, the
    second one up to its second dot. *)
Example extractEntityReferences_sample :
  (fun r => (Diagnostics.entityId r, lineOf r, startChar r, endChar r))
  <$> default []
        (Diagnostics.extractEntityReferences
           (units ("  entity_id: sensor.temp_1 and light.kitchen.x" ++ LF
                   ++ "# sensor.a" ++ LF
                   ++ "x: !secret foo.bar" ++ LF
                   ++ "a http://foo.bar" ++ LF
                   ++ "Sensor.temp sensor.Temp foo.yaml 1a.b a1.b _._ a.ts")))
  = [("sensor.temp_1", 0, 13, 26); ("light.kitchen", 0, 31, 44);
     ("_._", 4, 43, 46)]%nat.
Proof. vm_compute. reflexivity. Qed.

(** The hover takes an id in capital letters, with the cursor directly
    behind it as well, and none from the blank after it. *)
Example extractEntityId_sample :
  HoverProvider.extractEntityId (units "  entity: Sensor.Temp_1  ") 23
  = Some (Some "Sensor.Temp_1")
  /\ HoverProvider.extractEntityId (units "  entity: Sensor.Temp_1  ") 24
     = Some None.
Proof. vm_compute. split; reflexivity. Qed.

(** Of two entities with the same id the last one decides: the first
    reference gets no diagnostic, the second is unavailable, the third
    is not known. *)
Example performValidation_sample :
  Diagnostics.performValidation true
    (Fulfilled
       [{| Completion.entity_id := "light.hall";
           Completion.state := "unavailable";
           Completion.friendly_name := None;
           Completion.unit_of_measurement := None;
           Completion.device_class := None;
           Completion.icon := None |};
        {| Completion.entity_id := "light.hall";
           Completion.state := "on";
           Completion.friendly_name := None;
           Completion.unit_of_measurement := None;
           Completion.device_class := None;
           Completion.icon := None |};
        {| Completion.entity_id := "sensor.door";
           Completion.state := "unavailable";
           Completion.friendly_name := None;
           Completion.unit_of_measurement := None;
           Completion.device_class := None;
           Completion.icon := None |}])
    (units "light.hall sensor.door cover.gate")
  = Some
      [{| Diagnostics.severity := Diagnostics.Information;
          Diagnostics.d_range :=
            {| Diagnostics.start :=
                 {| Diagnostics.line := 0; Diagnostics.character := 11 |};
               Diagnostics.end_ :=
                 {| Diagnostics.line := 0; Diagnostics.character := 22 |} |};
          Diagnostics.message :=
            "Entity 'sensor.door' is currently unavailable";
          Diagnostics.source := "homeassistant-lsp" |};
       {| Diagnostics.severity := Diagnostics.Warning;
          Diagnostics.d_range :=
            {| Diagnostics.start :=
                 {| Diagnostics.line := 0; Diagnostics.character := 23 |};
               Diagnostics.end_ :=
                 {| Diagnostics.line := 0; Diagnostics.character := 33 |} |};
          Diagnostics.message :=
            "Entity 'cover.gate' not found in Home Assistant";
          Diagnostics.source := "homeassistant-lsp" |}].
Proof. vm_compute. reflexivity. Qed.
